(** * Counting Bloom filters of fastfilter_cpp: [src/bloom/counting_bloom.h]

    A shallow embedding of the three filters of the header
    ([CountingBloomFilter], [SuccinctCountingBloomFilter],
    [SuccinctCountingBlockedBloomFilter]) and of the bit primitives they
    rest on, followed by the properties of the succinct counter
    representation.

    Conventions of the embedding.
    - [uint64_t], [uint32_t], [size_t] and [int] values are integers of [Z];
      the wrap-around of unsigned arithmetic is written out ([u64], [u32]).
    - A shift of a 64-bit value by a count outside [0,64) is undefined in
      C++; the header relies on it all the same ([1ULL << (bit * 4)] with
      [bit] up to 63).  The embedding takes the count modulo 64, which is
      what the shift instructions of x86-64 and AArch64 do ([shl64],
      [shr64]).
    - [select64] is the portable branch of the [#if]; the compiler builtins
      ([__builtin_popcountll], [__builtin_clzl]) are given by their
      mathematical meaning, [__builtin_clzl] being undefined at zero.
    - Arrays are lists; an access outside an array is undefined behaviour
      and makes the operation fail ([None]). *)

From Stdlib Require Import ZArith List Lia Bool String Permutation FinFun.
From stdpp Require Import base tactics option list.

Local Open Scope Z_scope.

(* ===================================================================== *)
(** * Machine arithmetic *)

Definition u64 (x : Z) : Z := x mod 2 ^ 64.
Definition u32 (x : Z) : Z := x mod 2 ^ 32.

(** [x << n] and [x >> n] on [uint64_t]; the count is taken modulo 64. *)
Definition shl64 (x n : Z) : Z := u64 (Z.shiftl x (Z.land n 63)).
Definition shr64 (x n : Z) : Z := Z.shiftr x (Z.land n 63).
(** [x << n] on [uint32_t], used with constant counts below 32 only. *)
Definition shl32 (x n : Z) : Z := u32 (Z.shiftl x n).

Definition not64 (x : Z) : Z := u64 (Z.lnot x).
Definition add64 (x y : Z) : Z := u64 (x + y).
Definition sub64 (x y : Z) : Z := u64 (x - y).
Definition add32 (x y : Z) : Z := u32 (x + y).

Definition ones64 : Z := 0xffffffffffffffff.
Definition top2 : Z := 0xc000000000000000.
Definition top1 : Z := 0x8000000000000000.
Definition idx_mask : Z := 0x0fffffff.

(* ===================================================================== *)
(** * Bit primitives *)

(** [__builtin_popcountll]: the number of set bits among the low 64. *)
Fixpoint popcount_bits (w : nat) (x : Z) : Z :=
  match w with
  | O => 0
  | S w' => Z.land x 1 + popcount_bits w' (Z.shiftr x 1)
  end.

Definition bitCount64 (x : Z) : Z := popcount_bits 64 x.

(** The loop of the portable [select64]: [fuel] iterations are left, [i] is
    the loop counter, [x] has been shifted right [i] times and [n] has been
    decremented once for each set bit passed. *)
Fixpoint select64_loop (fuel : nat) (i x n : Z) : Z :=
  match fuel with
  | O => -1
  | S fuel' =>
      if Z.land x 1 =? 1 then
        if n =? 0 then i
        else select64_loop fuel' (i + 1) (Z.shiftr x 1) (n - 1)
      else select64_loop fuel' (i + 1) (Z.shiftr x 1) n
  end.

Definition select64 (x n : Z) : Z := select64_loop 64 0 x n.

(** [__builtin_clzl]; "If x is 0, the result is undefined". *)
Definition numberOfLeadingZeros64 (x : Z) : option Z :=
  if x =? 0 then None else Some (63 - Z.log2 x).

Inductive Status : Set := Ok | NotFound | NotEnoughSpace | NotSupported.

(** [reduce] takes and returns [uint32_t]; the product is 64 bits wide. *)
Definition reduce (hash n : Z) : Z := u32 (Z.shiftr (u64 (hash * n)) 32).

(** [rotl64]: [c] is an [unsigned int], so [-c] is taken modulo 2^32 before
    it is masked; both shift counts are below 64. *)
Definition rotl64 (n c : Z) : Z :=
  let mask := 63 in
  let c := Z.land c mask in
  Z.lor (shl64 n c) (shr64 n (Z.land (u32 (- c)) mask)).

(* ===================================================================== *)
(** * Arrays and the state-and-failure monad *)

Definition ld (arr : list Z) (i : Z) : option Z :=
  if 0 <=? i then arr !! Z.to_nat i else None.

Definition st (arr : list Z) (i v : Z) : option (list Z) :=
  if (0 <=? i) && (i <? Z.of_nat (length arr))
  then Some (<[Z.to_nat i := v]> arr) else None.

Definition M (St A : Type) : Type := St -> option (A * St).

Definition ret {St A} (a : A) : M St A := fun s => Some (a, s).

Definition bind {St A B} (m : M St A) (f : A -> M St B) : M St B :=
  fun s => match m s with
           | Some (a, s') => f a s'
           | None => None
           end.

Notation "x <- m ;; f" := (bind m (fun x => f))
  (at level 100, m at next level, right associativity).
Notation "m ;;; f" := (bind m (fun _ => f))
  (at level 100, right associativity).

(** [for (i = lo; i < lo + n; i++) body(i)]. *)
Fixpoint for_up {St} (n : nat) (lo : Z) (body : Z -> M St unit) : M St unit :=
  match n with
  | O => ret tt
  | S n' => body lo ;;; for_up n' (lo + 1) body
  end.

(** [for (j = n - 1; j >= 0; j--) acc = body(j, acc)]. *)
Fixpoint for_down {St A} (n : nat) (body : Z -> A -> M St A) (acc : A) : M St A :=
  match n with
  | O => ret acc
  | S n' => acc' <- body (Z.of_nat n') acc ;; for_down n' body acc'
  end.

Definition lift {St A} (o : option A) : M St A :=
  fun s => match o with Some a => Some (a, s) | None => None end.

(** Conversion of a 32-bit pattern to [int]. *)
Definition s32 (x : Z) : Z := (x + 2 ^ 31) mod 2 ^ 32 - 2 ^ 31.

Definition blockShift : Z := 14.
Definition blockLen : Z := Z.shiftl 1 blockShift.

(** The two scratch arrays of [AddAll]. *)
Record scratch : Type := { tmp : list Z; tmpLen : list Z }.

(* ===================================================================== *)
(** * CountingBloomFilter: 4-bit counters packed into 64-bit words *)

Module CountingBloomFilter.

Record filter : Type := { data : list Z; arrayLength : Z }.

Definition data_get (i : Z) : M filter Z :=
  fun s => match ld (data s) i with
           | Some v => Some (v, s)
           | None => None
           end.

Definition data_set (i v : Z) : M filter unit :=
  fun s => match st (data s) i v with
           | Some d => Some (tt, {| data := d; arrayLength := arrayLength s |})
           | None => None
           end.

Definition get_arrayLength : M filter Z := fun s => Some (arrayLength s, s).

Section Params.
  (** Template parameters and the [hasher] member; items are [uint64_t]. *)
Variable bits_per_item : Z.
Variable hasher : Z -> Z.
Variable k : Z.

Definition new (n : Z) : filter :=
    let bitCount := u64 (4 * n * bits_per_item) in
    let len := u64 (bitCount + 63) / 64 in
    {| data := replicate (Z.to_nat len) 0; arrayLength := len |}.

  (** One turn of the loop of [Add]: the probe [a]. *)
Definition Add_probe (a : Z) : M filter unit :=
    len <- get_arrayLength ;;
    let index := reduce a (u32 len) in
    v <- data_get index ;;
    data_set index (add64 v (shl64 1 (Z.land (shl32 a 2) 0x3f))).

Fixpoint Add_loop (i : nat) (a b : Z) : M filter unit :=
    match i with
    | O => ret tt
    | S i' => Add_probe a ;;; Add_loop i' (add32 a b) b
    end.

Definition Add (key : Z) : M filter Status :=
    let hash := u64 (hasher key) in
    let a := u32 (Z.shiftr hash 32) in
    let b := u32 hash in
    Add_loop (Z.to_nat k) a b ;;; ret Ok.

Definition AddBlock (t : list Z) (block len : Z) : M filter unit :=
    for_up (Z.to_nat len) 0 (fun i =>
      v <- lift (ld t (Z.shiftl block blockShift + i)) ;;
      let index := s32 v in
      w <- data_get (Z.shiftr index 4) ;;
      data_set (Z.shiftr index 4)
               (add64 w (shl64 1 (Z.land (Z.shiftl index 2) 0x3f)))).

  (** One turn of the inner loop of [AddAll]. *)
Definition AddAll_probe (sc : scratch) (a : Z) : M filter scratch :=
    alen <- get_arrayLength ;;
    let index := s32 (reduce a (u32 alen)) in
    let block := Z.shiftr index blockShift in
    len <- lift (ld (tmpLen sc) block) ;;
    t <- lift (st (tmp sc) (Z.shiftl block blockShift + len)
                  (u32 (Z.shiftl index 4 + Z.land a 0xf))) ;;
    tl <- lift (st (tmpLen sc) block (len + 1)) ;;
    if len + 1 =? blockLen then
      AddBlock t block (len + 1) ;;;
      tl' <- lift (st tl block 0) ;;
      ret {| tmp := t; tmpLen := tl' |}
    else ret {| tmp := t; tmpLen := tl |}.

Fixpoint AddAll_inner (j : nat) (a b : Z) (sc : scratch) : M filter scratch :=
    match j with
    | O => ret sc
    | S j' => sc' <- AddAll_probe sc a ;; AddAll_inner j' (add32 a b) b sc'
    end.

Definition AddAll_key (sc : scratch) (key : Z) : M filter scratch :=
    let hash := u64 (hasher key) in
    let a := u32 (Z.shiftr hash 32) in
    let b := u32 hash in
    AddAll_inner (Z.to_nat k) a b sc.

Fixpoint AddAll_keys (n : nat) (i : Z) (keys : list Z) (sc : scratch)
    : M filter scratch :=
    match n with
    | O => ret sc
    | S n' =>
        key <- lift (ld keys i) ;;
        sc' <- AddAll_key sc key ;;
        AddAll_keys n' (i + 1) keys sc'
    end.

Definition AddAll (keys : list Z) (start end_ : Z) : M filter Status :=
    alen <- get_arrayLength ;;
    let blocks := s32 (1 + alen / blockLen) in
    let sc := {| tmp := replicate (Z.to_nat (blocks * blockLen)) 0;
                 tmpLen := replicate (Z.to_nat blocks) 0 |} in
    sc' <- AddAll_keys (Z.to_nat (end_ - start)) start keys sc ;;
    for_up (Z.to_nat blocks) 0 (fun block =>
      len <- lift (ld (tmpLen sc') block) ;;
      AddBlock (tmp sc') block len) ;;;
    ret Ok.

Fixpoint Remove_loop (i : nat) (a b : Z) : M filter unit :=
    match i with
    | O => ret tt
    | S i' =>
        len <- get_arrayLength ;;
        let index := reduce a (u32 len) in
        v <- data_get index ;;
        data_set index (sub64 v (shl64 1 (Z.land (shl32 a 2) 0x3f))) ;;;
        Remove_loop i' (add32 a b) b
    end.

Definition Remove (key : Z) : M filter Status :=
    let hash := u64 (hasher key) in
    Remove_loop (Z.to_nat k) (u32 (Z.shiftr hash 32)) (u32 hash) ;;; ret Ok.

Fixpoint Contain_loop (i : nat) (a b : Z) : M filter Status :=
    match i with
    | O => ret Ok
    | S i' =>
        len <- get_arrayLength ;;
        let index := reduce a (u32 len) in
        v <- data_get index ;;
        if Z.land (shr64 v (Z.land (shl32 a 2) 0x3f)) 0xf =? 0 then ret NotFound
        else Contain_loop i' (add32 a b) b
    end.

Definition Contain (key : Z) : M filter Status :=
    let hash := u64 (hasher key) in
    Contain_loop (Z.to_nat k) (u32 (Z.shiftr hash 32)) (u32 hash).
End Params.

End CountingBloomFilter.

(* ===================================================================== *)
(** * SuccinctCountingBloomFilter: presence bits, unary counters, overflow pool *)

Module SuccinctCountingBloomFilter.

(** The members of the class, and [cout], the lines the filter has printed. *)
Record filter : Type := {
  data : list Z;
  counts : list Z;
  overflow : list Z;
  arrayLength : Z;
  overflowLength : Z;
  nextFreeOverflow : Z;
  cout : list string
}.

Definition with_data (d : list Z) (s : filter) : filter :=
  {| data := d; counts := counts s; overflow := overflow s;
     arrayLength := arrayLength s; overflowLength := overflowLength s;
     nextFreeOverflow := nextFreeOverflow s; cout := cout s |}.

Definition with_counts (c : list Z) (s : filter) : filter :=
  {| data := data s; counts := c; overflow := overflow s;
     arrayLength := arrayLength s; overflowLength := overflowLength s;
     nextFreeOverflow := nextFreeOverflow s; cout := cout s |}.

Definition with_overflow (o : list Z) (s : filter) : filter :=
  {| data := data s; counts := counts s; overflow := o;
     arrayLength := arrayLength s; overflowLength := overflowLength s;
     nextFreeOverflow := nextFreeOverflow s; cout := cout s |}.

Definition with_next (n : Z) (s : filter) : filter :=
  {| data := data s; counts := counts s; overflow := overflow s;
     arrayLength := arrayLength s; overflowLength := overflowLength s;
     nextFreeOverflow := n; cout := cout s |}.

Definition with_cout (l : list string) (s : filter) : filter :=
  {| data := data s; counts := counts s; overflow := overflow s;
     arrayLength := arrayLength s; overflowLength := overflowLength s;
     nextFreeOverflow := nextFreeOverflow s; cout := l |}.

Definition data_get (i : Z) : M filter Z :=
  fun s => match ld (data s) i with Some v => Some (v, s) | None => None end.
Definition data_set (i v : Z) : M filter unit :=
  fun s => match st (data s) i v with
           | Some d => Some (tt, with_data d s) | None => None end.
Definition counts_get (i : Z) : M filter Z :=
  fun s => match ld (counts s) i with Some v => Some (v, s) | None => None end.
Definition counts_set (i v : Z) : M filter unit :=
  fun s => match st (counts s) i v with
           | Some c => Some (tt, with_counts c s) | None => None end.
Definition overflow_get (i : Z) : M filter Z :=
  fun s => match ld (overflow s) i with Some v => Some (v, s) | None => None end.
Definition overflow_set (i v : Z) : M filter unit :=
  fun s => match st (overflow s) i v with
           | Some o => Some (tt, with_overflow o s) | None => None end.
Definition get_arrayLength : M filter Z := fun s => Some (arrayLength s, s).
Definition get_overflowLength : M filter Z := fun s => Some (overflowLength s, s).
Definition get_next : M filter Z := fun s => Some (nextFreeOverflow s, s).
Definition set_next (n : Z) : M filter unit := fun s => Some (tt, with_next n s).
Definition print (line : string) : M filter unit :=
  fun s => Some (tt, with_cout (cout s ++ [line]) s).

(** [for (size_t i = 0; i < overflowLength; i += 4) overflow[i] = i + 4;] *)
Fixpoint init_free (fuel : nat) (i len : Z) (o : list Z) : list Z :=
  match fuel with
  | O => o
  | S fuel' =>
      if i <? len then init_free fuel' (i + 4) len (<[Z.to_nat i := i + 4]> o)
      else o
  end.

Definition ReadCount (group bit : Z) : M filter Z :=
  m <- data_get group ;;
  let d := Z.land (shr64 m bit) 1 in
  if d =? 0 then ret 0
  else
    c <- counts_get group ;;
    if negb (Z.land c top1 =? 0) then
      let index := Z.land c idx_mask in
      n <- overflow_get (index + Z.quot bit 16) ;;
      let n := shr64 n (4 * Z.land bit 0xf) in
      ret (Z.land n 15)
    else
      let bitsBefore := bitCount64 (Z.land m (shr64 ones64 (63 - bit))) in
      let bitPos := select64 c (bitsBefore - 1) in
      let y := Z.lor (shl64 (shl64 c (63 - bitPos)) 1) (shl64 1 (63 - bitPos)) in
      lz <- lift (numberOfLeadingZeros64 y) ;;
      ret (lz + 1).

Definition Increment (group bit : Z) : M filter unit :=
  m <- data_get group ;;
  c <- counts_get group ;;
  if negb (Z.land c top2 =? 0) then
    (* an overflow entry, or overflowing now *)
    let finish (index : Z) : M filter unit :=
      v <- overflow_get (index + Z.quot bit 16) ;;
      overflow_set (index + Z.quot bit 16) (add64 v (shl64 1 (bit * 4))) ;;;
      w <- data_get group ;;
      data_set group (Z.lor w (shl64 1 bit)) in
    if Z.land c top1 =? 0 then
      (* convert to an overflow entry: allocate overflow *)
      index <- get_next ;;
      olen <- get_overflowLength ;;
      if olen <=? index then
        print "ERROR: overflow too small" ;;;
        w <- data_get group ;;
        data_set group (Z.lor w (shl64 1 bit))
      else
        nxt <- overflow_get index ;;
        set_next nxt ;;;
        overflow_set index 0 ;;;
        overflow_set (index + 1) 0 ;;;
        overflow_set (index + 2) 0 ;;;
        overflow_set (index + 3) 0 ;;;
        (* convert to a pointer *)
        for_up 64 0 (fun i =>
          n <- ReadCount group i ;;
          v <- overflow_get (index + Z.quot i 16) ;;
          overflow_set (index + Z.quot i 16)
                       (add64 v (u64 (n * shl64 1 (i * 4))))) ;;;
        let count := 64 in
        let c := Z.lor (Z.lor top1 (shl64 count 32)) index in
        counts_set group c ;;;
        finish index
    else
      (* already *)
      let index := Z.land c idx_mask in
      let c := add64 c (shl64 1 32) in
      counts_set group c ;;;
      finish index
  else
    w <- data_get group ;;
    data_set group (Z.lor w (shl64 1 bit)) ;;;
    let bitsBefore := bitCount64 (Z.land m (shr64 ones64 (63 - bit))) in
    let before := select64 (Z.lor (shl64 c 1) 1) bitsBefore in
    let d := Z.land (shr64 m bit) 1 in
    let insertAt := before - d in
    let mask := sub64 (shl64 1 insertAt) 1 in
    let left := Z.land c (not64 mask) in
    let right := Z.land c mask in
    let c := Z.lor (Z.lor (shl64 left 1) (shl64 (Z.lxor 1 d) insertAt)) right in
    counts_set group c.

Definition Decrement (group bit : Z) : M filter unit :=
  m <- data_get group ;;
  c <- counts_get group ;;
  if negb (Z.land c top1 =? 0) then
    (* an overflow entry *)
    let index := Z.land c idx_mask in
    let count := Z.land (shr64 c 32) idx_mask in
    let c := sub64 c (shl64 1 32) in
    counts_set group c ;;;
    n <- overflow_get (index + Z.quot bit 16) ;;
    overflow_set (index + Z.quot bit 16) (sub64 n (shl64 1 (bit * 4))) ;;;
    let n := shr64 n (4 * Z.land bit 0xf) in
    (if Z.land n 0xf =? 1 then
       w <- data_get group ;;
       data_set group (Z.land w (not64 (shl64 1 bit)))
     else ret tt) ;;;
    if count <? 64 then
      (* convert back to an inline entry, and free up the overflow entry *)
      c2 <- for_down 64 (fun j c2 =>
              v <- overflow_get (index + Z.quot j 16) ;;
              let cj := Z.land (shr64 v (4 * j)) 0xf in
              if 0 <? cj then ret (shl64 (Z.lor (shl64 c2 1) 1) (cj - 1))
              else ret c2) 0 ;;
      counts_set group c2 ;;;
      (* free overflow *)
      nxt <- get_next ;;
      overflow_set index nxt ;;;
      set_next index
    else ret tt
  else
    let bitsBefore := bitCount64 (Z.land m (shr64 ones64 (63 - bit))) in
    let before := select64 (Z.lor (shl64 c 1) 1) bitsBefore - 1 in
    let removeAt := Z.max 0 (before - 1) in
    (* remove the bit from the counter *)
    let mask := sub64 (shl64 1 removeAt) 1 in
    let left := Z.land (shr64 c 1) (not64 mask) in
    let right := Z.land c mask in
    counts_set group (Z.lor left right) ;;;
    let removed := Z.land (shr64 c removeAt) 1 in
    (* possibly reset the data bit *)
    data_set group (Z.land m (not64 (shl64 removed bit))).

Section Params.
Variable bits_per_item : Z.
Variable hasher : Z -> Z.
Variable k : Z.

Definition new (n : Z) : filter :=
    let bitCount := u64 (n * bits_per_item) in
    let alen := u64 (bitCount + 63) / 64 in
    let olen := u64 (100 + alen / 100 * 12) in
    {| data := replicate (Z.to_nat alen) 0;
       counts := replicate (Z.to_nat alen) 0;
       overflow := init_free (Z.to_nat olen) 0 olen (replicate (Z.to_nat olen) 0);
       arrayLength := alen;
       overflowLength := olen;
       nextFreeOverflow := 0;
       cout := [] |}.

Fixpoint Add_loop (i : nat) (a b : Z) : M filter unit :=
    match i with
    | O => ret tt
    | S i' =>
        alen <- get_arrayLength ;;
        let group := reduce a (u32 alen) in
        Increment group (Z.land a 63) ;;;
        Add_loop i' (add32 a b) b
    end.

Definition Add (key : Z) : M filter Status :=
    let hash := u64 (hasher key) in
    Add_loop (Z.to_nat k) (u32 (Z.shiftr hash 32)) (u32 hash) ;;; ret Ok.

Fixpoint Remove_loop (i : nat) (a b : Z) : M filter unit :=
    match i with
    | O => ret tt
    | S i' =>
        alen <- get_arrayLength ;;
        let group := reduce a (u32 alen) in
        Decrement group (Z.land a 63) ;;;
        Remove_loop i' (add32 a b) b
    end.

Definition Remove (key : Z) : M filter Status :=
    let hash := u64 (hasher key) in
    Remove_loop (Z.to_nat k) (u32 (Z.shiftr hash 32)) (u32 hash) ;;; ret Ok.

Fixpoint Contain_loop (i : nat) (a b : Z) : M filter Status :=
    match i with
    | O => ret Ok
    | S i' =>
        alen <- get_arrayLength ;;
        let group := reduce a (u32 alen) in
        v <- data_get group ;;
        if Z.land (shr64 v (Z.land a 63)) 1 =? 0 then ret NotFound
        else Contain_loop i' (add32 a b) b
    end.

Definition Contain (key : Z) : M filter Status :=
    let hash := u64 (hasher key) in
    Contain_loop (Z.to_nat k) (u32 (Z.shiftr hash 32)) (u32 hash).

Definition AddBlock (t : list Z) (block len : Z) : M filter unit :=
    for_up (Z.to_nat len) 0 (fun i =>
      index <- lift (ld t (Z.shiftl block blockShift + i)) ;;
      let group := Z.shiftr index 6 in
      Increment group (Z.land index 63)).

Definition AddAll_probe (sc : scratch) (a : Z) : M filter scratch :=
    alen <- get_arrayLength ;;
    let index := s32 (reduce a (u32 alen)) in
    let block := Z.shiftr index blockShift in
    len <- lift (ld (tmpLen sc) block) ;;
    t <- lift (st (tmp sc) (Z.shiftl block blockShift + len)
                  (u32 (Z.shiftl index 6 + Z.land a 63))) ;;
    tl <- lift (st (tmpLen sc) block (len + 1)) ;;
    if len + 1 =? blockLen then
      AddBlock t block (len + 1) ;;;
      tl' <- lift (st tl block 0) ;;
      ret {| tmp := t; tmpLen := tl' |}
    else ret {| tmp := t; tmpLen := tl |}.

Fixpoint AddAll_inner (j : nat) (a b : Z) (sc : scratch) : M filter scratch :=
    match j with
    | O => ret sc
    | S j' => sc' <- AddAll_probe sc a ;; AddAll_inner j' (add32 a b) b sc'
    end.

Definition AddAll_key (sc : scratch) (key : Z) : M filter scratch :=
    let hash := u64 (hasher key) in
    AddAll_inner (Z.to_nat k) (u32 (Z.shiftr hash 32)) (u32 hash) sc.

Fixpoint AddAll_keys (n : nat) (i : Z) (keys : list Z) (sc : scratch)
    : M filter scratch :=
    match n with
    | O => ret sc
    | S n' =>
        key <- lift (ld keys i) ;;
        sc' <- AddAll_key sc key ;;
        AddAll_keys n' (i + 1) keys sc'
    end.

Definition AddAll (keys : list Z) (start end_ : Z) : M filter Status :=
    alen <- get_arrayLength ;;
    let blocks := s32 (1 + alen / blockLen) in
    let sc := {| tmp := replicate (Z.to_nat (blocks * blockLen)) 0;
                 tmpLen := replicate (Z.to_nat blocks) 0 |} in
    sc' <- AddAll_keys (Z.to_nat (end_ - start)) start keys sc ;;
    for_up (Z.to_nat blocks) 0 (fun block =>
      len <- lift (ld (tmpLen sc') block) ;;
      AddBlock (tmp sc') block len) ;;;
    ret Ok.
End Params.

End SuccinctCountingBloomFilter.

(* ===================================================================== *)
(** * SuccinctCountingBlockedBloomFilter: the counter codec with 8-bit lanes *)

Module SuccinctCountingBlockedBloomFilter.

Record filter : Type := {
  bucketCount : Z;
  data : list Z;
  counts : list Z;
  overflow : list Z;
  overflowLength : Z;
  nextFreeOverflow : Z;
  cout : list string
}.

Definition with_data (d : list Z) (s : filter) : filter :=
  {| bucketCount := bucketCount s; data := d; counts := counts s;
     overflow := overflow s; overflowLength := overflowLength s;
     nextFreeOverflow := nextFreeOverflow s; cout := cout s |}.

Definition with_counts (c : list Z) (s : filter) : filter :=
  {| bucketCount := bucketCount s; data := data s; counts := c;
     overflow := overflow s; overflowLength := overflowLength s;
     nextFreeOverflow := nextFreeOverflow s; cout := cout s |}.

Definition with_overflow (o : list Z) (s : filter) : filter :=
  {| bucketCount := bucketCount s; data := data s; counts := counts s;
     overflow := o; overflowLength := overflowLength s;
     nextFreeOverflow := nextFreeOverflow s; cout := cout s |}.

Definition with_next (n : Z) (s : filter) : filter :=
  {| bucketCount := bucketCount s; data := data s; counts := counts s;
     overflow := overflow s; overflowLength := overflowLength s;
     nextFreeOverflow := n; cout := cout s |}.

Definition with_cout (l : list string) (s : filter) : filter :=
  {| bucketCount := bucketCount s; data := data s; counts := counts s;
     overflow := overflow s; overflowLength := overflowLength s;
     nextFreeOverflow := nextFreeOverflow s; cout := l |}.

Definition data_get (i : Z) : M filter Z :=
  fun s => match ld (data s) i with Some v => Some (v, s) | None => None end.
Definition data_set (i v : Z) : M filter unit :=
  fun s => match st (data s) i v with
           | Some d => Some (tt, with_data d s) | None => None end.
Definition counts_get (i : Z) : M filter Z :=
  fun s => match ld (counts s) i with Some v => Some (v, s) | None => None end.
Definition counts_set (i v : Z) : M filter unit :=
  fun s => match st (counts s) i v with
           | Some c => Some (tt, with_counts c s) | None => None end.
Definition overflow_get (i : Z) : M filter Z :=
  fun s => match ld (overflow s) i with Some v => Some (v, s) | None => None end.
Definition overflow_set (i v : Z) : M filter unit :=
  fun s => match st (overflow s) i v with
           | Some o => Some (tt, with_overflow o s) | None => None end.
Definition get_overflowLength : M filter Z := fun s => Some (overflowLength s, s).
Definition get_next : M filter Z := fun s => Some (nextFreeOverflow s, s).
Definition set_next (n : Z) : M filter unit := fun s => Some (tt, with_next n s).
Definition print (line : string) : M filter unit :=
  fun s => Some (tt, with_cout (cout s ++ [line]) s).

(** [for (size_t i = 0; i < overflowLength; i += 8) overflow[i] = i + 8;] *)
Fixpoint init_free (fuel : nat) (i len : Z) (o : list Z) : list Z :=
  match fuel with
  | O => o
  | S fuel' =>
      if i <? len then init_free fuel' (i + 8) len (<[Z.to_nat i := i + 8]> o)
      else o
  end.

(** The constructor, for a [capacity] that makes [bucketCount] non-negative
    and an allocation that succeeds. *)
Definition new (bits_per_item capacity : Z) : filter :=
  let bucketCount := s32 (u64 (capacity * bits_per_item) / 512) in
  let arrayLength := u64 (bucketCount * 8) in
  let olen := u64 (100 + arrayLength / 100 * 36) in
  {| bucketCount := bucketCount;
     data := replicate (Z.to_nat (bucketCount * 8)) 0;
     counts := replicate (Z.to_nat arrayLength) 0;
     overflow := init_free (Z.to_nat olen) 0 olen (replicate (Z.to_nat olen) 0);
     overflowLength := olen;
     nextFreeOverflow := 0;
     cout := [] |}.

Definition ReadCount (group bit : Z) : M filter Z :=
  m <- data_get group ;;
  let d := Z.land (shr64 m bit) 1 in
  if d =? 0 then ret 0
  else
    c <- counts_get group ;;
    if negb (Z.land c top1 =? 0) then
      let index := Z.land c idx_mask in
      n <- overflow_get (index + Z.quot bit 8) ;;
      let n := shr64 n (8 * Z.land bit 0xff) in
      ret (Z.land n 0xff)
    else
      let bitsBefore := bitCount64 (Z.land m (shr64 ones64 (63 - bit))) in
      let bitPos := select64 c (bitsBefore - 1) in
      let y := Z.lor (shl64 (shl64 c (63 - bitPos)) 1) (shl64 1 (63 - bitPos)) in
      lz <- lift (numberOfLeadingZeros64 y) ;;
      ret (lz + 1).

Definition Increment (group bit : Z) : M filter unit :=
  m <- data_get group ;;
  c <- counts_get group ;;
  if negb (Z.land c top2 =? 0) then
    let finish (index : Z) : M filter unit :=
      v <- overflow_get (index + Z.quot bit 8) ;;
      overflow_set (index + Z.quot bit 8) (add64 v (shl64 1 (bit * 8))) ;;;
      w <- data_get group ;;
      data_set group (Z.lor w (shl64 1 bit)) in
    if Z.land c top1 =? 0 then
      index <- get_next ;;
      olen <- get_overflowLength ;;
      if olen <=? index then
        print "ERROR: overflow too small" ;;;
        w <- data_get group ;;
        data_set group (Z.lor w (shl64 1 bit))
      else
        nxt <- overflow_get index ;;
        set_next nxt ;;;
        for_up 8 0 (fun i => overflow_set (index + i) 0) ;;;
        for_up 64 0 (fun i =>
          n <- ReadCount group i ;;
          v <- overflow_get (index + Z.quot i 8) ;;
          overflow_set (index + Z.quot i 8)
                       (add64 v (u64 (n * shl64 1 (i * 8))))) ;;;
        let count := 64 in
        let c := Z.lor (Z.lor top1 (shl64 count 32)) index in
        counts_set group c ;;;
        finish index
    else
      let index := Z.land c idx_mask in
      let c := add64 c (shl64 1 32) in
      counts_set group c ;;;
      finish index
  else
    w <- data_get group ;;
    data_set group (Z.lor w (shl64 1 bit)) ;;;
    let bitsBefore := bitCount64 (Z.land m (shr64 ones64 (63 - bit))) in
    let before := select64 (Z.lor (shl64 c 1) 1) bitsBefore in
    let d := Z.land (shr64 m bit) 1 in
    let insertAt := before - d in
    let mask := sub64 (shl64 1 insertAt) 1 in
    let left := Z.land c (not64 mask) in
    let right := Z.land c mask in
    let c := Z.lor (Z.lor (shl64 left 1) (shl64 (Z.lxor 1 d) insertAt)) right in
    counts_set group c.

Definition Decrement (group bit : Z) : M filter unit :=
  m <- data_get group ;;
  c <- counts_get group ;;
  if negb (Z.land c top1 =? 0) then
    (* an overflow entry *)
    let index := Z.land c idx_mask in
    let count := Z.land (shr64 c 32) idx_mask in
    let c := sub64 c (shl64 1 32) in
    counts_set group c ;;;
    n <- overflow_get (index + Z.quot bit 8) ;;
    overflow_set (index + Z.quot bit 8) (sub64 n (shl64 1 (bit * 8))) ;;;
    let n := shr64 n (8 * Z.land bit 0xf) in
    (if Z.land n 0xff =? 1 then
       w <- data_get group ;;
       data_set group (Z.land w (not64 (shl64 1 bit)))
     else ret tt) ;;;
    if count <? 64 then
      (* convert back to an inline entry, and free up the overflow entry *)
      c2 <- for_down 64 (fun j c2 =>
              v <- overflow_get (index + Z.quot j 8) ;;
              let cj := Z.land (shr64 v (8 * j)) 0xff in
              if 0 <? cj then ret (shl64 (Z.lor (shl64 c2 1) 1) (cj - 1))
              else ret c2) 0 ;;
      counts_set group c2 ;;;
      nxt <- get_next ;;
      overflow_set index nxt ;;;
      set_next index
    else ret tt
  else
    let bitsBefore := bitCount64 (Z.land m (shr64 ones64 (63 - bit))) in
    let before := select64 (Z.lor (shl64 c 1) 1) bitsBefore - 1 in
    let removeAt := Z.max 0 (before - 1) in
    let mask := sub64 (shl64 1 removeAt) 1 in
    let left := Z.land (shr64 c 1) (not64 mask) in
    let right := Z.land c mask in
    counts_set group (Z.lor left right) ;;;
    let removed := Z.land (shr64 c removeAt) 1 in
    data_set group (Z.land m (not64 (shl64 removed bit))).

Definition get_bucketCount : M filter Z := fun s => Some (bucketCount s, s).

Section Params.
  (** The template parameter [k] and the [hasher] member; keys are
      [uint64_t].  [bucket_start], [a] and [b] are [uint32_t]. *)
Variable hasher : Z -> Z.
Variable k : Z.

Definition bucket_start_of (hash bc : Z) : Z :=
    u32 (reduce (u32 (rotl64 hash 32)) (u32 bc) * 8).

  (** [for (int i = 3; i < k; i++) { a += b; Increment(...); }], with [i]
      turns left. *)
Fixpoint Add_loop (i : nat) (bucket_start a b : Z) : M filter unit :=
    match i with
    | O => ret tt
    | S i' =>
        let a := add32 a b in
        Increment (u32 (bucket_start + Z.land a 7)) (Z.land (Z.shiftr a 3) 0x3f) ;;;
        Add_loop i' bucket_start a b
    end.

Definition Add (key : Z) : M filter unit :=
    let hash := u64 (hasher key) in
    bc <- get_bucketCount ;;
    let bucket_start := bucket_start_of hash bc in
    let a := u32 hash in
    (if 3 <=? k then
       Increment (u32 (bucket_start + Z.land (Z.shiftr a 0) 7))
                 (Z.land (Z.shiftr a 3) 0x3f) ;;;
       Increment (u32 (bucket_start + Z.land (Z.shiftr a 9) 7))
                 (Z.land (Z.shiftr a 12) 0x3f) ;;;
       Increment (u32 (bucket_start + Z.land (Z.shiftr a 18) 7))
                 (Z.land (Z.shiftr a 21) 0x3f)
     else ret tt) ;;;
    let b := u32 (Z.shiftr hash 32) in
    Add_loop (Z.to_nat (k - 3)) bucket_start a b.

Fixpoint Remove_loop (i : nat) (bucket_start a b : Z) : M filter unit :=
    match i with
    | O => ret tt
    | S i' =>
        let a := add32 a b in
        Decrement (u32 (bucket_start + Z.land a 7)) (Z.land (Z.shiftr a 3) 0x3f) ;;;
        Remove_loop i' bucket_start a b
    end.

Definition Remove (key : Z) : M filter unit :=
    let hash := u64 (hasher key) in
    bc <- get_bucketCount ;;
    let bucket_start := bucket_start_of hash bc in
    let a := u32 hash in
    (if 3 <=? k then
       Decrement (u32 (bucket_start + Z.land (Z.shiftr a 0) 7))
                 (Z.land (Z.shiftr a 3) 0x3f) ;;;
       Decrement (u32 (bucket_start + Z.land (Z.shiftr a 9) 7))
                 (Z.land (Z.shiftr a 12) 0x3f) ;;;
       Decrement (u32 (bucket_start + Z.land (Z.shiftr a 18) 7))
                 (Z.land (Z.shiftr a 21) 0x3f)
     else ret tt) ;;;
    let b := u32 (Z.shiftr hash 32) in
    Remove_loop (Z.to_nat (k - 3)) bucket_start a b.

  (** [ok &= data[g] >> sh] on a [char ok] that holds 0 or 1: the low bit of
      the shifted word is and-ed into [ok]. *)
Definition probe (ok group sh : Z) : M filter Z :=
    v <- data_get group ;;
    ret (Z.land ok (shr64 v sh)).

Fixpoint Contain_loop (i : nat) (bucket_start a b ok : Z) : M filter bool :=
    match i with
    | O => ret (negb (ok =? 0))
    | S i' =>
        let a := add32 a b in
        ok <- probe ok (u32 (bucket_start + Z.land a 7)) (Z.land (Z.shiftr a 3) 63) ;;
        if ok =? 0 then ret false
        else Contain_loop i' bucket_start a b ok
    end.

Definition Contain (key : Z) : M filter bool :=
    let hash := u64 (hasher key) in
    bc <- get_bucketCount ;;
    let bucket_start := bucket_start_of hash bc in
    let a := u32 hash in
    ok <- (if 3 <=? k then
             ok <- probe 1 (u32 (bucket_start + Z.land (Z.shiftr a 0) 7))
                         (Z.land (Z.shiftr a 3) 0x3f) ;;
             ok <- probe ok (u32 (bucket_start + Z.land (Z.shiftr a 9) 7))
                         (Z.land (Z.shiftr a 12) 0x3f) ;;
             probe ok (u32 (bucket_start + Z.land (Z.shiftr a 18) 7))
                   (Z.land (Z.shiftr a 21) 0x3f)
           else ret 1) ;;
    if ok =? 0 then ret false
    else
      let b := u32 (Z.shiftr hash 32) in
      Contain_loop (Z.to_nat (k - 3)) bucket_start a b ok.
End Params.

End SuccinctCountingBlockedBloomFilter.

(* ===================================================================== *)
(** * Definitions of the representation: counters of a group, invariant,
    sequences of operations, bulk insertion *)

Import SuccinctCountingBloomFilter.

Definition nibble (w j : Z) : Z := Z.land (Z.shiftr w (4 * j)) 0xf.

(** The pure loop behind [for_down] when the body only reads the state. *)
Fixpoint fold_down {A} (n : nat) (f : Z -> A -> A) (acc : A) : A :=
  match n with
  | O => acc
  | S n' => fold_down n' f (f (Z.of_nat n') acc)
  end.

(* ---------- encodings of a group ---------- *)

Fixpoint mk (cs : list Z) : Z :=
  match cs with
  | [] => 0
  | x :: l => (if 0 <? x then 1 else 0) + 2 * mk l
  end.

Fixpoint enc (cs : list Z) : Z :=
  match cs with
  | [] => 0
  | x :: l => if 0 <? x then 2 ^ (x - 1) + 2 ^ x * enc l else enc l
  end.

Fixpoint total (cs : list Z) : Z :=
  match cs with [] => 0 | x :: l => x + total l end.

Fixpoint npos (cs : list Z) : Z :=
  match cs with [] => 0 | x :: l => (if 0 <? x then 1 else 0) + npos l end.

Definition nonneg (cs : list Z) : Prop := Forall (fun x => 0 <= x) cs.

Definition b2 (x : Z) : Z := if 0 <? x then 1 else 0.

(** The counter word written by the inline branch of [Increment]. *)
Definition inc_word (m c bit : Z) : Z :=
  let bitsBefore := bitCount64 (Z.land m (shr64 ones64 (63 - bit))) in
  let before := select64 (Z.lor (shl64 c 1) 1) bitsBefore in
  let d := Z.land (shr64 m bit) 1 in
  let insertAt := before - d in
  let mask := sub64 (shl64 1 insertAt) 1 in
  let left := Z.land c (not64 mask) in
  let right := Z.land c mask in
  Z.lor (Z.lor (shl64 left 1) (shl64 (Z.lxor 1 d) insertAt)) right.

(** The bit position removed by the inline branch of [Decrement]. *)
Definition dec_at (m c bit : Z) : Z :=
  let bitsBefore := bitCount64 (Z.land m (shr64 ones64 (63 - bit))) in
  let before := select64 (Z.lor (shl64 c 1) 1) bitsBefore - 1 in
  Z.max 0 (before - 1).

Definition dec_word (m c bit : Z) : Z :=
  let removeAt := dec_at m c bit in
  let mask := sub64 (shl64 1 removeAt) 1 in
  let left := Z.land (shr64 c 1) (not64 mask) in
  let right := Z.land c mask in
  Z.lor left right.

Definition dec_data (m c bit : Z) : Z :=
  let removed := Z.land (shr64 c (dec_at m c bit)) 1 in
  Z.land m (not64 (shl64 removed bit)).

(** The value returned by the inline branch of [ReadCount]. *)
Definition read_inline (m c bit : Z) : option Z :=
  let bitsBefore := bitCount64 (Z.land m (shr64 ones64 (63 - bit))) in
  let bitPos := select64 c (bitsBefore - 1) in
  let y := Z.lor (shl64 (shl64 c (63 - bitPos)) 1) (shl64 1 (63 - bitPos)) in
  match numberOfLeadingZeros64 y with
  | Some lz => Some (lz + 1)
  | None => None
  end.

(** The lanes of the overflow slot at [idx] hold the counts [f]. *)
Definition slot_lanes (o : list Z) (idx : Z) (f : Z -> Z) : Prop :=
  forall j, 0 <= j < 64 ->
    exists v, ld o (idx + j / 16) = Some v /\ 0 <= v < 2 ^ 64
              /\ nibble v (j mod 16) = f j.

Definition nthZ (cs : list Z) (j : Z) : Z := nth (Z.to_nat j) cs 0.

Definition row_ok (cs : list Z) : Prop :=
  length cs = 64%nat /\ Forall (fun x => 0 <= x <= 15) cs.

(** One turn of the loop that rebuilds the inline word from the lanes. *)
Definition demote_step (o : list Z) (idx j c2 : Z) : Z :=
  match ld o (idx + Z.quot j 16) with
  | Some v =>
      if 0 <? Z.land (shr64 v (4 * j)) 15
      then shl64 (Z.lor (shl64 c2 1) 1) (Z.land (shr64 v (4 * j)) 15 - 1)
      else c2
  | None => c2
  end.

Definition promoted (c : Z) : bool := negb (Z.land c top1 =? 0).

Definition slot_of (c : Z) : Z := Z.land c idx_mask.

Definition own1 (c : Z) : list Z := if promoted c then [slot_of c] else [].

Definition owned (cnts : list Z) : list Z := flat_map own1 cnts.

Definition others (cnts : list Z) (g : nat) : list Z :=
  owned (firstn g cnts) ++ owned (skipn (S g) cnts).

Definition all_slots (olen : Z) : list Z :=
  map (fun i => 4 * Z.of_nat i) (seq 0 (Z.to_nat (olen / 4))).

Fixpoint chain (o : list Z) (olen h : Z) (fl : list Z) : Prop :=
  match fl with
  | [] => h = olen
  | x :: fl' => h = x /\ exists nx, ld o x = Some nx /\ chain o olen nx fl'
  end.

Definition header (tot idx : Z) : Z := top1 + tot * 2 ^ 32 + idx.

Definition group_ok (s : filter) (g : Z) (cs : list Z) : Prop :=
  ld (data s) g = Some (mk cs) /\
  ((ld (counts s) g = Some (enc cs) /\ total cs <= 63) \/
   (exists idx, ld (counts s) g = Some (header (total cs) idx)
                /\ 63 <= total cs /\ 0 <= idx < 2 ^ 28
                /\ slot_lanes (overflow s) idx (nthZ cs))).

Definition row (f : Z -> Z -> Z) (g : Z) : list Z :=
  (fun i => f g (Z.of_nat i)) <$> seq 0 64.

Definition setf (f : Z -> Z -> Z) (g i v : Z) : Z -> Z -> Z :=
  fun g' i' => if (g' =? g) && (i' =? i) then v else f g' i'.

Record shape (s : filter) : Prop := {
  sh_alen : 0 <= arrayLength s;
  sh_data : Z.of_nat (length (data s)) = arrayLength s;
  sh_counts : Z.of_nat (length (counts s)) = arrayLength s;
  sh_over : Z.of_nat (length (overflow s)) = overflowLength s;
  sh_olen : overflowLength s <= 2 ^ 28 /\ overflowLength s mod 4 = 0;
  sh_free : exists fl,
      chain (overflow s) (overflowLength s) (nextFreeOverflow s) fl
      /\ Permutation (fl ++ owned (counts s)) (all_slots (overflowLength s))
}.

Definition Inv (s : filter) (f : Z -> Z -> Z) : Prop :=
  shape s /\
  forall g, 0 <= g < arrayLength s -> row_ok (row f g) /\ group_ok s g (row f g).

Definition msg : string := "ERROR: overflow too small".

(** The state in which the conversion loop of [Increment] starts: the slot
    [index] has left the free list and its four words are zero. *)
Definition alloc_state (s : filter) (index nxt : Z) : filter :=
  with_overflow
    (<[Z.to_nat (index + 3) := 0]>
       (<[Z.to_nat (index + 2) := 0]>
          (<[Z.to_nat (index + 1) := 0]>
             (<[Z.to_nat index := 0]> (overflow s)))))
    (with_next nxt s).

Definition convert_body (g index i : Z) : M filter unit :=
  n <- ReadCount g i ;;
  v <- overflow_get (index + Z.quot i 16) ;;
  overflow_set (index + Z.quot i 16) (add64 v (u64 (n * shl64 1 (i * 4)))).

Definition finish (g bit index : Z) : M filter unit :=
  v <- overflow_get (index + Z.quot bit 16) ;;
  overflow_set (index + Z.quot bit 16) (add64 v (shl64 1 (bit * 4))) ;;;
  w <- data_get g ;;
  data_set g (Z.lor w (shl64 1 bit)).

(** The state after the lane update of the promoted branch of [Decrement]. *)
Definition dec_lane_state (s : filter) (g bit m c n : Z) : filter :=
  let s2 :=
    with_overflow (<[Z.to_nat (slot_of c + Z.quot bit 16)
                     := sub64 n (shl64 1 (bit * 4))]> (overflow s))
      (with_counts (<[Z.to_nat g := sub64 c (shl64 1 32)]> (counts s)) s) in
  if Z.land (shr64 n (4 * Z.land bit 0xf)) 0xf =? 1
  then with_data (<[Z.to_nat g := Z.land m (not64 (shl64 1 bit))]> (data s)) s2
  else s2.

Definition demote_state (s3 : filter) (g index c2 : Z) : filter :=
  with_next index
    (with_overflow (<[Z.to_nat index := nextFreeOverflow s3]> (overflow s3))
       (with_counts (<[Z.to_nat g := c2]> (counts s3)) s3)).

(** [o'] is [o] except, possibly, on the four words of the slot at [x0]. *)
Definition agree (o o' : list Z) (x0 : Z) : Prop :=
  length o' = length o
  /\ forall k, 0 <= k -> ~ (x0 <= k < x0 + 4) -> ld o' k = ld o k.

(** Sequences of counter operations. *)
Inductive op : Type := Inc (g i : Z) | Dec (g i : Z).

Definition step (o : op) : M filter unit :=
  match o with
  | Inc g i => Increment g i
  | Dec g i => Decrement g i
  end.

Fixpoint run (ops : list op) : M filter unit :=
  match ops with
  | [] => ret tt
  | o :: r => step o ;;; run r
  end.

(** What one operation adds to the count of position [(g, i)]. *)
Definition hits (o : op) (g i : Z) : Z :=
  match o with
  | Inc g' i' => if (g' =? g) && (i' =? i) then 1 else 0
  | Dec g' i' => if (g' =? g) && (i' =? i) then -1 else 0
  end.

(** Increments minus decrements applied to [(g, i)]. *)
Fixpoint net (ops : list op) (g i : Z) : Z :=
  match ops with
  | [] => 0
  | o :: r => hits o g i + net r g i
  end.

(** An operation is admissible after the operations [before]: it addresses
    a position of the filter, a decrement finds a positive count and an
    increment a count below 15. *)
Definition op_ok (alen : Z) (before : list op) (o : op) : bool :=
  match o with
  | Inc g i =>
      (0 <=? g) && (g <? alen) && (0 <=? i) && (i <? 64) && (net before g i <? 15)
  | Dec g i =>
      (0 <=? g) && (g <? alen) && (0 <=? i) && (i <? 64) && (0 <? net before g i)
  end.

Fixpoint legal (alen : Z) (before ops : list op) : bool :=
  match ops with
  | [] => true
  | o :: r => op_ok alen before o && legal alen (before ++ [o]) r
  end.

(** No diagnostic is printed in any state the run goes through: the pool is
    never found exhausted. *)
Fixpoint quiet (ops : list op) (s : filter) : bool :=
  match cout s with
  | [] =>
      match ops with
      | [] => true
      | o :: r =>
          match step o s with
          | Some (_, s') => quiet r s'
          | None => true
          end
      end
  | _ :: _ => false
  end.

(* ---------- partial-correctness reasoning on the monad ---------- *)

Definition wp {St A} (m : M St A) (Q : A -> St -> Prop) (s : St) : Prop :=
  match m s with Some (a, s') => Q a s' | None => True end.

(** [m'] has every bit of [m]. *)
Definition sub (m m' : Z) : Prop :=
  forall i, 0 <= i -> Z.testbit m i = true -> Z.testbit m' i = true.

(** What [Increment] and [Add] keep of a state [s0]: the two lengths, and
    every presence bit that is set. *)
Definition grows (s0 s : filter) : Prop :=
  arrayLength s = arrayLength s0 /\ overflowLength s = overflowLength s0
  /\ Forall2 sub (data s0) (data s).

(** What [Decrement] keeps: the two lengths. *)
Definition dims (s0 s : filter) : Prop :=
  arrayLength s = arrayLength s0 /\ overflowLength s = overflowLength s0.

(** The presence bit of position [(g, bit)] is set. *)
Definition present (g bit : Z) (s : filter) : Prop :=
  exists m, ld (data s) g = Some m /\ Z.testbit m bit = true.

(** The positions [(group, bit)] that the loop of [Add], [Remove] and
    [Contain] visits, in order. *)
Fixpoint probes (i : nat) (a b alen : Z) : list (Z * Z) :=
  match i with
  | O => []
  | S i' => (reduce a (u32 alen), Z.land a 63) :: probes i' (add32 a b) b alen
  end.

Definition inc_of (p : Z * Z) : op := Inc (fst p) (snd p).

Definition dec_of (p : Z * Z) : op := Dec (fst p) (snd p).

Section Keys.

Variable hasher : Z -> Z.

Variable k : Z.

Definition key_probes (alen key : Z) : list (Z * Z) :=
  let hash := u64 (hasher key) in
  probes (Z.to_nat k) (u32 (Z.shiftr hash 32)) (u32 hash) alen.

Definition all_probes (alen : Z) (keys : list Z) : list (Z * Z) :=
  flat_map (key_probes alen) keys.

(** [Add] for each key of a list, then [Remove] for each key of a list. *)
Fixpoint AddEach (keys : list Z) : M filter unit :=
  match keys with
  | [] => ret tt
  | key :: r => Add hasher k key ;;; AddEach r
  end.

Fixpoint RemoveEach (keys : list Z) : M filter unit :=
  match keys with
  | [] => ret tt
  | key :: r => Remove hasher k key ;;; RemoveEach r
  end.

End Keys.

(* ---------- legality of the operations of Add and Remove ---------- *)

Definition in_range (alen : Z) (p : Z * Z) : Prop :=
  0 <= fst p < alen /\ 0 <= snd p < 64.

(** The operations of [Add] for each key of [adds], then [Remove] for each
    key of [rems]. *)
Definition round_trip_ops (hasher : Z -> Z) (k alen : Z) (adds rems : list Z) : list op :=
  map inc_of (all_probes hasher k alen adds) ++ map dec_of (all_probes hasher k alen rems).

(** The bound on the counts, as a check of the probed positions. *)
Definition counts_fit (ps : list (Z * Z)) : bool :=
  forallb (fun p => net (map inc_of ps) (fst p) (snd p) <=? 15) ps.

(** The [total_count] field of a header: [(c >> 32) & 0x0fffffff]. *)
Definition count_of (c : Z) : Z := Z.land (shr64 c 32) idx_mask.

(** Increments of the bits [0 .. n-1] of group 0. *)
Definition first_bits (n : nat) : list op := map (fun i => Inc 0 (Z.of_nat i)) (seq 0 n).

(** * The buffering of [AddAll]

    The two [AddAll] have the same text but for the packing of a probe into
    a word of [tmp] and for what [AddBlock] does with such a word.  The
    definitions of this part take both as parameters. *)

(** The values of [a] in the loop [for (j = 0; j < k; j++) { ...; a += b; }]. *)
Fixpoint avals (j : nat) (a b : Z) : list Z :=
  match j with
  | O => []
  | S j' => a :: avals j' (add32 a b) b
  end.

Definition key_avals (hasher : Z -> Z) (k key : Z) : list Z :=
  let hash := u64 (hasher key) in
  avals (Z.to_nat k) (u32 (Z.shiftr hash 32)) (u32 hash).

(** [blockLen], as a number of list elements. *)
Definition blen : nat := Z.to_nat blockLen.

(** One more word for block [b]: the block is flushed when it is full. *)
Definition push (pend : list (list Z)) (b : nat) (v : Z) : list Z * list (list Z) :=
  let l := default [] (pend !! b) ++ [v] in
  if (length l =? blen)%nat then (l, <[b := []]> pend) else ([], <[b := l]> pend).

(** The order in which [AddAll] hands the words to [AddBlock]; [pend] holds
    the words that wait in [tmp], block by block. *)
Fixpoint sched (bvs : list (nat * Z)) (pend : list (list Z)) : list Z :=
  match bvs with
  | [] => concat pend
  | bv :: r => fst (push pend (fst bv) (snd bv)) ++ sched r (snd (push pend (fst bv) (snd bv)))
  end.

Section BulkDefs.

Context {St : Type}.

Variable alen_of : St -> Z.

Variable pack : Z -> Z -> Z.

Variable visit : Z -> M St unit.

Definition bulk_block (t : list Z) (block len : Z) : M St unit :=
  for_up (Z.to_nat len) 0 (fun i =>
    v <- lift (ld t (Z.shiftl block blockShift + i)) ;; visit v).

Definition bulk_probe (sc : scratch) (a : Z) : M St scratch :=
  alen <- (fun s => Some (alen_of s, s)) ;;
  let index := s32 (reduce a (u32 alen)) in
  let block := Z.shiftr index blockShift in
  len <- lift (ld (tmpLen sc) block) ;;
  t <- lift (st (tmp sc) (Z.shiftl block blockShift + len) (pack index a)) ;;
  tl <- lift (st (tmpLen sc) block (len + 1)) ;;
  if len + 1 =? blockLen then
    bulk_block t block (len + 1) ;;;
    tl' <- lift (st tl block 0) ;;
    ret {| tmp := t; tmpLen := tl' |}
  else ret {| tmp := t; tmpLen := tl |}.

Fixpoint process (l : list Z) (sc : scratch) : M St scratch :=
  match l with
  | [] => ret sc
  | a :: r => sc' <- bulk_probe sc a ;; process r sc'
  end.

Definition flush_all (nb : nat) (sc : scratch) : M St unit :=
  for_up nb 0 (fun block =>
    len <- lift (ld (tmpLen sc) block) ;; bulk_block (tmp sc) block len).

Fixpoint visit_all (vs : list Z) : M St unit :=
  match vs with
  | [] => ret tt
  | v :: r => visit v ;;; visit_all r
  end.

(** The block and the word of the probe [a], in a filter of [A] groups. *)
Definition slot_word (A a : Z) : nat * Z :=
  let index := s32 (reduce a (u32 A)) in
  (Z.to_nat (Z.shiftr index blockShift), pack index a).

(** [sc] holds the pending words [pend], for [nb] blocks. *)
Record rep (nb : nat) (sc : scratch) (pend : list (list Z)) : Prop := {
  rep_tmp : length (tmp sc) = (nb * blen)%nat;
  rep_len : length (tmpLen sc) = nb;
  rep_pend : length pend = nb;
  rep_at : forall b l, pend !! b = Some l ->
             (length l < blen)%nat
             /\ tmpLen sc !! b = Some (Z.of_nat (length l))
             /\ forall i v, l !! i = Some v -> tmp sc !! (b * blen + i)%nat = Some v
}.

End BulkDefs.

(** The word of [tmp] for a probe, and what [AddBlock] does with a word. *)
Definition spack (index a : Z) : Z := u32 (Z.shiftl index 6 + Z.land a 63).

Definition svisit (v : Z) : M filter unit := Increment (Z.shiftr v 6) (Z.land v 63).

Module Plain.

Import CountingBloomFilter.

(** The word of [tmp] for a probe, and what [AddBlock] does with a word. *)
Definition ppack (index a : Z) : Z := u32 (Z.shiftl index 4 + Z.land a 0xf).

Definition pvisit (v : Z) : M filter unit :=
  let index := s32 v in
  w <- data_get (Z.shiftr index 4) ;;
  data_set (Z.shiftr index 4) (add64 w (shl64 1 (Z.land (Z.shiftl index 2) 0x3f))).

(** [Add] for each key of a list. *)
Fixpoint AddEach (hasher : Z -> Z) (k : Z) (keys : list Z) : M filter unit :=
  match keys with
  | [] => ret tt
  | key :: r => Add hasher k key ;;; AddEach hasher k r
  end.

(** The effect of a word on the array of counters. *)
Definition bump (d : list Z) (v : Z) : list Z :=
  let i := Z.to_nat (Z.shiftr (s32 v) 4) in
  <[i := add64 (nth i d 0) (shl64 1 (Z.land (Z.shiftl (s32 v) 2) 0x3f))]> d.

Definition with_data (d : list Z) (s : filter) : filter :=
  {| data := d; arrayLength := arrayLength s |}.

(** The words of a list all name a counter of the array. *)
Definition words_ok (n : Z) (l : list Z) : Prop :=
  Forall (fun v => 0 <= Z.shiftr (s32 v) 4 < n) l.

End Plain.

(** The position a word of [tmp] names. *)
Definition word_pos (v : Z) : Z * Z := (Z.shiftr v 6, Z.land v 63).

(** The operations of [AddAll], in the order in which it performs them. *)
Definition bulk_ops (hasher : Z -> Z) (k A : Z) (keys : list Z) : list op :=
  map inc_of
    (map word_pos
       (sched (map (slot_word spack A) (flat_map (key_avals hasher k) keys))
              (replicate (Z.to_nat (1 + A / blockLen)) []))).

(** 64 keys that probe the bits of group 16384 (the second block of a
    filter of 16385 groups), then 64 keys that probe the bits of group 0;
    the hash of a key is the key, and [k] is 1. *)
Definition two_block_keys : list Z :=
  map (fun i => Z.shiftl (4294967232 + Z.of_nat i) 32) (seq 0 64)
  ++ map (fun i => Z.shiftl (Z.of_nat i) 32) (seq 0 64).

(** The word of [counts] of group [g] in the state a call leaves. *)
Definition counts_after {A} (g : Z) (r : option (A * filter)) : option Z :=
  match r with
  | Some (_, s) => ld (counts s) g
  | None => None
  end.

(** Keys that promote the groups 0 .. 24 of a filter of 32 groups, which
    takes the 25 slots of its pool, and bring group 25 to 63 counts; the
    hash of a key is the key, and [k] is 1. *)
Definition exhausting_keys : list Z :=
  flat_map (fun g => map (fun i => Z.shiftl (Z.of_nat g * 2 ^ 27 + Z.of_nat i) 32) (seq 0 64))
           (seq 0 25)
  ++ map (fun i => Z.shiftl (25 * 2 ^ 27 + Z.of_nat i) 32) (seq 0 63).

(** The state these keys leave: the free list is empty. *)
Definition state_after {A} (r : option (A * filter)) (otherwise : filter) : filter :=
  match r with
  | Some (_, s) => s
  | None => otherwise
  end.

Definition exhausted_state : filter :=
  state_after (AddEach (fun x => x) 1 exhausting_keys (new 8 256)) (new 8 256).

(** A blocked filter of 8 groups in which the 64 bits of group 0 have been
    incremented once each: the group is promoted. *)
Definition blocked_promoted : SuccinctCountingBlockedBloomFilter.filter :=
  match for_up 64 0 (fun i => SuccinctCountingBlockedBloomFilter.Increment 0 i)
          (SuccinctCountingBlockedBloomFilter.new 8 64) with
  | Some (_, s) => s
  | None => SuccinctCountingBlockedBloomFilter.new 8 64
  end.

Module PlainOps.

Import CountingBloomFilter.

(** The word a probe [a] addresses, and the unit of its counter in the word. *)
Definition word_of (n a : Z) : Z := reduce a (u32 n).

Definition unit_of (a : Z) : Z := shl64 1 (Z.land (shl32 a 2) 0x3f).

(** One turn of the loops of [Add] ([op] is [add64]) and of [Remove] ([op]
    is [sub64]). *)
Definition probe_op (op : Z -> Z -> Z) (a : Z) : M filter unit :=
  len <- get_arrayLength ;;
  let index := reduce a (u32 len) in
  v <- data_get index ;;
  data_set index (op v (unit_of a)).

(** Its effect on the array, and whether it stays inside the array. *)
Definition upd (op : Z -> Z -> Z) (n : Z) (d : list Z) (a : Z) : list Z :=
  <[Z.to_nat (word_of n a) := op (nth (Z.to_nat (word_of n a)) d 0) (unit_of a)]> d.

Definition inb (n : Z) (len : nat) (a : Z) : bool := word_of n a <? Z.of_nat len.

(** The counter of a probe in an array. *)
Definition counter (n : Z) (d : list Z) (a : Z) : Z :=
  nibble (nth (Z.to_nat (word_of n a)) d 0) (Z.land a 0xf).

(** Every word is a 64-bit word whose sixteen counters are at most [c]. *)
Definition capped (c : Z) (d : list Z) : Prop :=
  Forall (fun w => 0 <= w < 2 ^ 64 /\ forall j, 0 <= j < 16 -> nibble w j <= c) d.

End PlainOps.

(** The keys of [rest] are still in a filter to which [adds] was added and
    from which [rems] was removed. *)
Definition kept (hasher : Z -> Z) (k : Z) (rest : list Z) (s : filter) : Prop :=
  forall key, In key rest -> Contain hasher k key s = Some (Ok, s).

(** Sixty-four increments on each of the groups [0 .. groups-1], one for
    each bit: what it takes to promote them all. *)
Definition fill_groups (groups : nat) : list op :=
  flat_map (fun g => map (fun i => Inc (Z.of_nat g) (Z.of_nat i)) (seq 0 64)) (seq 0 groups).

(** Sixty-four increments on each of the first 25 groups, which takes the
    25 slots of a pool of 100 words, and 63 on group 25. *)
Definition exhausting_ops : list op :=
  fill_groups 25 ++ map (fun i => Inc 25 (Z.of_nat i)) (seq 0 63).

Module BlockedOps.

Import SuccinctCountingBlockedBloomFilter.

(** The presence bit of position [(g, bit)] is set. *)
Definition present (g bit : Z) (s : filter) : Prop :=
  exists m, ld (data s) g = Some m /\ Z.testbit m bit = true.

(** What [Increment g] keeps of a state [s0]: the number of buckets, the
    presence bits that are set, and the words of [data] and [counts] of the
    groups outside [[lo, lo + 8)]. *)
Definition keeps (lo : Z) (s0 s : filter) : Prop :=
  bucketCount s = bucketCount s0
  /\ Forall2 sub (data s0) (data s)
  /\ length (counts s) = length (counts s0)
  /\ forall g, ~ (lo <= g < lo + 8) ->
       ld (data s) g = ld (data s0) g /\ ld (counts s) g = ld (counts s0) g.

(** What is left of [keeps] when the bucket is forgotten. *)
Definition bgrows (s0 s : filter) : Prop :=
  bucketCount s = bucketCount s0 /\ Forall2 sub (data s0) (data s).

(** Promote the groups [0 .. groups-1], by 64 increments each. *)
Definition promote_groups (groups : nat) : M filter unit :=
  for_up groups 0 (fun g => for_up 64 0 (fun i => Increment g i)).

Definition state_of (r : option (unit * filter)) (otherwise : filter) : filter :=
  match r with Some (_, s) => s | None => otherwise end.

(** A filter of two buckets (16 groups, a pool of 100 words) in which the
    groups 0 to 11 are promoted: they hold the slots 0, 8, ..., 88. *)
Definition twelve_promoted : filter :=
  state_of (promote_groups 12 (new 8 128)) (new 8 128).

(** The same filter after 63 increments on group 12, which is then full in
    the inline form. *)
Definition thirteenth_full : filter :=
  state_of (for_up 63 0 (fun i => Increment 12 i) twelve_promoted) twelve_promoted.

End BlockedOps.

Module BlockedRuns.

Import SuccinctCountingBlockedBloomFilter.





End BlockedRuns.

Module PlainCounts.

Import CountingBloomFilter.

Import PlainOps.

(** How often the probes [l] hit counter [j] of word [w], in a filter of
    [n] words. *)
Fixpoint hits_at (n : Z) (l : list Z) (w j : Z) : Z :=
  match l with
  | [] => 0
  | a :: r =>
      (if (word_of n a =? w) && (Z.land a 0xf =? j) then 1 else 0) + hits_at n r w j
  end.

(** No counter is hit more than 15 times. *)
Definition fits (n : Z) (l : list Z) : bool :=
  forallb (fun a => hits_at n l (word_of n a) (Z.land a 0xf) <=? 15) l.

End PlainCounts.

Module BlockedKeys.

Import SuccinctCountingBlockedBloomFilter.

Import BlockedRuns.

(** The positions [(group, bit)] that the loop of [Add] and [Remove]
    visits, in order. *)
Fixpoint loop_probes (i : nat) (bucket_start a b : Z) : list (Z * Z) :=
  match i with
  | O => []
  | S i' =>
      let a := add32 a b in
      (u32 (bucket_start + Z.land a 7), Z.land (Z.shiftr a 3) 0x3f)
        :: loop_probes i' bucket_start a b
  end.

(** The positions of a key, in a filter of [bc] buckets. *)
Definition key_probes (hasher : Z -> Z) (k bc key : Z) : list (Z * Z) :=
  let hash := u64 (hasher key) in
  let bucket_start := bucket_start_of hash bc in
  let a := u32 hash in
  (if 3 <=? k then
     [(u32 (bucket_start + Z.land (Z.shiftr a 0) 7), Z.land (Z.shiftr a 3) 0x3f);
      (u32 (bucket_start + Z.land (Z.shiftr a 9) 7), Z.land (Z.shiftr a 12) 0x3f);
      (u32 (bucket_start + Z.land (Z.shiftr a 18) 7), Z.land (Z.shiftr a 21) 0x3f)]
   else [])
  ++ loop_probes (Z.to_nat (k - 3)) bucket_start a (u32 (Z.shiftr hash 32)).

Definition all_probes (hasher : Z -> Z) (k bc : Z) (keys : list Z) : list (Z * Z) :=
  flat_map (key_probes hasher k bc) keys.

(** [Add] for each key of a list, [Remove] for each key of a list. *)
Fixpoint AddEach (hasher : Z -> Z) (k : Z) (keys : list Z) : M filter unit :=
  match keys with
  | [] => ret tt
  | key :: r => Add hasher k key ;;; AddEach hasher k r
  end.

Fixpoint RemoveEach (hasher : Z -> Z) (k : Z) (keys : list Z) : M filter unit :=
  match keys with
  | [] => ret tt
  | key :: r => Remove hasher k key ;;; RemoveEach hasher k r
  end.


End BlockedKeys.

Module PlainLists.

Import CountingBloomFilter.

(** [Remove] for each key of a list. *)
Fixpoint RemoveEach (hasher : Z -> Z) (k : Z) (keys : list Z) : M filter unit :=
  match keys with
  | [] => ret tt
  | key :: r => Remove hasher k key ;;; RemoveEach hasher k r
  end.

End PlainLists.

(** One increment of each bit of group 0, which promotes the group, and 14
    more of position [(0, 0)]: the lane of the position holds 15. *)
Definition lane_at_fifteen : list op :=
  map (fun i => Inc 0 (Z.of_nat i)) (seq 0 64) ++ replicate 14 (Inc 0 0).

(* ===================================================================== *)
(** * Properties *)

Lemma land_1_mod x : Z.land x 1 = x mod 2.
Proof. exact (Z.land_ones x 1 ltac:(lia)). Qed.

Lemma land_1_cases x : Z.land x 1 = 0 \/ Z.land x 1 = 1.
Proof. rewrite land_1_mod. pose proof (Z.mod_pos_bound x 2). lia. Qed.

Lemma popcount_bits_nonneg w : forall x, 0 <= popcount_bits w x.
Proof.
  induction w as [|w IH]; intros x; simpl; [lia|].
  specialize (IH (Z.shiftr x 1)). destruct (land_1_cases x); lia.
Qed.

Lemma select64_loop_few fuel : forall i x n,
  0 <= n -> popcount_bits fuel x <= n -> select64_loop fuel i x n = -1.
Proof.
  induction fuel as [|fuel IH]; intros i x n Hn Hc; simpl in *; [reflexivity|].
  pose proof (popcount_bits_nonneg fuel (Z.shiftr x 1)) as Hp.
  destruct (land_1_cases x) as [E|E]; rewrite E in *; simpl.
  - apply IH; lia.
  - destruct (Z.eqb_spec n 0) as [->|Hne]; [lia|]. apply IH; lia.
Qed.

(** C10.  The portable branch of [select64] (the loop over the 64 bit
    positions) returns -1 whenever the 64-bit word [x] has at most [n] set
    bits, for every [n] in [0,64): the loop runs to its end and the function
    falls through to [return -1]. *)
Theorem select64_too_few_bits (x n : Z) :
  0 <= x < 2 ^ 64 -> 0 <= n < 64 -> bitCount64 x <= n -> select64 x n = -1.
Proof.
  intros _ Hn Hc. apply select64_loop_few; [lia | exact Hc].
Qed.

Lemma select64_too_few_bits_witness :
  bitCount64 5 <= 2 /\ select64 5 2 = -1.
Proof.
  split; [vm_compute; discriminate |].
  apply select64_too_few_bits; [lia | lia | vm_compute; discriminate].
Defined.

Lemma ld_Some arr i v : ld arr i = Some v -> 0 <= i < Z.of_nat (length arr).
Proof.
  unfold ld. destruct (Z.leb_spec 0 i); [|discriminate].
  intros Hl. apply lookup_lt_Some in Hl. lia.
Qed.

Lemma st_ok arr i v : 0 <= i < Z.of_nat (length arr) ->
  st arr i v = Some (<[Z.to_nat i := v]> arr).
Proof.
  intros H. unfold st.
  destruct (Z.leb_spec 0 i); [|lia]. destruct (Z.ltb_spec i (Z.of_nat (length arr))); [|lia].
  reflexivity.
Qed.

Lemma nibble_div w j : 0 <= j -> nibble w j = (w / 2 ^ (4 * j)) mod 16.
Proof.
  intros Hj. unfold nibble. rewrite Z.shiftr_div_pow2 by lia.
  exact (Z.land_ones _ 4 ltac:(lia)).
Qed.

Lemma div_mod_pow2 x a b : 0 <= a -> 0 <= b ->
  (x mod 2 ^ (a + b)) / 2 ^ a = (x / 2 ^ a) mod 2 ^ b.
Proof.
  intros Ha Hb.
  rewrite Z.pow_add_r by lia.
  rewrite Z.rem_mul_r by lia.
  rewrite (Z.mul_comm (2 ^ a)), Z.div_add by lia.
  rewrite Z.div_small by (apply Z.mod_pos_bound; lia). lia.
Qed.

Lemma nibble_mod w j n : 0 <= j -> 4 * j + 4 <= n ->
  nibble (w mod 2 ^ n) j = nibble w j.
Proof.
  intros Hj Hn. rewrite !nibble_div by lia.
  replace n with (4 * j + (n - 4 * j)) by lia.
  rewrite div_mod_pow2 by lia.
  replace (n - 4 * j) with (4 + (n - 4 * j - 4)) by lia.
  rewrite Z.pow_add_r by lia. change (2 ^ 4) with 16.
  rewrite Z.rem_mul_r by lia.
  rewrite (Z.mul_comm 16), Z.mod_add by lia. apply Z.mod_mod. lia.
Qed.

Lemma probe_shift a : Z.land (shl32 a 2) 0x3f = 4 * Z.land a 0xf.
Proof.
  unfold shl32, u32. rewrite Z.shiftl_mul_pow2 by lia.
  change 0x3f with (Z.ones 6). change 0xf with (Z.ones 4).
  rewrite !Z.land_ones by lia.
  change (2 ^ 32) with (2 ^ 6 * 2 ^ 26).
  rewrite Z.rem_mul_r by lia.
  rewrite (Z.mul_comm (2 ^ 6)), Z.mod_add by lia. rewrite Z.mod_mod by lia.
  change (2 ^ 6) with (4 * 2 ^ 4). change (2 ^ 2) with 4.
  rewrite (Z.mul_comm a 4). rewrite Z.mul_mod_distr_l by lia. reflexivity.
Qed.

Lemma shl64_1 n : 0 <= n < 64 -> shl64 1 n = 2 ^ n.
Proof.
  intros H. unfold shl64, u64.
  change 63 with (Z.ones 6). rewrite Z.land_ones by lia.
  change (2 ^ 6) with 64. rewrite (Z.mod_small n 64) by lia.
  rewrite Z.shiftl_1_l. apply Z.mod_small. split; [lia|].
  apply Z.pow_lt_mono_r; lia.
Qed.

(** C8, as the code has it.  When the 4-bit counter of a probe holds 15, the
    probe adds [2^(4j)] to the word modulo [2^64], [j] being the number of
    the counter in the word: the counter goes to 0, the counters below it
    keep their values, and the part of the word above the counter goes up by
    one (the carry runs into the next counter; out of the last counter of
    the word it is lost). *)
Theorem Add_probe_wraps (s : CountingBloomFilter.filter) (a w : Z) :
  ld (CountingBloomFilter.data s) (reduce a (u32 (CountingBloomFilter.arrayLength s)))
  = Some w ->
  nibble w (Z.land a 0xf) = 15 ->
  exists w',
    CountingBloomFilter.Add_probe a s =
      Some (tt, {| CountingBloomFilter.data :=
                     <[Z.to_nat (reduce a (u32 (CountingBloomFilter.arrayLength s))) := w']>
                       (CountingBloomFilter.data s);
                   CountingBloomFilter.arrayLength :=
                     CountingBloomFilter.arrayLength s |})
    /\ w' = (w + 2 ^ (4 * Z.land a 0xf)) mod 2 ^ 64
    /\ nibble w' (Z.land a 0xf) = 0
    /\ (forall i, 0 <= i < Z.land a 0xf -> nibble w' i = nibble w i)
    /\ Z.shiftr w' (4 * (Z.land a 0xf + 1))
       = (Z.shiftr w (4 * (Z.land a 0xf + 1)) + 1) mod 2 ^ (64 - 4 * (Z.land a 0xf + 1)).
Proof.
  set (index := reduce a (u32 (CountingBloomFilter.arrayLength s))).
  set (j := Z.land a 0xf).
  intros Hw Hn.
  assert (Hj : 0 <= j < 16).
  { unfold j. change 0xf with (Z.ones 4). rewrite Z.land_ones by lia.
    apply Z.mod_pos_bound. lia. }
  exists ((w + 2 ^ (4 * j)) mod 2 ^ 64). split; [|split; [reflexivity|]].
  - unfold CountingBloomFilter.Add_probe, bind, CountingBloomFilter.get_arrayLength,
      CountingBloomFilter.data_get, CountingBloomFilter.data_set.
    fold index. rewrite Hw. rewrite st_ok by (eapply ld_Some; eauto).
    rewrite probe_shift. fold j. rewrite shl64_1 by lia. reflexivity.
  - rewrite nibble_div in Hn by lia.
    assert (Hq : (w + 2 ^ (4 * j)) / 2 ^ (4 * j) = w / 2 ^ (4 * j) + 1).
    { replace (w + 2 ^ (4 * j)) with (w + 1 * 2 ^ (4 * j)) by lia.
      rewrite Z.div_add by lia. reflexivity. }
    split; [|split].
    + rewrite nibble_mod by lia. rewrite nibble_div by lia. rewrite Hq.
      rewrite <- Zplus_mod_idemp_l, Hn. reflexivity.
    + intros i Hi. rewrite nibble_mod by lia.
      rewrite <- (nibble_mod (w + _) i (4 * j)) by lia.
      rewrite <- (nibble_mod w i (4 * j)) by lia.
      f_equal. replace (w + 2 ^ (4 * j)) with (w + 1 * 2 ^ (4 * j)) by lia.
      apply Z.mod_add. lia.
    + rewrite !Z.shiftr_div_pow2 by lia.
      replace 64 with (4 * (j + 1) + (64 - 4 * (j + 1))) at 1 by lia.
      rewrite div_mod_pow2 by lia. f_equal.
      replace (4 * (j + 1)) with (4 * j + 4) by lia.
      rewrite Z.pow_add_r by lia. change (2 ^ 4) with 16.
      rewrite <- !Z.div_div by lia. rewrite Hq.
      pose proof (Z.div_mod (w / 2 ^ (4 * j)) 16 ltac:(lia)) as Hd.
      rewrite Hn in Hd.
      replace (w / 2 ^ (4 * j) + 1) with ((w / 2 ^ (4 * j) / 16 + 1) * 16) by lia.
      apply Z.div_mul. lia.
Qed.

Lemma ld_ok arr i : 0 <= i < Z.of_nat (length arr) -> exists v, ld arr i = Some v.
Proof.
  intros H. unfold ld. destruct (Z.leb_spec 0 i); [|lia].
  destruct (lookup_lt_is_Some_2 arr (Z.to_nat i)) as [v Hv]; [lia|]. eauto.
Qed.

Lemma ld_st_eq arr i v : 0 <= i < Z.of_nat (length arr) ->
  ld (<[Z.to_nat i := v]> arr) i = Some v.
Proof.
  intros H. unfold ld. destruct (Z.leb_spec 0 i); [|lia].
  apply list_lookup_insert_eq. lia.
Qed.

Lemma ld_st_ne arr i j v : 0 <= i -> 0 <= j -> i <> j ->
  ld (<[Z.to_nat i := v]> arr) j = ld arr j.
Proof.
  intros Hi Hj H. unfold ld. destruct (Z.leb_spec 0 j); [|lia].
  apply list_lookup_insert_ne. lia.
Qed.

Lemma bind_Some {St A B} (m : M St A) (f : A -> M St B) s a s' :
  m s = Some (a, s') -> bind m f s = f a s'.
Proof. intros H. unfold bind. rewrite H. reflexivity. Qed.

Lemma for_down_read {St A} (n : nat) (body : Z -> A -> M St A) f s : forall acc,
  (forall j a, 0 <= j < Z.of_nat n -> body j a s = Some (f j a, s)) ->
  for_down n body acc s = Some (fold_down n f acc, s).
Proof.
  induction n as [|n IH]; intros acc Hb; simpl; [reflexivity|].
  rewrite (bind_Some _ _ _ _ _ (Hb (Z.of_nat n) acc ltac:(lia))).
  apply IH. intros j a Hj. apply Hb. lia.
Qed.

Lemma range64 (P : Z -> bool) :
  forallb P (map Z.of_nat (seq 0 64)) = true ->
  forall b, 0 <= b < 64 -> P b = true.
Proof.
  intros H b Hb. rewrite forallb_forall in H. apply H.
  apply in_map_iff. exists (Z.to_nat b). split; [lia|].
  apply in_seq. lia.
Qed.

Lemma lane8_shift bit : 0 <= bit < 64 ->
  Z.land (8 * Z.land bit 0xf) 63 = 8 * (bit mod 8).
Proof.
  intros H. apply Z.eqb_eq.
  apply (range64 (fun b => Z.land (8 * Z.land b 0xf) 63 =? 8 * (b mod 8))); [|exact H].
  vm_compute. reflexivity.
Qed.

Lemma quot_div_nonneg a b : 0 <= a -> 0 < b -> Z.quot a b = a / b.
Proof. intros. apply Z.quot_div_nonneg; lia. Qed.

Lemma testbit_not64 x i : 0 <= i < 64 ->
  Z.testbit (not64 x) i = negb (Z.testbit x i).
Proof.
  intros H. unfold not64, u64. rewrite Z.mod_pow2_bits_low by lia.
  apply Z.lnot_spec. lia.
Qed.

Lemma testbit_clear m bit : 0 <= bit < 64 ->
  Z.testbit (Z.land m (not64 (shl64 1 bit))) bit = false.
Proof.
  intros H. rewrite Z.land_spec, testbit_not64, shl64_1 by lia.
  rewrite Z.pow2_bits_true by lia. apply andb_false_r.
Qed.

Module BlockedFacts.

Import SuccinctCountingBlockedBloomFilter.

Lemma data_get_eq s i v : ld (data s) i = Some v -> data_get i s = Some (v, s).
Proof. intros H. unfold data_get. rewrite H. reflexivity. Qed.

Lemma counts_get_eq s i v : ld (counts s) i = Some v -> counts_get i s = Some (v, s).
Proof. intros H. unfold counts_get. rewrite H. reflexivity. Qed.

Lemma overflow_get_eq s i v : ld (overflow s) i = Some v -> overflow_get i s = Some (v, s).
Proof. intros H. unfold overflow_get. rewrite H. reflexivity. Qed.

Lemma data_set_eq s i v : 0 <= i < Z.of_nat (length (data s)) ->
  data_set i v s = Some (tt, with_data (<[Z.to_nat i := v]> (data s)) s).
Proof. intros H. unfold data_set. rewrite st_ok by lia. reflexivity. Qed.

Lemma counts_set_eq s i v : 0 <= i < Z.of_nat (length (counts s)) ->
  counts_set i v s = Some (tt, with_counts (<[Z.to_nat i := v]> (counts s)) s).
Proof. intros H. unfold counts_set. rewrite st_ok by lia. reflexivity. Qed.

Lemma overflow_set_eq s i v : 0 <= i < Z.of_nat (length (overflow s)) ->
  overflow_set i v s = Some (tt, with_overflow (<[Z.to_nat i := v]> (overflow s)) s).
Proof. intros H. unfold overflow_set. rewrite st_ok by lia. reflexivity. Qed.

Ltac mstep E := rewrite (bind_Some _ _ _ _ _ E); cbv beta.

(** C9.  [Decrement] of the blocked filter on a promoted group (top bit of
    the count word set, its slot inside the pool): the byte counter of bit
    [bit] is the lane [bit mod 8] of word [bit / 8] of the slot.  The call
    returns, and it clears the presence bit exactly when that counter held
    1, i.e. when it drops to 0; otherwise the data word is left as it was.
    The byte shift [bit * 8] is taken modulo 64, as the shift instruction
    does it. *)
Theorem blocked_Decrement_promoted_presence (s : filter) (g bit m c n : Z) :
  0 <= bit < 64 ->
  ld (data s) g = Some m ->
  ld (counts s) g = Some c ->
  Z.land c top1 <> 0 ->
  Z.land c idx_mask + 8 <= Z.of_nat (length (overflow s)) ->
  ld (overflow s) (Z.land c idx_mask + bit / 8) = Some n ->
  let lane := Z.land (Z.shiftr n (8 * (bit mod 8))) 0xff in
  let m' := if lane =? 1 then Z.land m (not64 (shl64 1 bit)) else m in
  exists s',
    Decrement g bit s = Some (tt, s')
    /\ ld (data s') g = Some m'
    /\ (Z.testbit m bit = true -> (Z.testbit m' bit = false <-> lane = 1)).
Proof.
  intros Hbit Hm Hc Htop Hlen Hn lane m'.
  assert (Hidx : 0 <= Z.land c idx_mask) by (apply Z.land_nonneg; right; vm_compute; discriminate).
  pose proof (ld_Some _ _ _ Hm) as Hg. pose proof (ld_Some _ _ _ Hc) as Hg'.
  assert (Hq : 0 <= bit / 8 < 8).
  { split; [apply Z.div_pos; lia | apply Z.div_lt_upper_bound; lia]. }
  assert (Hq' : Z.quot bit 8 = bit / 8) by (apply quot_div_nonneg; lia).
  unfold Decrement.
  mstep (data_get_eq _ _ _ Hm). mstep (counts_get_eq _ _ _ Hc).
  destruct (Z.eqb_spec (Z.land c top1) 0) as [|_]; [contradiction|]. cbn [negb].
  set (idx := Z.land c idx_mask) in *.
  rewrite Hq'.
  mstep (counts_set_eq s g (sub64 c (shl64 1 32)) Hg').
  set (s1 := with_counts _ s).
  mstep (overflow_get_eq s1 _ _ Hn).
  assert (Hb1 : 0 <= idx + bit / 8 < Z.of_nat (length (overflow s1))) by (simpl; lia).
  mstep (overflow_set_eq s1 _ (sub64 n (shl64 1 (bit * 8))) Hb1).
  set (s2 := with_overflow _ s1).
  unfold shr64 at 1. rewrite lane8_shift by lia. fold lane.
  set (s3 := if lane =? 1 then with_data (<[Z.to_nat g := Z.land m (not64 (shl64 1 bit))]> (data s)) s2 else s2).
  assert (H3 : ld (data s3) g = Some m').
  { unfold s3, m'. destruct (lane =? 1); simpl; [apply ld_st_eq; lia | exact Hm]. }
  assert (L3 : length (overflow s3) = length (overflow s) /\ length (counts s3) = length (counts s)).
  { unfold s3. destruct (lane =? 1); simpl; rewrite !length_insert; auto. }
  destruct L3 as [L3 L3'].
  assert (E3 : (if lane =? 1
                then w <- data_get g;; data_set g (Z.land w (not64 (shl64 1 bit)))
                else ret ()) s2 = Some (tt, s3)).
  { unfold s3. destruct (lane =? 1); [|reflexivity].
    mstep (data_get_eq s2 _ _ Hm). apply (data_set_eq s2). simpl; lia. }
  mstep E3.
  assert (Hclear : Z.testbit m bit = true -> Z.testbit m' bit = false <-> lane = 1).
  { intros Hb. unfold m'. destruct (Z.eqb_spec lane 1) as [E|E].
    - rewrite testbit_clear by lia. tauto.
    - rewrite Hb. split; [discriminate | contradiction]. }
  destruct (Z.land (shr64 c 32) idx_mask <? 64).
  - set (body := fun j c2 : Z => _).
    set (f := fun (j c2 : Z) =>
      match ld (overflow s3) (idx + Z.quot j 8) with
      | Some v => if 0 <? Z.land (shr64 v (8 * j)) 255
                  then shl64 (Z.lor (shl64 c2 1) 1) (Z.land (shr64 v (8 * j)) 255 - 1)
                  else c2
      | None => c2
      end).
    assert (EL : for_down 64 body 0 s3 = Some (fold_down 64 f 0, s3)).
    { apply for_down_read. intros j a Hj. unfold body.
      assert (Hjq : Z.quot j 8 = j / 8) by (apply quot_div_nonneg; lia).
      assert (0 <= j / 8 < 8)
        by (split; [apply Z.div_pos; lia | apply Z.div_lt_upper_bound; lia]).
      destruct (ld_ok (overflow s3) (idx + Z.quot j 8)) as [v Hv]; [lia|].
      mstep (overflow_get_eq s3 _ _ Hv).
      unfold f. rewrite Hv. destruct (0 <? _); reflexivity. }
    mstep EL.
    assert (Hg3 : 0 <= g < Z.of_nat (length (counts s3))) by lia.
    mstep (counts_set_eq s3 g (fold_down 64 f 0) Hg3).
    set (s4 := with_counts _ s3).
    unfold get_next at 1. unfold bind at 1.
    assert (Hb4 : 0 <= idx < Z.of_nat (length (overflow s4))) by (simpl; lia).
    mstep (overflow_set_eq s4 idx (nextFreeOverflow s4) Hb4).
    eexists. split; [reflexivity|]. split; [exact H3 | exact Hclear].
  - exists s3. split; [reflexivity|]. split; [exact H3 | exact Hclear].
Qed.

End BlockedFacts.

(* ---------- machine arithmetic ---------- *)

Lemma pow2_pos n : 0 <= n -> 0 < 2 ^ n.
Proof. intros. apply Z.pow_pos_nonneg; lia. Qed.

Lemma pow2_le a b : 0 <= a <= b -> 2 ^ a <= 2 ^ b.
Proof. intros. apply Z.pow_le_mono_r; lia. Qed.

Lemma pow2_lt a b : 0 <= a < b -> 2 ^ a < 2 ^ b.
Proof. intros. apply Z.pow_lt_mono_r; lia. Qed.

Lemma pow2_split a b : 0 <= a <= b -> 2 ^ b = 2 ^ a * 2 ^ (b - a).
Proof. intros. rewrite <- Z.pow_add_r by lia. f_equal. lia. Qed.

Lemma u64_small x : 0 <= x < 2 ^ 64 -> u64 x = x.
Proof. intros. apply Z.mod_small. assumption. Qed.

Lemma u64_range x : 0 <= u64 x < 2 ^ 64.
Proof. apply Z.mod_pos_bound. lia. Qed.

Lemma land_63 n : 0 <= n < 64 -> Z.land n 63 = n.
Proof.
  intros. change 63 with (Z.ones 6). rewrite Z.land_ones by lia.
  apply Z.mod_small. change (2 ^ 6) with 64. lia.
Qed.

Lemma shl64_mod x n : 0 <= n < 64 -> shl64 x n = (x * 2 ^ n) mod 2 ^ 64.
Proof. intros. unfold shl64, u64. rewrite land_63, Z.shiftl_mul_pow2 by lia. reflexivity. Qed.

Lemma shl64_small x n : 0 <= n < 64 -> 0 <= x -> x * 2 ^ n < 2 ^ 64 ->
  shl64 x n = x * 2 ^ n.
Proof.
  intros. rewrite shl64_mod by lia. apply Z.mod_small.
  pose proof (pow2_pos n ltac:(lia)). nia.
Qed.

Lemma shr64_div x n : 0 <= n < 64 -> shr64 x n = x / 2 ^ n.
Proof. intros. unfold shr64. rewrite land_63, Z.shiftr_div_pow2 by lia. reflexivity. Qed.

Lemma land_low c a : 0 <= a -> Z.land c (2 ^ a - 1) = c mod 2 ^ a.
Proof. intros. rewrite <- Z.land_ones by lia. rewrite Z.ones_equiv. reflexivity. Qed.

Lemma testbit_small r k n : 0 <= r < 2 ^ k -> k <= n -> Z.testbit r n = false.
Proof.
  intros Hr Hn. destruct (Z_lt_le_dec k 0).
  { rewrite Z.pow_neg_r in Hr by lia. lia. }
  rewrite <- (Z.mod_small r (2 ^ k)) by lia.
  apply Z.mod_pow2_bits_high. lia.
Qed.

Lemma land_disj k q r : 0 <= r < 2 ^ k -> Z.land (2 ^ k * q) r = 0.
Proof.
  intros Hr. destruct (Z_lt_le_dec k 0).
  { rewrite Z.pow_neg_r in Hr by lia. lia. }
  apply Z.bits_inj'. intros n Hn. rewrite Z.land_spec, Z.bits_0.
  destruct (Z_lt_le_dec n k).
  - rewrite (Z.mul_comm (2 ^ k)), Z.mul_pow2_bits_low by lia. reflexivity.
  - rewrite (testbit_small r k n) by lia. apply andb_false_r.
Qed.

Lemma lor_disj k q r : 0 <= r < 2 ^ k -> Z.lor (2 ^ k * q) r = 2 ^ k * q + r.
Proof.
  intros Hr. pose proof (Z.add_lor_land (2 ^ k * q) r) as H.
  rewrite land_disj in H by lia. lia.
Qed.

Lemma not64_mask a : 0 <= a <= 64 -> not64 (2 ^ a - 1) = 2 ^ 64 - 2 ^ a.
Proof.
  intros. unfold not64, u64. unfold Z.lnot.
  replace (Z.pred (- (2 ^ a - 1))) with (- 2 ^ a) by lia.
  pose proof (pow2_le a 64 ltac:(lia)). pose proof (pow2_pos a ltac:(lia)).
  replace (- 2 ^ a) with ((2 ^ 64 - 2 ^ a) + (-1) * 2 ^ 64) by lia.
  rewrite Z.mod_add by lia. apply Z.mod_small. lia.
Qed.

Lemma land_high c a : 0 <= c < 2 ^ 64 -> 0 <= a <= 64 ->
  Z.land c (2 ^ 64 - 2 ^ a) = 2 ^ a * (c / 2 ^ a).
Proof.
  intros Hc Ha. apply Z.bits_inj'. intros n Hn.
  rewrite Z.land_spec.
  replace (2 ^ 64 - 2 ^ a) with (Z.ones (64 - a) * 2 ^ a).
  2:{ rewrite Z.ones_equiv. rewrite (pow2_split a 64) by lia. lia. }
  rewrite (Z.mul_comm (2 ^ a)).
  destruct (Z_lt_le_dec n a).
  - rewrite !Z.mul_pow2_bits_low by lia. apply andb_false_r.
  - rewrite !Z.mul_pow2_bits by lia.
    rewrite Z.div_pow2_bits by lia.
    replace (n - a + a) with n by lia.
    destruct (Z_lt_le_dec n 64).
    + rewrite Z.ones_spec_low by lia. apply andb_true_r.
    + rewrite (testbit_small c 64 n) by lia. reflexivity.
Qed.

Lemma sub64_mask a : 0 <= a < 64 -> sub64 (shl64 1 a) 1 = 2 ^ a - 1.
Proof.
  intros. pose proof (pow2_lt a 64 ltac:(lia)). pose proof (pow2_pos a ltac:(lia)).
  rewrite shl64_small by lia. unfold sub64. rewrite Z.mul_1_l. apply u64_small. lia.
Qed.

Lemma ones64_shr bit : 0 <= bit < 64 -> shr64 ones64 (63 - bit) = 2 ^ (bit + 1) - 1.
Proof.
  intros. rewrite shr64_div by lia.
  change ones64 with (2 ^ 64 - 1).
  rewrite (pow2_split (63 - bit) 64) by lia.
  replace (64 - (63 - bit)) with (bit + 1) by lia.
  pose proof (pow2_pos (63 - bit) ltac:(lia)). pose proof (pow2_pos (bit + 1) ltac:(lia)).
  symmetry. apply Z.div_unique with (r := 2 ^ (63 - bit) - 1); lia.
Qed.

Lemma nonneg_cons x l : nonneg (x :: l) <-> 0 <= x /\ nonneg l.
Proof. unfold nonneg. apply Forall_cons. Qed.

Lemma nonneg_app l1 l2 : nonneg (l1 ++ l2) <-> nonneg l1 /\ nonneg l2.
Proof. unfold nonneg. apply Forall_app. Qed.

Lemma total_app l1 l2 : total (l1 ++ l2) = total l1 + total l2.
Proof. induction l1; simpl; lia. Qed.

Lemma npos_app l1 l2 : npos (l1 ++ l2) = npos l1 + npos l2.
Proof. induction l1; simpl; lia. Qed.

Lemma total_nonneg l : nonneg l -> 0 <= total l.
Proof. induction 1; simpl; lia. Qed.

Lemma npos_nonneg l : 0 <= npos l.
Proof. induction l as [|x l IH]; simpl; [lia|]. destruct (0 <? x); lia. Qed.

Lemma mk_range l : 0 <= mk l < 2 ^ Z.of_nat (length l).
Proof.
  induction l as [|x l IH]; simpl length; [simpl; lia|].
  rewrite Nat2Z.inj_succ, Z.pow_succ_r by lia. simpl mk.
  destruct (0 <? x); lia.
Qed.

Lemma enc_range l : nonneg l -> 0 <= enc l < 2 ^ total l.
Proof.
  induction 1 as [|x l Hx Hl IH]; simpl; [lia|].
  pose proof (total_nonneg l Hl).
  destruct (Z.ltb_spec 0 x).
  - rewrite Z.pow_add_r by lia.
    rewrite (pow2_split (x - 1) x) by lia. replace (x - (x - 1)) with 1 by lia.
    change (2 ^ 1) with 2. pose proof (pow2_pos (x - 1) ltac:(lia)). nia.
  - replace x with 0 by lia. rewrite Z.add_0_l. lia.
Qed.

Lemma enc_lower l : nonneg l -> 0 < total l -> 2 ^ (total l - 1) <= enc l.
Proof.
  induction 1 as [|x l Hx Hl IH]; simpl; [lia|]. intros Ht.
  pose proof (total_nonneg l Hl). pose proof (enc_range l Hl).
  destruct (Z.ltb_spec 0 x).
  - destruct (Z.eq_dec (total l) 0) as [E|E].
    + rewrite E. replace (x + 0 - 1) with (x - 1) by lia. pose proof (pow2_pos x ltac:(lia)). nia.
    + specialize (IH ltac:(lia)).
      replace (x + total l - 1) with (x + (total l - 1)) by lia.
      rewrite Z.pow_add_r by lia. pose proof (pow2_pos x ltac:(lia)). pose proof (pow2_pos (x - 1) ltac:(lia)). nia.
  - replace x with 0 in * by lia. apply IH. lia.
Qed.

Lemma enc_zero l : nonneg l -> total l = 0 -> enc l = 0.
Proof. intros H E. pose proof (enc_range l H) as R. rewrite E in R. change (2 ^ 0) with 1 in R. lia. Qed.

Lemma enc_app l1 l2 : nonneg l1 -> enc (l1 ++ l2) = enc l1 + 2 ^ total l1 * enc l2.
Proof.
  induction 1 as [|x l Hx Hl IH]; simpl; [lia|].
  pose proof (total_nonneg l Hl).
  destruct (Z.ltb_spec 0 x).
  - rewrite IH. rewrite Z.pow_add_r by lia. ring.
  - replace x with 0 by lia. rewrite Z.add_0_l. apply IH.
Qed.

Lemma mk_app l1 l2 : mk (l1 ++ l2) = mk l1 + 2 ^ Z.of_nat (length l1) * mk l2.
Proof.
  induction l1 as [|x l IH]; simpl length; [simpl; lia|].
  rewrite Nat2Z.inj_succ, Z.pow_succ_r by lia. simpl. rewrite IH. ring.
Qed.

Lemma odd_land z : Z.land (1 + 2 * z) 1 = 1.
Proof. rewrite land_1_mod. rewrite (Z.mul_comm 2 z), Z.mod_add by lia. reflexivity. Qed.

Lemma even_land z : Z.land (2 * z) 1 = 0.
Proof. rewrite land_1_mod. rewrite Z.mul_comm, Z.mod_mul by lia. reflexivity. Qed.

Lemma odd_shr z : Z.shiftr (1 + 2 * z) 1 = z.
Proof.
  rewrite Z.shiftr_div_pow2 by lia. change (2 ^ 1) with 2.
  rewrite (Z.mul_comm 2 z), Z.div_add by lia. reflexivity.
Qed.

Lemma even_shr z : Z.shiftr (2 * z) 1 = z.
Proof.
  rewrite Z.shiftr_div_pow2 by lia. change (2 ^ 1) with 2.
  rewrite Z.mul_comm, Z.div_mul by lia. reflexivity.
Qed.

Lemma popcount_bits_0 w : popcount_bits w 0 = 0.
Proof. induction w; simpl; [reflexivity|]. rewrite Z.shiftr_0_l. exact IHw. Qed.

Lemma popcount_mk l : forall w, (length l <= w)%nat -> popcount_bits w (mk l) = npos l.
Proof.
  induction l as [|x l IH]; intros w Hw.
  - apply popcount_bits_0.
  - destruct w as [|w]; [simpl in Hw; lia|]. cbn [popcount_bits mk npos].
    destruct (0 <? x).
    + rewrite odd_land, odd_shr. rewrite IH by (simpl in Hw; lia). reflexivity.
    + rewrite Z.add_0_l, even_land, even_shr. rewrite IH by (simpl in Hw; lia). reflexivity.
Qed.

Lemma mk_mod l (k : nat) : (k <= length l)%nat -> mk l mod 2 ^ Z.of_nat k = mk (firstn k l).
Proof.
  intros Hk. rewrite <- (firstn_skipn k l) at 1. rewrite mk_app.
  rewrite length_firstn, Nat.min_l by lia.
  rewrite (Z.mul_comm (2 ^ _)), Z.mod_add by (pose proof (pow2_pos (Z.of_nat k)); lia).
  apply Z.mod_small. pose proof (mk_range (firstn k l)) as R.
  rewrite length_firstn, Nat.min_l in R by lia. exact R.
Qed.

(** [bitsBefore] *)
Lemma bitsBefore_spec cs bit : length cs = 64%nat -> 0 <= bit < 64 ->
  bitCount64 (Z.land (mk cs) (shr64 ones64 (63 - bit)))
  = npos (firstn (Z.to_nat (bit + 1)) cs).
Proof.
  intros Hl Hb. rewrite ones64_shr, land_low by lia.
  replace (bit + 1) with (Z.of_nat (Z.to_nat (bit + 1))) at 1 by lia.
  rewrite mk_mod by lia. apply popcount_mk. rewrite length_firstn. lia.
Qed.

(* ---------- select64 on the unary code ---------- *)

Lemma select_skip (k : nat) : forall fuel i y n,
  select64_loop (k + fuel) i (2 ^ Z.of_nat k * y) n = select64_loop fuel (i + Z.of_nat k) y n.
Proof.
  induction k as [|k IH]; intros fuel i y n.
  - simpl. rewrite Z.add_0_r. destruct y; reflexivity.
  - rewrite Nat2Z.inj_succ, Z.pow_succ_r by lia.
    cbn [Nat.add select64_loop].
    rewrite <- Z.mul_assoc, even_land, even_shr. cbn [Z.eqb].
    rewrite IH. f_equal. lia.
Qed.

Lemma select_enc pre : forall x post fuel i,
  nonneg pre -> nonneg post -> 0 < x -> total pre + x <= Z.of_nat fuel ->
  select64_loop fuel i (enc (pre ++ x :: post)) (npos pre) = i + total pre + x - 1.
Proof.
  assert (Hhead : forall x rest fuel i n, 0 < x -> x <= Z.of_nat fuel ->
            select64_loop fuel i (2 ^ (x - 1) + 2 ^ x * rest) n
            = if n =? 0 then i + x - 1
              else select64_loop (fuel - Z.to_nat x) (i + x) rest (n - 1)).
  { intros x rest fuel i n Hx Hf.
    replace fuel with (Z.to_nat (x - 1) + S (fuel - Z.to_nat x))%nat at 1 by lia.
    replace (2 ^ (x - 1) + 2 ^ x * rest) with (2 ^ Z.of_nat (Z.to_nat (x - 1)) * (1 + 2 * rest)).
    2:{ rewrite Z2Nat.id by lia. rewrite (pow2_split (x - 1) x) by lia.
        replace (x - (x - 1)) with 1 by lia. change (2 ^ 1) with 2. ring. }
    rewrite select_skip. cbn [select64_loop]. rewrite odd_land, odd_shr. cbn [Z.eqb Pos.eqb].
    rewrite Z2Nat.id by lia.
    destruct (n =? 0); [lia|]. f_equal. lia. }
  induction pre as [|y pre IH]; intros x post fuel i Hpre Hpost Hx Hf.
  - cbn [app enc npos total]. destruct (Z.ltb_spec 0 x); [|lia].
    rewrite Hhead by (cbn [total] in Hf; lia). cbn [Z.eqb]. lia.
  - apply nonneg_cons in Hpre as [Hy Hpre].
    pose proof (total_nonneg pre Hpre). pose proof (npos_nonneg pre).
    cbn [app enc npos total] in *. destruct (Z.ltb_spec 0 y).
    + rewrite Hhead by lia.
      destruct (Z.eqb_spec (1 + npos pre) 0); [lia|].
      replace (1 + npos pre - 1) with (npos pre) by lia.
      rewrite IH by (auto; lia). lia.
    + replace y with 0 in * by lia. rewrite Z.add_0_l. rewrite IH by (auto; lia). lia.
Qed.

Lemma npos_0_total l : nonneg l -> npos l = 0 -> total l = 0.
Proof.
  induction 1 as [|x l Hx Hl IH]; cbn [npos total]; [reflexivity|].
  pose proof (npos_nonneg l). destruct (Z.ltb_spec 0 x); lia.
Qed.

Lemma last_pos l : nonneg l -> 0 < npos l ->
  exists l1 y l2, l = l1 ++ y :: l2 /\ 0 < y /\ nonneg l1 /\ nonneg l2 /\ npos l2 = 0.
Proof.
  induction 1 as [|a l Ha Hl IH]; cbn [npos]; [lia|]. intros Hp.
  pose proof (npos_nonneg l).
  destruct (Z.eq_dec (npos l) 0) as [E|E].
  - exists [], a, l. destruct (Z.ltb_spec 0 a); [|lia].
    repeat split; auto. constructor.
  - destruct (IH ltac:(lia)) as (l1 & y & l2 & -> & Hy & H1 & H2 & H3).
    exists (a :: l1), y, l2. repeat split; auto. apply nonneg_cons; auto.
Qed.

Lemma mk_cons x l : mk (x :: l) = b2 x + 2 * mk l.
Proof. reflexivity. Qed.

Lemma b2_cases x : b2 x = 0 \/ b2 x = 1.
Proof. unfold b2. destruct (0 <? x); auto. Qed.

Lemma divmod_pow2 c a Q R : 0 <= a -> 0 <= R < 2 ^ a -> c = 2 ^ a * Q + R ->
  c / 2 ^ a = Q /\ c mod 2 ^ a = R.
Proof.
  intros Ha HR E. pose proof (pow2_pos a Ha).
  split; [symmetry; apply (Z.div_unique c (2 ^ a) Q R) | symmetry; apply (Z.mod_unique c (2 ^ a) Q R)];
    try lia.
Qed.

Lemma lor_pow2 m k : 0 <= k ->
  Z.lor m (2 ^ k) = if Z.testbit m k then m else m + 2 ^ k.
Proof.
  intros Hk. destruct (Z.testbit m k) eqn:E.
  - apply Z.bits_inj'. intros n Hn. rewrite Z.lor_spec.
    destruct (Z.eq_dec n k) as [->|Hne].
    + rewrite E. reflexivity.
    + rewrite Z.pow2_bits_false by lia. apply orb_false_r.
  - pose proof (Z.add_lor_land m (2 ^ k)) as H.
    assert (Z.land m (2 ^ k) = 0) as H0; [|lia].
    apply Z.bits_inj'. intros n Hn. rewrite Z.land_spec, Z.bits_0.
    destruct (Z.eq_dec n k) as [->|Hne].
    + rewrite E. reflexivity.
    + rewrite Z.pow2_bits_false by lia. apply andb_false_r.
Qed.

Lemma clear_pow2 m k : 0 <= m < 2 ^ 64 -> 0 <= k < 64 ->
  Z.land m (not64 (2 ^ k)) = if Z.testbit m k then m - 2 ^ k else m.
Proof.
  intros Hm Hk.
  assert (El : Z.land m (not64 (2 ^ k)) = Z.ldiff m (2 ^ k)).
  { apply Z.bits_inj'. intros n Hn. rewrite Z.land_spec, Z.ldiff_spec.
    destruct (Z_lt_le_dec n 64).
    - unfold not64, u64. rewrite Z.mod_pow2_bits_low, Z.lnot_spec by lia. reflexivity.
    - rewrite (testbit_small m 64 n) by lia. reflexivity. }
  rewrite El. destruct (Z.testbit m k) eqn:E.
  - symmetry. apply Z.sub_nocarry_ldiff.
    apply Z.bits_inj'. intros n Hn. rewrite Z.ldiff_spec, Z.bits_0.
    destruct (Z.eq_dec n k) as [->|Hne].
    + rewrite E. apply andb_false_r.
    + rewrite Z.pow2_bits_false by lia. reflexivity.
  - apply Z.bits_inj'. intros n Hn. rewrite Z.ldiff_spec.
    destruct (Z.eq_dec n k) as [->|Hne].
    + rewrite E. reflexivity.
    + rewrite Z.pow2_bits_false by lia. apply andb_true_r.
Qed.

Lemma testbit_b2z m k : 0 <= k -> Z.testbit m k = ((m / 2 ^ k) mod 2 =? 1).
Proof.
  intros Hk. pose proof (Z.testbit_spec' m k Hk) as H.
  destruct (Z.testbit m k); simpl in H; rewrite <- H; reflexivity.
Qed.

(** The three views of a group at bit [bit]: the bits before it, its own
    count [x] and the bits after it. *)
Section AtBit.

Variables (pre post : list Z) (x bit : Z).

Hypothesis Hbit : bit = Z.of_nat (length pre).

Hypothesis Hlen : length (pre ++ x :: post) = 64%nat.

Hypothesis Hpre : nonneg pre.

Hypothesis Hpost : nonneg post.

Hypothesis Hx : 0 <= x.

Let cs := pre ++ x :: post.

Let m := mk cs.

Let c := enc cs.

Lemma at_bit_range : 0 <= bit < 64.
Proof using All. rewrite length_app in Hlen. simpl in Hlen. lia. Qed.

Lemma at_total : total cs = total pre + x + total post.
Proof using All. unfold cs. rewrite total_app. cbn [total]. lia. Qed.

Lemma at_m : m = mk pre + 2 ^ bit * (b2 x + 2 * mk post).
Proof using All. unfold m, cs. rewrite mk_app, mk_cons, Hbit. reflexivity. Qed.

Lemma at_c : c = enc pre + 2 ^ total pre * enc (x :: post).
Proof using All. unfold c, cs. apply enc_app. exact Hpre. Qed.

Lemma at_d : Z.land (shr64 m bit) 1 = b2 x.
Proof using All.
  pose proof at_bit_range. rewrite shr64_div by lia. rewrite land_1_mod, at_m.
  pose proof (mk_range pre) as R. rewrite <- Hbit in R.
  rewrite (Z.mul_comm (2 ^ bit)), Z.div_add by lia.
  rewrite Z.div_small by lia. rewrite Z.add_0_l.
  rewrite (Z.mul_comm 2), Z.mod_add by lia.
  destruct (b2_cases x) as [-> | ->]; reflexivity.
Qed.

Lemma at_bitsBefore :
  bitCount64 (Z.land m (shr64 ones64 (63 - bit))) = npos pre + b2 x.
Proof using All.
  pose proof at_bit_range as Hr. unfold m. rewrite (bitsBefore_spec cs bit Hlen Hr).
  unfold cs. replace (Z.to_nat (bit + 1)) with (length pre + 1)%nat by lia.
  rewrite firstn_app. replace (length pre + 1 - length pre)%nat with 1%nat by lia.
  rewrite firstn_all2 by lia. rewrite npos_app. cbn [firstn npos]. unfold b2.
  change (firstn 0 post) with (@nil Z). cbn [npos].
  destruct (0 <? x); lia.
Qed.

Lemma at_before : total cs <= 63 ->
  select64 (Z.lor (shl64 c 1) 1) (npos pre + b2 x) = total pre + x.
Proof using All.
  intros Ht.
  assert (Hcs : nonneg cs) by (apply nonneg_app; split; [|apply nonneg_cons]; auto).
  pose proof (enc_range cs Hcs) as R. fold c in R.
  pose proof (total_nonneg pre Hpre). pose proof (total_nonneg post Hpost).
  pose proof at_total as Et.
  assert (c < 2 ^ 63) by (pose proof (pow2_le (total cs) 63 ltac:(pose proof (total_nonneg cs Hcs); lia)); lia).
  rewrite shl64_small by (change (2 ^ 1) with 2; lia).
  change (2 ^ 1) with 2. rewrite Z.mul_comm.
  replace (Z.lor (2 * c) 1) with (1 + 2 * c).
  2:{ change 2 with (2 ^ 1) at 2. rewrite lor_disj by (change (2 ^ 1) with 2; lia). lia. }
  change (1 + 2 * c) with (enc (1 :: cs)).
  unfold select64, b2. destruct (Z.ltb_spec 0 x).
  - change (1 :: cs) with ((1 :: pre) ++ x :: post).
    replace (npos pre + 1) with (npos (1 :: pre)) by (cbn [npos]; simpl; lia).
    rewrite select_enc; auto.
    + cbn [total]. lia.
    + apply nonneg_cons. split; [lia | auto].
    + cbn [total]. lia.
  - assert (Ex : x = 0) by lia.
    destruct (last_pos (1 :: pre)) as (l1 & y & l2 & E & Hy & Hl1 & Hl2 & Hl3).
    { apply nonneg_cons. split; [lia | auto]. }
    { cbn [npos]. pose proof (npos_nonneg pre). simpl. lia. }
    change (1 :: cs) with ((1 :: pre) ++ x :: post). rewrite E.
    rewrite <- app_assoc. cbn [app].
    assert (En : npos pre = npos l1).
    { assert (npos (1 :: pre) = npos (l1 ++ y :: l2)) as En by (rewrite E; reflexivity).
      rewrite npos_app in En. cbn [npos] in En. destruct (Z.ltb_spec 0 y); [|lia].
      destruct (0 <? 1) eqn:E1; [|discriminate]. lia. }
    assert (Etot : 1 + total pre = total l1 + y).
    { assert (total (1 :: pre) = total (l1 ++ y :: l2)) as Et' by (rewrite E; reflexivity).
      rewrite total_app in Et'. cbn [total] in Et'.
      rewrite (npos_0_total l2 Hl2 Hl3) in Et'. lia. }
    rewrite Z.add_0_r, En, select_enc; auto; try lia.
    apply nonneg_app. split; [auto | apply nonneg_cons; auto].
Qed.

Lemma at_cs_nonneg : nonneg cs.
Proof using All. apply nonneg_app; split; [|apply nonneg_cons]; auto. Qed.

Lemma at_testbit : Z.testbit m bit = (0 <? x).
Proof using All.
  pose proof at_bit_range. rewrite testbit_b2z by lia.
  rewrite <- land_1_mod, <- shr64_div by lia. rewrite at_d. unfold b2.
  destruct (0 <? x); reflexivity.
Qed.

Lemma at_m_range : 0 <= m < 2 ^ 64.
Proof using All. pose proof (mk_range cs) as R. unfold cs in R. rewrite Hlen in R. exact R. Qed.

(** The presence word after [data[group] |= 1ULL << bit]. *)
Lemma at_set_bit : Z.lor m (shl64 1 bit) = mk (pre ++ (x + 1) :: post).
Proof using All.
  pose proof at_bit_range. pose proof (pow2_lt bit 64 ltac:(lia)).
  rewrite shl64_small, Z.mul_1_l by lia.
  rewrite lor_pow2, at_testbit by lia.
  rewrite mk_app, mk_cons, <- Hbit. rewrite at_m. unfold b2.
  destruct (Z.ltb_spec 0 x); destruct (Z.ltb_spec 0 (x + 1)); lia.
Qed.

(** The shape of [c] around the insertion point: [c = 2 ^ a * Q + R]. *)
Lemma at_c_split :
  c = 2 ^ (total pre + x - b2 x) * (if 0 <? x then 1 + 2 * enc post else enc post) + enc pre.
Proof using All.
  rewrite at_c. cbn [enc]. unfold b2. pose proof (total_nonneg pre Hpre).
  destruct (Z.ltb_spec 0 x).
  - replace (total pre + x - 1) with (total pre + (x - 1)) by lia.
    rewrite (Z.pow_add_r 2 (total pre) (x - 1)) by lia.
    rewrite (pow2_split (x - 1) x) by lia. replace (x - (x - 1)) with 1 by lia.
    change (2 ^ 1) with 2. ring.
  - replace (total pre + x - 0) with (total pre) by lia. ring.
Qed.

Lemma at_inc : total cs <= 62 -> inc_word m c bit = enc (pre ++ (x + 1) :: post).
Proof using All.
  intros Ht. unfold inc_word.
  rewrite at_bitsBefore, at_before, at_d by lia.
  pose proof at_cs_nonneg as Hcs. pose proof at_total as Et.
  pose proof (total_nonneg pre Hpre). pose proof (total_nonneg post Hpost).
  pose proof (enc_range cs Hcs) as Rc. fold c in Rc.
  pose proof (enc_range pre Hpre) as Rp. pose proof (enc_range post Hpost) as Rq.
  pose proof (pow2_le (total cs) 62 ltac:(lia)) as P62.
  pose proof (b2_cases x) as Hb.
  set (a := total pre + x - b2 x).
  assert (Ha : 0 <= a <= 62) by (unfold a, b2 in *; destruct (Z.ltb_spec 0 x); lia).
  assert (Hpa : 2 ^ total pre <= 2 ^ a).
  { apply pow2_le. unfold a, b2. destruct (Z.ltb_spec 0 x); lia. }
  pose proof (pow2_pos a ltac:(lia)) as Pa.
  rewrite sub64_mask, land_low, not64_mask, land_high by lia.
  destruct (divmod_pow2 c a _ (enc pre) ltac:(lia) ltac:(lia) at_c_split) as [Eq Er].
  fold a in Eq, Er. rewrite Eq, Er.
  set (Q := if 0 <? x then 1 + 2 * enc post else enc post) in *.
  assert (HQ : 0 <= Q) by (unfold Q; destruct (0 <? x); lia).
  assert (Hc62 : 2 ^ a * Q <= c) by (rewrite at_c_split; fold a; fold Q; lia).
  rewrite shl64_small by (change (2 ^ 1) with 2; lia).
  assert (Ex : Z.lxor 1 (b2 x) = 1 - b2 x) by (destruct Hb as [-> | ->]; reflexivity).
  pose proof (pow2_lt a 64 ltac:(lia)) as Pa64.
  rewrite Ex. rewrite shl64_small by first [lia | destruct Hb as [Hb | Hb]; rewrite Hb; lia].
  change (2 ^ 1) with 2.
  replace (2 ^ a * Q * 2) with (2 ^ (a + 1) * Q) by (rewrite Z.pow_add_r by lia; change (2 ^ 1) with 2; ring).
  rewrite lor_disj by (rewrite Z.pow_add_r by lia; change (2 ^ 1) with 2; lia).
  replace (2 ^ (a + 1) * Q + (1 - b2 x) * 2 ^ a) with (2 ^ a * (2 * Q + (1 - b2 x)))
    by (rewrite Z.pow_add_r by lia; change (2 ^ 1) with 2; ring).
  rewrite lor_disj by lia.
  rewrite enc_app by auto. cbn [enc].
  destruct (Z.ltb_spec 0 (x + 1)); [|lia].
  unfold a, Q, b2. destruct (Z.ltb_spec 0 x).
  - replace (total pre + x - 1) with (total pre + (x - 1)) by lia.
    replace (x + 1 - 1) with (1 + (x - 1)) by lia.
    replace (x + 1) with (2 + (x - 1)) by lia.
    rewrite !Z.pow_add_r by lia. change (2 ^ 1) with 2. change (2 ^ 2) with 4. ring.
  - replace x with 0 by lia. rewrite !Z.add_0_r, Z.sub_0_r, Z.add_0_l.
    change (2 ^ (1 - 1)) with 1. change (2 ^ 1) with 2. ring.
Qed.

Lemma at_dec_at : 0 < x -> total cs <= 63 ->
  dec_at m c bit = Z.max 0 (total pre + x - 2).
Proof using All.
  intros Hx0 Ht. unfold dec_at. rewrite at_bitsBefore, at_before by lia.
  f_equal. lia.
Qed.

(** Around the removal point [r]: [c = 2 ^ (r + 1) * Q + removed * 2 ^ r + R]
    with [R < 2 ^ r], and the word without bit [r] encodes the count
    [x - 1]. *)
Lemma at_dec_split : 0 < x -> total cs <= 63 ->
  let r := Z.max 0 (total pre + x - 2) in
  exists Q R, 0 <= R < 2 ^ r /\ 0 <= Q /\
    c = 2 ^ (r + 1) * Q + (if x =? 1 then 1 else 0) * 2 ^ r + R /\
    enc (pre ++ (x - 1) :: post) = 2 ^ r * Q + R.
Proof using All.
  intros Hx0 Ht r.
  pose proof (total_nonneg pre Hpre). pose proof (total_nonneg post Hpost).
  pose proof (enc_range pre Hpre) as Rp. pose proof (enc_range post Hpost) as Rq.
  rewrite enc_app by auto. rewrite at_c. cbn [enc].
  destruct (Z.ltb_spec 0 x); [|lia].
  destruct (Z.eqb_spec x 1) as [E1|E1].
  - (* the count goes from 1 to 0 *)
    destruct (Z.ltb_spec 0 (x - 1)); [lia|]. rewrite E1.
    change (2 ^ (1 - 1)) with 1. change (2 ^ 1) with 2.
    destruct (Z.eq_dec (total pre) 0) as [E0|E0].
    + exists (enc post), 0. unfold r. rewrite E0, E1. change (Z.max 0 (0 + 1 - 2)) with 0.
      rewrite (enc_zero pre Hpre E0). change (2 ^ 0) with 1. change (2 ^ (0 + 1)) with 2.
      repeat split; lia.
    + pose proof (enc_lower pre Hpre ltac:(lia)) as Lp.
      exists (1 + 2 * enc post), (enc pre - 2 ^ (total pre - 1)).
      unfold r. rewrite E1. replace (Z.max 0 (total pre + 1 - 2)) with (total pre - 1) by lia.
      replace (total pre - 1 + 1) with (total pre) by lia.
      rewrite (pow2_split (total pre - 1) (total pre)) in * by lia.
      replace (total pre - (total pre - 1)) with 1 in * by lia. change (2 ^ 1) with 2 in *.
      repeat split; try lia.
  - destruct (Z.ltb_spec 0 (x - 1)); [|lia].
    exists (1 + 2 * enc post), (enc pre).
    unfold r. replace (Z.max 0 (total pre + x - 2)) with (total pre + (x - 2)) by lia.
    pose proof (pow2_le (total pre) (total pre + (x - 2)) ltac:(lia)).
    split; [lia|]. split; [lia|].
    assert (P1 : 2 ^ (x - 1) = 2 * 2 ^ (x - 2)).
    { replace (x - 1) with (1 + (x - 2)) by lia. rewrite Z.pow_add_r by lia. reflexivity. }
    assert (P2 : 2 ^ x = 4 * 2 ^ (x - 2)).
    { replace x with (2 + (x - 2)) at 1 by lia. rewrite Z.pow_add_r by lia. reflexivity. }
    assert (P3 : 2 ^ (total pre + (x - 2) + 1) = 2 * (2 ^ total pre * 2 ^ (x - 2))).
    { rewrite !Z.pow_add_r by lia. change (2 ^ 1) with 2. ring. }
    assert (P4 : 2 ^ (total pre + (x - 2)) = 2 ^ total pre * 2 ^ (x - 2)).
    { rewrite !Z.pow_add_r by lia. ring. }
    replace (x - 1 - 1) with (x - 2) by lia.
    rewrite P3, P4, P2, P1. split; ring.
Qed.

Lemma at_dec : 0 < x -> total cs <= 63 ->
  dec_word m c bit = enc (pre ++ (x - 1) :: post)
  /\ Z.land (shr64 c (dec_at m c bit)) 1 = (if x =? 1 then 1 else 0).
Proof using All.
  intros Hx0 Ht. unfold dec_word. rewrite at_dec_at by lia.
  destruct (at_dec_split Hx0 Ht) as (Q & R & HR & HQ & Ec & Ee).
  set (r := Z.max 0 (total pre + x - 2)) in *.
  pose proof (total_nonneg pre Hpre). pose proof (total_nonneg post Hpost).
  pose proof at_total as Et.
  assert (Hr : 0 <= r <= 61) by (unfold r; lia).
  pose proof (pow2_pos r ltac:(lia)) as Pr.
  pose proof (enc_range cs at_cs_nonneg) as Rc. fold c in Rc.
  pose proof (pow2_le (total cs) 63 ltac:(lia)) as P63.
  set (d := if x =? 1 then 1 else 0) in *.
  assert (Hd : d = 0 \/ d = 1) by (unfold d; destruct (x =? 1); auto).
  rewrite sub64_mask, land_low, not64_mask by lia.
  rewrite !shr64_div by lia.
  assert (E0 : c = 2 ^ r * (2 * Q + d) + R).
  { rewrite Ec. rewrite Z.pow_add_r by lia. change (2 ^ 1) with 2. ring. }
  destruct (divmod_pow2 c r _ R ltac:(lia) HR E0) as [Eq Er].
  assert (E1 : c = 2 ^ (r + 1) * Q + (d * 2 ^ r + R)) by lia.
  assert (HR1 : 0 <= d * 2 ^ r + R < 2 ^ (r + 1)).
  { rewrite Z.pow_add_r by lia. change (2 ^ 1) with 2. destruct Hd as [-> | ->]; lia. }
  destruct (divmod_pow2 c (r + 1) _ _ ltac:(lia) HR1 E1) as [Eq1 _].
  rewrite land_high.
  2:{ change (2 ^ 1) with 2. split; [apply Z.div_pos; lia | apply Z.div_lt_upper_bound; lia]. }
  2:{ lia. }
  rewrite Z.div_div by lia. change (2 ^ 1) with 2.
  replace (2 * 2 ^ r) with (2 ^ (r + 1)) by (rewrite Z.pow_add_r by lia; change (2 ^ 1) with 2; ring).
  rewrite Eq1, Er, Eq. rewrite lor_disj by lia. split; [lia|].
  rewrite land_1_mod. rewrite Z.add_comm, Z.mul_comm, Z.mod_add by lia.
  destruct Hd as [-> | ->]; reflexivity.
Qed.

Lemma at_dec_data : 0 < x -> total cs <= 63 ->
  dec_data m c bit = mk (pre ++ (x - 1) :: post).
Proof using All.
  intros Hx0 Ht. unfold dec_data. destruct (at_dec Hx0 Ht) as [_ ->].
  pose proof at_bit_range. pose proof at_m_range as Rm.
  rewrite mk_app, mk_cons, <- Hbit.
  destruct (Z.eqb_spec x 1) as [E|E].
  - pose proof (pow2_lt bit 64 ltac:(lia)).
    rewrite shl64_small, Z.mul_1_l by lia.
    rewrite clear_pow2, at_testbit by lia. rewrite at_m. unfold b2.
    destruct (Z.ltb_spec 0 x); [|lia]. destruct (Z.ltb_spec 0 (x - 1)); lia.
  - rewrite shl64_small by lia. rewrite Z.mul_0_l.
    change 0 with (2 ^ 0 - 1) at 1. rewrite not64_mask by lia.
    change (2 ^ 64 - 2 ^ 0) with (2 ^ 64 - 1). rewrite land_low by lia.
    rewrite Z.mod_small by lia. rewrite at_m. unfold b2.
    destruct (Z.ltb_spec 0 x); [|lia]. destruct (Z.ltb_spec 0 (x - 1)); lia.
Qed.

Lemma at_read : 0 < x -> total cs <= 63 -> read_inline m c bit = Some x.
Proof using All.
  intros Hx0 Ht. unfold read_inline.
  rewrite at_bitsBefore. unfold b2. destruct (Z.ltb_spec 0 x); [|lia].
  replace (npos pre + 1 - 1) with (npos pre) by lia.
  pose proof (total_nonneg pre Hpre). pose proof (total_nonneg post Hpost).
  pose proof at_total as Et.
  unfold select64, c, cs. rewrite select_enc; auto; [|lia]. fold cs. fold c.
  rewrite Z.add_0_l.
  set (T := total pre + x - 1).
  assert (HT : 0 <= T <= 62) by (unfold T; lia).
  pose proof (enc_range pre Hpre) as Rp. pose proof (enc_range post Hpost) as Rq.
  assert (Ec : c = 2 ^ T * (1 + 2 * enc post) + enc pre).
  { pose proof at_c_split as E. unfold b2 in E. destruct (Z.ltb_spec 0 x); [|lia]. exact E. }
  pose proof (pow2_le (total pre) T ltac:(unfold T; lia)) as PT.
  destruct (divmod_pow2 c T _ (enc pre) ltac:(lia) ltac:(lia) Ec) as [_ Er].
  assert (Ey : shl64 (shl64 c (63 - T)) 1 = 2 ^ (64 - T) * enc pre).
  { rewrite (shl64_mod _ 1) by lia. rewrite shl64_mod by lia.
    change (2 ^ 1) with 2. rewrite Z.mul_mod_idemp_l by lia.
    replace (c * 2 ^ (63 - T) * 2) with (c * 2 ^ (64 - T)).
    2:{ replace (64 - T) with (63 - T + 1) by lia. rewrite Z.pow_add_r by lia.
        change (2 ^ 1) with 2. ring. }
    rewrite (pow2_split (64 - T) 64) by lia. replace (64 - (64 - T)) with T by lia.
    rewrite (Z.mul_comm c), Z.mul_mod_distr_l by (pose proof (pow2_pos T); pose proof (pow2_pos (64 - T)); lia).
    rewrite Er. reflexivity. }
  rewrite Ey. pose proof (pow2_lt (63 - T) 64 ltac:(lia)).
  rewrite shl64_small, Z.mul_1_l by lia.
  replace (64 - T) with (63 - T + 1) by lia.
  pose proof (pow2_pos (63 - T) ltac:(lia)) as P63.
  assert (Ey2 : Z.lor (2 ^ (63 - T + 1) * enc pre) (2 ^ (63 - T))
                = 2 ^ (63 - T + 1) * enc pre + 2 ^ (63 - T)).
  { apply lor_disj. rewrite Z.pow_add_r by lia. change (2 ^ 1) with 2. lia. }
  rewrite Ey2. set (y := _ + _).
  assert (Hlog : Z.log2 y = 64 - x).
  { apply Z.log2_unique; [lia|]. unfold y, Z.succ.
    replace (64 - x + 1) with (63 - T + 1 + total pre) by (unfold T; lia).
    rewrite (Z.pow_add_r 2 (63 - T + 1) (total pre)) by lia.
    destruct (Z.eq_dec (total pre) 0) as [E0|E0].
    - rewrite (enc_zero pre Hpre E0). rewrite E0.
      replace (64 - x) with (63 - T) by (unfold T; lia).
      rewrite Z.pow_add_r by lia. change (2 ^ 1) with 2. change (2 ^ 0) with 1. lia.
    - pose proof (enc_lower pre Hpre ltac:(lia)) as Lp.
      replace (64 - x) with (63 - T + 1 + (total pre - 1)) by (unfold T; lia).
      rewrite (Z.pow_add_r 2 (63 - T + 1) (total pre - 1)) by lia.
      pose proof (pow2_pos (63 - T + 1) ltac:(lia)).
      rewrite (Z.pow_add_r 2 (63 - T) 1) in * by lia. change (2 ^ 1) with 2 in *.
      split; nia. }
  unfold numberOfLeadingZeros64.
  destruct (Z.eqb_spec y 0) as [E|E].
  { exfalso. unfold y in E. pose proof (pow2_pos (63 - T + 1) ltac:(lia)). nia. }
  rewrite Hlog. f_equal. lia.
Qed.

Lemma at_clear : 0 < x -> Z.land m (not64 (shl64 1 bit)) = mk (pre ++ 0 :: post).
Proof using All.
  intros Hx0. pose proof at_bit_range. pose proof at_m_range as Rm.
  pose proof (pow2_lt bit 64 ltac:(lia)).
  rewrite shl64_small, Z.mul_1_l by lia.
  rewrite clear_pow2, at_testbit by lia. rewrite at_m.
  rewrite mk_app, mk_cons, <- Hbit. unfold b2.
  destruct (Z.ltb_spec 0 x); [|lia]. destruct (Z.ltb_spec 0 0); lia.
Qed.

End AtBit.

Lemma nibble_range w j : 0 <= nibble w j <= 15.
Proof.
  unfold nibble.
  pose proof (Z.land_ones (Z.shiftr w (4 * j)) 4 ltac:(lia)) as E.
  change (Z.ones 4) with 15 in E. rewrite E.
  pose proof (Z.mod_pos_bound (Z.shiftr w (4 * j)) (2 ^ 4) ltac:(lia)).
  change (2 ^ 4) with 16 in *. lia.
Qed.

(** Adding [d] to lane [t] of a word, without carry or borrow. *)
Lemma nibble_add w t d :
  0 <= w < 2 ^ 64 -> 0 <= t < 16 -> 0 <= nibble w t + d <= 15 ->
  0 <= w + d * 2 ^ (4 * t) < 2 ^ 64
  /\ nibble (w + d * 2 ^ (4 * t)) t = nibble w t + d
  /\ (forall i, 0 <= i < 16 -> i <> t ->
        nibble (w + d * 2 ^ (4 * t)) i = nibble w i).
Proof.
  intros Hw Ht Hd. rewrite (nibble_div w t) in Hd by lia.
  set (k := 4 * t) in *. assert (Hk : 0 <= k <= 60) by (unfold k; lia).
  pose proof (pow2_pos k ltac:(lia)) as Pk.
  set (q := w / 2 ^ k) in *. set (n := q mod 16) in *.
  pose proof (Z.div_mod w (2 ^ k) ltac:(lia)) as Ew. fold q in Ew.
  pose proof (Z.mod_pos_bound w (2 ^ k) ltac:(lia)) as Hlo.
  pose proof (Z.div_mod q 16 ltac:(lia)) as Eq. fold n in Eq.
  pose proof (Z.mod_pos_bound q 16 ltac:(lia)) as Hn. fold n in Hn.
  assert (Hq : 0 <= q < 2 ^ (64 - k)).
  { unfold q. split; [apply Z.div_pos; lia|]. apply Z.div_lt_upper_bound; [lia|].
    rewrite <- Z.pow_add_r by lia. replace (k + (64 - k)) with 64 by lia. lia. }
  assert (Hhi : 0 <= q / 16 < 2 ^ (60 - k)).
  { split; [apply Z.div_pos; lia|]. apply Z.div_lt_upper_bound; [lia|].
    change 16 with (2 ^ 4). rewrite <- Z.pow_add_r by lia.
    replace (4 + (60 - k)) with (64 - k) by lia. lia. }
  assert (Ediv : (w + d * 2 ^ k) / 2 ^ k = q + d).
  { rewrite Z.div_add by lia. reflexivity. }
  assert (E16 : (q + d) / 16 = q / 16).
  { symmetry. apply (Z.div_unique (q + d) 16 (q / 16) (n + d)); lia. }
  split; [|split].
  - assert (E64 : 2 ^ 64 = 2 ^ k * (16 * 2 ^ (60 - k))).
    { change 16 with (2 ^ 4). rewrite <- !Z.pow_add_r by lia. f_equal. lia. }
    rewrite E64. nia.
  - rewrite !nibble_div by lia. fold k. rewrite Ediv. fold q. fold n.
    symmetry. apply (Z.mod_unique (q + d) 16 (q / 16) (n + d)); lia.
  - intros i Hi Hne. destruct (Z_lt_le_dec i t).
    + rewrite <- (nibble_mod (w + _) i k) by (unfold k; lia).
      rewrite <- (nibble_mod w i k) by (unfold k; lia).
      f_equal. apply Z.mod_add. lia.
    + rewrite !nibble_div by lia.
      replace (4 * i) with (k + (4 + 4 * (i - t - 1))) by (unfold k; lia).
      rewrite !Z.pow_add_r by lia. rewrite <- !Z.div_div by lia.
      change (2 ^ 4) with 16. rewrite Ediv. fold q. rewrite E16. reflexivity.
Qed.

Lemma lane_shift4 b : 0 <= b < 64 ->
  Z.land (b * 4) 63 = 4 * (b mod 16) /\ Z.land (4 * b) 63 = 4 * (b mod 16)
  /\ Z.land (4 * Z.land b 0xf) 63 = 4 * (b mod 16) /\ Z.quot b 16 = b / 16.
Proof.
  intros H.
  pose proof (range64 (fun b => (Z.land (b * 4) 63 =? 4 * (b mod 16))
                                 && (Z.land (4 * b) 63 =? 4 * (b mod 16))
                                 && (Z.land (4 * Z.land b 0xf) 63 =? 4 * (b mod 16))
                                 && (Z.quot b 16 =? b / 16))
                      ltac:(vm_compute; reflexivity) b H) as E.
  cbv beta in E. rewrite !andb_true_iff, !Z.eqb_eq in E. tauto.
Qed.

Lemma slot_lanes_ext o idx f f' :
  (forall j, 0 <= j < 64 -> f j = f' j) -> slot_lanes o idx f -> slot_lanes o idx f'.
Proof.
  intros E H j Hj. destruct (H j Hj) as (v & Hv & Hr & Hn).
  exists v. rewrite <- E by lia. auto.
Qed.

Lemma slot_lanes_frame o o' idx f :
  (forall w, 0 <= w < 4 -> ld o' (idx + w) = ld o (idx + w)) ->
  slot_lanes o idx f -> slot_lanes o' idx f.
Proof.
  intros E H j Hj. destruct (H j Hj) as (v & Hv & Hr & Hn).
  exists v. rewrite E; [auto|].
  split; [apply Z.div_pos; lia | apply Z.div_lt_upper_bound; lia].
Qed.

Lemma div16_range j : 0 <= j < 64 -> 0 <= j / 16 < 4 /\ 0 <= j mod 16 < 16.
Proof.
  intros. split; [split; [apply Z.div_pos; lia | apply Z.div_lt_upper_bound; lia]|].
  apply Z.mod_pos_bound. lia.
Qed.

(** Adding [d] to lane [t] of the slot. *)
Lemma slot_lanes_add o idx f t d :
  slot_lanes o idx f -> 0 <= idx -> 0 <= t < 64 -> 0 <= f t + d <= 15 ->
  exists v, ld o (idx + t / 16) = Some v /\ 0 <= v < 2 ^ 64
    /\ nibble v (t mod 16) = f t
    /\ 0 <= v + d * 2 ^ (4 * (t mod 16)) < 2 ^ 64
    /\ slot_lanes (<[Z.to_nat (idx + t / 16) := v + d * 2 ^ (4 * (t mod 16))]> o) idx
                  (fun j => if j =? t then f t + d else f j).
Proof.
  intros H Hidx Ht Hd. destruct (H t Ht) as (v & Hv & Hr & Hn).
  pose proof (div16_range t Ht) as [Hq Hm].
  destruct (nibble_add v (t mod 16) d Hr Hm ltac:(lia)) as (R' & N' & O').
  exists v. repeat split; auto; try lia.
  intros j Hj. pose proof (div16_range j Hj) as [Hjq Hjm].
  pose proof (ld_Some _ _ _ Hv) as Hb.
  destruct (Z.eq_dec (j / 16) (t / 16)) as [E|E].
  - rewrite E. rewrite ld_st_eq by lia. eexists. split; [reflexivity|].
    split; [lia|]. destruct (Z.eqb_spec j t) as [->|Hne].
    + rewrite N'. lia.
    + destruct (H j Hj) as (v' & Hv' & _ & Hn'). rewrite E, Hv in Hv'.
      injection Hv' as <-. rewrite O'; auto.
      intros Em. apply Hne.
      rewrite (Z.div_mod j 16), (Z.div_mod t 16) by lia. lia.
  - rewrite ld_st_ne by lia.
    destruct (H j Hj) as (v' & Hv' & Hr' & Hn'). exists v'.
    destruct (Z.eqb_spec j t) as [->|Hne]; [contradiction|]. auto.
Qed.

Lemma row_ok_nonneg cs : row_ok cs -> nonneg cs.
Proof. intros [_ H]. eapply Forall_impl; [exact H|]. simpl. intros; lia. Qed.

Lemma total_le15 cs : Forall (fun x => 0 <= x <= 15) cs -> total cs <= 15 * Z.of_nat (length cs).
Proof. induction 1; cbn [total length]; lia. Qed.

Lemma row_ok_total cs : row_ok cs -> 0 <= total cs <= 960.
Proof.
  intros H. pose proof (total_nonneg cs (row_ok_nonneg cs H)).
  destruct H as [L F]. pose proof (total_le15 cs F). lia.
Qed.

Lemma nonneg_skipn n cs : nonneg cs -> nonneg (skipn n cs).
Proof.
  intros H. rewrite <- (firstn_skipn n cs) in H. apply nonneg_app in H. tauto.
Qed.

Lemma total_skipn n cs : nonneg cs -> total (skipn n cs) <= total cs.
Proof.
  intros H. rewrite <- (firstn_skipn n cs) at 2. rewrite total_app.
  rewrite <- (firstn_skipn n cs) in H. apply nonneg_app in H.
  pose proof (total_nonneg _ (proj1 H)). lia.
Qed.

Lemma skipn_nth (n : nat) cs : (n < length cs)%nat ->
  skipn n cs = nth n cs 0 :: skipn (S n) cs.
Proof.
  revert cs. induction n as [|n IH]; intros [|x cs] H; simpl in H; try lia.
  - reflexivity.
  - cbn [skipn nth]. apply IH. lia.
Qed.

Lemma demote_fold o idx cs :
  row_ok cs -> total cs <= 62 -> slot_lanes o idx (nthZ cs) ->
  fold_down 64 (demote_step o idx) 0 = enc cs.
Proof.
  intros Hok Ht Hl. pose proof (row_ok_nonneg cs Hok) as Hnn.
  assert (G : forall n, (n <= 64)%nat ->
            fold_down n (demote_step o idx) (enc (skipn n cs)) = enc cs).
  { induction n as [|n IH]; intros Hn; [reflexivity|].
    cbn [fold_down]. rewrite <- IH by lia. f_equal.
    destruct Hok as [L F].
    rewrite (skipn_nth n cs) by lia.
    assert (Hj : 0 <= Z.of_nat n < 64) by lia.
    destruct (Hl _ Hj) as (v & Hv & Hr & Hnib).
    destruct (lane_shift4 _ Hj) as (_ & E4 & _ & Eq).
    unfold demote_step. rewrite Eq, Hv. unfold shr64. rewrite E4.
    fold (nibble v (Z.of_nat n mod 16)). rewrite Hnib.
    unfold nthZ. rewrite Nat2Z.id. set (x := nth n cs 0).
    assert (Hx : 0 <= x <= 15).
    { rewrite List.Forall_forall in F. apply F. apply nth_In. lia. }
    cbn [enc]. destruct (Z.ltb_spec 0 x); [|reflexivity].
    set (rest := skipn (S n) cs).
    pose proof (enc_range rest (nonneg_skipn _ _ Hnn)) as Rr.
    pose proof (total_skipn n cs Hnn) as Tn.
    rewrite (skipn_nth n cs) in Tn by lia. cbn [total] in Tn. fold x rest in Tn.
    pose proof (total_nonneg rest (nonneg_skipn _ _ Hnn)) as T0.
    pose proof (pow2_le (total rest) 61 ltac:(lia)) as P1.
    rewrite (shl64_small _ 1) by (change (2 ^ 1) with 2; lia).
    change (2 ^ 1) with 2. rewrite (Z.mul_comm _ 2).
    change 2 with (2 ^ 1) at 1. rewrite lor_disj by (change (2 ^ 1) with 2; lia).
    change (2 ^ 1) with 2.
    assert (E : (2 * enc rest + 1) * 2 ^ (x - 1) = 2 ^ (x - 1) + 2 ^ x * enc rest).
    { rewrite (pow2_split (x - 1) x) by lia. replace (x - (x - 1)) with 1 by lia.
      change (2 ^ 1) with 2. ring. }
    rewrite shl64_small; [exact E | lia | lia |].
    rewrite E.
    assert (2 ^ (x - 1) + 2 ^ x * enc rest < 2 ^ (x + total rest)).
    { rewrite Z.pow_add_r by lia. rewrite (pow2_split (x - 1) x) by lia.
      replace (x - (x - 1)) with 1 by lia. change (2 ^ 1) with 2.
      pose proof (pow2_pos (x - 1) ltac:(lia)). nia. }
    pose proof (pow2_le (x + total rest) 64 ltac:(lia)). lia. }
  rewrite <- (G 64%nat) by lia. destruct Hok as [L F].
  rewrite skipn_all2 by lia. reflexivity.
Qed.

(* ---------- the group lemmas on whole rows ---------- *)

Lemma row_at cs bit : length cs = 64%nat -> 0 <= bit < 64 ->
  exists pre post, cs = pre ++ nthZ cs bit :: post
    /\ bit = Z.of_nat (length pre)
    /\ forall v, <[Z.to_nat bit := v]> cs = pre ++ v :: post.
Proof.
  intros L Hb. set (b := Z.to_nat bit).
  assert (Hlk : cs !! b = Some (nthZ cs bit)).
  { unfold nthZ. fold b. destruct (nth_lookup_or_length cs b 0) as [H|H]; [exact H | lia]. }
  exists (firstn b cs), (skipn (S b) cs).
  split; [symmetry; apply take_drop_middle; exact Hlk|].
  split; [rewrite length_firstn; lia|].
  intros v. apply insert_take_drop. lia.
Qed.

Lemma row_ok_parts pre post x : row_ok (pre ++ x :: post) ->
  nonneg pre /\ nonneg post /\ 0 <= x <= 15.
Proof.
  intros [_ F]. apply Forall_app in F as [F1 F2]. apply Forall_cons in F2 as [Hx F2].
  repeat split; try lia; eapply Forall_impl; eauto; simpl; intros; lia.
Qed.

Section Rows.

Variables (cs : list Z) (bit : Z).

Hypothesis Hok : row_ok cs.

Hypothesis Hbit : 0 <= bit < 64.

Lemma nthZ_range : 0 <= nthZ cs bit <= 15.
Proof using All.
  destruct Hok as [L F]. rewrite List.Forall_forall in F. apply F.
  unfold nthZ. apply nth_In. lia.
Qed.

Lemma row_d : Z.land (shr64 (mk cs) bit) 1 = b2 (nthZ cs bit).
Proof using All.
  destruct (row_at cs bit (proj1 Hok) Hbit) as (pre & post & E & Eb & _).
  pose proof Hok as Hok'. rewrite E in Hok'. destruct (row_ok_parts _ _ _ Hok') as (H1 & H2 & H3).
  assert (L : length (pre ++ nthZ cs bit :: post) = 64%nat) by (rewrite <- E; exact (proj1 Hok)).
  rewrite E at 1. exact (at_d pre post _ bit Eb L H1 H2 (proj1 H3)).
Qed.

Lemma row_set_bit :
  Z.lor (mk cs) (shl64 1 bit) = mk (<[Z.to_nat bit := nthZ cs bit + 1]> cs).
Proof using All.
  destruct (row_at cs bit (proj1 Hok) Hbit) as (pre & post & E & Eb & Ei).
  pose proof Hok as Hok'. rewrite E in Hok'. destruct (row_ok_parts _ _ _ Hok') as (H1 & H2 & H3).
  assert (L : length (pre ++ nthZ cs bit :: post) = 64%nat) by (rewrite <- E; exact (proj1 Hok)).
  rewrite Ei. rewrite E at 1. exact (at_set_bit pre post _ bit Eb L H1 H2 (proj1 H3)).
Qed.

Lemma row_inc : total cs <= 62 ->
  inc_word (mk cs) (enc cs) bit = enc (<[Z.to_nat bit := nthZ cs bit + 1]> cs).
Proof using All.
  intros Ht.
  destruct (row_at cs bit (proj1 Hok) Hbit) as (pre & post & E & Eb & Ei).
  pose proof Hok as Hok'. rewrite E in Hok'. destruct (row_ok_parts _ _ _ Hok') as (H1 & H2 & H3).
  assert (L : length (pre ++ nthZ cs bit :: post) = 64%nat) by (rewrite <- E; exact (proj1 Hok)).
  assert (T : total (pre ++ nthZ cs bit :: post) <= 62) by (rewrite <- E; exact Ht).
  rewrite Ei. rewrite E at 1 2. exact (at_inc pre post _ bit Eb L H1 H2 (proj1 H3) T).
Qed.

Lemma row_dec : 0 < nthZ cs bit -> total cs <= 63 ->
  dec_word (mk cs) (enc cs) bit = enc (<[Z.to_nat bit := nthZ cs bit - 1]> cs)
  /\ dec_data (mk cs) (enc cs) bit = mk (<[Z.to_nat bit := nthZ cs bit - 1]> cs).
Proof using All.
  intros Hx Ht.
  destruct (row_at cs bit (proj1 Hok) Hbit) as (pre & post & E & Eb & Ei).
  pose proof Hok as Hok'. rewrite E in Hok'. destruct (row_ok_parts _ _ _ Hok') as (H1 & H2 & H3).
  assert (L : length (pre ++ nthZ cs bit :: post) = 64%nat) by (rewrite <- E; exact (proj1 Hok)).
  assert (T : total (pre ++ nthZ cs bit :: post) <= 63) by (rewrite <- E; exact Ht).
  rewrite Ei. split.
  - rewrite E at 1 2.
    exact (proj1 (at_dec pre post _ bit Eb L H1 H2 (proj1 H3) Hx T)).
  - rewrite E at 1 2.
    exact (at_dec_data pre post _ bit Eb L H1 H2 (proj1 H3) Hx T).
Qed.

Lemma row_read : 0 < nthZ cs bit -> total cs <= 63 ->
  read_inline (mk cs) (enc cs) bit = Some (nthZ cs bit).
Proof using All.
  intros Hx Ht.
  destruct (row_at cs bit (proj1 Hok) Hbit) as (pre & post & E & Eb & Ei).
  pose proof Hok as Hok'. rewrite E in Hok'. destruct (row_ok_parts _ _ _ Hok') as (H1 & H2 & H3).
  assert (L : length (pre ++ nthZ cs bit :: post) = 64%nat) by (rewrite <- E; exact (proj1 Hok)).
  assert (T : total (pre ++ nthZ cs bit :: post) <= 63) by (rewrite <- E; exact Ht).
  rewrite E at 1 2.
  exact (at_read pre post _ bit Eb L H1 H2 (proj1 H3) Hx T).
Qed.

Lemma row_clear : 0 < nthZ cs bit ->
  Z.land (mk cs) (not64 (shl64 1 bit)) = mk (<[Z.to_nat bit := 0]> cs).
Proof using All.
  intros Hx.
  destruct (row_at cs bit (proj1 Hok) Hbit) as (pre & post & E & Eb & Ei).
  pose proof Hok as Hok'. rewrite E in Hok'. destruct (row_ok_parts _ _ _ Hok') as (H1 & H2 & H3).
  assert (L : length (pre ++ nthZ cs bit :: post) = 64%nat) by (rewrite <- E; exact (proj1 Hok)).
  rewrite Ei. rewrite E at 1.
  exact (at_clear pre post _ bit Eb L H1 H2 (proj1 H3) Hx).
Qed.

Lemma total_insert v :
  total (<[Z.to_nat bit := v]> cs) = total cs - nthZ cs bit + v.
Proof using All.
  destruct (row_at cs bit (proj1 Hok) Hbit) as (pre & post & E & Eb & Ei).
  assert (T : total cs = total pre + nthZ cs bit + total post).
  { rewrite E at 1. rewrite total_app. cbn [total]. lia. }
  rewrite Ei, total_app. cbn [total]. lia.
Qed.

Lemma row_ok_insert v : 0 <= v <= 15 -> row_ok (<[Z.to_nat bit := v]> cs).
Proof using All.
  intros Hv. destruct Hok as [L F]. split; [rewrite length_insert; exact L|].
  apply Forall_insert; [exact F | exact Hv].
Qed.

Lemma nthZ_insert v j : 0 <= j < 64 ->
  nthZ (<[Z.to_nat bit := v]> cs) j = if j =? bit then v else nthZ cs j.
Proof using All.
  intros Hj. unfold nthZ. destruct Hok as [L F].
  destruct (Z.eqb_spec j bit) as [->|Hne].
  - apply nth_lookup_Some with (d := 0). apply list_lookup_insert_eq. lia.
  - rewrite !nth_lookup. rewrite list_lookup_insert_ne by lia. reflexivity.
Qed.

End Rows.

(* ---------- headers ---------- *)

Lemma top1_eq : top1 = 2 ^ 64 - 2 ^ 63. Proof. reflexivity. Qed.

Lemma top2_eq : top2 = 2 ^ 64 - 2 ^ 62. Proof. reflexivity. Qed.

Lemma idx_mask_eq : idx_mask = 2 ^ 28 - 1. Proof. reflexivity. Qed.

Lemma land_top1 c : 0 <= c < 2 ^ 64 -> Z.land c top1 = 0 <-> c < 2 ^ 63.
Proof.
  intros Hc. rewrite top1_eq, land_high by lia.
  pose proof (Z.div_mod c (2 ^ 63) ltac:(lia)) as E.
  pose proof (Z.mod_pos_bound c (2 ^ 63) ltac:(lia)).
  assert (0 <= c / 2 ^ 63) by (apply Z.div_pos; lia). lia.
Qed.

Lemma land_top2 c : 0 <= c < 2 ^ 64 -> Z.land c top2 = 0 <-> c < 2 ^ 62.
Proof.
  intros Hc. rewrite top2_eq, land_high by lia.
  pose proof (Z.div_mod c (2 ^ 62) ltac:(lia)) as E.
  pose proof (Z.mod_pos_bound c (2 ^ 62) ltac:(lia)).
  assert (0 <= c / 2 ^ 62) by (apply Z.div_pos; lia). lia.
Qed.

Lemma header_range tot idx : 0 <= tot < 2 ^ 28 -> 0 <= idx < 2 ^ 28 ->
  2 ^ 63 <= header tot idx < 2 ^ 64.
Proof. intros. unfold header. change top1 with (2 ^ 63). lia. Qed.

Lemma header_promoted tot idx : 0 <= tot < 2 ^ 28 -> 0 <= idx < 2 ^ 28 ->
  promoted (header tot idx) = true.
Proof.
  intros Ht Hi. pose proof (header_range tot idx Ht Hi).
  unfold promoted. destruct (Z.eqb_spec (Z.land (header tot idx) top1) 0) as [E|E]; [|reflexivity].
  apply land_top1 in E; lia.
Qed.

Lemma header_slot tot idx : 0 <= tot < 2 ^ 28 -> 0 <= idx < 2 ^ 28 ->
  slot_of (header tot idx) = idx.
Proof.
  intros Ht Hi. unfold slot_of. rewrite idx_mask_eq, land_low by lia.
  unfold header. change top1 with (2 ^ 28 * 2 ^ 35). change (2 ^ 32) with (2 ^ 28 * 2 ^ 4).
  replace (2 ^ 28 * 2 ^ 35 + tot * (2 ^ 28 * 2 ^ 4) + idx)
    with (idx + (2 ^ 35 + tot * 2 ^ 4) * 2 ^ 28) by ring.
  rewrite Z.mod_add by lia. apply Z.mod_small. lia.
Qed.

Lemma header_count tot idx : 0 <= tot < 2 ^ 28 -> 0 <= idx < 2 ^ 28 ->
  Z.land (shr64 (header tot idx) 32) idx_mask = tot.
Proof.
  intros Ht Hi. rewrite shr64_div by lia. rewrite idx_mask_eq, land_low by lia.
  unfold header. change top1 with (2 ^ 31 * 2 ^ 32).
  replace (2 ^ 31 * 2 ^ 32 + tot * 2 ^ 32 + idx) with (idx + (2 ^ 31 + tot) * 2 ^ 32) by ring.
  rewrite Z.div_add by lia. rewrite Z.div_small by lia. rewrite Z.add_0_l.
  change (2 ^ 31) with (8 * 2 ^ 28). rewrite Z.add_comm, Z.mod_add by lia.
  apply Z.mod_small. lia.
Qed.

Lemma header_inc tot idx : 0 <= tot < 2 ^ 28 - 1 -> 0 <= idx < 2 ^ 28 ->
  add64 (header tot idx) (shl64 1 32) = header (tot + 1) idx.
Proof.
  intros Ht Hi. rewrite shl64_small by lia. unfold add64.
  pose proof (header_range (tot + 1) idx ltac:(lia) Hi).
  rewrite <- (u64_small (header (tot + 1) idx)) by lia. f_equal. unfold header. ring.
Qed.

Lemma header_dec tot idx : 0 < tot < 2 ^ 28 -> 0 <= idx < 2 ^ 28 ->
  sub64 (header tot idx) (shl64 1 32) = header (tot - 1) idx.
Proof.
  intros Ht Hi. rewrite shl64_small by lia. unfold sub64.
  pose proof (header_range (tot - 1) idx ltac:(lia) Hi).
  rewrite <- (u64_small (header (tot - 1) idx)) by lia. f_equal. unfold header. ring.
Qed.

Lemma header_new idx : 0 <= idx < 2 ^ 28 ->
  Z.lor (Z.lor top1 (shl64 64 32)) idx = header 64 idx.
Proof.
  intros Hi. rewrite shl64_small by lia. unfold header.
  change top1 with (2 ^ 39 * 2 ^ 24). change (64 * 2 ^ 32) with (2 ^ 38).
  rewrite lor_disj by lia.
  replace (2 ^ 39 * 2 ^ 24 + 2 ^ 38) with (2 ^ 28 * (2 ^ 35 + 2 ^ 10)) by reflexivity.
  rewrite lor_disj by lia. reflexivity.
Qed.

Lemma enc_inline cs : nonneg cs -> total cs <= 63 ->
  0 <= enc cs < 2 ^ 63 /\ promoted (enc cs) = false.
Proof.
  intros Hn Ht. pose proof (enc_range cs Hn) as R. pose proof (total_nonneg cs Hn).
  pose proof (pow2_le (total cs) 63 ltac:(lia)).
  split; [lia|]. unfold promoted.
  destruct (Z.eqb_spec (Z.land (enc cs) top1) 0) as [E|E]; [reflexivity|].
  exfalso. apply E. apply land_top1; lia.
Qed.

Lemma enc_top2 cs : nonneg cs -> total cs <= 63 ->
  (Z.land (enc cs) top2 =? 0) = (total cs <=? 62).
Proof.
  intros Hn Ht. pose proof (enc_range cs Hn) as R. pose proof (total_nonneg cs Hn).
  pose proof (pow2_le (total cs) 63 ltac:(lia)).
  destruct (Z.leb_spec (total cs) 62).
  - apply Z.eqb_eq. apply land_top2; [lia|].
    pose proof (pow2_le (total cs) 62 ltac:(lia)). lia.
  - apply Z.eqb_neq. intros E. apply land_top2 in E; [|lia].
    pose proof (enc_lower cs Hn ltac:(lia)).
    replace (total cs) with 63 in * by lia. change (63 - 1) with 62 in *. lia.
Qed.

(* ---------- the succinct filter's memory ---------- *)

Lemma sdata_get_eq s i v : ld (data s) i = Some v -> data_get i s = Some (v, s).
Proof. intros H. unfold data_get. rewrite H. reflexivity. Qed.

Lemma scounts_get_eq s i v : ld (counts s) i = Some v -> counts_get i s = Some (v, s).
Proof. intros H. unfold counts_get. rewrite H. reflexivity. Qed.

Lemma soverflow_get_eq s i v : ld (overflow s) i = Some v -> overflow_get i s = Some (v, s).
Proof. intros H. unfold overflow_get. rewrite H. reflexivity. Qed.

Lemma sdata_set_eq s i v : 0 <= i < Z.of_nat (length (data s)) ->
  data_set i v s = Some (tt, with_data (<[Z.to_nat i := v]> (data s)) s).
Proof. intros H. unfold data_set. rewrite st_ok by lia. reflexivity. Qed.

Lemma scounts_set_eq s i v : 0 <= i < Z.of_nat (length (counts s)) ->
  counts_set i v s = Some (tt, with_counts (<[Z.to_nat i := v]> (counts s)) s).
Proof. intros H. unfold counts_set. rewrite st_ok by lia. reflexivity. Qed.

Lemma soverflow_set_eq s i v : 0 <= i < Z.of_nat (length (overflow s)) ->
  overflow_set i v s = Some (tt, with_overflow (<[Z.to_nat i := v]> (overflow s)) s).
Proof. intros H. unfold overflow_set. rewrite st_ok by lia. reflexivity. Qed.

Lemma ld_lookup arr i v : ld arr i = Some v -> arr !! Z.to_nat i = Some v.
Proof. unfold ld. destruct (0 <=? i); [auto | discriminate]. Qed.

Lemma ld_insert arr i j v : 0 <= i < Z.of_nat (length arr) -> 0 <= j ->
  ld (<[Z.to_nat i := v]> arr) j = if j =? i then Some v else ld arr j.
Proof.
  intros Hi Hj. destruct (Z.eqb_spec j i) as [->|Hne].
  - apply ld_st_eq. lia.
  - apply ld_st_ne; lia.
Qed.

Lemma for_up_inv {St} (P : Z -> St -> Prop) (body : Z -> M St unit) :
  forall n lo s, P lo s ->
  (forall i st, lo <= i < lo + Z.of_nat n -> P i st ->
      exists st', body i st = Some (tt, st') /\ P (i + 1) st') ->
  exists s', for_up n lo body s = Some (tt, s') /\ P (lo + Z.of_nat n) s'.
Proof.
  induction n as [|n IH]; intros lo s H0 Hstep.
  - exists s. split; [reflexivity|]. replace (lo + Z.of_nat 0) with lo by lia. exact H0.
  - destruct (Hstep lo s ltac:(lia) H0) as (s1 & E1 & H1).
    destruct (IH (lo + 1) s1 H1) as (s' & E' & H').
    { intros i st Hi. apply Hstep. lia. }
    exists s'. split.
    + cbn [for_up]. rewrite (bind_Some _ _ _ _ _ E1). exact E'.
    + replace (lo + Z.of_nat (S n)) with (lo + 1 + Z.of_nat n) by lia. exact H'.
Qed.

(* ---------- owned slots ---------- *)

Lemma owned_app l1 l2 : owned (l1 ++ l2) = owned l1 ++ owned l2.
Proof. unfold owned. apply flat_map_app. Qed.

Lemma owned_split cnts (g : nat) c : cnts !! g = Some c ->
  owned cnts = owned (firstn g cnts) ++ own1 c ++ owned (skipn (S g) cnts).
Proof.
  intros H. rewrite <- (take_drop_middle cnts g c H) at 1.
  rewrite owned_app. cbn [owned flat_map]. reflexivity.
Qed.

Lemma owned_perm cnts (g : nat) c : cnts !! g = Some c ->
  Permutation (owned cnts) (own1 c ++ others cnts g).
Proof.
  intros H. rewrite (owned_split cnts g c H). unfold others.
  rewrite !app_assoc. apply Permutation_app_tail. apply Permutation_app_comm.
Qed.

Lemma others_insert cnts (g : nat) c' : others (<[g := c']> cnts) g = others cnts g.
Proof.
  unfold others. rewrite take_insert_ge by lia. rewrite drop_insert_lt by lia. reflexivity.
Qed.

Lemma owned_insert cnts (g : nat) c c' : cnts !! g = Some c ->
  Permutation (owned (<[g := c']> cnts)) (own1 c' ++ others cnts g).
Proof.
  intros H. rewrite <- (others_insert cnts g c'). apply owned_perm.
  apply list_lookup_insert_eq. apply lookup_lt_Some in H. exact H.
Qed.

Lemma In_owned cnts c : In c cnts -> promoted c = true -> In (slot_of c) (owned cnts).
Proof.
  intros Hin Hp. unfold owned. apply in_flat_map. exists c. split; [exact Hin|].
  unfold own1. rewrite Hp. left. reflexivity.
Qed.

Lemma others_In cnts (g g' : nat) c' : g' <> g -> cnts !! g' = Some c' ->
  promoted c' = true -> In (slot_of c') (others cnts g).
Proof.
  intros Hne H Hp. unfold others. apply in_or_app.
  destruct (Nat.lt_ge_cases g' g) as [Hlt|Hge].
  - left. apply In_owned; [|exact Hp].
    apply list_elem_of_In. apply list_elem_of_lookup. exists g'.
    rewrite lookup_take_lt by lia. exact H.
  - right. apply In_owned; [|exact Hp].
    apply list_elem_of_In. apply list_elem_of_lookup. exists (g' - S g)%nat.
    rewrite lookup_drop. replace (S g + (g' - S g))%nat with g' by lia. exact H.
Qed.

Lemma chain_frame o o' olen fl : forall h,
  (forall x, In x fl -> ld o' x = ld o x) ->
  chain o olen h fl -> chain o' olen h fl.
Proof.
  induction fl as [|x fl IH]; intros h Hf Hc; [exact Hc|].
  destruct Hc as (-> & nx & Hx & Hc). split; [reflexivity|].
  exists nx. split; [rewrite Hf by (left; reflexivity); exact Hx|].
  apply IH; [|exact Hc]. intros y Hy. apply Hf. right. exact Hy.
Qed.

Lemma all_slots_In olen x : olen mod 4 = 0 ->
  In x (all_slots olen) <-> 0 <= x /\ x mod 4 = 0 /\ x + 4 <= olen.
Proof.
  intros Hm. unfold all_slots. rewrite in_map_iff.
  pose proof (Z.div_mod olen 4 ltac:(lia)) as E. rewrite Hm in E.
  split.
  - intros (i & <- & Hi). apply in_seq in Hi.
    rewrite Z.mul_comm, Z.mod_mul by lia. lia.
  - intros (H0 & H4 & Hl). exists (Z.to_nat (x / 4)).
    pose proof (Z.div_mod x 4 ltac:(lia)) as Ex. rewrite H4 in Ex.
    split; [lia|]. apply in_seq. lia.
Qed.

Lemma all_slots_NoDup olen : List.NoDup (all_slots olen).
Proof.
  unfold all_slots. apply Injective_map_NoDup; [|apply List.seq_NoDup].
  intros a b. lia.
Qed.

(* ---------- rows of the count function ---------- *)

Lemma row_length f g : length (row f g) = 64%nat.
Proof. unfold row. rewrite length_fmap, length_seq. reflexivity. Qed.

Lemma row_lookup f g (j : nat) : (j < 64)%nat -> row f g !! j = Some (f g (Z.of_nat j)).
Proof.
  intros Hj. unfold row. rewrite list_lookup_fmap, lookup_seq_lt by lia. reflexivity.
Qed.

Lemma row_nth f g j : 0 <= j < 64 -> nthZ (row f g) j = f g j.
Proof.
  intros Hj. unfold nthZ. erewrite nth_lookup_Some; [|apply row_lookup; lia].
  f_equal. lia.
Qed.

Lemma row_ext f f' g : (forall i, 0 <= i < 64 -> f g i = f' g i) -> row f g = row f' g.
Proof.
  intros E. apply list_eq. intros j. destruct (Nat.lt_ge_cases j 64).
  - rewrite !row_lookup by lia. f_equal. apply E. lia.
  - rewrite !lookup_ge_None_2; [reflexivity | rewrite row_length; lia | rewrite row_length; lia].
Qed.

Lemma row_setf f g bit v : 0 <= bit < 64 ->
  row (setf f g bit v) g = <[Z.to_nat bit := v]> (row f g).
Proof.
  intros Hb. apply list_eq. intros j. destruct (Nat.lt_ge_cases j 64).
  - rewrite row_lookup by lia. unfold setf. rewrite Z.eqb_refl. cbn [andb].
    destruct (Z.eqb_spec (Z.of_nat j) bit) as [E|E].
    + replace j with (Z.to_nat bit) by lia.
      rewrite list_lookup_insert_eq by (rewrite row_length; lia). reflexivity.
    + rewrite list_lookup_insert_ne by lia. rewrite row_lookup by lia. reflexivity.
  - rewrite !lookup_ge_None_2; [reflexivity | |];
      rewrite ?length_insert, row_length; lia.
Qed.

Lemma row_setf_other f g g' bit v : g' <> g -> row (setf f g bit v) g' = row f g'.
Proof.
  intros Hne. apply row_ext. intros i _. unfold setf.
  destruct (Z.eqb_spec g' g); [contradiction | reflexivity].
Qed.

Ltac sstep E := rewrite (bind_Some _ _ _ _ _ E); cbv beta.

(* ---------- the operations, branch by branch ---------- *)

Lemma top1_top2 c : Z.land c top1 <> 0 -> Z.land c top2 <> 0.
Proof.
  intros H E. apply H.
  replace top1 with (Z.land top2 top1) by reflexivity.
  rewrite Z.land_assoc, E. reflexivity.
Qed.

Lemma promoted_true c : promoted c = true <-> Z.land c top1 <> 0.
Proof. unfold promoted. destruct (Z.eqb_spec (Z.land c top1) 0); simpl; split; congruence. Qed.

Lemma promoted_false c : promoted c = false <-> Z.land c top1 = 0.
Proof. unfold promoted. destruct (Z.eqb_spec (Z.land c top1) 0); simpl; split; congruence. Qed.

Lemma ReadCount_zero_eq s g bit m :
  ld (data s) g = Some m -> Z.land (shr64 m bit) 1 = 0 ->
  ReadCount g bit s = Some (0, s).
Proof.
  intros Hm Hd. unfold ReadCount. sstep (sdata_get_eq _ _ _ Hm).
  rewrite Hd. reflexivity.
Qed.

Lemma ReadCount_inline_eq s g bit m c :
  ld (data s) g = Some m -> Z.land (shr64 m bit) 1 = 1 ->
  ld (counts s) g = Some c -> promoted c = false ->
  ReadCount g bit s
  = match read_inline m c bit with Some v => Some (v, s) | None => None end.
Proof.
  intros Hm Hd Hc Hp. unfold ReadCount. sstep (sdata_get_eq _ _ _ Hm).
  rewrite Hd. cbn [Z.eqb]. sstep (scounts_get_eq _ _ _ Hc).
  fold (promoted c). rewrite Hp.
  unfold read_inline, lift, bind, ret.
  destruct (numberOfLeadingZeros64 _); reflexivity.
Qed.

Lemma ReadCount_promoted_eq s g bit m c n :
  ld (data s) g = Some m -> Z.land (shr64 m bit) 1 = 1 ->
  ld (counts s) g = Some c -> promoted c = true ->
  ld (overflow s) (slot_of c + Z.quot bit 16) = Some n ->
  ReadCount g bit s = Some (Z.land (shr64 n (4 * Z.land bit 0xf)) 15, s).
Proof.
  intros Hm Hd Hc Hp Hn. unfold ReadCount. sstep (sdata_get_eq _ _ _ Hm).
  rewrite Hd. cbn [Z.eqb]. sstep (scounts_get_eq _ _ _ Hc).
  fold (promoted c). rewrite Hp. fold (slot_of c).
  sstep (soverflow_get_eq _ _ _ Hn). reflexivity.
Qed.

Lemma ReadCount_ok s g cs bit :
  row_ok cs -> group_ok s g cs -> 0 <= bit < 64 ->
  ReadCount g bit s = Some (nthZ cs bit, s).
Proof.
  intros Hok (Hm & Hc) Hb.
  pose proof (row_d cs bit Hok Hb) as Hd. pose proof (nthZ_range cs bit Hok Hb) as Hx.
  pose proof (row_ok_nonneg cs Hok) as Hnn. pose proof (row_ok_total cs Hok) as Htot.
  unfold b2 in Hd. destruct (Z.ltb_spec 0 (nthZ cs bit)) as [Hpos|Hz].
  2:{ rewrite (ReadCount_zero_eq s g bit _ Hm Hd). repeat f_equal. lia. }
  destruct Hc as [[Hc Ht] | (idx & Hc & Ht & Hi & Hl)].
  - rewrite (ReadCount_inline_eq s g bit _ _ Hm Hd Hc (proj2 (enc_inline cs Hnn Ht))).
    rewrite (row_read cs bit Hok Hb Hpos Ht). reflexivity.
  - destruct (Hl bit Hb) as (v & Hv & Hr & Hn).
    destruct (lane_shift4 bit Hb) as (_ & _ & E4 & Eq).
    assert (Hp : promoted (header (total cs) idx) = true) by (apply header_promoted; lia).
    assert (Hs : slot_of (header (total cs) idx) = idx) by (apply header_slot; lia).
    rewrite (ReadCount_promoted_eq s g bit _ _ v Hm Hd Hc Hp)
      by (rewrite Hs, Eq; exact Hv).
    unfold shr64. rewrite E4. fold (nibble v (bit mod 16)). rewrite Hn. reflexivity.
Qed.

Lemma Inc_inline_eq s g bit m c :
  ld (data s) g = Some m -> ld (counts s) g = Some c -> Z.land c top2 = 0 ->
  Increment g bit s
  = Some (tt, with_counts (<[Z.to_nat g := inc_word m c bit]> (counts s))
                (with_data (<[Z.to_nat g := Z.lor m (shl64 1 bit)]> (data s)) s)).
Proof.
  intros Hm Hc H2. pose proof (ld_Some _ _ _ Hm) as Bm. pose proof (ld_Some _ _ _ Hc) as Bc.
  unfold Increment. sstep (sdata_get_eq _ _ _ Hm). sstep (scounts_get_eq _ _ _ Hc).
  rewrite H2. cbn [Z.eqb negb].
  sstep (sdata_get_eq _ _ _ Hm). sstep (sdata_set_eq s g (Z.lor m (shl64 1 bit)) Bm).
  unfold inc_word. apply (scounts_set_eq (with_data _ s)). exact Bc.
Qed.

Lemma Inc_exhausted_eq s g bit m c :
  ld (data s) g = Some m -> ld (counts s) g = Some c ->
  Z.land c top2 <> 0 -> promoted c = false ->
  overflowLength s <= nextFreeOverflow s ->
  Increment g bit s
  = Some (tt, with_data (<[Z.to_nat g := Z.lor m (shl64 1 bit)]> (data s))
                (with_cout (cout s ++ [msg]) s)).
Proof.
  intros Hm Hc H2 Hp Hfull. pose proof (ld_Some _ _ _ Hm) as Bm.
  apply promoted_false in Hp.
  unfold Increment. sstep (sdata_get_eq _ _ _ Hm). sstep (scounts_get_eq _ _ _ Hc).
  destruct (Z.eqb_spec (Z.land c top2) 0) as [|_]; [contradiction|]. cbn [negb].
  rewrite Hp. cbn [Z.eqb].
  unfold get_next at 1. unfold bind at 1. unfold get_overflowLength at 1. unfold bind at 1.
  destruct (Z.leb_spec (overflowLength s) (nextFreeOverflow s)); [|lia].
  unfold print at 1. unfold bind at 1.
  sstep (sdata_get_eq (with_cout (cout s ++ [msg]) s) g m Hm).
  apply (sdata_set_eq (with_cout _ s)). exact Bm.
Qed.

Lemma Inc_promoted_eq s g bit m c v :
  ld (data s) g = Some m -> ld (counts s) g = Some c -> promoted c = true ->
  ld (overflow s) (slot_of c + Z.quot bit 16) = Some v ->
  Increment g bit s
  = Some (tt, with_data (<[Z.to_nat g := Z.lor m (shl64 1 bit)]> (data s))
               (with_overflow (<[Z.to_nat (slot_of c + Z.quot bit 16)
                                 := add64 v (shl64 1 (bit * 4))]> (overflow s))
                 (with_counts (<[Z.to_nat g := add64 c (shl64 1 32)]> (counts s)) s))).
Proof.
  intros Hm Hc Hp Hv. pose proof (ld_Some _ _ _ Hm) as Bm. pose proof (ld_Some _ _ _ Hc) as Bc.
  pose proof (ld_Some _ _ _ Hv) as Bv.
  apply promoted_true in Hp. pose proof (top1_top2 c Hp) as H2.
  unfold Increment. sstep (sdata_get_eq _ _ _ Hm). sstep (scounts_get_eq _ _ _ Hc).
  destruct (Z.eqb_spec (Z.land c top2) 0) as [|_]; [contradiction|]. cbn [negb].
  destruct (Z.eqb_spec (Z.land c top1) 0) as [|_]; [contradiction|].
  fold (slot_of c).
  sstep (scounts_set_eq s g (add64 c (shl64 1 32)) Bc).
  sstep (soverflow_get_eq (with_counts (<[Z.to_nat g := add64 c (shl64 1 32)]> (counts s)) s) _ _ Hv).
  sstep (soverflow_set_eq (with_counts (<[Z.to_nat g := add64 c (shl64 1 32)]> (counts s)) s)
           (slot_of c + Z.quot bit 16) (add64 v (shl64 1 (bit * 4))) Bv).
  match goal with |- (_ <- data_get g;; _) ?st = _ => sstep (sdata_get_eq st g m Hm) end.
  match goal with |- data_set g _ ?st = _ => apply (sdata_set_eq st) end. exact Bm.
Qed.

Lemma Inc_convert_eq s g bit m c nxt :
  ld (data s) g = Some m -> ld (counts s) g = Some c ->
  Z.land c top2 <> 0 -> promoted c = false ->
  0 <= nextFreeOverflow s < overflowLength s ->
  nextFreeOverflow s + 4 <= Z.of_nat (length (overflow s)) ->
  ld (overflow s) (nextFreeOverflow s) = Some nxt ->
  Increment g bit s
  = (for_up 64 0 (convert_body g (nextFreeOverflow s)) ;;;
     counts_set g (Z.lor (Z.lor top1 (shl64 64 32)) (nextFreeOverflow s)) ;;;
     finish g bit (nextFreeOverflow s))
      (alloc_state s (nextFreeOverflow s) nxt).
Proof.
  intros Hm Hc H2 Hp Hidx Hlen Hn. apply promoted_false in Hp.
  unfold Increment. sstep (sdata_get_eq _ _ _ Hm). sstep (scounts_get_eq _ _ _ Hc).
  destruct (Z.eqb_spec (Z.land c top2) 0) as [|_]; [contradiction|]. cbn [negb].
  rewrite Hp. cbn [Z.eqb].
  unfold get_next at 1. unfold bind at 1. unfold get_overflowLength at 1. unfold bind at 1.
  destruct (Z.leb_spec (overflowLength s) (nextFreeOverflow s)); [lia|].
  set (index := nextFreeOverflow s) in *.
  sstep (soverflow_get_eq s index nxt Hn).
  unfold set_next at 1. unfold bind at 1.
  set (s1 := with_next nxt s).
  assert (L1 : length (overflow s1) = length (overflow s)) by reflexivity.
  sstep (soverflow_set_eq s1 index 0 ltac:(lia)).
  set (s2 := with_overflow _ s1).
  assert (L2 : length (overflow s2) = length (overflow s)) by (unfold s2; simpl; rewrite length_insert; exact L1).
  sstep (soverflow_set_eq s2 (index + 1) 0 ltac:(lia)).
  set (s3 := with_overflow _ s2).
  assert (L3 : length (overflow s3) = length (overflow s)) by (unfold s3; simpl; rewrite length_insert; exact L2).
  sstep (soverflow_set_eq s3 (index + 2) 0 ltac:(lia)).
  set (s4 := with_overflow _ s3).
  assert (L4 : length (overflow s4) = length (overflow s)) by (unfold s4; simpl; rewrite length_insert; exact L3).
  sstep (soverflow_set_eq s4 (index + 3) 0 ltac:(lia)).
  reflexivity.
Qed.

Lemma Dec_inline_eq s g bit m c :
  ld (data s) g = Some m -> ld (counts s) g = Some c -> promoted c = false ->
  Decrement g bit s
  = Some (tt, with_data (<[Z.to_nat g := dec_data m c bit]> (data s))
                (with_counts (<[Z.to_nat g := dec_word m c bit]> (counts s)) s)).
Proof.
  intros Hm Hc Hp. pose proof (ld_Some _ _ _ Hm) as Bm. pose proof (ld_Some _ _ _ Hc) as Bc.
  apply promoted_false in Hp.
  unfold Decrement. sstep (sdata_get_eq _ _ _ Hm). sstep (scounts_get_eq _ _ _ Hc).
  rewrite Hp. cbn [Z.eqb negb]. unfold dec_word, dec_data, dec_at.
  erewrite (bind_Some _ _ _ _ _ (scounts_set_eq s g _ Bc)); cbv beta.
  apply (sdata_set_eq (with_counts _ s)). exact Bm.
Qed.

Lemma dec_lane_state_lengths s g bit m c n :
  length (data (dec_lane_state s g bit m c n)) = length (data s)
  /\ length (counts (dec_lane_state s g bit m c n)) = length (counts s)
  /\ length (overflow (dec_lane_state s g bit m c n)) = length (overflow s)
  /\ nextFreeOverflow (dec_lane_state s g bit m c n) = nextFreeOverflow s
  /\ arrayLength (dec_lane_state s g bit m c n) = arrayLength s
  /\ overflowLength (dec_lane_state s g bit m c n) = overflowLength s
  /\ cout (dec_lane_state s g bit m c n) = cout s.
Proof.
  unfold dec_lane_state. destruct (_ =? 1); simpl; rewrite ?length_insert; tauto.
Qed.

Lemma Dec_promoted_eq s g bit m c n :
  ld (data s) g = Some m -> ld (counts s) g = Some c -> promoted c = true ->
  ld (overflow s) (slot_of c + Z.quot bit 16) = Some n ->
  0 <= slot_of c -> slot_of c + 4 <= Z.of_nat (length (overflow s)) ->
  Decrement g bit s
  = Some (tt,
      let s3 := dec_lane_state s g bit m c n in
      if Z.land (shr64 c 32) idx_mask <? 64
      then demote_state s3 g (slot_of c)
             (fold_down 64 (demote_step (overflow s3) (slot_of c)) 0)
      else s3).
Proof.
  intros Hm Hc Hp Hn Hi0 Hi4.
  pose proof (ld_Some _ _ _ Hm) as Bm. pose proof (ld_Some _ _ _ Hc) as Bc.
  pose proof (ld_Some _ _ _ Hn) as Bn.
  apply promoted_true in Hp.
  unfold Decrement. sstep (sdata_get_eq _ _ _ Hm). sstep (scounts_get_eq _ _ _ Hc).
  destruct (Z.eqb_spec (Z.land c top1) 0) as [|_]; [contradiction|]. cbn [negb].
  fold (slot_of c). set (idx := slot_of c) in *.
  sstep (scounts_set_eq s g (sub64 c (shl64 1 32)) Bc).
  set (s1 := with_counts _ s).
  sstep (soverflow_get_eq s1 _ _ Hn).
  sstep (soverflow_set_eq s1 (idx + Z.quot bit 16) (sub64 n (shl64 1 (bit * 4))) Bn).
  set (s2 := with_overflow _ s1).
  pose proof (dec_lane_state_lengths s g bit m c n) as (L1 & L2 & L3 & L4 & _).
  set (s3 := dec_lane_state s g bit m c n) in *.
  assert (E3 : (if Z.land (shr64 n (4 * Z.land bit 15)) 15 =? 1
                then w <- data_get g;; data_set g (Z.land w (not64 (shl64 1 bit)))
                else ret ()) s2 = Some (tt, s3)).
  { unfold s3, dec_lane_state. fold idx. fold s1. fold s2.
    destruct (_ =? 1); [|reflexivity].
    sstep (sdata_get_eq s2 g m Hm). apply (sdata_set_eq s2). exact Bm. }
  sstep E3. cbv zeta.
  destruct (Z.land (shr64 c 32) idx_mask <? 64); [|reflexivity].
  assert (EL : for_down 64
                 (fun j c2 : Z =>
                    v <- overflow_get (idx + Z.quot j 16);;
                    (if 0 <? Z.land (shr64 v (4 * j)) 15
                     then ret (shl64 (Z.lor (shl64 c2 1) 1) (Z.land (shr64 v (4 * j)) 15 - 1))
                     else ret c2)) 0 s3
               = Some (fold_down 64 (demote_step (overflow s3) idx) 0, s3)).
  { apply for_down_read. intros j a Hj.
    destruct (lane_shift4 j Hj) as (_ & _ & _ & Eq).
    pose proof (div16_range j Hj) as [Hq _].
    destruct (ld_ok (overflow s3) (idx + Z.quot j 16)) as [v Hv]; [lia|].
    sstep (soverflow_get_eq s3 _ _ Hv).
    unfold demote_step. rewrite Hv. destruct (0 <? _); reflexivity. }
  sstep EL.
  sstep (scounts_set_eq s3 g (fold_down 64 (demote_step (overflow s3) idx) 0) ltac:(lia)).
  set (s4 := with_counts _ s3).
  unfold get_next at 1. unfold bind at 1.
  sstep (soverflow_set_eq s4 idx (nextFreeOverflow s4) ltac:(simpl; lia)).
  reflexivity.
Qed.

(* ---------- frames ---------- *)

Lemma group_ok_frame s s' g cs :
  group_ok s g cs ->
  ld (data s') g = ld (data s) g ->
  ld (counts s') g = ld (counts s) g ->
  (forall idx, 0 <= idx < 2 ^ 28 ->
     ld (counts s) g = Some (header (total cs) idx) ->
     forall w, 0 <= w < 4 -> ld (overflow s') (idx + w) = ld (overflow s) (idx + w)) ->
  group_ok s' g cs.
Proof.
  intros (Hm & Hc) Ed Ec Eo. split; [rewrite Ed; exact Hm|].
  destruct Hc as [[Hc Ht] | (idx & Hc & Ht & Hi & Hl)].
  - left. rewrite Ec. auto.
  - right. exists idx. rewrite Ec. repeat split; auto; try lia.
    eapply slot_lanes_frame; [|exact Hl]. apply Eo; [exact Hi | exact Hc].
Qed.

Lemma shape_slots s g c : shape s -> ld (counts s) g = Some c ->
  exists fl, chain (overflow s) (overflowLength s) (nextFreeOverflow s) fl
    /\ Permutation (fl ++ own1 c ++ others (counts s) (Z.to_nat g))
                   (all_slots (overflowLength s)).
Proof.
  intros Hs Hc. destruct (sh_free s Hs) as (fl & Hch & Hp).
  exists fl. split; [exact Hch|].
  rewrite <- Hp. apply Permutation_app_head. symmetry.
  apply owned_perm. apply ld_lookup. exact Hc.
Qed.

Lemma header_inj t idx t' idx' :
  0 <= idx < 2 ^ 28 -> 0 <= idx' < 2 ^ 28 -> 0 <= t -> 0 <= t' ->
  header t idx = header t' idx' -> t = t' /\ idx = idx'.
Proof. unfold header. intros. change (2 ^ 32) with (16 * 2 ^ 28) in *. lia. Qed.

(** Rebuilding the invariant after an operation on group [g]. *)
Lemma Inv_update s s' f f' g m' c' :
  Inv s f -> 0 <= g < arrayLength s ->
  data s' = <[Z.to_nat g := m']> (data s) ->
  counts s' = <[Z.to_nat g := c']> (counts s) ->
  arrayLength s' = arrayLength s ->
  overflowLength s' = overflowLength s ->
  length (overflow s') = length (overflow s) ->
  (forall g', g' <> g -> row f' g' = row f g') ->
  (forall x, In x (others (counts s) (Z.to_nat g)) ->
     forall w, 0 <= w < 4 -> ld (overflow s') (x + w) = ld (overflow s) (x + w)) ->
  (exists fl', chain (overflow s') (overflowLength s) (nextFreeOverflow s') fl'
     /\ Permutation (fl' ++ own1 c' ++ others (counts s) (Z.to_nat g))
                    (all_slots (overflowLength s))) ->
  row_ok (row f' g) -> group_ok s' g (row f' g) ->
  Inv s' f'.
Proof.
  intros [Hs Hg] Hgr Ed Ec Ea Eo El Hrow Hfr (fl' & Hch & Hp) Hok' Hg'.
  destruct (ld_ok (counts s) g ltac:(rewrite (sh_counts s Hs); lia)) as [c Hc].
  pose proof (sh_data s Hs) as Ld. pose proof (sh_counts s Hs) as Lc.
  split.
  - constructor.
    + rewrite Ea. exact (sh_alen s Hs).
    + rewrite Ed, length_insert, Ea. exact Ld.
    + rewrite Ec, length_insert, Ea. exact Lc.
    + rewrite El, Eo. exact (sh_over s Hs).
    + rewrite Eo. exact (sh_olen s Hs).
    + exists fl'. rewrite Eo. split; [exact Hch|].
      rewrite <- Hp. apply Permutation_app_head. rewrite Ec.
      apply owned_insert with (c := c). apply ld_lookup. exact Hc.
  - intros g0 Hg0. rewrite Ea in Hg0.
    destruct (Z.eq_dec g0 g) as [->|Hne]; [split; assumption|].
    rewrite (Hrow g0 Hne). destruct (Hg g0 Hg0) as [Hok0 Hgo0].
    split; [exact Hok0|].
    apply (group_ok_frame s s' g0 (row f g0) Hgo0).
    + rewrite Ed. apply ld_st_ne; lia.
    + rewrite Ec. apply ld_st_ne; lia.
    + intros idx Hidx Hh w Hw. apply Hfr; [|exact Hw].
      pose proof (row_ok_total _ Hok0) as Ht0.
      pose proof (row_ok_nonneg _ Hok0) as Hn0.
      rewrite <- (header_slot (total (row f g0)) idx) by lia.
      apply (others_In (counts s) (Z.to_nat g) (Z.to_nat g0));
        [lia | apply ld_lookup; exact Hh | apply header_promoted; lia].
Qed.

Lemma NoDup_app_disj {A} (l1 l2 : list A) x :
  List.NoDup (l1 ++ l2) -> In x l1 -> In x l2 -> False.
Proof.
  induction l1 as [|a l1 IH]; intros Hnd H1 H2; [destruct H1|].
  cbn [app] in Hnd. apply List.NoDup_cons_iff in Hnd as [Hn Hnd].
  destruct H1 as [->|H1].
  - apply Hn. apply in_or_app. right. exact H2.
  - exact (IH Hnd H1 H2).
Qed.

Lemma slot_words_disj x y w w' :
  x mod 4 = 0 -> y mod 4 = 0 -> x <> y -> 0 <= w < 4 -> 0 <= w' < 4 ->
  x + w <> y + w'.
Proof.
  intros Hx Hy Hne Hw Hw'.
  pose proof (Z.div_mod x 4 ltac:(lia)). pose proof (Z.div_mod y 4 ltac:(lia)). lia.
Qed.

(** What the partition of the slots gives: every listed slot is a slot, and
    no slot is listed twice. *)
Lemma slots_facts (A B C : list Z) olen :
  olen mod 4 = 0 -> Permutation (A ++ B ++ C) (all_slots olen) ->
  List.NoDup (A ++ B ++ C)
  /\ forall x, In x (A ++ B ++ C) -> 0 <= x /\ x mod 4 = 0 /\ x + 4 <= olen.
Proof.
  intros Hm Hp. split.
  - apply (Permutation_NoDup (Permutation_sym Hp)). apply all_slots_NoDup.
  - intros x Hx. apply (all_slots_In olen x Hm). apply (Permutation_in x Hp). exact Hx.
Qed.

Lemma mk_insert_pos cs bit v : row_ok cs -> 0 <= bit < 64 ->
  0 < nthZ cs bit -> 0 < v -> mk (<[Z.to_nat bit := v]> cs) = mk cs.
Proof.
  intros Hok Hb Hx Hv.
  destruct (row_at cs bit (proj1 Hok) Hb) as (pre & post & E & Eb & Ei).
  assert (Em : mk cs = mk (pre ++ nthZ cs bit :: post)) by (rewrite <- E; reflexivity).
  rewrite Ei, Em. rewrite !mk_app, !mk_cons. unfold b2.
  destruct (Z.ltb_spec 0 v); [|lia]. destruct (Z.ltb_spec 0 (nthZ cs bit)); [|lia].
  reflexivity.
Qed.

Lemma nibble_0 j : nibble 0 j = 0.
Proof. unfold nibble. rewrite Z.shiftr_0_l. reflexivity. Qed.

Lemma shl64_lane i : 0 <= i < 64 -> shl64 1 (i * 4) = 2 ^ (4 * (i mod 16)).
Proof.
  intros Hi. destruct (lane_shift4 i Hi) as (E & _).
  pose proof (div16_range i Hi) as [_ Hm].
  unfold shl64. rewrite E, Z.shiftl_1_l. apply u64_small.
  split; [apply Z.pow_nonneg; lia | apply pow2_lt; lia].
Qed.

Lemma own1_inline c : promoted c = false -> own1 c = [].
Proof. intros H. unfold own1. rewrite H. reflexivity. Qed.

Lemma own1_promoted c : promoted c = true -> own1 c = [slot_of c].
Proof. intros H. unfold own1. rewrite H. reflexivity. Qed.

Lemma partition_facts (fl ot : list Z) idx olen :
  olen mod 4 = 0 -> Permutation (fl ++ [idx] ++ ot) (all_slots olen) ->
  (0 <= idx /\ idx mod 4 = 0 /\ idx + 4 <= olen)
  /\ (forall y, In y fl -> y <> idx /\ y mod 4 = 0 /\ 0 <= y)
  /\ (forall y, In y ot -> y <> idx /\ y mod 4 = 0 /\ 0 <= y).
Proof.
  intros Hm Hp. destruct (slots_facts fl [idx] ot olen Hm Hp) as [Hnd Hv].
  split; [|split].
  - apply Hv. apply in_or_app. right. left. reflexivity.
  - intros y Hy. destruct (Hv y ltac:(apply in_or_app; left; exact Hy)) as (H0 & H4 & _).
    split; [|tauto]. intros ->.
    apply (NoDup_app_disj fl ([idx] ++ ot) idx Hnd Hy). left. reflexivity.
  - intros y Hy.
    destruct (Hv y ltac:(apply in_or_app; right; right; exact Hy)) as (H0 & H4 & _).
    split; [|tauto]. intros ->.
    apply List.NoDup_app_remove_l in Hnd. cbn [app] in Hnd.
    apply List.NoDup_cons_iff in Hnd as [Hn _]. exact (Hn Hy).
Qed.

Lemma add64_lane v d k : 0 <= v + d * 2 ^ k < 2 ^ 64 ->
  u64 (v + d * 2 ^ k) = v + d * 2 ^ k.
Proof. apply u64_small. Qed.

Ltac psimpl :=
  cbn [data counts overflow arrayLength overflowLength nextFreeOverflow cout
       with_data with_counts with_overflow with_next with_cout].

Section IncStep.

Variables (s : filter) (f : Z -> Z -> Z) (g bit : Z).

Hypothesis HInv : Inv s f.

Hypothesis Hg : 0 <= g < arrayLength s.

Hypothesis Hbit : 0 <= bit < 64.

Let cs := row f g.

Let x := f g bit.

Lemma step_row_ok : row_ok cs.
Proof using All. exact (proj1 (proj2 HInv g Hg)). Qed.

Lemma step_group_ok : group_ok s g cs.
Proof using All. exact (proj2 (proj2 HInv g Hg)). Qed.

Lemma step_x : nthZ cs bit = x.
Proof using All. apply row_nth. exact Hbit. Qed.

Lemma step_x_range : 0 <= x <= 15.
Proof using All. rewrite <- step_x. exact (nthZ_range cs bit step_row_ok Hbit). Qed.

Lemma step_row' v : row (setf f g bit v) g = <[Z.to_nat bit := v]> cs.
Proof using All. apply row_setf. exact Hbit. Qed.

Lemma step_shape : shape s.
Proof using All. exact (proj1 HInv). Qed.

Lemma step_bounds :
  0 <= g < Z.of_nat (length (data s)) /\ 0 <= g < Z.of_nat (length (counts s)).
Proof using All.
  rewrite (sh_data s step_shape), (sh_counts s step_shape). tauto.
Qed.

(** Inline, with room left: the counter is spliced in place. *)
Lemma Increment_inline : x < 15 ->
  ld (counts s) g = Some (enc cs) -> total cs <= 62 ->
  exists s', Increment g bit s = Some (tt, s')
    /\ Inv s' (setf f g bit (x + 1)) /\ cout s' = cout s
    /\ overflow s' = overflow s /\ nextFreeOverflow s' = nextFreeOverflow s
    /\ ld (counts s') g = Some (enc (row (setf f g bit (x + 1)) g)).
Proof using All.
  intros Hx15 Hc Ht.
  pose proof step_row_ok as Hok. pose proof step_group_ok as (Hm & _).
  pose proof step_x as Ex. pose proof step_x_range as Rx. pose proof step_bounds as [Bd Bc].
  pose proof (row_ok_nonneg cs Hok) as Hnn.
  assert (H2 : Z.land (enc cs) top2 = 0).
  { apply Z.eqb_eq. rewrite (enc_top2 cs Hnn ltac:(lia)). apply Z.leb_le. exact Ht. }
  rewrite (Inc_inline_eq s g bit _ _ Hm Hc H2).
  rewrite (row_inc cs bit Hok Hbit Ht), (row_set_bit cs bit Hok Hbit), Ex.
  rewrite step_row'. set (cs' := <[Z.to_nat bit := x + 1]> cs).
  assert (Hok' : row_ok cs') by exact (row_ok_insert cs bit Hok Hbit (x + 1) ltac:(lia)).
  assert (Ht' : total cs' = total cs + 1).
  { unfold cs'. rewrite (total_insert cs bit Hok Hbit), Ex. lia. }
  eexists. split; [reflexivity|].
  split; [|repeat split; psimpl; auto; apply ld_st_eq; exact Bc].
  destruct (shape_slots s g _ step_shape Hc) as (fl & Hch & Hp).
  pose proof (proj2 (enc_inline cs Hnn ltac:(lia))) as Hpi.
  eapply (Inv_update s _ f _ g (mk cs') (enc cs') HInv Hg); try reflexivity.
  - intros g' Hne. apply row_setf_other. exact Hne.
  - exists fl. split; [exact Hch|].
    rewrite (own1_inline _ Hpi) in Hp.
    rewrite (own1_inline _ (proj2 (enc_inline cs' (row_ok_nonneg _ Hok') ltac:(lia)))).
    exact Hp.
  - rewrite step_row'. exact Hok'.
  - rewrite step_row'. fold cs'. split; [psimpl; apply ld_st_eq; exact Bd|].
    left. split; [psimpl; apply ld_st_eq; exact Bc | lia].
Qed.

(** Inline and full, with no free slot: the diagnostic is printed. *)
Lemma Increment_exhausted :
  ld (counts s) g = Some (enc cs) -> total cs = 63 ->
  overflowLength s <= nextFreeOverflow s ->
  exists s', Increment g bit s = Some (tt, s') /\ cout s' = cout s ++ [msg].
Proof using All.
  intros Hc Ht Hfull.
  pose proof step_row_ok as Hok. pose proof step_group_ok as (Hm & _).
  pose proof (row_ok_nonneg cs Hok) as Hnn.
  assert (H2 : Z.land (enc cs) top2 <> 0).
  { apply Z.eqb_neq. rewrite (enc_top2 cs Hnn ltac:(lia)). apply Z.leb_gt. lia. }
  rewrite (Inc_exhausted_eq s g bit _ _ Hm Hc H2 (proj2 (enc_inline cs Hnn ltac:(lia))) Hfull).
  eexists. split; reflexivity.
Qed.

(** Promoted already: the lane and the running total go up by one. *)
Lemma Increment_promoted idx : x < 15 ->
  ld (counts s) g = Some (header (total cs) idx) -> 63 <= total cs ->
  0 <= idx < 2 ^ 28 -> slot_lanes (overflow s) idx (nthZ cs) ->
  exists s', Increment g bit s = Some (tt, s')
    /\ Inv s' (setf f g bit (x + 1)) /\ cout s' = cout s
    /\ nextFreeOverflow s' = nextFreeOverflow s
    /\ ld (counts s') g = Some (header (total cs + 1) idx).
Proof using All.
  intros Hx15 Hc Ht Hidx Hl.
  pose proof step_row_ok as Hok. pose proof step_group_ok as (Hm & _).
  pose proof step_x as Ex. pose proof step_x_range as Rx. pose proof step_bounds as [Bd Bc].
  pose proof (row_ok_total cs Hok) as Rt. pose proof step_shape as Hs.
  assert (Hp : promoted (header (total cs) idx) = true) by (apply header_promoted; lia).
  assert (Hso : slot_of (header (total cs) idx) = idx) by (apply header_slot; lia).
  destruct (slot_lanes_add _ idx _ bit 1 Hl ltac:(lia) Hbit ltac:(rewrite Ex; lia))
    as (v & Hv & Hr & Hn & Rv & Hl').
  destruct (lane_shift4 bit Hbit) as (_ & _ & _ & Eq).
  assert (Hv' : ld (overflow s) (slot_of (header (total cs) idx) + Z.quot bit 16) = Some v)
    by (rewrite Hso, Eq; exact Hv).
  rewrite (Inc_promoted_eq s g bit _ _ v Hm Hc Hp Hv').
  rewrite Hso, Eq, (shl64_lane bit Hbit), (header_inc (total cs) idx ltac:(lia) Hidx).
  rewrite (row_set_bit cs bit Hok Hbit), Ex.
  unfold add64. replace (v + 2 ^ (4 * (bit mod 16))) with (v + 1 * 2 ^ (4 * (bit mod 16))) by lia.
  rewrite (u64_small _ Rv).
  set (cs' := <[Z.to_nat bit := x + 1]> cs).
  assert (Hok' : row_ok cs') by exact (row_ok_insert cs bit Hok Hbit (x + 1) ltac:(lia)).
  assert (Ht' : total cs' = total cs + 1).
  { unfold cs'. rewrite (total_insert cs bit Hok Hbit), Ex. lia. }
  destruct (shape_slots s g _ Hs Hc) as (fl & Hch & Hperm).
  rewrite (own1_promoted _ Hp), Hso in Hperm.
  destruct (partition_facts fl _ idx _ (proj2 (sh_olen s Hs)) Hperm) as (Vi & Vfl & Vot).
  pose proof (sh_over s Hs) as Lo. pose proof (div16_range bit Hbit) as [Hq _].
  eexists. split; [reflexivity|].
  split; [|repeat split; psimpl; auto; apply ld_st_eq; exact Bc].
  eapply (Inv_update s _ f _ g (mk cs') (header (total cs + 1) idx) HInv Hg).
  - reflexivity.
  - reflexivity.
  - reflexivity.
  - reflexivity.
  - psimpl. apply length_insert.
  - intros g' Hne. apply row_setf_other. exact Hne.
  - intros y Hy w Hw. psimpl. destruct (Vot y Hy) as (Y1 & Y2 & Y3).
    apply ld_st_ne; [lia | lia |].
    apply not_eq_sym. apply slot_words_disj; auto; lia.
  - exists fl. psimpl. split.
    + apply (chain_frame (overflow s)); [|exact Hch].
      intros y Hy. destruct (Vfl y Hy) as (Y1 & Y2 & Y3).
      apply ld_st_ne; [lia | lia |].
      replace y with (y + 0) by lia. apply not_eq_sym. apply slot_words_disj; auto; lia.
    + rewrite (own1_promoted _ (header_promoted (total cs + 1) idx ltac:(lia) Hidx)).
      rewrite (header_slot (total cs + 1) idx ltac:(lia) Hidx). exact Hperm.
  - rewrite step_row'. exact Hok'.
  - rewrite step_row'. fold cs'. split; [psimpl; apply ld_st_eq; exact Bd|].
    right. exists idx. rewrite Ht'.
    split; [psimpl; apply ld_st_eq; exact Bc|]. split; [lia|]. split; [exact Hidx|].
    psimpl. eapply slot_lanes_ext; [|exact Hl'].
    intros j Hj. cbv beta. unfold cs'. rewrite (nthZ_insert cs bit Hok Hbit _ j Hj), Ex.
    reflexivity.
Qed.

End IncStep.

Lemma agree_refl o x0 : agree o o x0.
Proof. split; auto. Qed.

Lemma agree_insert o o' x0 k v : agree o o' x0 -> 0 <= x0 -> x0 <= k < x0 + 4 ->
  agree o (<[Z.to_nat k := v]> o') x0.
Proof.
  intros [L A] H0 Hk. split; [rewrite length_insert; exact L|].
  intros j Hj Hout. rewrite <- (A j Hj Hout). apply ld_st_ne; lia.
Qed.

Lemma agree_other o o' x0 y w : agree o o' x0 ->
  x0 mod 4 = 0 -> y mod 4 = 0 -> y <> x0 -> 0 <= y -> 0 <= w < 4 ->
  ld o' (y + w) = ld o (y + w).
Proof.
  intros [_ A] H0 Hy Hne Hy0 Hw. apply A; [lia|].
  pose proof (Z.div_mod x0 4 ltac:(lia)). pose proof (Z.div_mod y 4 ltac:(lia)). lia.
Qed.

Lemma lanes_zero o x0 : 0 <= x0 -> x0 + 4 <= Z.of_nat (length o) ->
  slot_lanes
    (<[Z.to_nat (x0 + 3) := 0]>
       (<[Z.to_nat (x0 + 2) := 0]>
          (<[Z.to_nat (x0 + 1) := 0]> (<[Z.to_nat x0 := 0]> o))))
    x0 (fun _ => 0).
Proof.
  intros H0 Hl j Hj. pose proof (div16_range j Hj) as [Hq _].
  exists 0. split; [|split; [lia | apply nibble_0]].
  assert (C : j / 16 = 0 \/ j / 16 = 1 \/ j / 16 = 2 \/ j / 16 = 3) by lia.
  rewrite !ld_insert by (rewrite ?length_insert; lia).
  destruct C as [-> | [-> | [-> | ->]]];
    repeat match goal with
           | |- context [?a =? ?b] => destruct (Z.eqb_spec a b); try lia
           end; reflexivity.
Qed.

(** The loop that copies the inline counts into the lanes of a fresh slot. *)
Lemma convert_loop s g x0 nxt cs :
  row_ok cs -> ld (data s) g = Some (mk cs) -> ld (counts s) g = Some (enc cs) ->
  total cs <= 63 -> 0 <= x0 -> x0 + 4 <= Z.of_nat (length (overflow s)) ->
  exists o3,
    for_up 64 0 (convert_body g x0) (alloc_state s x0 nxt)
    = Some (tt, with_overflow o3 (with_next nxt s))
    /\ agree (overflow s) o3 x0 /\ slot_lanes o3 x0 (nthZ cs).
Proof.
  intros Hok Hm Hc Ht H0 Hl4.
  set (P := fun (i : Z) (st : filter) =>
              exists o, st = with_overflow o (with_next nxt s)
                /\ agree (overflow s) o x0
                /\ slot_lanes o x0 (fun j => if j <? i then nthZ cs j else 0)).
  destruct (for_up_inv P (convert_body g x0) 64 0 (alloc_state s x0 nxt)) as (s3 & E3 & H3).
  - eexists. split; [reflexivity|]. split.
    + repeat apply agree_insert; try lia. apply agree_refl.
    + eapply slot_lanes_ext; [|apply lanes_zero; lia].
      intros j Hj. cbv beta. destruct (Z.ltb_spec j 0); [lia | reflexivity].
  - intros i st Hi (o & -> & Ha & Hlan).
    assert (Hgo : group_ok (with_overflow o (with_next nxt s)) g cs).
    { split; [exact Hm|]. left. split; [exact Hc | exact Ht]. }
    assert (Hi' : 0 <= i < 64) by lia.
    pose proof (nthZ_range cs i Hok Hi') as Rn.
    destruct (slot_lanes_add o x0 _ i (nthZ cs i) Hlan H0 Hi')
      as (v & Hv & Hr & Hn & Rv & Hl').
    { cbv beta. destruct (Z.ltb_spec i i); lia. }
    destruct (lane_shift4 i Hi') as (_ & _ & _ & Eq).
    pose proof (div16_range i Hi') as [Hq Hmod].
    unfold convert_body.
    sstep (ReadCount_ok _ g cs i Hok Hgo Hi').
    rewrite Eq.
    sstep (soverflow_get_eq (with_overflow o (with_next nxt s)) _ _ Hv).
    rewrite (shl64_lane i Hi').
    assert (Hsmall : 0 <= nthZ cs i * 2 ^ (4 * (i mod 16)) < 2 ^ 64).
    { pose proof (pow2_le (4 * (i mod 16)) 60 ltac:(lia)).
      pose proof (pow2_pos (4 * (i mod 16)) ltac:(lia)).
      change (2 ^ 64) with (16 * 2 ^ 60). nia. }
    rewrite (u64_small _ Hsmall). unfold add64. rewrite (u64_small _ Rv).
    pose proof (ld_Some _ _ _ Hv) as Bv.
    rewrite (soverflow_set_eq (with_overflow o (with_next nxt s)) _ _ Bv).
    eexists. split; [reflexivity|].
    exists (<[Z.to_nat (x0 + i / 16) := v + nthZ cs i * 2 ^ (4 * (i mod 16))]> o).
    split; [reflexivity|]. split; [apply agree_insert; auto; lia|].
    eapply slot_lanes_ext; [|exact Hl'].
    intros j Hj. cbv beta.
    destruct (Z.eqb_spec j i) as [->|Hne].
    + destruct (Z.ltb_spec i i); [lia|]. destruct (Z.ltb_spec i (i + 1)); lia.
    + destruct (Z.ltb_spec j i); destruct (Z.ltb_spec j (i + 1)); lia.
  - destruct H3 as (o3 & -> & Ha & Hlan). exists o3.
    split; [exact E3|]. split; [exact Ha|].
    eapply slot_lanes_ext; [|exact Hlan].
    intros j Hj. cbv beta. destruct (Z.ltb_spec j (0 + Z.of_nat 64)); [reflexivity | lia].
Qed.

Section IncPromote.

Variables (s : filter) (f : Z -> Z -> Z) (g bit : Z).

Hypothesis HInv : Inv s f.

Hypothesis Hg : 0 <= g < arrayLength s.

Hypothesis Hbit : 0 <= bit < 64.

Let cs := row f g.

Let x := f g bit.

(** Inline and full, with a free slot: the group is promoted. *)
Lemma Increment_promote : x < 15 ->
  ld (counts s) g = Some (enc cs) -> total cs = 63 ->
  nextFreeOverflow s < overflowLength s ->
  exists s', Increment g bit s = Some (tt, s')
    /\ Inv s' (setf f g bit (x + 1)) /\ cout s' = cout s
    /\ ld (counts s') g = Some (header 64 (nextFreeOverflow s)).
Proof using All.
  intros Hx15 Hc Ht Hfree.
  pose proof (step_row_ok s f g bit HInv Hg Hbit) as Hok. fold cs in Hok.
  pose proof (step_group_ok s f g bit HInv Hg Hbit) as (Hm & _). fold cs in Hm.
  pose proof (step_x s f g bit HInv Hg Hbit) as Ex. fold cs x in Ex.
  pose proof (step_x_range s f g bit HInv Hg Hbit) as Rx. fold x in Rx.
  pose proof (step_bounds s f g bit HInv Hg Hbit) as [Bd Bc].
  pose proof (row_ok_nonneg cs Hok) as Hnn. pose proof (step_shape s f g bit HInv Hg Hbit) as Hs.
  pose proof (sh_over s Hs) as Lo. pose proof (sh_olen s Hs) as [Ho28 Ho4].
  assert (H2 : Z.land (enc cs) top2 <> 0).
  { apply Z.eqb_neq. rewrite (enc_top2 cs Hnn ltac:(lia)). apply Z.leb_gt. lia. }
  pose proof (proj2 (enc_inline cs Hnn ltac:(lia))) as Hpi.
  destruct (shape_slots s g _ Hs Hc) as (fl & Hch & Hperm).
  rewrite (own1_inline _ Hpi) in Hperm.
  destruct fl as [|x0 fl']; [cbn [chain] in Hch; lia|].
  destruct Hch as (E0 & nxt & Hnx & Hch').
  assert (Hperm' : Permutation (fl' ++ [x0] ++ others (counts s) (Z.to_nat g))
                               (all_slots (overflowLength s))).
  { rewrite <- Hperm. cbn [app]. symmetry. apply Permutation_middle. }
  destruct (partition_facts fl' _ x0 _ Ho4 Hperm') as (Vi & Vfl & Vot).
  rewrite (Inc_convert_eq s g bit _ _ nxt Hm Hc H2 Hpi ltac:(lia) ltac:(lia)
             ltac:(rewrite E0; exact Hnx)).
  rewrite E0.
  destruct (convert_loop s g x0 nxt cs Hok Hm Hc ltac:(lia) ltac:(lia) ltac:(lia))
    as (o3 & E3 & Ha & Hl3).
  sstep E3.
  rewrite (header_new x0 ltac:(lia)).
  sstep (scounts_set_eq (with_overflow o3 (with_next nxt s)) g (header 64 x0) Bc).
  destruct (slot_lanes_add o3 x0 _ bit 1 Hl3 ltac:(lia) Hbit ltac:(rewrite Ex; lia))
    as (v & Hv & Hr & Hn & Rv & Hl').
  destruct (lane_shift4 bit Hbit) as (_ & _ & _ & Eq).
  pose proof (div16_range bit Hbit) as [Hq _].
  unfold finish. rewrite Eq.
  set (s4 := with_counts _ (with_overflow o3 (with_next nxt s))).
  sstep (soverflow_get_eq s4 _ _ Hv).
  rewrite (shl64_lane bit Hbit).
  unfold add64. replace (v + 2 ^ (4 * (bit mod 16))) with (v + 1 * 2 ^ (4 * (bit mod 16))) by lia.
  rewrite (u64_small _ Rv).
  sstep (soverflow_set_eq s4 _ (v + 1 * 2 ^ (4 * (bit mod 16))) (ld_Some _ _ _ Hv)).
  set (s5 := with_overflow _ s4).
  sstep (sdata_get_eq s5 g _ Hm).
  rewrite (sdata_set_eq s5 g _ Bd).
  rewrite (row_set_bit cs bit Hok Hbit), Ex.
  set (cs' := <[Z.to_nat bit := x + 1]> cs).
  assert (Hok' : row_ok cs') by exact (row_ok_insert cs bit Hok Hbit (x + 1) ltac:(lia)).
  assert (Ht' : total cs' = 64).
  { unfold cs'. rewrite (total_insert cs bit Hok Hbit), Ex. lia. }
  pose proof (step_row' s f g bit HInv Hg Hbit (x + 1)) as Er. fold cs cs' in Er.
  eexists. split; [reflexivity|].
  split; [|split; [reflexivity | psimpl; apply ld_st_eq; exact Bc]].
  assert (Ha5 : agree (overflow s) (overflow s5) x0).
  { unfold s5. psimpl. apply agree_insert; auto; lia. }
  eapply (Inv_update s _ f _ g (mk cs') (header 64 x0) HInv Hg).
  - reflexivity.
  - reflexivity.
  - reflexivity.
  - reflexivity.
  - psimpl. exact (proj1 Ha5).
  - intros g' Hne. apply row_setf_other. exact Hne.
  - intros y Hy w Hw. destruct (Vot y Hy) as (Y1 & Y2 & Y3).
    exact (agree_other _ _ x0 y w Ha5 (proj1 (proj2 Vi)) Y2 Y1 Y3 Hw).
  - exists fl'. split.
    + apply (chain_frame (overflow s)); [|exact Hch'].
      intros y Hy. destruct (Vfl y Hy) as (Y1 & Y2 & Y3).
      replace y with (y + 0) by lia.
      exact (agree_other _ _ x0 y 0 Ha5 (proj1 (proj2 Vi)) Y2 Y1 Y3 ltac:(lia)).
    + rewrite (own1_promoted _ (header_promoted 64 x0 ltac:(lia) ltac:(lia))).
      rewrite (header_slot 64 x0 ltac:(lia) ltac:(lia)). exact Hperm'.
  - rewrite Er. exact Hok'.
  - rewrite Er. split; [psimpl; apply ld_st_eq; exact Bd|].
    right. exists x0. rewrite Ht'.
    split; [psimpl; apply ld_st_eq; exact Bc|]. split; [lia|]. split; [lia|].
    psimpl. eapply slot_lanes_ext; [|exact Hl'].
    intros j Hj. cbv beta. unfold cs'. rewrite (nthZ_insert cs bit Hok Hbit _ j Hj), Ex.
    reflexivity.
Qed.

End IncPromote.

Lemma ld_insert_id arr i v : ld arr i = Some v -> <[Z.to_nat i := v]> arr = arr.
Proof. intros H. apply list_insert_id. apply ld_lookup. exact H. Qed.

Section DecStep.

Variables (s : filter) (f : Z -> Z -> Z) (g bit : Z).

Hypothesis HInv : Inv s f.

Hypothesis Hg : 0 <= g < arrayLength s.

Hypothesis Hbit : 0 <= bit < 64.

Let cs := row f g.

Let x := f g bit.

Hypothesis Hpos : 0 < x.

(** Inline: one bit is spliced out of the counter word. *)
Lemma Decrement_inline :
  ld (counts s) g = Some (enc cs) -> total cs <= 63 ->
  exists s', Decrement g bit s = Some (tt, s')
    /\ Inv s' (setf f g bit (x - 1)) /\ cout s' = cout s
    /\ overflow s' = overflow s /\ nextFreeOverflow s' = nextFreeOverflow s
    /\ ld (counts s') g = Some (enc (row (setf f g bit (x - 1)) g)).
Proof using All.
  intros Hc Ht.
  pose proof (step_row_ok s f g bit HInv Hg Hbit) as Hok. fold cs in Hok.
  pose proof (step_group_ok s f g bit HInv Hg Hbit) as (Hm & _). fold cs in Hm.
  pose proof (step_x s f g bit HInv Hg Hbit) as Ex. fold cs x in Ex.
  pose proof (step_x_range s f g bit HInv Hg Hbit) as Rx. fold x in Rx.
  pose proof (step_bounds s f g bit HInv Hg Hbit) as [Bd Bc].
  pose proof (row_ok_nonneg cs Hok) as Hnn. pose proof (step_shape s f g bit HInv Hg Hbit) as Hs.
  pose proof (proj2 (enc_inline cs Hnn Ht)) as Hpi.
  rewrite (Dec_inline_eq s g bit _ _ Hm Hc Hpi).
  destruct (row_dec cs bit Hok Hbit ltac:(rewrite Ex; exact Hpos) Ht) as [Ew Ed].
  rewrite Ew, Ed, Ex.
  pose proof (step_row' s f g bit HInv Hg Hbit (x - 1)) as Er. fold cs in Er. rewrite Er.
  set (cs' := <[Z.to_nat bit := x - 1]> cs).
  assert (Hok' : row_ok cs') by exact (row_ok_insert cs bit Hok Hbit (x - 1) ltac:(lia)).
  assert (Ht' : total cs' = total cs - 1).
  { unfold cs'. rewrite (total_insert cs bit Hok Hbit), Ex. lia. }
  eexists. split; [reflexivity|].
  split; [|repeat split; psimpl; auto; apply ld_st_eq; exact Bc].
  destruct (shape_slots s g _ Hs Hc) as (fl & Hch & Hp).
  eapply (Inv_update s _ f _ g (mk cs') (enc cs') HInv Hg).
  - reflexivity.
  - reflexivity.
  - reflexivity.
  - reflexivity.
  - reflexivity.
  - intros g' Hne. apply row_setf_other. exact Hne.
  - intros; reflexivity.
  - exists fl. split; [exact Hch|].
    rewrite (own1_inline _ Hpi) in Hp.
    rewrite (own1_inline _ (proj2 (enc_inline cs' (row_ok_nonneg _ Hok') ltac:(lia)))).
    exact Hp.
  - rewrite Er. exact Hok'.
  - rewrite Er. fold cs'. split; [psimpl; apply ld_st_eq; exact Bd|].
    left. split; [psimpl; apply ld_st_eq; exact Bc | lia].
Qed.

(** Promoted: the lane and the running total go down by one; the group
    goes back to the inline form when the header counted fewer than 64. *)
Lemma Decrement_promoted idx :
  ld (counts s) g = Some (header (total cs) idx) -> 63 <= total cs ->
  0 <= idx < 2 ^ 28 -> slot_lanes (overflow s) idx (nthZ cs) ->
  exists s', Decrement g bit s = Some (tt, s')
    /\ Inv s' (setf f g bit (x - 1)) /\ cout s' = cout s
    /\ (if total cs <? 64
        then ld (counts s') g = Some (enc (row (setf f g bit (x - 1)) g))
             /\ nextFreeOverflow s' = idx
        else ld (counts s') g = Some (header (total cs - 1) idx)
             /\ nextFreeOverflow s' = nextFreeOverflow s).
Proof using All.
  intros Hc Ht Hidx Hl.
  pose proof (step_row_ok s f g bit HInv Hg Hbit) as Hok. fold cs in Hok.
  pose proof (step_group_ok s f g bit HInv Hg Hbit) as (Hm & _). fold cs in Hm.
  pose proof (step_x s f g bit HInv Hg Hbit) as Ex. fold cs x in Ex.
  pose proof (step_x_range s f g bit HInv Hg Hbit) as Rx. fold x in Rx.
  pose proof (step_bounds s f g bit HInv Hg Hbit) as [Bd Bc].
  pose proof (row_ok_total cs Hok) as Rt. pose proof (step_shape s f g bit HInv Hg Hbit) as Hs.
  pose proof (sh_over s Hs) as Lo. pose proof (sh_olen s Hs) as [Ho28 Ho4].
  assert (Hp : promoted (header (total cs) idx) = true) by (apply header_promoted; lia).
  assert (Hso : slot_of (header (total cs) idx) = idx) by (apply header_slot; lia).
  destruct (slot_lanes_add _ idx _ bit (-1) Hl ltac:(lia) Hbit ltac:(rewrite Ex; lia))
    as (v & Hv & Hr & Hn & Rv & Hl').
  destruct (lane_shift4 bit Hbit) as (_ & _ & E4 & Eq).
  pose proof (div16_range bit Hbit) as [Hq _].
  destruct (shape_slots s g _ Hs Hc) as (fl & Hch & Hperm).
  rewrite (own1_promoted _ Hp), Hso in Hperm.
  destruct (partition_facts fl _ idx _ Ho4 Hperm) as (Vi & Vfl & Vot).
  assert (Hv' : ld (overflow s) (slot_of (header (total cs) idx) + Z.quot bit 16) = Some v)
    by (rewrite Hso, Eq; exact Hv).
  rewrite (Dec_promoted_eq s g bit _ _ v Hm Hc Hp Hv') by (rewrite Hso; lia).
  rewrite (header_count (total cs) idx ltac:(lia) Hidx).
  pose proof (step_row' s f g bit HInv Hg Hbit (x - 1)) as Er. fold cs in Er. rewrite Er.
  set (cs' := <[Z.to_nat bit := x - 1]> cs).
  assert (Hok' : row_ok cs') by exact (row_ok_insert cs bit Hok Hbit (x - 1) ltac:(lia)).
  assert (Ht' : total cs' = total cs - 1).
  { unfold cs'. rewrite (total_insert cs bit Hok Hbit), Ex. lia. }
  (* the state after the lane update *)
  set (o3 := <[Z.to_nat (idx + bit / 16) := v + -1 * 2 ^ (4 * (bit mod 16))]> (overflow s)).
  set (c3 := <[Z.to_nat g := header (total cs - 1) idx]> (counts s)).
  assert (E3 : dec_lane_state s g bit (mk cs) (header (total cs) idx) v
               = with_data (<[Z.to_nat g := mk cs']> (data s))
                   (with_overflow o3 (with_counts c3 s))).
  { unfold dec_lane_state.
    rewrite Hso, Eq, (shl64_lane bit Hbit), (header_dec (total cs) idx ltac:(lia) Hidx).
    unfold sub64.
    replace (v - 2 ^ (4 * (bit mod 16))) with (v + -1 * 2 ^ (4 * (bit mod 16))) by lia.
    rewrite (u64_small _ Rv). fold o3 c3.
    unfold shr64. rewrite E4. fold (nibble v (bit mod 16)). rewrite Hn, Ex.
    destruct (Z.eqb_spec x 1) as [E1|E1].
    - rewrite (row_clear cs bit Hok Hbit ltac:(rewrite Ex; lia)).
      unfold cs'. rewrite E1. reflexivity.
    - unfold cs'. rewrite (mk_insert_pos cs bit (x - 1) Hok Hbit) by (rewrite ?Ex; lia).
      rewrite (ld_insert_id _ _ _ Hm). reflexivity. }
  rewrite E3. cbv zeta. rewrite Hso.
  set (s3 := with_data _ (with_overflow o3 (with_counts c3 s))).
  assert (Hl3 : slot_lanes o3 idx (nthZ cs')).
  { eapply slot_lanes_ext; [|exact Hl'].
    intros j Hj. cbv beta. unfold cs'. rewrite (nthZ_insert cs bit Hok Hbit _ j Hj), Ex.
    destruct (j =? bit); lia. }
  assert (Hfr3 : forall y, In y (others (counts s) (Z.to_nat g)) ->
            forall w, 0 <= w < 4 -> ld o3 (y + w) = ld (overflow s) (y + w)).
  { intros y Hy w Hw. destruct (Vot y Hy) as (Y1 & Y2 & Y3).
    apply ld_st_ne; [lia | lia |].
    apply not_eq_sym. apply slot_words_disj; auto; lia. }
  assert (Hch3 : chain o3 (overflowLength s) (nextFreeOverflow s) fl).
  { apply (chain_frame (overflow s)); [|exact Hch].
    intros y Hy. destruct (Vfl y Hy) as (Y1 & Y2 & Y3).
    apply ld_st_ne; [lia | lia |].
    replace y with (y + 0) by lia. apply not_eq_sym. apply slot_words_disj; auto; lia. }
  destruct (Z.ltb_spec (total cs) 64) as [Hlt|Hge].
  - (* back to the inline form *)
    rewrite (demote_fold (overflow s3) idx cs' Hok' ltac:(lia) Hl3).
    eexists. split; [reflexivity|].
    split; [|split; [reflexivity|split; [|reflexivity]]].
    2:{ unfold demote_state, s3, c3. psimpl. apply ld_st_eq. rewrite length_insert. exact Bc. }
    eapply (Inv_update s _ f _ g (mk cs') (enc cs') HInv Hg).
    + reflexivity.
    + unfold demote_state, s3, c3. psimpl. apply list_insert_insert_eq.
    + reflexivity.
    + reflexivity.
    + unfold demote_state, s3, o3. psimpl. rewrite !length_insert. reflexivity.
    + intros g' Hne. apply row_setf_other. exact Hne.
    + intros y Hy w Hw. unfold demote_state, s3. psimpl.
      destruct (Vot y Hy) as (Y1 & Y2 & Y3).
      rewrite ld_st_ne; [apply (Hfr3 y Hy w Hw) | lia | lia |].
      replace idx with (idx + 0) by lia. apply slot_words_disj; auto; lia.
    + exists (idx :: fl). unfold demote_state, s3. psimpl. split.
      * cbn [chain]. split; [reflexivity|]. exists (nextFreeOverflow s).
        split; [apply ld_st_eq; unfold o3; rewrite length_insert; lia|].
        apply (chain_frame o3); [|exact Hch3].
        intros y Hy. destruct (Vfl y Hy) as (Y1 & Y2 & Y3).
        apply ld_st_ne; lia.
      * rewrite (own1_inline _ (proj2 (enc_inline cs' (row_ok_nonneg _ Hok') ltac:(lia)))).
        rewrite <- Hperm. cbn [app]. apply Permutation_middle.
    + rewrite Er. exact Hok'.
    + rewrite Er. fold cs'. unfold demote_state, s3. psimpl.
      split; [apply ld_st_eq; exact Bd|].
      left. split; [apply ld_st_eq; unfold c3; rewrite length_insert; exact Bc | lia].
  - eexists. split; [reflexivity|].
    split; [|split; [reflexivity|split; [|reflexivity]]].
    2:{ unfold s3, c3. psimpl. apply ld_st_eq. exact Bc. }
    eapply (Inv_update s _ f _ g (mk cs') (header (total cs - 1) idx) HInv Hg).
    + reflexivity.
    + reflexivity.
    + reflexivity.
    + reflexivity.
    + unfold s3, o3. psimpl. apply length_insert.
    + intros g' Hne. apply row_setf_other. exact Hne.
    + exact Hfr3.
    + exists fl. split; [exact Hch3|].
      rewrite (own1_promoted _ (header_promoted (total cs - 1) idx ltac:(lia) Hidx)).
      rewrite (header_slot (total cs - 1) idx ltac:(lia) Hidx). exact Hperm.
    + rewrite Er. exact Hok'.
    + rewrite Er. fold cs'. split; [unfold s3; psimpl; apply ld_st_eq; exact Bd|].
      right. exists idx. rewrite Ht'.
      split; [unfold s3, c3; psimpl; apply ld_st_eq; exact Bc|].
      split; [lia|]. split; [exact Hidx | exact Hl3].
Qed.

End DecStep.

Lemma net_app p q g i : net (p ++ q) g i = net p g i + net q g i.
Proof. induction p as [|o p IH]; cbn [app net]; [lia | rewrite IH; lia]. Qed.

Lemma Inv_ext s f f' : (forall g i, 0 <= i < 64 -> f g i = f' g i) -> Inv s f -> Inv s f'.
Proof.
  intros E [Hs Hg]. split; [exact Hs|]. intros g Hgr.
  rewrite <- (row_ext f f' g (E g)). apply Hg. exact Hgr.
Qed.

Lemma quiet_cout ops s : quiet ops s = true -> cout s = [].
Proof. destruct ops; cbn [quiet]; destruct (cout s); congruence. Qed.

(** One operation, whatever the form of the group. *)
Lemma Increment_step s f g bit :
  Inv s f -> 0 <= g < arrayLength s -> 0 <= bit < 64 -> f g bit < 15 ->
  exists s', Increment g bit s = Some (tt, s')
    /\ ((Inv s' (setf f g bit (f g bit + 1)) /\ cout s' = cout s)
        \/ cout s' = cout s ++ [msg]).
Proof.
  intros HInv Hg Hb Hx.
  destruct (step_group_ok s f g bit HInv Hg Hb) as (_ & [[Hc Ht] | (idx & Hc & Ht & Hi & Hl)]).
  - destruct (Z_le_gt_dec (total (row f g)) 62) as [H62|H63].
    + destruct (Increment_inline s f g bit HInv Hg Hb Hx Hc H62) as (s' & E & HI & Hco & _).
      exists s'. split; [exact E|]. left. auto.
    + destruct (Z_lt_le_dec (nextFreeOverflow s) (overflowLength s)) as [Hfree|Hfull].
      * destruct (Increment_promote s f g bit HInv Hg Hb Hx Hc ltac:(lia) Hfree)
          as (s' & E & HI & Hco & _).
        exists s'. split; [exact E|]. left. auto.
      * destruct (Increment_exhausted s f g bit HInv Hg Hb Hc ltac:(lia) Hfull)
          as (s' & E & Hco).
        exists s'. split; [exact E|]. right. exact Hco.
  - destruct (Increment_promoted s f g bit HInv Hg Hb idx Hx Hc Ht Hi Hl)
      as (s' & E & HI & Hco & _).
    exists s'. split; [exact E|]. left. auto.
Qed.

Lemma Decrement_step s f g bit :
  Inv s f -> 0 <= g < arrayLength s -> 0 <= bit < 64 -> 0 < f g bit ->
  exists s', Decrement g bit s = Some (tt, s')
    /\ Inv s' (setf f g bit (f g bit - 1)) /\ cout s' = cout s.
Proof.
  intros HInv Hg Hb Hx.
  destruct (step_group_ok s f g bit HInv Hg Hb) as (_ & [[Hc Ht] | (idx & Hc & Ht & Hi & Hl)]).
  - destruct (Decrement_inline s f g bit HInv Hg Hb Hx Hc Ht) as (s' & E & HI & Hco & _).
    exists s'. auto.
  - destruct (Decrement_promoted s f g bit HInv Hg Hb Hx idx Hc Ht Hi Hl)
      as (s' & E & HI & Hco & _).
    exists s'. auto.
Qed.

Lemma wp_elim {St A} (m : M St A) Q s a s' : wp m Q s -> m s = Some (a, s') -> Q a s'.
Proof. unfold wp. intros H E. rewrite E in H. exact H. Qed.

Lemma wp_intro {St A} (m : M St A) (Q : A -> St -> Prop) s :
  (forall a s', m s = Some (a, s') -> Q a s') -> wp m Q s.
Proof. unfold wp. intros H. destruct (m s) as [[a s']|]; auto. Qed.

Lemma wp_ret {St A} (a : A) (Q : A -> St -> Prop) s : Q a s -> wp (ret a) Q s.
Proof. exact id. Qed.

Lemma wp_bind {St A B} (m : M St A) (f : A -> M St B) Q s :
  wp m (fun a s' => wp (f a) Q s') s -> wp (bind m f) Q s.
Proof. unfold wp, bind. destruct (m s) as [[a s']|]; auto. Qed.

Lemma wp_mono {St A} (m : M St A) (Q Q' : A -> St -> Prop) s :
  (forall a s', Q a s' -> Q' a s') -> wp m Q s -> wp m Q' s.
Proof. unfold wp. intros H. destruct (m s) as [[a s']|]; auto. Qed.

Lemma wp_lift {St A} (o : option A) (Q : A -> St -> Prop) s :
  (forall a, o = Some a -> Q a s) -> wp (lift o) Q s.
Proof. unfold wp, lift. destruct o; auto. Qed.

Lemma wp_for_up {St} (I : St -> Prop) (body : Z -> M St unit) :
  (forall i s, I s -> wp (body i) (fun _ s' => I s') s) ->
  forall n lo s, I s -> wp (for_up n lo body) (fun _ s' => I s') s.
Proof.
  intros Hb. induction n as [|n IH]; intros lo s Hs; cbn [for_up].
  - exact Hs.
  - apply wp_bind. eapply wp_mono; [|apply Hb; exact Hs].
    cbv beta. intros _ s' Hs'. apply IH. exact Hs'.
Qed.

Lemma wp_for_down {St A} (I : St -> Prop) (body : Z -> A -> M St A) :
  (forall j acc s, I s -> wp (body j acc) (fun _ s' => I s') s) ->
  forall n acc s, I s -> wp (for_down n body acc) (fun _ s' => I s') s.
Proof.
  intros Hb. induction n as [|n IH]; intros acc s Hs; cbn [for_down].
  - exact Hs.
  - apply wp_bind. eapply wp_mono; [|apply Hb; exact Hs].
    cbv beta. intros a s' Hs'. apply IH. exact Hs'.
Qed.

(** The primitives of the filter. *)
Lemma wp_data_get i (Q : Z -> filter -> Prop) s :
  (forall v, ld (data s) i = Some v -> Q v s) -> wp (data_get i) Q s.
Proof. unfold wp, data_get. destruct (ld (data s) i); auto. Qed.

Lemma wp_counts_get i (Q : Z -> filter -> Prop) s :
  (forall v, ld (counts s) i = Some v -> Q v s) -> wp (counts_get i) Q s.
Proof. unfold wp, counts_get. destruct (ld (counts s) i); auto. Qed.

Lemma wp_overflow_get i (Q : Z -> filter -> Prop) s :
  (forall v, ld (overflow s) i = Some v -> Q v s) -> wp (overflow_get i) Q s.
Proof. unfold wp, overflow_get. destruct (ld (overflow s) i); auto. Qed.

Lemma wp_data_set i v (Q : unit -> filter -> Prop) s :
  (forall d, st (data s) i v = Some d -> Q tt (with_data d s)) -> wp (data_set i v) Q s.
Proof. unfold wp, data_set. destruct (st (data s) i v); auto. Qed.

Lemma wp_counts_set i v (Q : unit -> filter -> Prop) s :
  (forall c, Q tt (with_counts c s)) -> wp (counts_set i v) Q s.
Proof. unfold wp, counts_set. destruct (st (counts s) i v); auto. Qed.

Lemma wp_overflow_set i v (Q : unit -> filter -> Prop) s :
  (forall o, Q tt (with_overflow o s)) -> wp (overflow_set i v) Q s.
Proof. unfold wp, overflow_set. destruct (st (overflow s) i v); auto. Qed.

Lemma wp_ReadCount g i (Q : Z -> filter -> Prop) s :
  (forall v, Q v s) -> wp (ReadCount g i) Q s.
Proof.
  intros H. unfold ReadCount.
  apply wp_bind, wp_data_get. intros m _.
  destruct (Z.land (shr64 m i) 1 =? 0); [apply wp_ret, H|].
  apply wp_bind, wp_counts_get. intros c _.
  destruct (negb (Z.land c top1 =? 0)).
  - apply wp_bind, wp_overflow_get. intros n _. apply wp_ret, H.
  - apply wp_bind, wp_lift. intros lz _. apply wp_ret, H.
Qed.

Lemma sub_refl m : sub m m.
Proof. intros i _ H. exact H. Qed.

Lemma sub_trans a b c : sub a b -> sub b c -> sub a c.
Proof. intros H1 H2 i Hi H. apply H2, H1; assumption. Qed.

Lemma sub_lor w x : sub w (Z.lor w x).
Proof. intros i _ H. rewrite Z.lor_spec, H. reflexivity. Qed.

Lemma grows_refl s : grows s s.
Proof.
  repeat split. apply Forall2_same_length_lookup_2; [reflexivity|].
  intros i x y H1 H2. rewrite H1 in H2. injection H2 as <-. apply sub_refl.
Qed.

Lemma grows_trans a b c : grows a b -> grows b c -> grows a c.
Proof.
  intros (A1 & A2 & A3) (B1 & B2 & B3). repeat split; try congruence.
  apply Forall2_same_length_lookup. apply Forall2_same_length_lookup in A3 as [L1 H1].
  apply Forall2_same_length_lookup in B3 as [L2 H2].
  split; [congruence|]. intros i x z Hx Hz.
  destruct (lookup_lt_is_Some_2 (data b) i) as [y Hy].
  { rewrite <- L1. eapply lookup_lt_Some. exact Hx. }
  eapply sub_trans; [eapply H1 | eapply H2]; eassumption.
Qed.

Lemma grows_counts s0 s c : grows s0 s -> grows s0 (with_counts c s).
Proof. exact id. Qed.

Lemma grows_overflow s0 s o : grows s0 s -> grows s0 (with_overflow o s).
Proof. exact id. Qed.

Lemma grows_next s0 s n : grows s0 s -> grows s0 (with_next n s).
Proof. exact id. Qed.

Lemma grows_cout s0 s l : grows s0 s -> grows s0 (with_cout l s).
Proof. exact id. Qed.

Lemma st_Some arr i v d : st arr i v = Some d ->
  0 <= i < Z.of_nat (length arr) /\ d = <[Z.to_nat i := v]> arr.
Proof.
  unfold st. destruct (Z.leb_spec 0 i), (Z.ltb_spec i (Z.of_nat (length arr)));
    cbn [andb]; intros E; try discriminate. injection E as <-. split; [lia | reflexivity].
Qed.

(** Setting bits in one word of [data]. *)
Lemma grows_data_or s0 s g w x d : grows s0 s ->
  ld (data s) g = Some w -> st (data s) g (Z.lor w x) = Some d ->
  grows s0 (with_data d s).
Proof.
  intros (A1 & A2 & A3) Hw Hd. apply st_Some in Hd as [Hg ->].
  repeat split; [exact A1 | exact A2 |]. cbn [data with_data].
  apply ld_lookup in Hw.
  destruct (Forall2_lookup_r _ _ _ _ _ A3 Hw) as (m0 & H0 & Hs).
  rewrite <- (list_insert_id (data s0) (Z.to_nat g) m0 H0).
  apply Forall2_insert; [exact A3|]. eapply sub_trans; [exact Hs | apply sub_lor].
Qed.

Lemma shl64_1_bit bit : 0 <= bit < 64 -> shl64 1 bit = 2 ^ bit.
Proof.
  intros Hb. rewrite shl64_small; try lia.
  pose proof (pow2_lt bit 64 ltac:(lia)). lia.
Qed.

Lemma lor_bit_set w bit : 0 <= bit < 64 -> Z.testbit (Z.lor w (shl64 1 bit)) bit = true.
Proof.
  intros Hb. rewrite shl64_1_bit by exact Hb.
  rewrite Z.lor_spec, Z.pow2_bits_true by lia. apply orb_true_r.
Qed.

Lemma present_data_or s g bit w d : 0 <= bit < 64 ->
  st (data s) g (Z.lor w (shl64 1 bit)) = Some d -> present g bit (with_data d s).
Proof.
  intros Hb Hd. apply st_Some in Hd as [Hg ->]. exists (Z.lor w (shl64 1 bit)).
  split; [cbn [data with_data]; apply ld_st_eq; exact Hg | apply lor_bit_set; exact Hb].
Qed.

Lemma present_grows g bit s s' : 0 <= bit -> present g bit s -> grows s s' -> present g bit s'.
Proof.
  intros Hb (m & Hm & Ht) (_ & _ & F). pose proof (ld_lookup _ _ _ Hm) as Hl.
  destruct (Forall2_lookup_l _ _ _ _ _ F Hl) as (m' & Hm' & Hs).
  exists m'. split; [|apply Hs; assumption].
  unfold ld in *. destruct (0 <=? g); [exact Hm' | discriminate].
Qed.

Lemma wp_get_next (Q : Z -> filter -> Prop) s : Q (nextFreeOverflow s) s -> wp get_next Q s.
Proof. exact id. Qed.

Lemma wp_get_overflowLength (Q : Z -> filter -> Prop) s :
  Q (overflowLength s) s -> wp get_overflowLength Q s.
Proof. exact id. Qed.

Lemma wp_get_arrayLength (Q : Z -> filter -> Prop) s :
  Q (arrayLength s) s -> wp get_arrayLength Q s.
Proof. exact id. Qed.

Lemma wp_set_next n (Q : unit -> filter -> Prop) s : Q tt (with_next n s) -> wp (set_next n) Q s.
Proof. exact id. Qed.

Lemma wp_print l (Q : unit -> filter -> Prop) s :
  Q tt (with_cout (cout s ++ [l]) s) -> wp (print l) Q s.
Proof. exact id. Qed.

(** The last two statements of [Increment]: [data[group] |= 1ULL << bit]. *)
Lemma wp_set_presence s0 g bit s : grows s0 s ->
  wp (w <- data_get g ;; data_set g (Z.lor w (shl64 1 bit)))
     (fun _ s' => grows s0 s' /\ (0 <= bit < 64 -> present g bit s')) s.
Proof.
  intros G. apply wp_bind, wp_data_get. intros w Hw.
  apply wp_data_set. intros d Hd. split.
  - eapply grows_data_or; eassumption.
  - intros Hb. eapply present_data_or; eassumption.
Qed.

Lemma wp_finish s0 g bit index s : grows s0 s ->
  wp (finish g bit index) (fun _ s' => grows s0 s' /\ (0 <= bit < 64 -> present g bit s')) s.
Proof.
  intros G. unfold finish. apply wp_bind, wp_overflow_get. intros v _.
  apply wp_bind, wp_overflow_set. intros o.
  apply wp_set_presence. apply grows_overflow; exact G.
Qed.

Lemma present_counts g bit c s : present g bit s -> present g bit (with_counts c s).
Proof. exact id. Qed.

(** Whatever branch it takes, [Increment] sets the presence bit of its
    position and clears no presence bit. *)
Lemma Increment_grows g bit s :
  wp (Increment g bit) (fun _ s' => grows s s' /\ (0 <= bit < 64 -> present g bit s')) s.
Proof.
  pose proof (grows_refl s) as G. revert G. generalize s at 1 3 as s0. intros s0 G.
  unfold Increment.
  apply wp_bind, wp_data_get. intros m _.
  apply wp_bind, wp_counts_get. intros c _.
  destruct (negb (Z.land c top2 =? 0)).
  - cbv zeta. destruct (Z.land c top1 =? 0).
    + apply wp_bind, wp_get_next. apply wp_bind, wp_get_overflowLength.
      destruct (overflowLength s <=? nextFreeOverflow s).
      * apply wp_bind, wp_print. apply wp_set_presence. apply grows_cout; exact G.
      * apply wp_bind, wp_overflow_get. intros nxt _.
        apply wp_bind, wp_set_next.
        apply wp_bind, wp_overflow_set. intros o1.
        apply wp_bind, wp_overflow_set. intros o2.
        apply wp_bind, wp_overflow_set. intros o3.
        apply wp_bind, wp_overflow_set. intros o4.
        apply wp_bind.
        eapply wp_mono; [|apply (wp_for_up (grows s0))].
        -- cbv beta. intros _ s1 G1. apply wp_bind, wp_counts_set. intros c1.
           apply (wp_finish s0 g bit). apply grows_counts; exact G1.
        -- intros i s1 G1. apply wp_bind, wp_ReadCount. intros n.
           apply wp_bind, wp_overflow_get. intros v _.
           apply wp_overflow_set. intros o. apply grows_overflow. exact G1.
        -- exact G.
    + apply wp_bind, wp_counts_set. intros c1.
      apply (wp_finish s0 g bit). apply grows_counts; exact G.
  - apply wp_bind, wp_data_get. intros w Hw.
    apply wp_bind, wp_data_set. intros d Hd.
    apply wp_counts_set. intros c1. split.
    + apply grows_counts. eapply grows_data_or; eassumption.
    + intros Hb. apply present_counts. eapply present_data_or; eassumption.
Qed.

Lemma wp_data_set_any i v (Q : unit -> filter -> Prop) s :
  (forall d, Q tt (with_data d s)) -> wp (data_set i v) Q s.
Proof. intros H. apply wp_data_set. intros d _. apply H. Qed.

Lemma grows_dims s0 s : grows s0 s -> dims s0 s.
Proof. intros (A & B & _). split; assumption. Qed.

(** [Decrement] keeps the two lengths. *)
Lemma Decrement_dims g bit s : wp (Decrement g bit) (fun _ s' => dims s s') s.
Proof.
  assert (G : dims s s) by (split; reflexivity).
  revert G. generalize s at 1 3 as s0. intros s0 G.
  unfold Decrement.
  apply wp_bind, wp_data_get. intros m _.
  apply wp_bind, wp_counts_get. intros c _.
  destruct (negb (Z.land c top1 =? 0)).
  - apply wp_bind, wp_counts_set. intros c1.
    apply wp_bind, wp_overflow_get. intros n _.
    apply wp_bind, wp_overflow_set. intros o1.
    apply wp_bind.
    apply (wp_mono _ (fun _ s' => dims s0 s')).
    + intros _ s1 G1. destruct (_ <? 64); [|exact G1].
      apply wp_bind.
      eapply wp_mono; [|apply (wp_for_down (dims s0))].
      * cbv beta. intros c2 s2 G2. apply wp_bind, wp_counts_set. intros c3.
        apply wp_bind, wp_get_next. apply wp_bind, wp_overflow_set. intros o2.
        apply wp_set_next. exact G2.
      * intros j acc s2 G2. apply wp_bind, wp_overflow_get. intros v _.
        destruct (0 <? _); apply wp_ret; exact G2.
      * exact G1.
    + destruct (_ =? 1).
      * apply wp_bind, wp_data_get. intros w _. apply wp_data_set_any. intros d. exact G.
      * apply wp_ret. exact G.
  - apply wp_bind, wp_counts_set. intros c1. apply wp_data_set_any. intros d. exact G.
Qed.

Lemma step_dims o s s' : step o s = Some (tt, s') -> dims s s'.
Proof.
  intros E. destruct o as [g i|g i]; cbn [step] in E.
  - apply grows_dims. exact (proj1 (wp_elim _ _ _ _ _ (Increment_grows g i s) E)).
  - exact (wp_elim _ _ _ _ _ (Decrement_dims g i s) E).
Qed.

Lemma op_ok_Inc alen before g i : op_ok alen before (Inc g i) = true ->
  0 <= g < alen /\ 0 <= i < 64 /\ net before g i < 15.
Proof. cbn [op_ok]. rewrite !andb_true_iff. lia. Qed.

Lemma op_ok_Dec alen before g i : op_ok alen before (Dec g i) = true ->
  0 <= g < alen /\ 0 <= i < 64 /\ 0 < net before g i.
Proof. cbn [op_ok]. rewrite !andb_true_iff. lia. Qed.

Lemma net_snoc before o g i : net (before ++ [o]) g i = net before g i + hits o g i.
Proof. rewrite net_app. cbn [net]. lia. Qed.

Lemma setf_net_Inc before g i g' i' :
  setf (net before) g i (net before g i + 1) g' i' = net (before ++ [Inc g i]) g' i'.
Proof.
  rewrite net_snoc. cbn [hits]. unfold setf. rewrite (Z.eqb_sym g g'), (Z.eqb_sym i i').
  destruct ((g' =? g) && (i' =? i)) eqn:E; [|lia].
  apply andb_true_iff in E as [E1 E2]. apply Z.eqb_eq in E1, E2. subst. reflexivity.
Qed.

Lemma setf_net_Dec before g i g' i' :
  setf (net before) g i (net before g i - 1) g' i' = net (before ++ [Dec g i]) g' i'.
Proof.
  rewrite net_snoc. cbn [hits]. unfold setf. rewrite (Z.eqb_sym g g'), (Z.eqb_sym i i').
  destruct ((g' =? g) && (i' =? i)) eqn:E; [|lia].
  apply andb_true_iff in E as [E1 E2]. apply Z.eqb_eq in E1, E2. subst. lia.
Qed.

(** A legal operation on a state that satisfies the invariant, in a run in
    which nothing is printed. *)
Lemma step_Inv before o ops s :
  Inv s (net before) -> op_ok (arrayLength s) before o = true ->
  quiet (o :: ops) s = true ->
  exists s', step o s = Some (tt, s') /\ Inv s' (net (before ++ [o]))
    /\ arrayLength s' = arrayLength s /\ overflowLength s' = overflowLength s
    /\ quiet ops s' = true.
Proof.
  intros HInv Hok Hq. pose proof (quiet_cout _ _ Hq) as Hc.
  cbn [quiet] in Hq. rewrite Hc in Hq.
  destruct o as [g i|g i].
  - apply op_ok_Inc in Hok as (Hg & Hi & Hx).
    destruct (Increment_step s _ g i HInv Hg Hi Hx) as (s' & E & H).
    cbn [step] in *. rewrite E in Hq. exists s'. split; [exact E|].
    pose proof (step_dims (Inc g i) s s' E) as [D1 D2].
    destruct H as [[HI _]|Hm].
    + split; [|auto]. eapply Inv_ext; [|exact HI]. intros g' i' _. apply setf_net_Inc.
    + apply quiet_cout in Hq. rewrite Hq, Hc in Hm. discriminate.
  - apply op_ok_Dec in Hok as (Hg & Hi & Hx).
    destruct (Decrement_step s _ g i HInv Hg Hi Hx) as (s' & E & HI & _).
    cbn [step] in *. rewrite E in Hq. exists s'. split; [exact E|].
    pose proof (step_dims (Dec g i) s s' E) as [D1 D2].
    split; [|auto]. eapply Inv_ext; [|exact HI]. intros g' i' _. apply setf_net_Dec.
Qed.

(** Every prefix of a legal run in which nothing is printed ends in a state
    that satisfies the invariant for the net counts of the prefix. *)
Lemma run_Inv ops : forall before s,
  Inv s (net before) -> legal (arrayLength s) before ops = true -> quiet ops s = true ->
  forall p r, ops = p ++ r ->
  exists s', run p s = Some (tt, s') /\ Inv s' (net (before ++ p))
    /\ arrayLength s' = arrayLength s /\ overflowLength s' = overflowLength s
    /\ cout s' = [] /\ quiet r s' = true.
Proof.
  induction ops as [|o ops IH]; intros before s HInv Hl Hq p r E.
  - symmetry in E. apply app_eq_nil in E as [-> ->]. exists s. rewrite app_nil_r.
    pose proof (quiet_cout _ _ Hq). auto 10.
  - destruct p as [|o' p].
    + exists s. rewrite app_nil_r. cbn [app] in E. subst r.
      pose proof (quiet_cout _ _ Hq). auto 10.
    + cbn [app] in E. injection E as <- E.
      cbn [legal] in Hl. apply andb_true_iff in Hl as [Hok Hl].
      destruct (step_Inv before o ops s HInv Hok Hq) as (s1 & E1 & HI1 & A1 & O1 & Q1).
      rewrite <- A1 in Hl.
      destruct (IH (before ++ [o]) s1 HI1 Hl Q1 p r E) as (s' & E' & HI' & A' & O' & C' & Q').
      exists s'. cbn [run]. rewrite (bind_Some _ _ _ _ _ E1).
      rewrite <- app_assoc in HI'. cbn [app] in HI'.
      split; [exact E'|]. split; [exact HI'|]. repeat split; congruence.
Qed.

(* ---------- the freshly constructed filter ---------- *)

Lemma init_free_spec fuel : forall i len o,
  0 <= i -> len <= Z.of_nat (length o) -> len - i <= 4 * Z.of_nat fuel ->
  length (init_free fuel i len o) = length o
  /\ (forall j, i <= j < len -> (j - i) mod 4 = 0 ->
        ld (init_free fuel i len o) j = Some (j + 4))
  /\ (forall j, 0 <= j < i -> ld (init_free fuel i len o) j = ld o j).
Proof.
  induction fuel as [|fuel IH]; intros i len o Hi Hlen Hf; cbn [init_free].
  - split; [reflexivity|]. split; [intros j Hj; lia | reflexivity].
  - destruct (Z.ltb_spec i len) as [Hlt|Hge].
    2:{ split; [reflexivity|]. split; [intros j Hj; lia | reflexivity]. }
    destruct (IH (i + 4) len (<[Z.to_nat i := i + 4]> o)) as (L & H1 & H2);
      [lia | rewrite length_insert; lia | lia |].
    rewrite length_insert in L. split; [exact L|]. split.
    + intros j Hj Hm. destruct (Z.eq_dec j i) as [->|Hne].
      * rewrite H2 by lia. apply ld_st_eq. lia.
      * assert (4 <= j - i).
        { pose proof (Z.div_mod (j - i) 4 ltac:(lia)) as E. rewrite Hm in E.
          assert (0 < (j - i) / 4) by lia. lia. }
        apply H1; [lia|]. replace (j - (i + 4)) with (j - i + (-1) * 4) by ring.
        rewrite Z.mod_add by lia. exact Hm.
    + intros j Hj. rewrite H2 by lia. apply ld_st_ne; lia.
Qed.

Lemma chain_seq o olen (n : nat) : forall a : nat,
  4 * Z.of_nat (a + n) = olen ->
  (forall j, 0 <= j < olen -> j mod 4 = 0 -> ld o j = Some (j + 4)) ->
  chain o olen (4 * Z.of_nat a) (map (fun i => 4 * Z.of_nat i) (seq a n)).
Proof.
  induction n as [|n IH]; intros a Ha Ho; cbn [seq map chain].
  - lia.
  - split; [reflexivity|]. exists (4 * Z.of_nat (S a)). split.
    + rewrite Ho; [f_equal; lia | lia |]. rewrite Z.mul_comm. apply Z.mod_mul. lia.
    + apply IH; [lia | exact Ho].
Qed.

Lemma owned_replicate n : owned (replicate n 0) = [].
Proof. induction n as [|n IH]; [reflexivity|]. exact IH. Qed.

Lemma ld_replicate n v i : 0 <= i < Z.of_nat n -> ld (replicate n v) i = Some v.
Proof.
  intros H. unfold ld. destruct (Z.leb_spec 0 i); [|lia].
  apply lookup_replicate_2. lia.
Qed.

Lemma row_zero g : row (fun _ _ => 0) g = replicate 64 0.
Proof. reflexivity. Qed.

Lemma row_ok_zero : row_ok (replicate 64 0).
Proof.
  split; [reflexivity|]. apply Forall_replicate. lia.
Qed.

Section Fresh.

Variables bits_per_item n : Z.

Let s0 := new bits_per_item n.

Hypothesis Hsmall : overflowLength s0 <= 2 ^ 28.

Lemma new_alen : 0 <= arrayLength s0.
Proof using. cbn. apply Z.div_pos; [|lia]. apply u64_range. Qed.

Lemma new_olen : overflowLength s0 = 100 + arrayLength s0 / 100 * 12.
Proof using Hsmall.
  pose proof new_alen as Ha. revert Hsmall. cbn [s0 new overflowLength arrayLength] in *.
  set (alen := u64 (u64 (n * bits_per_item) + 63) / 64) in *.
  intros _. apply u64_small.
  assert (alen < 2 ^ 58).
  { unfold alen. apply Z.div_lt_upper_bound; [lia|].
    pose proof (u64_range (u64 (n * bits_per_item) + 63)). lia. }
  assert (0 <= alen / 100) by (apply Z.div_pos; lia).
  assert (alen / 100 <= alen) by (apply Z.div_le_upper_bound; lia).
  lia.
Qed.

Lemma new_Inv : Inv s0 (net []).
Proof using Hsmall.
  pose proof new_alen as Ha. pose proof new_olen as Ho.
  assert (Hm4 : overflowLength s0 mod 4 = 0).
  { rewrite Ho. replace (100 + arrayLength s0 / 100 * 12)
      with (0 + (25 + arrayLength s0 / 100 * 3) * 4) by ring.
    rewrite Z.mod_add by lia. reflexivity. }
  assert (H100 : 0 <= overflowLength s0).
  { rewrite Ho. assert (0 <= arrayLength s0 / 100) by (apply Z.div_pos; lia). lia. }
  destruct (init_free_spec (Z.to_nat (overflowLength s0)) 0 (overflowLength s0)
              (replicate (Z.to_nat (overflowLength s0)) 0))
    as (L & H1 & _); [lia | rewrite length_replicate; lia | lia |].
  rewrite length_replicate in L.
  split.
  - split.
    + exact Ha.
    + cbn [s0 new data arrayLength]. rewrite length_replicate.
      apply Z2Nat.id. exact Ha.
    + cbn [s0 new counts arrayLength]. rewrite length_replicate.
      apply Z2Nat.id. exact Ha.
    + change (overflow s0) with (init_free (Z.to_nat (overflowLength s0)) 0 (overflowLength s0)
              (replicate (Z.to_nat (overflowLength s0)) 0)).
      rewrite L. lia.
    + split; assumption.
    + exists (all_slots (overflowLength s0)). split.
      * change (nextFreeOverflow s0) with (4 * Z.of_nat 0). unfold all_slots.
        apply chain_seq.
        -- pose proof (Z.div_mod (overflowLength s0) 4 ltac:(lia)) as E.
           rewrite Hm4 in E. assert (0 <= overflowLength s0 / 4) by (apply Z.div_pos; lia). lia.
        -- intros j Hj Hm. apply H1; [lia|]. rewrite Z.sub_0_r. exact Hm.
      * change (counts s0) with (replicate (Z.to_nat (arrayLength s0)) 0).
        rewrite owned_replicate, app_nil_r. reflexivity.
  - intros g Hg. change (row (net []) g) with (replicate 64 0).
    split; [exact row_ok_zero|]. split.
    + change (data s0) with (replicate (Z.to_nat (arrayLength s0)) 0).
      change (mk (replicate 64 0)) with 0. apply ld_replicate. lia.
    + left. change (counts s0) with (replicate (Z.to_nat (arrayLength s0)) 0).
      change (enc (replicate 64 0)) with 0. split; [apply ld_replicate; lia|].
      change (total (replicate 64 0)) with 0. lia.
Qed.

End Fresh.

Lemma row_testbit cs bit : row_ok cs -> 0 <= bit < 64 ->
  Z.testbit (mk cs) bit = (0 <? nthZ cs bit).
Proof.
  intros Hok Hbit.
  destruct (row_at cs bit (proj1 Hok) Hbit) as (pre & post & E & Eb & _).
  pose proof Hok as Hok'. rewrite E in Hok'. destruct (row_ok_parts _ _ _ Hok') as (H1 & H2 & H3).
  assert (L : length (pre ++ nthZ cs bit :: post) = 64%nat) by (rewrite <- E; exact (proj1 Hok)).
  rewrite E at 1. exact (at_testbit pre post _ bit Eb L H1 H2 (proj1 H3)).
Qed.

(** C1.  On a freshly constructed filter (whose overflow pool has at most
    2^28 words, the range of the slot field of a header), run a sequence of
    [Increment]/[Decrement] operations in which every operation addresses a
    position of the filter, no [Decrement] finds a count of zero, no
    [Increment] finds a count of 15, and nothing is printed (the pool is
    never found exhausted).  Then every prefix of the sequence runs to the
    end, and in the state it leaves [ReadCount g i] returns the number of
    increments minus the number of decrements the prefix applied to
    [(g, i)], for every group [g < arrayLength] and bit [i] in [0, 64). *)
Theorem ReadCount_is_net (bits_per_item n : Z) (ops p r : list op) (g i : Z) :
  overflowLength (new bits_per_item n) <= 2 ^ 28 ->
  legal (arrayLength (new bits_per_item n)) [] ops = true ->
  quiet ops (new bits_per_item n) = true ->
  ops = p ++ r ->
  0 <= g < arrayLength (new bits_per_item n) -> 0 <= i < 64 ->
  exists s, run p (new bits_per_item n) = Some (tt, s)
            /\ ReadCount g i s = Some (net p g i, s).
Proof.
  intros Hsmall Hl Hq E Hg Hi.
  destruct (run_Inv ops [] _ (new_Inv bits_per_item n Hsmall) Hl Hq p r E)
    as (s & Er & HI & Ha & _).
  exists s. split; [exact Er|]. cbn [app] in HI.
  destruct HI as [_ HG]. destruct (HG g ltac:(lia)) as [Hok Hgo].
  rewrite (ReadCount_ok s g _ i Hok Hgo Hi). rewrite row_nth by exact Hi. reflexivity.
Qed.

Lemma ReadCount_is_net_witness :
  exists s, run [Inc 0 3; Inc 0 3; Inc 0 5; Dec 0 3] (new 8 8) = Some (tt, s)
            /\ ReadCount 0 3 s = Some (1, s).
Proof.
  apply (ReadCount_is_net 8 8 [Inc 0 3; Inc 0 3; Inc 0 5; Dec 0 3; Dec 0 5]
           [Inc 0 3; Inc 0 3; Inc 0 5; Dec 0 3] [Dec 0 5] 0 3).
  - vm_compute. discriminate.
  - vm_compute. reflexivity.
  - vm_compute. reflexivity.
  - reflexivity.
  - vm_compute. split; [discriminate | reflexivity].
  - lia.
Defined.

(** C2.  In every state reached from a freshly constructed filter by a
    prefix of such a sequence, for every group [g] and bit [i]: bit [i] of
    [data[g]] is set if and only if [ReadCount g i] is positive. *)
Theorem presence_iff_positive (bits_per_item n : Z) (ops p r : list op) (g i : Z) :
  overflowLength (new bits_per_item n) <= 2 ^ 28 ->
  legal (arrayLength (new bits_per_item n)) [] ops = true ->
  quiet ops (new bits_per_item n) = true ->
  ops = p ++ r ->
  0 <= g < arrayLength (new bits_per_item n) -> 0 <= i < 64 ->
  exists s m c, run p (new bits_per_item n) = Some (tt, s)
                /\ ld (data s) g = Some m
                /\ ReadCount g i s = Some (c, s)
                /\ (Z.testbit m i = true <-> 0 < c).
Proof.
  intros Hsmall Hl Hq E Hg Hi.
  destruct (run_Inv ops [] _ (new_Inv bits_per_item n Hsmall) Hl Hq p r E)
    as (s & Er & HI & Ha & _).
  cbn [app] in HI. destruct HI as [_ HG]. destruct (HG g ltac:(lia)) as [Hok Hgo].
  exists s, (mk (row (net p) g)), (nthZ (row (net p) g) i).
  split; [exact Er|]. split; [exact (proj1 Hgo)|].
  split; [exact (ReadCount_ok s g _ i Hok Hgo Hi)|].
  rewrite (row_testbit _ i Hok Hi). apply Z.ltb_lt.
Qed.

Lemma presence_iff_positive_witness :
  exists s m c, run [Inc 0 3; Inc 0 5; Dec 0 3] (new 8 8) = Some (tt, s)
                /\ ld (data s) 0 = Some m
                /\ ReadCount 0 3 s = Some (c, s)
                /\ (Z.testbit m 3 = true <-> 0 < c).
Proof.
  apply (presence_iff_positive 8 8 [Inc 0 3; Inc 0 5; Dec 0 3; Dec 0 5]
           [Inc 0 3; Inc 0 5; Dec 0 3] [Dec 0 5] 0 3).
  - vm_compute. discriminate.
  - vm_compute. reflexivity.
  - vm_compute. reflexivity.
  - reflexivity.
  - vm_compute. split; [discriminate | reflexivity].
  - lia.
Defined.

Lemma bind_inv {St A B} (m : M St A) (f : A -> M St B) s b s' :
  bind m f s = Some (b, s') -> exists a s1, m s = Some (a, s1) /\ f a s1 = Some (b, s').
Proof. unfold bind. destruct (m s) as [[a s1]|]; [eauto | discriminate]. Qed.

Lemma land_63_range a : 0 <= Z.land a 63 < 64.
Proof. change 63 with (Z.ones 6). rewrite Z.land_ones by lia. apply Z.mod_pos_bound. lia. Qed.

Lemma testbit_shr64 m bit : 0 <= bit < 64 -> Z.testbit m bit = true ->
  Z.land (shr64 m bit) 1 = 1.
Proof.
  intros Hb Ht. unfold shr64. rewrite land_63 by exact Hb.
  rewrite land_1_mod. rewrite Z.testbit_odd in Ht.
  rewrite Zmod_odd, Ht. reflexivity.
Qed.

(** The probes of [Add] are the probes of [Contain], and every one of them
    finds its presence bit set. *)
Lemma Add_loop_Contain_loop i : forall a b s s',
  Add_loop i a b s = Some (tt, s') ->
  grows s s' /\ Contain_loop i a b s' = Some (Ok, s').
Proof.
  induction i as [|i IH]; intros a b s s' E.
  - injection E as <-. split; [apply grows_refl | reflexivity].
  - cbn [Add_loop] in E. apply bind_inv in E as (alen & s0 & E0 & E).
    injection E0 as <- <-.
    apply bind_inv in E as ([] & s1 & E1 & E).
    pose proof (land_63_range a) as Hb.
    destruct (wp_elim _ _ _ _ _ (Increment_grows _ _ s) E1) as [G1 P1].
    specialize (P1 Hb).
    destruct (IH _ _ _ _ E) as [G2 C2].
    split; [eapply grows_trans; eassumption|].
    destruct (present_grows _ _ _ _ (proj1 Hb) P1 G2) as (m & Hm & Ht).
    cbn [Contain_loop]. unfold get_arrayLength at 1. unfold bind at 1.
    assert (Ea : arrayLength s' = arrayLength s).
    { destruct G1 as (A1 & _), G2 as (A2 & _). congruence. }
    rewrite Ea. rewrite (bind_Some _ _ _ _ _ (sdata_get_eq _ _ _ Hm)).
    rewrite (testbit_shr64 m _ Hb Ht). exact C2.
Qed.

(** C6.  Whatever the state of the filter, when [Add key] returns, it returns
    [Ok] and [Contain key] on the state it leaves returns [Ok] (and leaves
    that state as it is).  The state may be one in which the overflow pool
    is exhausted: the branch of [Increment] that prints the diagnostic sets
    the presence bit like every other branch. *)
Theorem Add_then_Contain (hasher : Z -> Z) (k key : Z) (s s' : filter) (r : Status) :
  Add hasher k key s = Some (r, s') ->
  r = Ok /\ Contain hasher k key s' = Some (Ok, s').
Proof.
  unfold Add, Contain. intros E. apply bind_inv in E as ([] & s1 & E1 & E).
  injection E as <- <-. split; [reflexivity|].
  exact (proj2 (Add_loop_Contain_loop _ _ _ _ _ E1)).
Qed.

Lemma run_app p q s : run (p ++ q) s = (run p ;;; run q) s.
Proof.
  revert s. induction p as [|o p IH]; intros s; cbn [app run].
  - reflexivity.
  - unfold bind. destruct (step o s) as [[[] s1]|]; [|reflexivity]. rewrite IH. reflexivity.
Qed.

Lemma dims_refl s : dims s s.
Proof. split; reflexivity. Qed.

Lemma dims_trans a b c : dims a b -> dims b c -> dims a c.
Proof. intros [A1 A2] [B1 B2]. split; congruence. Qed.

Lemma run_dims ops : forall s s', run ops s = Some (tt, s') -> dims s s'.
Proof.
  induction ops as [|o ops IH]; intros s s' E; cbn [run] in E.
  - injection E as <-. apply dims_refl.
  - apply bind_inv in E as ([] & s1 & E1 & E).
    eapply dims_trans; [eapply step_dims; exact E1 | apply IH; exact E].
Qed.

Lemma Add_loop_run i : forall a b s,
  Add_loop i a b s = run (map inc_of (probes i a b (arrayLength s))) s.
Proof.
  induction i as [|i IH]; intros a b s; cbn [Add_loop probes map run].
  - reflexivity.
  - unfold get_arrayLength, bind. cbn [inc_of fst snd step].
    destruct (Increment _ _ s) as [[[] s1]|] eqn:E; [|reflexivity].
    rewrite IH. destruct (step_dims (Inc _ _) s s1 E) as [-> _]. reflexivity.
Qed.

Lemma Remove_loop_run i : forall a b s,
  Remove_loop i a b s = run (map dec_of (probes i a b (arrayLength s))) s.
Proof.
  induction i as [|i IH]; intros a b s; cbn [Remove_loop probes map run].
  - reflexivity.
  - unfold get_arrayLength, bind. cbn [dec_of fst snd step].
    destruct (Decrement _ _ s) as [[[] s1]|] eqn:E; [|reflexivity].
    rewrite IH. destruct (step_dims (Dec _ _) s s1 E) as [-> _]. reflexivity.
Qed.

Lemma AddEach_run hasher k keys : forall s,
  AddEach hasher k keys s = run (map inc_of (all_probes hasher k (arrayLength s) keys)) s.
Proof.
  induction keys as [|key keys IH]; intros s; cbn [AddEach all_probes flat_map map run].
  - reflexivity.
  - rewrite map_app, run_app. unfold Add, key_probes.
    unfold bind. rewrite Add_loop_run.
    destruct (run _ s) as [[[] s1]|] eqn:E; [|reflexivity].
    unfold ret. rewrite IH. destruct (run_dims _ _ _ E) as [-> _]. reflexivity.
Qed.

Lemma RemoveEach_run hasher k keys : forall s,
  RemoveEach hasher k keys s = run (map dec_of (all_probes hasher k (arrayLength s) keys)) s.
Proof.
  induction keys as [|key keys IH]; intros s; cbn [RemoveEach all_probes flat_map map run].
  - reflexivity.
  - rewrite map_app, run_app. unfold Remove, key_probes.
    unfold bind. rewrite Remove_loop_run.
    destruct (run _ s) as [[[] s1]|] eqn:E; [|reflexivity].
    unfold ret. rewrite IH. destruct (run_dims _ _ _ E) as [-> _]. reflexivity.
Qed.

Lemma u32_range x : 0 <= u32 x < 2 ^ 32.
Proof. apply Z.mod_pos_bound. lia. Qed.

Lemma reduce_lt a alen : 0 <= a < 2 ^ 32 -> 0 < alen -> 0 <= reduce a (u32 alen) < alen.
Proof.
  intros Ha Hl. unfold reduce. pose proof (u32_range alen) as Hn.
  assert (Hle : u32 alen <= alen) by (apply Z.mod_le; lia).
  set (n := u32 alen) in *.
  assert (H0 : 0 <= a * n) by (apply Z.mul_nonneg_nonneg; lia).
  assert (H1 : a * n <= (2 ^ 32 - 1) * n) by (apply Z.mul_le_mono_nonneg_r; lia).
  rewrite u64_small by lia. rewrite Z.shiftr_div_pow2 by lia.
  assert (0 <= a * n / 2 ^ 32) by (apply Z.div_pos; lia).
  destruct (Z.eq_dec n 0) as [E0|Hn0].
  - rewrite E0, Z.mul_0_r. change (u32 (0 / 2 ^ 32)) with 0. lia.
  - assert (a * n / 2 ^ 32 < n) by (apply Z.div_lt_upper_bound; lia).
    unfold u32. rewrite Z.mod_small by lia. lia.
Qed.

Lemma probes_in_range alen i : forall a b, 0 < alen -> 0 <= a < 2 ^ 32 ->
  Forall (in_range alen) (probes i a b alen).
Proof.
  induction i as [|i IH]; intros a b Hl Ha; cbn [probes]; constructor.
  - split; cbn [fst snd]; [apply reduce_lt; assumption | apply land_63_range].
  - apply IH; [exact Hl | apply u32_range].
Qed.

Lemma all_probes_in_range hasher k alen keys : 0 < alen ->
  Forall (in_range alen) (all_probes hasher k alen keys).
Proof.
  intros Hl. induction keys as [|key keys IH]; cbn [all_probes flat_map]; [constructor|].
  apply Forall_app. split; [|exact IH]. apply probes_in_range; [exact Hl | apply u32_range].
Qed.

Lemma net_incs_nonneg ps g i : 0 <= net (map inc_of ps) g i.
Proof.
  induction ps as [|p ps IH]; cbn [map net hits inc_of]; [lia|].
  destruct (_ && _); lia.
Qed.

Lemma net_decs ps g i : net (map dec_of ps) g i = - net (map inc_of ps) g i.
Proof.
  induction ps as [|p ps IH]; cbn [map net hits inc_of dec_of]; [lia|].
  rewrite IH. destruct (_ && _); lia.
Qed.

Lemma net_perm ops ops' g i : Permutation ops ops' -> net ops g i = net ops' g i.
Proof. induction 1; cbn [net]; lia. Qed.

Lemma legal_app alen p : forall before q,
  legal alen before (p ++ q) = legal alen before p && legal alen (before ++ p) q.
Proof.
  induction p as [|o p IH]; intros before q; cbn [app legal].
  - rewrite app_nil_r. reflexivity.
  - rewrite IH, <- app_assoc. cbn [app]. rewrite andb_assoc. reflexivity.
Qed.

Lemma legal_incs alen ps : forall before,
  Forall (in_range alen) ps ->
  (forall g i, net (before ++ map inc_of ps) g i <= 15) ->
  legal alen before (map inc_of ps) = true.
Proof.
  induction ps as [|p ps IH]; intros before Hr Hn; cbn [map legal]; [reflexivity|].
  apply Forall_cons in Hr as [[Hg Hb] Hr]. apply andb_true_iff. split.
  - specialize (Hn (fst p) (snd p)). rewrite net_app in Hn. cbn [map net hits inc_of] in Hn.
    rewrite !Z.eqb_refl in Hn. cbn [andb] in Hn.
    pose proof (net_incs_nonneg ps (fst p) (snd p)).
    unfold inc_of, op_ok. rewrite !andb_true_iff.
    repeat split; try apply Z.leb_le; try apply Z.ltb_lt; lia.
  - apply IH; [exact Hr|]. intros g i. rewrite <- app_assoc. apply Hn.
Qed.

Lemma legal_decs alen ps : forall before,
  Forall (in_range alen) ps ->
  (forall g i, 0 <= net (before ++ map dec_of ps) g i) ->
  legal alen before (map dec_of ps) = true.
Proof.
  induction ps as [|p ps IH]; intros before Hr Hn; cbn [map legal]; [reflexivity|].
  apply Forall_cons in Hr as [[Hg Hb] Hr]. apply andb_true_iff. split.
  - specialize (Hn (fst p) (snd p)). rewrite net_app in Hn. cbn [map net hits dec_of] in Hn.
    rewrite !Z.eqb_refl in Hn. cbn [andb] in Hn.
    pose proof (net_incs_nonneg ps (fst p) (snd p)). rewrite net_decs in Hn.
    unfold dec_of, op_ok. rewrite !andb_true_iff.
    repeat split; try apply Z.leb_le; try apply Z.ltb_lt; lia.
  - apply IH; [exact Hr|]. intros g i. rewrite <- app_assoc. apply Hn.
Qed.

Lemma all_zero (l : list Z) alen : Z.of_nat (length l) = alen ->
  (forall g, 0 <= g < alen -> ld l g = Some 0) -> l = replicate (Z.to_nat alen) 0.
Proof.
  intros L H. apply list_eq. intros i. destruct (Nat.lt_ge_cases i (length l)) as [Hi|Hi].
  2:{ rewrite lookup_ge_None_2 by lia. symmetry. apply lookup_ge_None_2.
      rewrite length_replicate. lia. }
  rewrite lookup_replicate_2 by lia.
  specialize (H (Z.of_nat i) ltac:(lia)). unfold ld in H.
  destruct (Z.leb_spec 0 (Z.of_nat i)); [|lia]. rewrite Nat2Z.id in H. exact H.
Qed.

Lemma round_trip_run hasher k adds rems s :
  (AddEach hasher k adds ;;; RemoveEach hasher k rems) s
  = run (round_trip_ops hasher k (arrayLength s) adds rems) s.
Proof.
  unfold round_trip_ops. rewrite run_app. unfold bind. rewrite AddEach_run.
  destruct (run _ s) as [[[] s1]|] eqn:E; [|reflexivity].
  rewrite RemoveEach_run. destruct (run_dims _ _ _ E) as [-> _]. reflexivity.
Qed.

Lemma round_trip_net hasher k alen adds rems g i : Permutation adds rems ->
  net (round_trip_ops hasher k alen adds rems) g i = 0.
Proof.
  intros HP. unfold round_trip_ops. rewrite net_app, net_decs.
  rewrite (net_perm (map inc_of (all_probes hasher k alen adds))
                    (map inc_of (all_probes hasher k alen rems))); [lia|].
  apply Permutation_map. unfold all_probes. apply Permutation_flat_map. exact HP.
Qed.

Lemma round_trip_legal hasher k alen adds rems : 0 < alen -> Permutation adds rems ->
  (forall g i, net (map inc_of (all_probes hasher k alen adds)) g i <= 15) ->
  legal alen [] (round_trip_ops hasher k alen adds rems) = true.
Proof.
  intros Hl HP Hmax. unfold round_trip_ops. rewrite legal_app. apply andb_true_iff. split.
  - apply legal_incs; [apply all_probes_in_range; exact Hl | exact Hmax].
  - cbn [app]. apply legal_decs; [apply all_probes_in_range; exact Hl|].
    intros g i. pose proof (round_trip_net hasher k alen adds rems g i HP) as E.
    unfold round_trip_ops in E. lia.
Qed.

(** A state whose counts are all zero. *)
Lemma Inv_zero s f : Inv s f -> (forall g i, f g i = 0) ->
  data s = replicate (Z.to_nat (arrayLength s)) 0
  /\ counts s = replicate (Z.to_nat (arrayLength s)) 0
  /\ exists fl, chain (overflow s) (overflowLength s) (nextFreeOverflow s) fl
                /\ Permutation fl (all_slots (overflowLength s)).
Proof.
  intros [Hs HG] Hz.
  assert (Hrow : forall g, row f g = replicate 64 0).
  { intros g. rewrite <- (row_zero g). apply row_ext. intros i _. apply Hz. }
  assert (Hd : data s = replicate (Z.to_nat (arrayLength s)) 0).
  { apply all_zero; [exact (sh_data s Hs)|]. intros g Hg.
    destruct (HG g Hg) as [_ [Hm _]]. rewrite Hrow in Hm. exact Hm. }
  assert (Hc : counts s = replicate (Z.to_nat (arrayLength s)) 0).
  { apply all_zero; [exact (sh_counts s Hs)|]. intros g Hg.
    destruct (HG g Hg) as [_ [_ [[Hc _]|(idx & _ & Ht & _)]]]; rewrite Hrow in *.
    - exact Hc.
    - change (total (replicate 64 0)) with 0 in Ht. lia. }
  split; [exact Hd|]. split; [exact Hc|].
  destruct (sh_free s Hs) as (fl & Hch & Hp). exists fl. split; [exact Hch|].
  rewrite Hc, owned_replicate, app_nil_r in Hp. exact Hp.
Qed.

(** C4.  On a freshly constructed filter (with at least one group, and an
    overflow pool of at most 2^28 words), [Add] every key of a list [adds]
    and then [Remove] every key of a list [rems] that holds the same keys as
    often, in any order.  If no position is probed more than 15 times by
    the keys of [adds], and the run prints nothing (the pool is never found
    exhausted), then the run ends in a state whose [data] and [counts]
    arrays are all zero and whose free list, followed from
    [nextFreeOverflow] to the end marker [overflowLength], goes through
    every slot of the pool once. *)
Theorem Add_Remove_round_trip (bits_per_item : Z) (hasher : Z -> Z) (k n : Z)
    (adds rems : list Z) :
  overflowLength (new bits_per_item n) <= 2 ^ 28 ->
  0 < arrayLength (new bits_per_item n) ->
  Permutation adds rems ->
  (forall g i,
     net (map inc_of (all_probes hasher k (arrayLength (new bits_per_item n)) adds)) g i
     <= 15) ->
  quiet (round_trip_ops hasher k (arrayLength (new bits_per_item n)) adds rems)
        (new bits_per_item n) = true ->
  exists s,
    (AddEach hasher k adds ;;; RemoveEach hasher k rems) (new bits_per_item n) = Some (tt, s)
    /\ data s = replicate (Z.to_nat (arrayLength s)) 0
    /\ counts s = replicate (Z.to_nat (arrayLength s)) 0
    /\ exists fl, chain (overflow s) (overflowLength s) (nextFreeOverflow s) fl
                  /\ Permutation fl (all_slots (overflowLength s)).
Proof.
  intros Hsmall Hl HP Hmax Hq.
  pose proof (round_trip_legal hasher k _ adds rems Hl HP Hmax) as Hleg.
  destruct (run_Inv _ [] _ (new_Inv bits_per_item n Hsmall) Hleg Hq _ [] (eq_sym (app_nil_r _)))
    as (s & Er & HI & _).
  exists s. split; [rewrite round_trip_run; exact Er|].
  apply (Inv_zero s _ HI). intros g i. cbn [app]. apply round_trip_net. exact HP.
Qed.

(** A position that no probe of [ps] names has count zero. *)
Lemma net_incs_In ps g i : 0 < net (map inc_of ps) g i -> In (g, i) ps.
Proof.
  induction ps as [|[g' i'] ps IH]; cbn [map net hits inc_of fst snd]; [lia|].
  destruct ((g' =? g) && (i' =? i)) eqn:E.
  - apply andb_true_iff in E as [E1 E2]. apply Z.eqb_eq in E1, E2. subst. intros _. left. reflexivity.
  - intros H. right. apply IH. lia.
Qed.

Lemma counts_fit_spec ps : counts_fit ps = true ->
  forall g i, net (map inc_of ps) g i <= 15.
Proof.
  intros H g i. destruct (Z_lt_le_dec 0 (net (map inc_of ps) g i)) as [Hp|Hz]; [|lia].
  apply net_incs_In in Hp. unfold counts_fit in H. rewrite forallb_forall in H.
  specialize (H _ Hp). cbn [fst snd] in H. apply Z.leb_le. exact H.
Qed.

Lemma Add_Remove_round_trip_witness :
  exists s,
    (AddEach (fun x => x) 70 [1; 4294967297] ;;; RemoveEach (fun x => x) 70 [4294967297; 1])
      (new 8 8) = Some (tt, s)
    /\ data s = replicate (Z.to_nat (arrayLength s)) 0
    /\ counts s = replicate (Z.to_nat (arrayLength s)) 0
    /\ exists fl, chain (overflow s) (overflowLength s) (nextFreeOverflow s) fl
                  /\ Permutation fl (all_slots (overflowLength s)).
Proof.
  apply (Add_Remove_round_trip 8 (fun x => x) 70 8 [1; 4294967297] [4294967297; 1]).
  - vm_compute. discriminate.
  - vm_compute. reflexivity.
  - apply perm_swap.
  - apply counts_fit_spec. vm_compute. reflexivity.
  - vm_compute. reflexivity.
Defined.

Lemma free_head_range s : shape s -> nextFreeOverflow s < overflowLength s ->
  0 <= nextFreeOverflow s /\ nextFreeOverflow s mod 4 = 0
  /\ nextFreeOverflow s + 4 <= overflowLength s.
Proof.
  intros Hs Hlt. destruct (sh_free s Hs) as (fl & Hch & Hp).
  destruct fl as [|x fl]; [cbn [chain] in Hch; lia|].
  destruct Hch as (-> & _).
  apply (all_slots_In _ x (proj2 (sh_olen s Hs))).
  apply (Permutation_in x Hp). left. reflexivity.
Qed.

(** The two forms of a group under the invariant. *)
Lemma Inv_forms s f g c : Inv s f -> 0 <= g < arrayLength s -> ld (counts s) g = Some c ->
  (promoted c = false /\ c = enc (row f g) /\ total (row f g) <= 63)
  \/ (promoted c = true /\ exists idx, c = header (total (row f g)) idx
        /\ 63 <= total (row f g) /\ 0 <= idx < 2 ^ 28
        /\ slot_lanes (overflow s) idx (nthZ (row f g))).
Proof.
  intros [Hs HG] Hg Hc. destruct (HG g Hg) as [Hok [_ Hf]].
  pose proof (row_ok_total _ Hok) as Rt. pose proof (row_ok_nonneg _ Hok) as Hnn.
  destruct Hf as [[Hc' Ht] | (idx & Hc' & Ht & Hi & Hl)].
  - assert (E : c = enc (row f g)) by congruence.
    left. split; [rewrite E; exact (proj2 (enc_inline _ Hnn Ht)) | auto].
  - assert (E : c = header (total (row f g)) idx) by congruence.
    right. split; [rewrite E; apply header_promoted; lia|]. exists idx. auto.
Qed.

(** C7.  In a state that satisfies the invariant of the representation
    (every state reached from a fresh filter by legal operations does):
    - an [Increment] on a group in the inline form returns, and if it
      leaves the group promoted, the [total_count] field of the new header
      is 64;
    - a [Decrement] on a promoted group returns, and it leaves the group in
      the inline form exactly when the [total_count] field of the header
      was below 64 before, in which case the total after the decrement,
      [total_count - 1], is below 64. *)
Theorem promotion_thresholds (s : filter) (f : Z -> Z -> Z) (g bit c : Z) :
  Inv s f -> 0 <= g < arrayLength s -> 0 <= bit < 64 ->
  ld (counts s) g = Some c ->
  (promoted c = false -> f g bit < 15 ->
     exists s' c', Increment g bit s = Some (tt, s')
       /\ ld (counts s') g = Some c'
       /\ (promoted c' = true -> count_of c' = 64 /\ 64 <= count_of c'))
  /\ (promoted c = true -> 0 < f g bit ->
     exists s' c', Decrement g bit s = Some (tt, s')
       /\ ld (counts s') g = Some c'
       /\ (promoted c' = false <-> count_of c < 64)
       /\ (promoted c' = false -> count_of c - 1 < 64)).
Proof.
  intros HInv Hg Hb Hc.
  pose proof (step_row_ok s f g bit HInv Hg Hb) as Hok.
  pose proof (row_ok_total _ Hok) as Rt. pose proof (row_ok_nonneg _ Hok) as Hnn.
  pose proof (proj1 HInv) as Hs.
  destruct (Inv_forms s f g c HInv Hg Hc) as [(Hp & -> & Ht) | (Hp & idx & -> & Ht & Hi & Hl)];
    (split; intros Hp' Hx; [|]); try congruence.
  - (* inline *)
    destruct (Z_le_gt_dec (total (row f g)) 62) as [H62|H63].
    + destruct (Increment_inline s f g bit HInv Hg Hb Hx Hc H62)
        as (s' & E & HI & _ & _ & _ & Hc').
      exists s', (enc (row (setf f g bit (f g bit + 1)) g)).
      split; [exact E|]. split; [exact Hc'|]. intros Hpr. exfalso.
      pose proof (step_row_ok s' _ g bit HI) as Hok'.
      assert (Hg' : 0 <= g < arrayLength s').
      { destruct (step_dims (Inc g bit) s s' E) as [-> _]. exact Hg. }
      specialize (Hok' Hg' Hb).
      rewrite (step_row' s f g bit HInv Hg Hb) in *.
      pose proof (total_insert _ bit Hok Hb (f g bit + 1)) as Et.
      rewrite (step_x s f g bit HInv Hg Hb) in Et.
      pose proof (proj2 (enc_inline _ (row_ok_nonneg _ Hok') ltac:(lia))). congruence.
    + destruct (Z_lt_le_dec (nextFreeOverflow s) (overflowLength s)) as [Hfree|Hfull].
      * destruct (Increment_promote s f g bit HInv Hg Hb Hx Hc ltac:(lia) Hfree)
          as (s' & E & HI & _ & Hc').
        exists s', (header 64 (nextFreeOverflow s)).
        split; [exact E|]. split; [exact Hc'|]. intros _.
        pose proof (free_head_range s Hs Hfree) as (R0 & _ & R4).
        pose proof (sh_olen s Hs) as [R28 _].
        unfold count_of. rewrite header_count by lia. lia.
      * pose proof (proj1 (step_group_ok s f g bit HInv Hg Hb)) as Hm.
        assert (H2 : Z.land (enc (row f g)) top2 <> 0).
        { apply Z.eqb_neq. rewrite (enc_top2 _ Hnn ltac:(lia)). apply Z.leb_gt. lia. }
        pose proof (Inc_exhausted_eq s g bit _ _ Hm Hc H2 Hp Hfull) as E.
        eexists _, (enc (row f g)). split; [exact E|]. split; [exact Hc|]. congruence.
  - (* promoted *)
    destruct (Decrement_promoted s f g bit HInv Hg Hb Hx idx Hc Ht Hi Hl)
      as (s' & E & HI & _ & Hcase).
    assert (Ec : count_of (header (total (row f g)) idx) = total (row f g)).
    { unfold count_of. apply header_count; lia. }
    rewrite Ec.
    destruct (Z.ltb_spec (total (row f g)) 64) as [Hlt|Hge]; destruct Hcase as [Hc' _].
    + exists s', (enc (row (setf f g bit (f g bit - 1)) g)).
      split; [exact E|]. split; [exact Hc'|].
      assert (Hg' : 0 <= g < arrayLength s').
      { destruct (step_dims (Dec g bit) s s' E) as [-> _]. exact Hg. }
      pose proof (step_row_ok s' _ g bit HI Hg' Hb) as Hok'.
      rewrite (step_row' s f g bit HInv Hg Hb) in *.
      pose proof (total_insert _ bit Hok Hb (f g bit - 1)) as Et.
      rewrite (step_x s f g bit HInv Hg Hb) in Et.
      pose proof (proj2 (enc_inline _ (row_ok_nonneg _ Hok') ltac:(lia))).
      split; [split; [lia | auto] | lia].
    + exists s', (header (total (row f g) - 1) idx).
      split; [exact E|]. split; [exact Hc'|].
      assert (Hpr : promoted (header (total (row f g) - 1) idx) = true)
        by (apply header_promoted; lia).
      split; [split; [congruence | lia] | congruence].
Qed.

Lemma promotion_thresholds_witness :
  exists s s' c', run (first_bits 63) (new 8 8) = Some (tt, s)
    /\ Increment 0 63 s = Some (tt, s')
    /\ ld (counts s') 0 = Some c'
    /\ promoted c' = true /\ count_of c' = 64.
Proof.
  assert (Hsmall : overflowLength (new 8 8) <= 2 ^ 28) by (vm_compute; discriminate).
  assert (Hl : legal (arrayLength (new 8 8)) [] (first_bits 63) = true) by (vm_compute; reflexivity).
  assert (Hq : quiet (first_bits 63) (new 8 8) = true) by (vm_compute; reflexivity).
  destruct (run_Inv _ [] _ (new_Inv 8 8 Hsmall) Hl Hq (first_bits 63) [] (eq_sym (app_nil_r _)))
    as (s & Er & HI & _).
  cbn [app] in HI.
  pose proof Er as Er'. vm_compute in Er'. injection Er' as <-.
  match type of Er with _ = Some (tt, ?st) => set (s := st) in * end.
  assert (Hg : 0 <= 0 < arrayLength s) by (vm_compute; split; [discriminate | reflexivity]).
  assert (Hc : ld (counts s) 0 = Some (2 ^ 63 - 1)) by (vm_compute; reflexivity).
  destruct (promotion_thresholds s _ 0 63 _ HI Hg ltac:(lia) Hc) as [H _].
  destruct H as (s' & c' & E & Hc' & Hp); [vm_compute; reflexivity | vm_compute; reflexivity |].
  exists s, s', c'. split; [exact Er|]. split; [exact E|]. split; [exact Hc'|].
  assert (Hpr : promoted c' = true).
  { pose proof E as E'. vm_compute in E'. injection E' as <-.
    pose proof Hc' as Hc2. vm_compute in Hc2. injection Hc2 as <-. vm_compute. reflexivity. }
  split; [exact Hpr | exact (proj1 (Hp Hpr))].
Defined.

(* ---------- the capacity of the inline form ---------- *)

Lemma net_Incs_nonneg g bits g' b : 0 <= net (map (Inc g) bits) g' b.
Proof.
  induction bits as [|b0 bits IH]; cbn [map net hits]; [lia|]. destruct (_ && _); lia.
Qed.

Lemma net_Incs_notin g bits g' b : ~ In b bits -> net (map (Inc g) bits) g' b = 0.
Proof.
  induction bits as [|b0 bits IH]; cbn [map net hits]; intros Hn; [reflexivity|].
  rewrite IH by (intros H; apply Hn; right; exact H).
  destruct (Z.eqb_spec b0 b) as [->|_]; [exfalso; apply Hn; left; reflexivity|].
  rewrite andb_false_r. reflexivity.
Qed.

Lemma net_Incs_NoDup g bits g' b : List.NoDup bits -> net (map (Inc g) bits) g' b <= 1.
Proof.
  induction 1 as [|b0 bits Hn Hnd IH]; cbn [map net hits]; [lia|].
  destruct (Z.eqb_spec b0 b) as [->|_].
  - rewrite (net_Incs_notin g bits g' b Hn). destruct (_ && _); lia.
  - rewrite andb_false_r. lia.
Qed.

(** Increments of one group that leave it at most 63 counts stay inline:
    the pool is not touched. *)
Lemma Incs_inline g : forall bits before s,
  Inv s (net before) -> 0 <= g < arrayLength s ->
  Forall (fun b => 0 <= b < 64) bits ->
  (forall b, net (before ++ map (Inc g) bits) g b <= 15) ->
  ld (counts s) g = Some (enc (row (net before) g)) ->
  total (row (net before) g) + Z.of_nat (length bits) <= 63 ->
  exists s', run (map (Inc g) bits) s = Some (tt, s')
    /\ Inv s' (net (before ++ map (Inc g) bits))
    /\ ld (counts s') g = Some (enc (row (net (before ++ map (Inc g) bits)) g))
    /\ total (row (net (before ++ map (Inc g) bits)) g)
       = total (row (net before) g) + Z.of_nat (length bits)
    /\ nextFreeOverflow s' = nextFreeOverflow s /\ overflow s' = overflow s
    /\ cout s' = cout s
    /\ arrayLength s' = arrayLength s /\ overflowLength s' = overflowLength s.
Proof.
  induction bits as [|b bits IH]; intros before s HInv Hg Hr Hmax Hc Ht.
  - exists s. cbn [map]. rewrite app_nil_r. cbn [length]. rewrite Z.add_0_r.
    split; [reflexivity|]. split; [exact HInv|]. auto 10.
  - apply Forall_cons in Hr as [Hb Hr]. cbn [map length] in *.
    assert (Hx : net before g b < 15).
    { specialize (Hmax b). rewrite net_app in Hmax. cbn [net hits] in Hmax.
      rewrite !Z.eqb_refl in Hmax. cbn [andb] in Hmax.
      pose proof (net_Incs_nonneg g bits g b). lia. }
    destruct (Increment_inline s _ g b HInv Hg Hb Hx Hc ltac:(lia))
      as (s1 & E1 & HI1 & Co1 & Ov1 & Nx1 & Hc1).
    assert (Er : row (setf (net before) g b (net before g b + 1)) g
                 = row (net (before ++ [Inc g b])) g).
    { apply row_ext. intros i _. apply setf_net_Inc. }
    assert (HI1' : Inv s1 (net (before ++ [Inc g b]))).
    { eapply Inv_ext; [|exact HI1]. intros g' i' _. apply setf_net_Inc. }
    rewrite Er in Hc1.
    assert (Et : total (row (net (before ++ [Inc g b])) g) = total (row (net before) g) + 1).
    { rewrite <- Er, (step_row' s _ g b HInv Hg Hb).
      rewrite (total_insert _ b (step_row_ok s _ g b HInv Hg Hb) Hb).
      rewrite (step_x s _ g b HInv Hg Hb). lia. }
    destruct (step_dims (Inc g b) s s1 E1) as [A1 O1].
    destruct (IH (before ++ [Inc g b]) s1 HI1' ltac:(lia) Hr) as (s' & E' & HI' & Hc' & Ht' & Nx' & Ov' & Co' & A' & O').
    { intros i. rewrite <- app_assoc. apply Hmax. }
    { exact Hc1. }
    { lia. }
    rewrite <- app_assoc in HI', Hc', Ht'. cbn [app] in HI', Hc', Ht'.
    exists s'. split.
    { cbn [run step]. rewrite (bind_Some _ _ _ _ _ E1). exact E'. }
    split; [exact HI'|]. split; [exact Hc'|].
    split; [lia|]. repeat split; congruence.
Qed.

(** C3, as the code has it.  On a freshly constructed filter (pool of at
    most 2^28 words), increments of up to 63 distinct bits of one group
    leave the group in the inline form and the pool untouched: no slot is
    allocated and nothing is printed.  When 63 bits have been incremented,
    one more increment of the group, on any bit, promotes it: the group
    gets the header with [total_count] 64 and the first slot of the pool. *)
Theorem sixty_three_inline_then_promotion (bits_per_item n g b : Z) (bits : list Z) :
  overflowLength (new bits_per_item n) <= 2 ^ 28 ->
  0 <= g < arrayLength (new bits_per_item n) ->
  List.NoDup bits -> Forall (fun i => 0 <= i < 64) bits ->
  (length bits <= 63)%nat -> 0 <= b < 64 ->
  exists s c,
    run (map (Inc g) bits) (new bits_per_item n) = Some (tt, s)
    /\ ld (counts s) g = Some c /\ promoted c = false
    /\ nextFreeOverflow s = 0 /\ overflow s = overflow (new bits_per_item n)
    /\ cout s = []
    /\ (length bits = 63%nat ->
        exists s', Increment g b s = Some (tt, s')
          /\ ld (counts s') g = Some (header 64 0)
          /\ promoted (header 64 0) = true /\ slot_of (header 64 0) = 0
          /\ cout s' = []).
Proof.
  intros Hsmall Hg Hnd Hr Hlen Hb.
  pose proof (new_Inv bits_per_item n Hsmall) as HI0.
  set (s0 := new bits_per_item n) in *.
  assert (Hc0 : ld (counts s0) g = Some (enc (row (net []) g))).
  { change (enc (row (net []) g)) with 0.
    change (counts s0) with (replicate (Z.to_nat (arrayLength s0)) 0).
    apply ld_replicate. lia. }
  assert (Ht0 : total (row (net []) g) = 0) by reflexivity.
  destruct (Incs_inline g bits [] s0 HI0 Hg Hr) as (s & E & HI & Hc & Ht & Nx & Ov & Co & A & O).
  { intros i. cbn [app]. pose proof (net_Incs_NoDup g bits g i Hnd). lia. }
  { exact Hc0. }
  { lia. }
  cbn [app] in HI, Hc, Ht.
  assert (Hg' : 0 <= g < arrayLength s) by lia.
  pose proof (step_row_ok s _ g b HI Hg' Hb) as Hok.
  exists s, (enc (row (net (map (Inc g) bits)) g)).
  split; [exact E|]. split; [exact Hc|].
  assert (Ht63 : total (row (net (map (Inc g) bits)) g) <= 63) by lia.
  split; [exact (proj2 (enc_inline _ (row_ok_nonneg _ Hok) Ht63))|].
  split; [exact Nx|]. split; [exact Ov|]. split; [exact Co|].
  intros L63.
  assert (Hx : net (map (Inc g) bits) g b < 15).
  { pose proof (net_Incs_NoDup g bits g b Hnd). lia. }
  assert (Hfree : nextFreeOverflow s < overflowLength s).
  { rewrite Nx, O. unfold s0. rewrite (new_olen bits_per_item n Hsmall).
    change (nextFreeOverflow (new bits_per_item n)) with 0.
    pose proof (new_alen bits_per_item n).
    assert (0 <= arrayLength (new bits_per_item n) / 100) by (apply Z.div_pos; lia). lia. }
  destruct (Increment_promote s _ g b HI Hg' Hb Hx Hc ltac:(lia) Hfree)
    as (s' & E' & _ & Co' & Hc').
  rewrite Nx in Hc'. exists s'.
  split; [exact E'|]. split; [exact Hc'|].
  split; [apply header_promoted; lia|]. split; [apply header_slot; lia|].
  rewrite Co'. exact Co.
Qed.

Lemma sixty_three_inline_then_promotion_witness :
  exists s c,
    run (map (Inc 0) (map Z.of_nat (seq 0 63))) (new 8 8) = Some (tt, s)
    /\ ld (counts s) 0 = Some c /\ promoted c = false
    /\ nextFreeOverflow s = 0 /\ overflow s = overflow (new 8 8)
    /\ cout s = []
    /\ (length (map Z.of_nat (seq 0 63)) = 63%nat ->
        exists s', Increment 0 17 s = Some (tt, s')
          /\ ld (counts s') 0 = Some (header 64 0)
          /\ promoted (header 64 0) = true /\ slot_of (header 64 0) = 0
          /\ cout s' = []).
Proof.
  apply (sixty_three_inline_then_promotion 8 8 0 17 (map Z.of_nat (seq 0 63))).
  - vm_compute. discriminate.
  - vm_compute. split; [discriminate | reflexivity].
  - apply Injective_map_NoDup; [exact Nat2Z.inj | apply List.seq_NoDup].
  - apply List.Forall_forall. intros i Hi. apply in_map_iff in Hi as (j & <- & Hj).
    apply in_seq in Hj. lia.
  - vm_compute. lia.
  - lia.
Defined.

(** C3, as the specification has it, fails: 64 increments of 64 distinct
    bits of a group promote the group and take a slot of the pool. *)
Lemma sixty_four_distinct_bits_promote :
  exists s c,
    run (map (Inc 0) (map Z.of_nat (seq 0 64))) (new 8 8) = Some (tt, s)
    /\ ld (counts s) 0 = Some c /\ promoted c = true
    /\ nextFreeOverflow (new 8 8) = 0 /\ nextFreeOverflow s = 4.
Proof.
  eexists _, _. split; [vm_compute; reflexivity|].
  split; [vm_compute; reflexivity|]. split; vm_compute; auto.
Qed.

Lemma push_some pend b v l : pend !! b = Some l ->
  push pend b v
  = if (length l + 1 =? blen)%nat then (l ++ [v], <[b := []]> pend)
    else ([], <[b := l ++ [v]]> pend).
Proof.
  intros H. unfold push. rewrite H. change (default [] (Some l)) with l.
  rewrite length_app. reflexivity.
Qed.

Section Bulk.

Context {St : Type}.

Variable alen_of : St -> Z.

Variable pack : Z -> Z -> Z.

Variable visit : Z -> M St unit.

Lemma visit_all_app l1 l2 s : visit_all visit (l1 ++ l2) s = (visit_all visit l1 ;;; visit_all visit l2) s.
Proof.
  revert s. induction l1 as [|v l1 IH]; intros s; cbn [app visit_all]; [reflexivity|].
  unfold bind. destruct (visit v s) as [[[] s1]|]; [|reflexivity]. rewrite IH. reflexivity.
Qed.

Lemma blockLen_eq : blockLen = 16384.
Proof. reflexivity. Qed.

Lemma blen_eq : Z.of_nat blen = 16384.
Proof. reflexivity. Qed.

Lemma shiftl_block b : Z.shiftl (Z.of_nat b) blockShift = Z.of_nat (b * blen).
Proof.
  unfold blockShift. rewrite Z.shiftl_mul_pow2 by lia. change (2 ^ 14) with 16384.
  pose proof blen_eq. lia.
Qed.

Lemma ld_nat (arr : list Z) (i : nat) : ld arr (Z.of_nat i) = arr !! i.
Proof. unfold ld. destruct (Z.leb_spec 0 (Z.of_nat i)); [|lia]. rewrite Nat2Z.id. reflexivity. Qed.

Lemma bind_congr {S' A B} (m m' : M S' A) (f f' : A -> M S' B) s :
  m s = m' s -> (forall a s', f a s' = f' a s') -> bind m f s = bind m' f' s.
Proof. intros E H. unfold bind. rewrite E. destruct (m' s) as [[a s']|]; [apply H | reflexivity]. Qed.

(** [AddBlock] visits the words of its block in order. *)
Lemma bulk_block_loop t (b : nat) : forall l (lo : nat) s,
  (forall i v, l !! i = Some v -> t !! (b * blen + (lo + i))%nat = Some v) ->
  for_up (length l) (Z.of_nat lo) (fun i =>
    v <- lift (ld t (Z.shiftl (Z.of_nat b) blockShift + i)) ;; visit v) s
  = visit_all visit l s.
Proof.
  induction l as [|v l IH]; intros lo s H; cbn [length for_up visit_all]; [reflexivity|].
  assert (E0 : ld t (Z.shiftl (Z.of_nat b) blockShift + Z.of_nat lo) = Some v).
  { rewrite shiftl_block.
    replace (Z.of_nat (b * blen) + Z.of_nat lo) with (Z.of_nat (b * blen + (lo + 0))) by lia.
    rewrite ld_nat. apply H. reflexivity. }
  apply bind_congr.
  - unfold bind, lift. rewrite E0. reflexivity.
  - intros _ s1. replace (Z.of_nat lo + 1) with (Z.of_nat (S lo)) by lia.
    apply IH. intros i w Hi.
    replace (b * blen + (S lo + i))%nat with (b * blen + (lo + S i))%nat by lia.
    apply H. exact Hi.
Qed.

Lemma bulk_block_eq t (b : nat) l s :
  (forall i v, l !! i = Some v -> t !! (b * blen + i)%nat = Some v) ->
  bulk_block visit t (Z.of_nat b) (Z.of_nat (length l)) s = visit_all visit l s.
Proof.
  intros H. unfold bulk_block. rewrite Nat2Z.id.
  apply (bulk_block_loop t b l 0%nat s). exact H.
Qed.

Lemma st_nat (arr : list Z) (i : nat) v : (i < length arr)%nat ->
  st arr (Z.of_nat i) v = Some (<[i := v]> arr).
Proof. intros H. rewrite st_ok by lia. rewrite Nat2Z.id. reflexivity. Qed.

Lemma block_index_lt (nb b i : nat) : (b < nb)%nat -> (i < blen)%nat ->
  (b * blen + i < nb * blen)%nat.
Proof.
  intros Hb Hi. assert ((S b) * blen <= nb * blen)%nat by (apply Nat.mul_le_mono_r; lia).
  cbn [Nat.mul] in H. lia.
Qed.

Lemma block_index_ne (b b' i j : nat) : b <> b' -> (i < blen)%nat -> (j < blen)%nat ->
  (b * blen + i <> b' * blen + j)%nat.
Proof.
  intros Hne Hi Hj E.
  assert (Hd : forall c k, (k < blen)%nat -> ((c * blen + k) / blen = c)%nat).
  { intros c k Hk. rewrite Nat.div_add_l by lia. rewrite Nat.div_small by lia. lia. }
  apply Hne. rewrite <- (Hd b i Hi), <- (Hd b' j Hj), E. reflexivity.
Qed.

Lemma blen_pos : (0 < blen)%nat.
Proof. pose proof blen_eq. lia. Qed.

Lemma rep_intro nb t tl pend :
  length t = (nb * blen)%nat -> length tl = nb -> length pend = nb ->
  (forall b l, pend !! b = Some l ->
     (length l < blen)%nat /\ tl !! b = Some (Z.of_nat (length l))
     /\ forall i v, l !! i = Some v -> t !! (b * blen + i)%nat = Some v) ->
  rep nb {| tmp := t; tmpLen := tl |} pend.
Proof. intros. split; assumption. Qed.

(** One probe of [AddAll], on the pending words. *)
Lemma bulk_probe_step nb sc pend a s :
  rep nb sc pend ->
  0 <= s32 (reduce a (u32 (alen_of s))) ->
  (fst (slot_word pack (alen_of s) a) < nb)%nat ->
  exists sc',
    rep nb sc' (snd (push pend (fst (slot_word pack (alen_of s) a)) (snd (slot_word pack (alen_of s) a))))
    /\ bulk_probe alen_of pack visit sc a s
       = (visit_all visit (fst (push pend (fst (slot_word pack (alen_of s) a))
                                    (snd (slot_word pack (alen_of s) a)))) ;;; ret sc') s.
Proof.
  intros [Rt Rl Rp Ra] Hidx Hb. unfold slot_word in *. cbn [fst snd] in *.
  set (index := s32 (reduce a (u32 (alen_of s)))) in *.
  set (v := pack index a).
  assert (Hblk : 0 <= Z.shiftr index blockShift) by (apply Z.shiftr_nonneg; exact Hidx).
  set (b := Z.to_nat (Z.shiftr index blockShift)) in *.
  assert (Eb : Z.shiftr index blockShift = Z.of_nat b) by (unfold b; lia).
  destruct (lookup_lt_is_Some_2 pend b ltac:(lia)) as [l Hl].
  destruct (Ra b l Hl) as (Ll & Hlen & Htmp).
  pose proof blen_eq as Eblen. pose proof (block_index_lt nb b (length l) Hb Ll) as Hin.
  unfold bulk_probe. unfold bind at 1. cbv beta iota zeta. fold index. fold v. rewrite Eb.
  unfold bind at 1. unfold lift at 1. rewrite ld_nat, Hlen.
  unfold bind at 1. unfold lift at 1. rewrite shiftl_block.
  replace (Z.of_nat (b * blen) + Z.of_nat (length l)) with (Z.of_nat (b * blen + length l)) by lia.
  rewrite st_nat by lia.
  unfold bind at 1. unfold lift at 1. rewrite st_nat by lia.
  set (t := <[(b * blen + length l)%nat := v]> (tmp sc)).
  set (tl := <[b := Z.of_nat (length l) + 1]> (tmpLen sc)).
  assert (Ht : forall i w, (l ++ [v]) !! i = Some w -> t !! (b * blen + i)%nat = Some w).
  { intros i w Hi. unfold t. destruct (Nat.lt_ge_cases i (length l)) as [Hlt|Hge].
    - rewrite lookup_app_l in Hi by exact Hlt.
      rewrite list_lookup_insert_ne by lia. apply Htmp. exact Hi.
    - rewrite lookup_app_r in Hi by exact Hge.
      destruct (i - length l)%nat eqn:Ei; [|destruct n; discriminate].
      injection Hi as <-. replace i with (length l) by lia.
      apply list_lookup_insert_eq. lia. }
  assert (Ho : forall b' l' i w, b' <> b -> pend !! b' = Some l' -> l' !! i = Some w ->
                t !! (b' * blen + i)%nat = Some w).
  { intros b' l' i w Hne Hl' Hi. destruct (Ra b' l' Hl') as (Ll' & _ & Htmp').
    unfold t. rewrite list_lookup_insert_ne; [apply Htmp'; exact Hi|].
    apply block_index_ne; [congruence | exact Ll |].
    apply lookup_lt_Some in Hi. lia. }
  rewrite (push_some pend b v l Hl). rewrite blockLen_eq.
  destruct (Z.eqb_spec (Z.of_nat (length l) + 1) 16384) as [Efull|Enot];
    destruct (Nat.eqb_spec (length l + 1) blen) as [Efull'|Enot']; try lia;
    unfold fst, snd; cbv beta iota.
  - (* the block is full *)
    exists {| tmp := t; tmpLen := <[b := 0]> tl |}. split.
    + apply rep_intro.
      * unfold t. rewrite length_insert. exact Rt.
      * unfold tl. rewrite !length_insert. exact Rl.
      * rewrite length_insert. exact Rp.
      * intros b' l' Hl'. destruct (Nat.eq_dec b' b) as [->|Hne].
        -- rewrite list_lookup_insert_eq in Hl' by lia. injection Hl' as <-.
           split; [exact blen_pos|]. split.
           ++ apply list_lookup_insert_eq. unfold tl. rewrite length_insert. lia.
           ++ intros i w Hi. destruct i; discriminate.
        -- rewrite list_lookup_insert_ne in Hl' by congruence.
           destruct (Ra b' l' Hl') as (Ll' & Hlen' & _).
           split; [exact Ll'|]. split.
           ++ unfold tl. rewrite !list_lookup_insert_ne by congruence. exact Hlen'.
           ++ intros i w Hi. eapply Ho; eassumption.
    + replace (Z.of_nat (length l) + 1) with (Z.of_nat (length (l ++ [v])))
        by (rewrite length_app; cbn [length]; lia).
      apply bind_congr; [apply bulk_block_eq; exact Ht|].
      intros _ s1. unfold bind, lift.
      rewrite st_nat by (unfold tl; rewrite length_insert; lia). reflexivity.
  - (* the block has room *)
    exists {| tmp := t; tmpLen := tl |}. split; [|reflexivity].
    apply rep_intro.
    + unfold t. rewrite length_insert. exact Rt.
    + unfold tl. rewrite length_insert. exact Rl.
    + rewrite length_insert. exact Rp.
    + intros b' l' Hl'. destruct (Nat.eq_dec b' b) as [->|Hne].
      * rewrite list_lookup_insert_eq in Hl' by lia. injection Hl' as <-.
        rewrite length_app. cbn [length]. split; [lia|]. split.
        -- unfold tl. rewrite list_lookup_insert_eq by lia. f_equal. lia.
        -- exact Ht.
      * rewrite list_lookup_insert_ne in Hl' by congruence.
        destruct (Ra b' l' Hl') as (Ll' & Hlen' & _).
        split; [exact Ll'|]. split.
        -- unfold tl. rewrite list_lookup_insert_ne by congruence. exact Hlen'.
        -- intros i w Hi. eapply Ho; eassumption.
Qed.

Lemma flush_loop sc pend : (forall b l, pend !! b = Some l ->
     tmpLen sc !! b = Some (Z.of_nat (length l))
     /\ forall i v, l !! i = Some v -> tmp sc !! (b * blen + i)%nat = Some v) ->
  forall rest (lo : nat) s, drop lo pend = rest ->
  for_up (length rest) (Z.of_nat lo) (fun block =>
    len <- lift (ld (tmpLen sc) block) ;; bulk_block visit (tmp sc) block len) s
  = visit_all visit (concat rest) s.
Proof.
  intros Ra. induction rest as [|l rest IH]; intros lo s Hd; cbn [length for_up concat];
    [reflexivity|].
  assert (Hl : pend !! lo = Some l).
  { pose proof (lookup_drop pend lo 0) as E. rewrite Hd in E. cbn [lookup list_lookup] in E.
    rewrite Nat.add_0_r in E. symmetry. exact E. }
  destruct (Ra lo l Hl) as [Hlen Htmp].
  rewrite visit_all_app. apply bind_congr.
  - unfold bind, lift. rewrite ld_nat, Hlen. apply bulk_block_eq. exact Htmp.
  - intros _ s1. replace (Z.of_nat lo + 1) with (Z.of_nat (S lo)) by lia.
    apply IH. rewrite (drop_S pend l lo Hl) in Hd. congruence.
Qed.

Lemma flush_all_eq nb sc pend s : rep nb sc pend ->
  flush_all visit nb sc s = visit_all visit (concat pend) s.
Proof.
  intros [Rt Rl Rp Ra]. unfold flush_all. rewrite <- Rp.
  refine (flush_loop sc pend _ pend 0%nat s eq_refl).
  intros b l Hl. destruct (Ra b l Hl) as (_ & H1 & H2). auto.
Qed.

Hypothesis visit_alen : forall v s s', visit v s = Some (tt, s') -> alen_of s' = alen_of s.

Lemma visit_all_alen l : forall s s', visit_all visit l s = Some (tt, s') -> alen_of s' = alen_of s.
Proof using visit_alen.
  induction l as [|v l IH]; intros s s' E; cbn [visit_all] in E.
  - injection E as <-. reflexivity.
  - apply bind_inv in E as ([] & s1 & E1 & E). rewrite (IH _ _ E). eapply visit_alen. exact E1.
Qed.

(** [AddAll] visits the words in the order [sched] gives. *)
Lemma process_flush nb A : forall l sc pend s,
  rep nb sc pend -> alen_of s = A ->
  Forall (fun a => 0 <= s32 (reduce a (u32 A)) /\ (fst (slot_word pack A a) < nb)%nat) l ->
  (sc' <- process alen_of pack visit l sc ;; flush_all visit nb sc') s
  = visit_all visit (sched (map (slot_word pack A) l) pend) s.
Proof using visit_alen.
  induction l as [|a l IH]; intros sc pend s Hrep HA Hl; cbn [process map sched].
  - unfold bind, ret. apply flush_all_eq. exact Hrep.
  - apply Forall_cons in Hl as [[H0 Hb] Hl]. subst A.
    destruct (bulk_probe_step nb sc pend a s Hrep H0 Hb) as (sc1 & Hrep1 & E1).
    rewrite visit_all_app. unfold bind in E1 |- *. rewrite E1.
    destruct (visit_all visit _ s) as [[[] s1]|] eqn:Ev; [|reflexivity].
    unfold ret. pose proof (visit_all_alen _ _ _ Ev) as Ea.
    rewrite <- Ea in *. specialize (IH sc1 _ s1 Hrep1 eq_refl Hl).
    unfold bind in IH. exact IH.
Qed.

End Bulk.

(* ---------- the order of the words ---------- *)

Lemma concat_insert (pend : list (list Z)) b l l' : pend !! b = Some l ->
  Permutation (l ++ concat (<[b := l']> pend)) (l' ++ concat pend).
Proof.
  intros H. pose proof (lookup_lt_Some _ _ _ H) as Hlt.
  rewrite (insert_take_drop pend b l' Hlt).
  rewrite <- (take_drop_middle pend b l H) at 3.
  rewrite !concat_app. cbn [concat].
  rewrite (Permutation_app_swap_app l (concat (take b pend))).
  rewrite (Permutation_app_swap_app l' (concat (take b pend))).
  apply Permutation_app_head. apply Permutation_app_swap_app.
Qed.

(** [AddAll] hands every word to [AddBlock] once. *)
Lemma sched_perm bvs : forall pend,
  Forall (fun bv => (fst bv < length pend)%nat) bvs ->
  Permutation (sched bvs pend) (concat pend ++ map snd bvs).
Proof.
  induction bvs as [|[b v] bvs IH]; intros pend Hb; cbn [sched map fst snd].
  - rewrite app_nil_r. reflexivity.
  - apply Forall_cons in Hb as [Hb0 Hb]. cbn [fst] in Hb0.
    destruct (lookup_lt_is_Some_2 pend b Hb0) as [l Hl].
    rewrite (push_some pend b v l Hl).
    change (v :: map snd bvs) with ([v] ++ map snd bvs).
    destruct (length l + 1 =? blen)%nat; cbn [fst snd].
    + rewrite IH by (rewrite length_insert; exact Hb).
      rewrite !app_assoc. apply Permutation_app_tail.
      rewrite <- app_assoc. rewrite (Permutation_app_swap_app l [v]).
      rewrite (concat_insert pend b l [] Hl). cbn [app].
      apply Permutation_cons_append.
    + rewrite app_nil_l. rewrite IH by (rewrite length_insert; exact Hb).
      rewrite !app_assoc. apply Permutation_app_tail.
      apply (Permutation_app_inv_l l).
      rewrite (concat_insert pend b l (l ++ [v]) Hl).
      rewrite <- !app_assoc. apply Permutation_app_head. apply Permutation_app_comm.
Qed.

(** With one block, [AddAll] keeps the order of the words. *)
Lemma sched_one bvs : forall l,
  Forall (fun bv => fst bv = 0%nat) bvs ->
  sched bvs [l] = l ++ map snd bvs.
Proof.
  induction bvs as [|[b v] bvs IH]; intros l Hb; cbn [sched map fst snd].
  - cbn [concat]. reflexivity.
  - apply Forall_cons in Hb as [Hb0 Hb]. cbn [fst] in Hb0. subst b.
    rewrite (push_some [l] 0%nat v l eq_refl).
    change (v :: map snd bvs) with ([v] ++ map snd bvs).
    destruct (length l + 1 =? blen)%nat; cbn [fst snd].
    + change (<[0%nat := []]> [l]) with [@nil Z]. rewrite IH by exact Hb.
      rewrite app_nil_l, <- app_assoc. reflexivity.
    + change (<[0%nat := l ++ [v]]> [l]) with [l ++ [v]]. rewrite IH by exact Hb.
      rewrite app_nil_l, <- app_assoc. reflexivity.
Qed.

(* ---------- what holds for both filters ---------- *)

Lemma bind_assoc {St A B C} (m : M St A) (f : A -> M St B) (g : B -> M St C) s :
  bind (bind m f) g s = bind m (fun a => bind (f a) g) s.
Proof. unfold bind. destruct (m s) as [[a s1]|]; reflexivity. Qed.

Lemma process_app {St} (alen_of : St -> Z) pack visit l1 : forall l2 sc s,
  process alen_of pack visit (l1 ++ l2) sc s
  = (sc' <- process alen_of pack visit l1 sc ;; process alen_of pack visit l2 sc') s.
Proof.
  induction l1 as [|a l1 IH]; intros l2 sc s; cbn [app process]; [reflexivity|].
  rewrite bind_assoc. apply bind_congr; [reflexivity|]. intros sc1 s1. apply IH.
Qed.

Lemma avals_range j : forall a b, 0 <= a < 2 ^ 32 -> Forall (fun a => 0 <= a < 2 ^ 32) (avals j a b).
Proof.
  induction j as [|j IH]; intros a b Ha; cbn [avals]; constructor; [exact Ha|].
  apply IH. apply u32_range.
Qed.

Lemma key_avals_range hasher k keys :
  Forall (fun a => 0 <= a < 2 ^ 32) (flat_map (key_avals hasher k) keys).
Proof.
  induction keys as [|key keys IH]; cbn [flat_map]; [constructor|].
  apply Forall_app. split; [|exact IH]. apply avals_range. apply u32_range.
Qed.

Lemma probes_avals i : forall a b A,
  probes i a b A = map (fun a => (reduce a (u32 A), Z.land a 63)) (avals i a b).
Proof. induction i as [|i IH]; intros a b A; cbn [probes avals map]; [|rewrite IH]; reflexivity. Qed.

Lemma all_probes_avals hasher k A keys :
  all_probes hasher k A keys
  = map (fun a => (reduce a (u32 A), Z.land a 63)) (flat_map (key_avals hasher k) keys).
Proof.
  induction keys as [|key keys IH]; cbn [all_probes flat_map]; [reflexivity|].
  rewrite map_app. f_equal; [apply probes_avals | exact IH].
Qed.

Lemma s32_small x : 0 <= x < 2 ^ 31 -> s32 x = x.
Proof. intros H. unfold s32. rewrite Z.mod_small by lia. lia. Qed.

(** The index of a probe, in a filter of [A] groups. *)
Lemma probe_index A a : 0 <= A <= 2 ^ 31 -> 0 <= a < 2 ^ 32 ->
  s32 (reduce a (u32 A)) = reduce a (u32 A)
  /\ 0 <= reduce a (u32 A) /\ reduce a (u32 A) <= A
  /\ (0 < A -> reduce a (u32 A) < A).
Proof.
  intros HA Ha. destruct (Z.eq_dec A 0) as [->|Hne].
  - change (reduce a (u32 0)) with (u32 (Z.shiftr (u64 (a * 0)) 32)).
    rewrite Z.mul_0_r. change (u32 (Z.shiftr (u64 0) 32)) with 0.
    change (s32 0) with 0. lia.
  - pose proof (reduce_lt a A Ha ltac:(lia)) as H. rewrite s32_small by lia. lia.
Qed.

Lemma probe_block A a : 0 <= A <= 2 ^ 31 -> 0 <= a < 2 ^ 32 ->
  (Z.to_nat (Z.shiftr (s32 (reduce a (u32 A))) blockShift) < Z.to_nat (1 + A / blockLen))%nat.
Proof.
  intros HA Ha. destruct (probe_index A a HA Ha) as (-> & H0 & H1 & _).
  unfold blockShift. rewrite Z.shiftr_div_pow2 by lia. rewrite blockLen_eq.
  change (2 ^ 14) with 16384.
  assert (0 <= reduce a (u32 A) / 16384) by (apply Z.div_pos; lia).
  assert (reduce a (u32 A) / 16384 <= A / 16384) by (apply Z.div_le_mono; lia).
  lia.
Qed.

Lemma probe_block_one A a : 0 <= A < 16384 -> 0 <= a < 2 ^ 32 ->
  Z.to_nat (Z.shiftr (s32 (reduce a (u32 A))) blockShift) = 0%nat.
Proof.
  intros HA Ha. destruct (probe_index A a ltac:(lia) Ha) as (-> & H0 & H1 & _).
  unfold blockShift. rewrite Z.shiftr_div_pow2 by lia. change (2 ^ 14) with 16384.
  rewrite Z.div_small by lia. reflexivity.
Qed.

(** The scratch arrays [AddAll] starts with. *)
Lemma rep_init (nb : Z) : 0 <= nb ->
  rep (Z.to_nat nb)
      {| tmp := replicate (Z.to_nat (nb * blockLen)) 0; tmpLen := replicate (Z.to_nat nb) 0 |}
      (replicate (Z.to_nat nb) []).
Proof.
  intros H. apply rep_intro.
  - rewrite length_replicate. rewrite Z2Nat.inj_mul by (rewrite ?blockLen_eq; lia). reflexivity.
  - apply length_replicate.
  - apply length_replicate.
  - intros b l Hl. apply lookup_replicate in Hl as [-> Hb]. cbn [length].
    split; [exact blen_pos|]. split; [apply lookup_replicate_2; exact Hb|].
    intros i v Hi. destruct i; discriminate.
Qed.

Lemma s_AddBlock_eq t block len : AddBlock t block len = bulk_block svisit t block len.
Proof. reflexivity. Qed.

Lemma s_AddAll_probe_eq sc a : AddAll_probe sc a = bulk_probe arrayLength spack svisit sc a.
Proof. reflexivity. Qed.

Lemma s_AddAll_inner_eq j : forall a b sc s,
  AddAll_inner j a b sc s = process arrayLength spack svisit (avals j a b) sc s.
Proof.
  induction j as [|j IH]; intros a b sc s; cbn [AddAll_inner avals process]; [reflexivity|].
  apply bind_congr; [reflexivity|]. intros sc1 s1. apply IH.
Qed.

Lemma s_AddAll_keys_eq hasher k keys : forall n (i : nat) sc s,
  (i + n <= length keys)%nat ->
  AddAll_keys hasher k n (Z.of_nat i) keys sc s
  = process arrayLength spack svisit
      (flat_map (key_avals hasher k) (take n (drop i keys))) sc s.
Proof.
  induction n as [|n IH]; intros i sc s Hi; cbn [AddAll_keys take flat_map process];
    [reflexivity|].
  destruct (lookup_lt_is_Some_2 keys i ltac:(lia)) as [key Hk].
  rewrite (drop_S keys key i Hk). cbn [take flat_map].
  rewrite process_app. unfold bind at 1. unfold lift at 1. rewrite ld_nat, Hk.
  apply bind_congr.
  - unfold AddAll_key, key_avals. apply s_AddAll_inner_eq.
  - intros sc1 s1. replace (Z.of_nat i + 1) with (Z.of_nat (S i)) by lia. apply IH. lia.
Qed.

Lemma svisit_alen v s s' : svisit v s = Some (tt, s') -> arrayLength s' = arrayLength s.
Proof. intros E. exact (proj1 (step_dims (Inc _ _) s s' E)). Qed.

Lemma s_AddAll_shape hasher k keys start end_ s :
  AddAll hasher k keys start end_ s
  = ((sc' <- AddAll_keys hasher k (Z.to_nat (end_ - start)) start keys
              {| tmp := replicate (Z.to_nat (s32 (1 + arrayLength s / blockLen) * blockLen)) 0;
                 tmpLen := replicate (Z.to_nat (s32 (1 + arrayLength s / blockLen))) 0 |} ;;
      flush_all svisit (Z.to_nat (s32 (1 + arrayLength s / blockLen))) sc') ;;; ret Ok) s.
Proof.
  unfold AddAll, bind, get_arrayLength.
  destruct (AddAll_keys _ _ _ _ _ _ s) as [[sc' s1]|]; reflexivity.
Qed.

(** [AddAll], as the visits of the words in the order of [sched]. *)
Lemma s_AddAll_sched hasher k keys s : 0 <= arrayLength s <= 2 ^ 31 ->
  AddAll hasher k keys 0 (Z.of_nat (length keys)) s
  = (visit_all svisit
       (sched (map (slot_word spack (arrayLength s)) (flat_map (key_avals hasher k) keys))
              (replicate (Z.to_nat (1 + arrayLength s / blockLen)) [])) ;;; ret Ok) s.
Proof.
  intros HA. rewrite s_AddAll_shape.
  assert (Hd : 0 <= arrayLength s / blockLen <= 2 ^ 17).
  { rewrite blockLen_eq. split; [apply Z.div_pos; lia|].
    apply Z.div_le_upper_bound; lia. }
  rewrite s32_small by lia.
  set (nb := 1 + arrayLength s / blockLen) in *.
  rewrite Z.sub_0_r, Nat2Z.id.
  apply bind_congr; [|reflexivity].
  etransitivity.
  { apply bind_congr; [|reflexivity].
    apply (s_AddAll_keys_eq hasher k keys (length keys) 0%nat). lia. }
  rewrite drop_0, firstn_all.
  apply (process_flush arrayLength spack svisit svisit_alen (Z.to_nat nb) (arrayLength s)).
  - apply rep_init. lia.
  - reflexivity.
  - eapply Forall_impl; [apply key_avals_range|]. cbv beta. intros a Ha.
    split.
    + destruct (probe_index (arrayLength s) a HA Ha) as (-> & H0 & _). exact H0.
    + unfold slot_word. cbn [fst]. apply probe_block; assumption.
Qed.

Lemma land_63_mod a : Z.land a 63 = a mod 64.
Proof. change 63 with (Z.ones 6). apply Z.land_ones. lia. Qed.

(** Unpacking the word of a probe gives the probe back. *)
Lemma svisit_spack index a : 0 <= index < 2 ^ 26 ->
  svisit (spack index a) = Increment index (Z.land a 63).
Proof.
  intros Hi. unfold svisit, spack. rewrite Z.shiftl_mul_pow2 by lia.
  pose proof (land_63_range a) as Ha.
  unfold u32. rewrite Z.mod_small by lia.
  rewrite Z.shiftr_div_pow2 by lia. rewrite (land_63_mod (index * 2 ^ 6 + Z.land a 63)).
  change (2 ^ 6) with 64.
  rewrite Z.add_comm, Z.div_add, Z.mod_add by lia.
  rewrite Z.div_small, Z.mod_small by lia. reflexivity.
Qed.

Lemma s_visit_all_run A l : 0 <= A <= 2 ^ 26 -> Forall (fun a => 0 <= a < 2 ^ 32) l ->
  forall s,
  visit_all svisit (map (fun a => snd (slot_word spack A a)) l) s
  = run (map inc_of (map (fun a => (reduce a (u32 A), Z.land a 63)) l)) s.
Proof.
  intros HA. induction 1 as [|a l Ha Hl IH]; intros s; cbn [map visit_all run]; [reflexivity|].
  destruct (probe_index A a ltac:(lia) Ha) as (E & H0 & H1 & H2).
  unfold slot_word at 1. cbn [snd]. rewrite E.
  rewrite svisit_spack by lia. cbn [inc_of fst snd step].
  apply bind_congr; [reflexivity|]. intros _ s1. apply IH.
Qed.

(** With fewer than [blockLen] groups there is one block, and [AddAll] is
    [Add] key by key. *)
Lemma s_AddAll_one_block hasher k keys s : 0 <= arrayLength s < 2 ^ 14 ->
  AddAll hasher k keys 0 (Z.of_nat (length keys)) s = (AddEach hasher k keys ;;; ret Ok) s.
Proof.
  intros HA. rewrite s_AddAll_sched by lia.
  apply bind_congr; [|reflexivity].
  change (2 ^ 14) with 16384 in HA.
  rewrite blockLen_eq. rewrite (Z.div_small (arrayLength s) 16384) by lia.
  change (Z.to_nat (1 + 0)) with 1%nat.
  change (replicate 1 []) with [@nil Z].
  rewrite sched_one.
  - rewrite app_nil_l, map_map, AddEach_run, all_probes_avals.
    apply s_visit_all_run; [lia | apply key_avals_range].
  - apply Forall_map. eapply Forall_impl; [apply key_avals_range|]. cbv beta.
    intros a Ha. unfold slot_word. cbn [fst]. apply probe_block_one; [lia | exact Ha].
Qed.

Module PlainFacts.

Import CountingBloomFilter.

Import Plain.

Lemma p_AddBlock_eq t block len : AddBlock t block len = bulk_block pvisit t block len.
Proof. reflexivity. Qed.

Lemma p_AddAll_probe_eq sc a : AddAll_probe sc a = bulk_probe arrayLength ppack pvisit sc a.
Proof. reflexivity. Qed.

Lemma p_AddAll_inner_eq j : forall a b sc s,
  AddAll_inner j a b sc s = process arrayLength ppack pvisit (avals j a b) sc s.
Proof.
  induction j as [|j IH]; intros a b sc s; cbn [AddAll_inner avals process]; [reflexivity|].
  apply bind_congr; [reflexivity|]. intros sc1 s1. apply IH.
Qed.

Lemma p_AddAll_keys_eq hasher k keys : forall n (i : nat) sc s,
  (i + n <= length keys)%nat ->
  AddAll_keys hasher k n (Z.of_nat i) keys sc s
  = process arrayLength ppack pvisit
      (flat_map (key_avals hasher k) (take n (drop i keys))) sc s.
Proof.
  induction n as [|n IH]; intros i sc s Hi; cbn [AddAll_keys take flat_map process];
    [reflexivity|].
  destruct (lookup_lt_is_Some_2 keys i ltac:(lia)) as [key Hk].
  rewrite (drop_S keys key i Hk). cbn [take flat_map].
  rewrite process_app. unfold bind at 1. unfold lift at 1. rewrite ld_nat, Hk.
  apply bind_congr.
  - unfold AddAll_key, key_avals. apply p_AddAll_inner_eq.
  - intros sc1 s1. replace (Z.of_nat i + 1) with (Z.of_nat (S i)) by lia. apply IH. lia.
Qed.

Lemma p_AddAll_shape hasher k keys start end_ s :
  AddAll hasher k keys start end_ s
  = ((sc' <- AddAll_keys hasher k (Z.to_nat (end_ - start)) start keys
              {| tmp := replicate (Z.to_nat (s32 (1 + arrayLength s / blockLen) * blockLen)) 0;
                 tmpLen := replicate (Z.to_nat (s32 (1 + arrayLength s / blockLen))) 0 |} ;;
      flush_all pvisit (Z.to_nat (s32 (1 + arrayLength s / blockLen))) sc') ;;; ret Ok) s.
Proof.
  unfold AddAll, bind, get_arrayLength.
  destruct (AddAll_keys _ _ _ _ _ _ s) as [[sc' s1]|]; reflexivity.
Qed.

Lemma pvisit_bump v s : 0 <= Z.shiftr (s32 v) 4 < Z.of_nat (length (data s)) ->
  pvisit v s = Some (tt, with_data (bump (data s) v) s).
Proof.
  intros Hi. unfold pvisit, bump, with_data. cbv zeta.
  destruct (ld_ok (data s) _ Hi) as [w Hw].
  unfold bind, data_get, data_set. rewrite Hw. rewrite st_ok by exact Hi.
  unfold ld in Hw. destruct (0 <=? _); [|discriminate].
  rewrite (nth_lookup_Some _ _ 0 _ Hw). reflexivity.
Qed.

Lemma pvisit_alen v s s' : pvisit v s = Some (tt, s') -> arrayLength s' = arrayLength s.
Proof.
  unfold pvisit, bind, data_get, data_set. cbv zeta.
  destruct (ld _ _); [|discriminate]. destruct (st _ _ _); [|discriminate].
  intros E. injection E as <-. reflexivity.
Qed.

Lemma length_bump d v : length (bump d v) = length d.
Proof. unfold bump. apply length_insert. Qed.

Lemma add64_swap x p q : add64 (add64 x p) q = add64 (add64 x q) p.
Proof.
  unfold add64, u64. rewrite !Zplus_mod_idemp_l. f_equal. lia.
Qed.

Lemma nth_insert_ne (d : list Z) (i n : nat) x : n <> i -> nth n (<[i := x]> d) 0 = nth n d 0.
Proof. intros H. rewrite !nth_lookup, list_lookup_insert_ne by congruence. reflexivity. Qed.

Lemma nth_insert_eq (d : list Z) (i : nat) x : (i < length d)%nat -> nth i (<[i := x]> d) 0 = x.
Proof. intros H. rewrite nth_lookup, list_lookup_insert_eq by exact H. reflexivity. Qed.

(** The order of two words does not matter. *)
Lemma bump_comm d v w : bump (bump d v) w = bump (bump d w) v.
Proof.
  unfold bump.
  set (i := Z.to_nat (Z.shiftr (s32 v) 4)). set (j := Z.to_nat (Z.shiftr (s32 w) 4)).
  set (p := shl64 1 (Z.land (Z.shiftl (s32 v) 2) 63)).
  set (q := shl64 1 (Z.land (Z.shiftl (s32 w) 2) 63)).
  destruct (Nat.eq_dec i j) as [<-|Hne].
  - destruct (Nat.lt_ge_cases i (length d)) as [Hlt|Hge].
    + rewrite !list_insert_insert_eq. rewrite !nth_insert_eq by exact Hlt.
      rewrite add64_swap. reflexivity.
    + rewrite !list_insert_ge by (rewrite ?length_insert; lia). reflexivity.
  - rewrite list_insert_insert_ne by congruence.
    rewrite !nth_insert_ne by congruence. reflexivity.
Qed.

Lemma fold_bump_perm l l' : Permutation l l' -> forall d, fold_left bump l d = fold_left bump l' d.
Proof.
  induction 1 as [|x l l' _ IH|x y l|l l' l'' _ IH1 _ IH2]; intros d; cbn [fold_left].
  - reflexivity.
  - apply IH.
  - rewrite bump_comm. reflexivity.
  - rewrite IH1. apply IH2.
Qed.

Lemma length_fold_bump l : forall d, length (fold_left bump l d) = length d.
Proof.
  induction l as [|v l IH]; intros d; cbn [fold_left]; [reflexivity|].
  rewrite IH. apply length_bump.
Qed.

Lemma visit_all_bump l : forall s, words_ok (Z.of_nat (length (data s))) l ->
  visit_all pvisit l s = Some (tt, with_data (fold_left bump l (data s)) s).
Proof.
  induction l as [|v l IH]; intros s Hl; cbn [visit_all fold_left].
  - destruct s. reflexivity.
  - apply Forall_cons in Hl as [Hv Hl].
    rewrite (bind_Some _ _ _ _ _ (pvisit_bump v s Hv)).
    rewrite IH; [reflexivity|]. cbn [data with_data]. rewrite length_bump. exact Hl.
Qed.

Lemma visit_all_perm l l' s : Permutation l l' ->
  words_ok (Z.of_nat (length (data s))) l ->
  visit_all pvisit l' s = visit_all pvisit l s.
Proof.
  intros HP Hl. rewrite !visit_all_bump.
  - rewrite (fold_bump_perm l l' HP). reflexivity.
  - exact Hl.
  - unfold words_ok. rewrite <- HP. exact Hl.
Qed.

Lemma land_15_mod a : Z.land a 0xf = a mod 16.
Proof. change 0xf with (Z.ones 4). apply Z.land_ones. lia. Qed.

(** Unpacking the word of a probe. *)
Lemma ppack_unpack r a : 0 <= r < 2 ^ 27 ->
  Z.shiftr (s32 (ppack r a)) 4 = r
  /\ Z.land (Z.shiftl (s32 (ppack r a)) 2) 0x3f = Z.land (shl32 a 2) 0x3f.
Proof.
  intros Hr. unfold ppack. rewrite Z.shiftl_mul_pow2 by lia. rewrite land_15_mod.
  pose proof (Z.mod_pos_bound a 16 ltac:(lia)) as Ha. change (2 ^ 4) with 16.
  unfold u32. rewrite Z.mod_small by lia. rewrite s32_small by lia.
  split.
  - rewrite Z.shiftr_div_pow2 by lia. change (2 ^ 4) with 16.
    rewrite Z.add_comm, Z.div_add by lia. rewrite Z.div_small by lia. lia.
  - rewrite probe_shift, land_15_mod. rewrite Z.shiftl_mul_pow2 by lia.
    change 0x3f with (Z.ones 6). rewrite Z.land_ones by lia.
    change (2 ^ 6) with (4 * 16). change (2 ^ 2) with 4.
    rewrite (Z.mul_comm _ 4), Z.mul_mod_distr_l by lia.
    rewrite Z.add_comm, Z.mod_add by lia. rewrite Z.mod_mod by lia. reflexivity.
Qed.

Lemma pvisit_ppack a s : 0 <= arrayLength s <= 2 ^ 27 -> 0 <= a < 2 ^ 32 ->
  pvisit (snd (slot_word ppack (arrayLength s) a)) s = Add_probe a s.
Proof.
  intros HA Ha. unfold slot_word. cbn [snd].
  destruct (probe_index (arrayLength s) a ltac:(lia) Ha) as (E & H0 & H1 & H2).
  rewrite E. destruct (ppack_unpack (reduce a (u32 (arrayLength s))) a ltac:(lia)) as [E1 E2].
  unfold pvisit, Add_probe. cbv zeta. rewrite E1, E2. reflexivity.
Qed.

Lemma bind_congr_res {St A B} (m m' : M St A) (f f' : A -> M St B) s :
  m s = m' s -> (forall a s', m' s = Some (a, s') -> f a s' = f' a s') ->
  bind m f s = bind m' f' s.
Proof.
  intros E H. unfold bind. rewrite E. destruct (m' s) as [[a s']|]; [apply H | ]; reflexivity.
Qed.

Lemma Add_probe_alen a s s' : Add_probe a s = Some (tt, s') -> arrayLength s' = arrayLength s.
Proof.
  unfold Add_probe, bind, get_arrayLength, data_get, data_set.
  destruct (ld _ _); [|discriminate]. destruct (st _ _ _); [|discriminate].
  intros E. injection E as <-. reflexivity.
Qed.

Lemma p_visit_all_Add_loop A j : forall a b s,
  arrayLength s = A -> 0 <= A <= 2 ^ 27 -> 0 <= a < 2 ^ 32 ->
  visit_all pvisit (map (fun a => snd (slot_word ppack A a)) (avals j a b)) s
  = Add_loop j a b s.
Proof.
  induction j as [|j IH]; intros a b s EA HA Ha; cbn [avals map visit_all Add_loop];
    [reflexivity|].
  apply bind_congr_res; [subst A; apply pvisit_ppack; assumption|].
  intros [] s1 E1. apply IH; [|exact HA | apply u32_range].
  rewrite (Add_probe_alen a s s1 E1). exact EA.
Qed.

Lemma Add_loop_alen j : forall a b s s',
  Add_loop j a b s = Some (tt, s') -> arrayLength s' = arrayLength s.
Proof.
  induction j as [|j IH]; intros a b s s' E; cbn [Add_loop] in E.
  - injection E as <-. reflexivity.
  - apply bind_inv in E as ([] & s1 & E1 & E).
    rewrite (IH _ _ _ _ E). eapply Add_probe_alen. exact E1.
Qed.

Lemma p_visit_all_AddEach hasher k A keys : forall s,
  arrayLength s = A -> 0 <= A <= 2 ^ 27 ->
  visit_all pvisit
    (map (fun a => snd (slot_word ppack A a)) (flat_map (key_avals hasher k) keys)) s
  = AddEach hasher k keys s.
Proof.
  induction keys as [|key keys IH]; intros s EA HA; cbn [flat_map map AddEach]; [reflexivity|].
  rewrite map_app, visit_all_app. unfold Add.
  rewrite bind_assoc.
  apply bind_congr_res.
  - unfold key_avals. apply p_visit_all_Add_loop; [exact EA | exact HA | apply u32_range].
  - intros [] s1 E1. unfold bind, ret. apply IH; [|exact HA].
    rewrite (Add_loop_alen _ _ _ _ _ E1). exact EA.
Qed.

Lemma concat_replicate_nil (n : nat) : concat (replicate n (@nil Z)) = [].
Proof. induction n as [|n IH]; [reflexivity | exact IH]. Qed.

(** [AddAll], as the visits of the words in the order of [sched]. *)
Lemma p_AddAll_sched hasher k keys s : 0 <= arrayLength s <= 2 ^ 31 ->
  AddAll hasher k keys 0 (Z.of_nat (length keys)) s
  = (visit_all pvisit
       (sched (map (slot_word ppack (arrayLength s)) (flat_map (key_avals hasher k) keys))
              (replicate (Z.to_nat (1 + arrayLength s / blockLen)) [])) ;;; ret Ok) s.
Proof.
  intros HA. rewrite p_AddAll_shape.
  assert (Hd : 0 <= arrayLength s / blockLen <= 2 ^ 17).
  { rewrite blockLen_eq. split; [apply Z.div_pos; lia|].
    apply Z.div_le_upper_bound; lia. }
  rewrite s32_small by lia.
  set (nb := 1 + arrayLength s / blockLen) in *.
  rewrite Z.sub_0_r, Nat2Z.id.
  apply bind_congr; [|reflexivity].
  etransitivity.
  { apply bind_congr; [|reflexivity].
    apply (p_AddAll_keys_eq hasher k keys (length keys) 0%nat). lia. }
  rewrite drop_0, firstn_all.
  apply (process_flush arrayLength ppack pvisit pvisit_alen (Z.to_nat nb) (arrayLength s)).
  - apply rep_init. lia.
  - reflexivity.
  - eapply Forall_impl; [apply key_avals_range|]. cbv beta. intros a Ha.
    split.
    + destruct (probe_index (arrayLength s) a HA Ha) as (-> & H0 & _). exact H0.
    + unfold slot_word. cbn [fst]. apply probe_block; assumption.
Qed.

(** On a filter of at most 2^27 groups whose array has them all, [AddAll]
    is [Add] key by key. *)
Lemma p_AddAll_AddEach hasher k keys s :
  Z.of_nat (length (data s)) = arrayLength s -> 0 < arrayLength s <= 2 ^ 27 ->
  AddAll hasher k keys 0 (Z.of_nat (length keys)) s = (AddEach hasher k keys ;;; ret Ok) s.
Proof.
  intros Hwf HA. rewrite p_AddAll_sched by lia.
  apply bind_congr; [|reflexivity].
  rewrite <- (p_visit_all_AddEach hasher k (arrayLength s) keys s eq_refl ltac:(lia)).
  set (avs := flat_map (key_avals hasher k) keys).
  assert (Hr : Forall (fun a => 0 <= a < 2 ^ 32) avs) by apply key_avals_range.
  apply visit_all_perm.
  - rewrite sched_perm.
    + rewrite concat_replicate_nil, app_nil_l, map_map. reflexivity.
    + apply Forall_map. eapply Forall_impl; [exact Hr|]. cbv beta. intros a Ha.
      rewrite length_replicate. unfold slot_word. cbn [fst]. apply probe_block; [lia | exact Ha].
  - unfold words_ok. apply Forall_map. eapply Forall_impl; [exact Hr|]. cbv beta. intros a Ha.
    unfold slot_word. cbn [snd].
    destruct (probe_index (arrayLength s) a ltac:(lia) Ha) as (E & H0 & H1 & H2).
    rewrite E.
    rewrite (proj1 (ppack_unpack (reduce a (u32 (arrayLength s))) a ltac:(lia))). lia.
Qed.

End PlainFacts.

Lemma spack_unpack r a : 0 <= r < 2 ^ 26 ->
  word_pos (spack r a) = (r, Z.land a 63).
Proof.
  intros Hi. unfold word_pos, spack. rewrite Z.shiftl_mul_pow2 by lia.
  pose proof (land_63_range a) as Ha.
  unfold u32. rewrite Z.mod_small by lia.
  rewrite Z.shiftr_div_pow2 by lia. rewrite (land_63_mod (r * 2 ^ 6 + Z.land a 63)).
  change (2 ^ 6) with 64.
  rewrite Z.add_comm, Z.div_add, Z.mod_add by lia.
  rewrite Z.div_small, Z.mod_small by lia. reflexivity.
Qed.

Lemma visit_all_word_ops l : forall s,
  visit_all svisit l s = run (map inc_of (map word_pos l)) s.
Proof.
  induction l as [|v l IH]; intros s; cbn [map visit_all run]; [reflexivity|].
  apply bind_congr; [reflexivity|]. intros _ s1. apply IH.
Qed.

Lemma s_AddAll_run hasher k keys s : 0 <= arrayLength s <= 2 ^ 31 ->
  AddAll hasher k keys 0 (Z.of_nat (length keys)) s
  = (run (bulk_ops hasher k (arrayLength s) keys) ;;; ret Ok) s.
Proof.
  intros HA. rewrite s_AddAll_sched by exact HA.
  apply bind_congr; [|reflexivity]. apply visit_all_word_ops.
Qed.

(** [AddAll] performs the increments of the [Add]s, in another order. *)
Lemma bulk_ops_perm hasher k A keys : 0 <= A <= 2 ^ 26 ->
  Permutation (map word_pos
                 (sched (map (slot_word spack A) (flat_map (key_avals hasher k) keys))
                        (replicate (Z.to_nat (1 + A / blockLen)) [])))
              (all_probes hasher k A keys).
Proof.
  intros HA. set (avs := flat_map (key_avals hasher k) keys).
  assert (Hr : Forall (fun a => 0 <= a < 2 ^ 32) avs) by apply key_avals_range.
  rewrite sched_perm.
  - rewrite PlainFacts.concat_replicate_nil, app_nil_l, !map_map, all_probes_avals.
    fold avs. induction Hr as [|a l Ha Hl IH]; cbn [map]; [reflexivity|].
    rewrite IH. unfold slot_word at 1. cbn [snd].
    destruct (probe_index A a ltac:(lia) Ha) as (E & H0 & H1 & H2).
    rewrite E, spack_unpack by lia. reflexivity.
  - apply Forall_map. eapply Forall_impl; [exact Hr|]. cbv beta. intros a Ha.
    rewrite length_replicate. unfold slot_word. cbn [fst]. apply probe_block; [lia | exact Ha].
Qed.

Lemma Inv_same_data s1 s2 f : Inv s1 f -> Inv s2 f -> arrayLength s1 = arrayLength s2 ->
  data s1 = data s2.
Proof.
  intros [S1 G1] [S2 G2] EA. apply list_eq. intros i.
  destruct (Nat.lt_ge_cases i (length (data s1))) as [Hlt|Hge].
  - pose proof (sh_data s1 S1). pose proof (sh_data s2 S2).
    destruct (G1 (Z.of_nat i) ltac:(lia)) as [_ [H1 _]].
    destruct (G2 (Z.of_nat i) ltac:(lia)) as [_ [H2 _]].
    rewrite ld_nat in H1, H2. congruence.
  - pose proof (sh_data s1 S1). pose proof (sh_data s2 S2).
    rewrite !lookup_ge_None_2 by lia. reflexivity.
Qed.

Lemma new_small bits_per_item n : arrayLength (new bits_per_item n) <= 2 ^ 26 ->
  overflowLength (new bits_per_item n) <= 2 ^ 28.
Proof.
  intros HA. pose proof (new_alen bits_per_item n) as H0.
  change (overflowLength (new bits_per_item n))
    with (u64 (100 + arrayLength (new bits_per_item n) / 100 * 12)).
  set (alen := arrayLength (new bits_per_item n)) in *.
  assert (0 <= alen / 100) by (apply Z.div_pos; lia).
  assert (alen / 100 <= 2 ^ 26 / 100) by (apply Z.div_le_mono; lia).
  change (2 ^ 26 / 100) with 671088 in *.
  rewrite u64_small by lia. lia.
Qed.

Lemma plain_new_wf bits_per_item n :
  Z.of_nat (length (CountingBloomFilter.data (CountingBloomFilter.new bits_per_item n)))
  = CountingBloomFilter.arrayLength (CountingBloomFilter.new bits_per_item n).
Proof.
  cbn [CountingBloomFilter.new CountingBloomFilter.data CountingBloomFilter.arrayLength].
  rewrite length_replicate. apply Z2Nat.id. apply Z.div_pos; [apply u64_range | lia].
Qed.

(** The two ways of adding the keys leave the same presence bits and the
    same counts. *)
Lemma s_AddAll_same_counts bits_per_item hasher k n keys :
  0 < arrayLength (new bits_per_item n) <= 2 ^ 26 ->
  counts_fit (all_probes hasher k (arrayLength (new bits_per_item n)) keys) = true ->
  quiet (map inc_of (all_probes hasher k (arrayLength (new bits_per_item n)) keys))
        (new bits_per_item n) = true ->
  quiet (bulk_ops hasher k (arrayLength (new bits_per_item n)) keys)
        (new bits_per_item n) = true ->
  exists s1 s2,
    AddEach hasher k keys (new bits_per_item n) = Some (tt, s1)
    /\ AddAll hasher k keys 0 (Z.of_nat (length keys)) (new bits_per_item n) = Some (Ok, s2)
    /\ data s1 = data s2
    /\ forall g i, 0 <= g < arrayLength (new bits_per_item n) -> 0 <= i < 64 ->
         exists c, ReadCount g i s1 = Some (c, s1) /\ ReadCount g i s2 = Some (c, s2).
Proof.
  intros HA Hfit Hq1 Hq2.
  pose proof (new_Inv bits_per_item n (new_small bits_per_item n ltac:(lia))) as HI0.
  set (s0 := new bits_per_item n) in *. set (A := arrayLength s0) in *.
  pose proof (counts_fit_spec _ Hfit) as Hmax.
  pose proof (all_probes_in_range hasher k A keys ltac:(lia)) as Hr.
  pose proof (bulk_ops_perm hasher k A keys ltac:(lia)) as HP.
  (* the Adds *)
  assert (Hl1 : legal A [] (map inc_of (all_probes hasher k A keys)) = true)
    by (apply legal_incs; [exact Hr | exact Hmax]).
  destruct (run_Inv _ [] s0 HI0 Hl1 Hq1 _ [] (eq_sym (app_nil_r _)))
    as (s1 & E1 & HI1 & A1 & _).
  (* AddAll *)
  assert (Hl2 : legal A [] (bulk_ops hasher k A keys) = true).
  { apply legal_incs.
    - rewrite HP. exact Hr.
    - intros g i. cbn [app].
      rewrite (net_perm _ _ g i (Permutation_map inc_of HP)). apply Hmax. }
  destruct (run_Inv _ [] s0 HI0 Hl2 Hq2 _ [] (eq_sym (app_nil_r _)))
    as (s2 & E2 & HI2 & A2 & _).
  cbn [app] in HI1, HI2.
  assert (HI2' : Inv s2 (net (map inc_of (all_probes hasher k A keys)))).
  { eapply Inv_ext; [|exact HI2]. intros g i _.
    apply (net_perm _ _ g i (Permutation_map inc_of HP)). }
  exists s1, s2. split; [rewrite AddEach_run; exact E1|].
  split.
  { rewrite s_AddAll_run by (fold s0 A; lia). unfold bind. fold s0 A. rewrite E2. reflexivity. }
  split; [exact (Inv_same_data s1 s2 _ HI1 HI2' ltac:(congruence))|].
  intros g i Hg Hi.
  destruct HI1 as [_ G1]. destruct HI2' as [_ G2].
  destruct (G1 g ltac:(lia)) as [Hok1 Hgo1]. destruct (G2 g ltac:(lia)) as [Hok2 Hgo2].
  eexists. split; apply ReadCount_ok; eassumption.
Qed.

Lemma p_AddEach_returns hasher k keys (s : CountingBloomFilter.filter) :
  Z.of_nat (length (CountingBloomFilter.data s)) = CountingBloomFilter.arrayLength s ->
  0 < CountingBloomFilter.arrayLength s <= 2 ^ 27 ->
  exists s', Plain.AddEach hasher k keys s = Some (tt, s').
Proof.
  intros Hwf HA.
  rewrite <- (PlainFacts.p_visit_all_AddEach hasher k _ keys s eq_refl ltac:(lia)).
  rewrite PlainFacts.visit_all_bump; [eexists; reflexivity|].
  unfold Plain.words_ok. apply Forall_map.
  eapply Forall_impl; [apply key_avals_range|]. cbv beta. intros a Ha.
  unfold slot_word. cbn [snd].
  destruct (probe_index (CountingBloomFilter.arrayLength s) a ltac:(lia) Ha) as (E & H0 & H1 & H2).
  rewrite E.
  rewrite (proj1 (PlainFacts.ppack_unpack (reduce a (u32 (CountingBloomFilter.arrayLength s))) a
                    ltac:(lia))). lia.
Qed.

(** C5, as the code has it.  [AddAll keys 0 n], with [n] the number of
    keys, against [Add] key by key, on a freshly constructed filter.
    - [CountingBloomFilter], with at most 2^27 words: both return, and
      leave the same state.
    - [SuccinctCountingBloomFilter], with fewer than 2^14 groups (one
      block): both leave the same state (or both are undefined).
    - [SuccinctCountingBloomFilter], with at most 2^26 groups: if no
      position is probed more than 15 times and neither run prints (the
      pool is not exhausted), both return, the [data] arrays are the same
      and [ReadCount] returns the same count at every position.  The
      [counts] and [overflow] arrays need not be the same. *)
Theorem AddAll_against_Adds (hasher : Z -> Z) (k : Z) (keys : list Z) :
  (forall bits_per_item n,
     0 < CountingBloomFilter.arrayLength (CountingBloomFilter.new bits_per_item n) <= 2 ^ 27 ->
     exists s,
       CountingBloomFilter.AddAll hasher k keys 0 (Z.of_nat (length keys))
         (CountingBloomFilter.new bits_per_item n) = Some (Ok, s)
       /\ Plain.AddEach hasher k keys (CountingBloomFilter.new bits_per_item n) = Some (tt, s))
  /\ (forall bits_per_item n,
     arrayLength (new bits_per_item n) < 2 ^ 14 ->
     AddAll hasher k keys 0 (Z.of_nat (length keys)) (new bits_per_item n)
     = (AddEach hasher k keys ;;; ret Ok) (new bits_per_item n))
  /\ (forall bits_per_item n,
     0 < arrayLength (new bits_per_item n) <= 2 ^ 26 ->
     counts_fit (all_probes hasher k (arrayLength (new bits_per_item n)) keys) = true ->
     quiet (map inc_of (all_probes hasher k (arrayLength (new bits_per_item n)) keys))
           (new bits_per_item n) = true ->
     quiet (bulk_ops hasher k (arrayLength (new bits_per_item n)) keys)
           (new bits_per_item n) = true ->
     exists s1 s2,
       AddEach hasher k keys (new bits_per_item n) = Some (tt, s1)
       /\ AddAll hasher k keys 0 (Z.of_nat (length keys)) (new bits_per_item n) = Some (Ok, s2)
       /\ data s1 = data s2
       /\ forall g i, 0 <= g < arrayLength (new bits_per_item n) -> 0 <= i < 64 ->
            exists c, ReadCount g i s1 = Some (c, s1) /\ ReadCount g i s2 = Some (c, s2)).
Proof.
  split; [|split].
  - intros bits_per_item n HA.
    pose proof (plain_new_wf bits_per_item n) as Hwf.
    destruct (p_AddEach_returns hasher k keys _ Hwf HA) as [s E].
    exists s. split; [|exact E].
    rewrite (PlainFacts.p_AddAll_AddEach hasher k keys _ Hwf HA). unfold bind. rewrite E. reflexivity.
  - intros bits_per_item n HA. apply s_AddAll_one_block.
    split; [apply new_alen | exact HA].
  - intros bits_per_item n. apply s_AddAll_same_counts.
Qed.

(** C5, as the specification has it, fails for the succinct filter: with
    two blocks, [AddAll] promotes group 0 first and gives it slot 0, [Add]
    key by key promotes group 16384 first and gives group 0 slot 4. *)
Lemma AddAll_differs_from_Adds :
  counts_after 0 (AddAll (fun x => x) 1 two_block_keys 0 (Z.of_nat (length two_block_keys))
                    (new 64 16385)) = Some (header 64 0)
  /\ counts_after 0 ((AddEach (fun x => x) 1 two_block_keys ;;; ret Ok) (new 64 16385))
     = Some (header 64 4)
  /\ AddAll (fun x => x) 1 two_block_keys 0 (Z.of_nat (length two_block_keys)) (new 64 16385)
     <> (AddEach (fun x => x) 1 two_block_keys ;;; ret Ok) (new 64 16385).
Proof.
  assert (H1 : counts_after 0 (AddAll (fun x => x) 1 two_block_keys 0
                 (Z.of_nat (length two_block_keys)) (new 64 16385)) = Some (header 64 0))
    by (vm_compute; reflexivity).
  assert (H2 : counts_after 0 ((AddEach (fun x => x) 1 two_block_keys ;;; ret Ok)
                 (new 64 16385)) = Some (header 64 4))
    by (vm_compute; reflexivity).
  split; [exact H1|]. split; [exact H2|].
  intros E. rewrite E, H2 in H1. discriminate H1.
Qed.

Lemma AddAll_against_Adds_witness :
  (exists s,
     CountingBloomFilter.AddAll (fun x => x * 7 + 3) 3 [1; 2; 3; 1] 0 4
       (CountingBloomFilter.new 4 16) = Some (Ok, s)
     /\ Plain.AddEach (fun x => x * 7 + 3) 3 [1; 2; 3; 1] (CountingBloomFilter.new 4 16)
        = Some (tt, s))
  /\ AddAll (fun x => x * 7 + 3) 3 [1; 2; 3; 1] 0 4 (new 8 64)
     = (AddEach (fun x => x * 7 + 3) 3 [1; 2; 3; 1] ;;; ret Ok) (new 8 64).
Proof.
  split.
  - apply (proj1 (AddAll_against_Adds (fun x => x * 7 + 3) 3 [1; 2; 3; 1]) 4 16).
    vm_compute. split; [reflexivity | discriminate].
  - apply (proj1 (proj2 (AddAll_against_Adds (fun x => x * 7 + 3) 3 [1; 2; 3; 1])) 8 64).
    vm_compute. reflexivity.
Defined.

Lemma Add_then_Contain_witness :
  AddEach (fun x => x) 1 exhausting_keys (new 8 256) = Some (tt, exhausted_state)
  /\ nextFreeOverflow exhausted_state = overflowLength exhausted_state
  /\ exists s',
       Add (fun x => x) 1 (Z.shiftl (25 * 2 ^ 27 + 63) 32) exhausted_state = Some (Ok, s')
       /\ cout s' = [msg]
       /\ Contain (fun x => x) 1 (Z.shiftl (25 * 2 ^ 27 + 63) 32) s' = Some (Ok, s').
Proof.
  split; [vm_compute; reflexivity|]. split; [vm_compute; reflexivity|].
  eexists. split; [vm_compute; reflexivity|]. split; [vm_compute; reflexivity|].
  apply (Add_then_Contain (fun x => x) 1 (Z.shiftl (25 * 2 ^ 27 + 63) 32) exhausted_state _ Ok).
  vm_compute. reflexivity.
Defined.

(** C8, as the specification has it, fails: after fifteen [Add]s of a key
    the counter of its probe holds 15; one more [Add] of the key leaves 0
    in that counter and 1 in the next. *)
Lemma fifteen_wraps_to_zero :
  exists s s',
    Plain.AddEach (fun _ => 0) 1 (replicate 15 0) (CountingBloomFilter.new 1 16)
    = Some (tt, s)
    /\ CountingBloomFilter.data s = [15]
    /\ CountingBloomFilter.Add (fun _ => 0) 1 0 s = Some (Ok, s')
    /\ CountingBloomFilter.data s' = [16]
    /\ nibble 15 0 = 15 /\ nibble 16 0 = 0
    /\ nibble 15 1 = 0 /\ nibble 16 1 = 1.
Proof.
  eexists _, _. split; [vm_compute; reflexivity|].
  split; [reflexivity|]. split; [vm_compute; reflexivity|].
  repeat split.
Qed.

Lemma Add_probe_wraps_witness :
  exists w',
    CountingBloomFilter.Add_probe 0
      {| CountingBloomFilter.data := [15]; CountingBloomFilter.arrayLength := 1 |}
    = Some (tt, {| CountingBloomFilter.data := [w']; CountingBloomFilter.arrayLength := 1 |})
    /\ nibble w' 0 = 0 /\ Z.shiftr w' 4 = 1.
Proof.
  destruct (Add_probe_wraps
              {| CountingBloomFilter.data := [15]; CountingBloomFilter.arrayLength := 1 |}
              0 15 eq_refl eq_refl) as (w' & E & _ & H0 & _ & H4).
  exists w'. split; [exact E|]. split; [exact H0 | exact H4].
Defined.

Lemma blocked_Decrement_promoted_presence_witness :
  exists s',
    SuccinctCountingBlockedBloomFilter.Decrement 0 20 blocked_promoted = Some (tt, s')
    /\ ld (SuccinctCountingBlockedBloomFilter.data s') 0 = Some (ones64 - 2 ^ 20)
    /\ Z.testbit (ones64 - 2 ^ 20) 20 = false.
Proof.
  destruct (BlockedFacts.blocked_Decrement_promoted_presence blocked_promoted 0 20
              ones64 9223372311732682752 72340172838076673)
    as (s' & E & Hd & Hiff).
  - lia.
  - vm_compute. reflexivity.
  - vm_compute. reflexivity.
  - vm_compute. discriminate.
  - vm_compute. discriminate.
  - vm_compute. reflexivity.
  - exists s'. split; [exact E|]. split; [exact Hd|]. reflexivity.
Defined.

Lemma popcount_bits_zero w : popcount_bits w 0 = 0.
Proof. induction w as [|w IH]; cbn [popcount_bits]; [reflexivity|]. rewrite Z.shiftr_0_l, IH. reflexivity. Qed.

Lemma land_1_testbit x : Z.land x 1 = if Z.testbit x 0 then 1 else 0.
Proof.
  rewrite land_1_mod. rewrite Z.bit0_odd. rewrite Zmod_odd. reflexivity.
Qed.

Lemma shiftr_1_mod x j : 0 <= j -> Z.shiftr (x mod 2 ^ (j + 1)) 1 = Z.shiftr x 1 mod 2 ^ j.
Proof.
  intros Hj. rewrite !Z.shiftr_div_pow2 by lia.
  replace (j + 1) with (1 + j) by lia.
  apply (div_mod_pow2 x 1 j); lia.
Qed.

Lemma popcount_bits_low w : forall (j : nat) x, (j <= w)%nat ->
  popcount_bits w (x mod 2 ^ Z.of_nat j) = popcount_bits j x.
Proof.
  induction w as [|w IH]; intros j x Hj.
  - assert (j = 0%nat) as -> by lia. reflexivity.
  - destruct j as [|j].
    + change (2 ^ Z.of_nat 0) with 1. rewrite Z.mod_1_r. apply popcount_bits_zero.
    + cbn [popcount_bits]. rewrite Nat2Z.inj_succ, <- Z.add_1_r.
      rewrite shiftr_1_mod by lia. rewrite IH by lia. f_equal.
      rewrite !land_1_mod. rewrite Z.pow_add_r by lia. change (2 ^ 1) with 2.
      rewrite (Z.mul_comm _ 2), Z.rem_mul_r by lia.
      rewrite (Z.mul_comm 2), Z.mod_add by lia. apply Z.mod_mod. lia.
Qed.

Lemma select64_loop_nth fuel : forall i x n,
  0 <= n < popcount_bits fuel x ->
  exists j : nat, (j < fuel)%nat
    /\ select64_loop fuel i x n = i + Z.of_nat j
    /\ Z.testbit x (Z.of_nat j) = true
    /\ popcount_bits j x = n.
Proof.
  induction fuel as [|fuel IH]; intros i x n Hn; cbn [popcount_bits select64_loop] in *; [lia|].
  rewrite land_1_testbit in *.
  destruct (Z.testbit x 0) eqn:E0.
  - change (1 =? 1) with true. cbv iota.
    destruct (Z.eqb_spec n 0) as [->|Hne].
    + exists 0%nat. split; [lia|]. split; [lia|]. split; [exact E0 | reflexivity].
    + destruct (IH (i + 1) (Z.shiftr x 1) (n - 1) ltac:(lia)) as (j & Hj & E & Ht & Hc).
      exists (S j). split; [lia|]. split; [lia|]. split.
      * rewrite Z.shiftr_spec in Ht by lia. rewrite Nat2Z.inj_succ, <- Z.add_1_r. exact Ht.
      * cbn [popcount_bits]. rewrite land_1_testbit, E0. lia.
  - change (0 =? 1) with false. cbv iota.
    destruct (IH (i + 1) (Z.shiftr x 1) n ltac:(lia)) as (j & Hj & E & Ht & Hc).
    exists (S j). split; [lia|]. split; [lia|]. split.
    + rewrite Z.shiftr_spec in Ht by lia. rewrite Nat2Z.inj_succ, <- Z.add_1_r. exact Ht.
    + cbn [popcount_bits]. rewrite land_1_testbit, E0. lia.
Qed.

(** X1.  [reduce] maps a 32-bit hash into [[0, n)]: for 32-bit [hash] and
    [n > 0] it returns the integer part of [hash * n / 2^32], which is below
    [n]. *)
Theorem reduce_floor_below (hash n : Z) :
  0 <= hash < 2 ^ 32 -> 0 < n < 2 ^ 32 ->
  reduce hash n = hash * n / 2 ^ 32 /\ 0 <= reduce hash n < n.
Proof.
  intros Hh Hn. unfold reduce.
  assert (H0 : 0 <= hash * n) by (apply Z.mul_nonneg_nonneg; lia).
  assert (H1 : hash * n <= (2 ^ 32 - 1) * n) by (apply Z.mul_le_mono_nonneg_r; lia).
  rewrite u64_small by lia. rewrite Z.shiftr_div_pow2 by lia.
  assert (H2 : 0 <= hash * n / 2 ^ 32) by (apply Z.div_pos; lia).
  assert (H3 : hash * n / 2 ^ 32 < n) by (apply Z.div_lt_upper_bound; lia).
  unfold u32. rewrite Z.mod_small by lia. lia.
Qed.

Lemma reduce_floor_below_witness :
  reduce 3000000000 10 = 6 /\ 0 <= reduce 3000000000 10 < 10.
Proof.
  destruct (reduce_floor_below 3000000000 10 ltac:(lia) ltac:(lia)) as [E H].
  split; [rewrite E; reflexivity | exact H].
Defined.

(** X2.  The portable [select64] finds the set bit of rank [n]: when the
    64-bit word [x] has more than [n] set bits, [select64 x n] is a position
    [i] in [[0, 64)] at which [x] has a set bit, with exactly [n] set bits of
    [x] below it. *)
Theorem select64_nth_set_bit (x n : Z) :
  0 <= x < 2 ^ 64 -> 0 <= n < bitCount64 x ->
  exists i, select64 x n = i /\ 0 <= i < 64
    /\ Z.testbit x i = true /\ bitCount64 (x mod 2 ^ i) = n.
Proof.
  intros _ Hn. unfold select64, bitCount64 in *.
  destruct (select64_loop_nth 64 0 x n Hn) as (j & Hj & E & Ht & Hc).
  exists (Z.of_nat j). split; [rewrite E; lia|]. split; [lia|]. split; [exact Ht|].
  rewrite popcount_bits_low by lia. exact Hc.
Qed.

Lemma select64_nth_set_bit_witness :
  exists i, select64 0x58 1 = i /\ i = 4 /\ Z.testbit 0x58 i = true
    /\ bitCount64 (0x58 mod 2 ^ i) = 1.
Proof.
  destruct (select64_nth_set_bit 0x58 1) as (i & E & Hi & Ht & Hc).
  - lia.
  - vm_compute. split; [discriminate | reflexivity].
  - exists i. split; [exact E|]. split; [rewrite <- E; reflexivity|].
    split; [exact Ht | exact Hc].
Defined.

Lemma land_63_mod64 c : Z.land c 63 = c mod 64.
Proof. exact (Z.land_ones c 6 ltac:(lia)). Qed.

Lemma rotl64_counts c : 0 <= c < 64 ->
  Z.land (u32 (- c)) 63 = (64 - c) mod 64.
Proof.
  intros Hc. rewrite land_63_mod64. unfold u32.
  change (2 ^ 32) with (64 * 67108864).
  rewrite Z.rem_mul_r by lia.
  rewrite (Z.mul_comm 64), Z.mod_add by lia. rewrite Z.mod_mod by lia.
  replace (64 - c) with (- c + 1 * 64) by lia. rewrite Z.mod_add by lia. reflexivity.
Qed.

(** X3.  [rotl64 n c] rotates the 64-bit word [n] to the left by [c mod 64]
    positions: the result is a 64-bit word whose bit [i] is the bit
    [(i - c) mod 64] of [n].  A count that is a multiple of 64 leaves [n] as
    it is (the mask on [-c] keeps the right shift below 64). *)
Theorem rotl64_rotates (n c i : Z) :
  0 <= n < 2 ^ 64 -> 0 <= c < 2 ^ 32 -> 0 <= i < 64 ->
  0 <= rotl64 n c < 2 ^ 64
  /\ Z.testbit (rotl64 n c) i = Z.testbit n ((i - c) mod 64)
  /\ (c mod 64 = 0 -> rotl64 n c = n).
Proof.
  intros Hn Hc Hi. unfold rotl64. cbv zeta.
  rewrite (land_63_mod64 c).
  pose proof (Z.mod_pos_bound c 64 ltac:(lia)) as Hr.
  set (r := c mod 64) in *.
  rewrite rotl64_counts by exact Hr.
  assert (Hic : (i - c) mod 64 = (i - r) mod 64).
  { unfold r. rewrite Zminus_mod_idemp_r. reflexivity. }
  rewrite Hic.
  unfold shl64, shr64. rewrite !land_63_mod64.
  rewrite (Z.mod_small r 64) by lia. rewrite Z.mod_mod by lia.
  assert (Hhigh : forall j, 64 <= j -> Z.testbit n j = false).
  { intros j Hj. apply (testbit_small n 64); lia. }
  assert (Hbits : forall j, 0 <= j ->
    Z.testbit (Z.lor (u64 (Z.shiftl n r)) (Z.shiftr n ((64 - r) mod 64))) j
    = if j <? 64 then Z.testbit n ((j - r) mod 64) else false).
  { intros j Hj. rewrite Z.lor_spec. unfold u64.
    destruct (Z.ltb_spec j 64) as [Hlt|Hge].
    - rewrite Z.mod_pow2_bits_low by lia.
      rewrite Z.shiftl_spec by lia. rewrite Z.shiftr_spec by lia.
      destruct (Z.eq_dec r 0) as [E0|Hr0].
      + rewrite E0. change ((64 - 0) mod 64) with 0.
        rewrite Z.sub_0_r, Z.add_0_r, (Z.mod_small j 64) by lia. apply orb_diag.
      + rewrite (Z.mod_small (64 - r) 64) by lia.
        destruct (Z.lt_ge_cases j r) as [Hjr|Hjr].
        * rewrite (Z.testbit_neg_r n (j - r)) by lia. cbn [orb].
          replace ((j - r) mod 64) with (j + (64 - r)); [reflexivity|].
          apply (Z.mod_unique _ _ (-1)); [left; lia | lia].
        * rewrite (Hhigh (j + (64 - r))) by lia. rewrite orb_false_r.
          rewrite (Z.mod_small (j - r) 64) by lia. reflexivity.
    - rewrite Z.mod_pow2_bits_high by lia. cbn [orb].
      rewrite Z.shiftr_spec by lia. apply Hhigh.
      pose proof (Z.mod_pos_bound (64 - r) 64 ltac:(lia)). lia. }
  split; [|split].
  - split; [apply Z.lor_nonneg; split; [apply Z.mod_pos_bound; lia | apply Z.shiftr_nonneg; lia]|].
    set (v := Z.lor _ _) in *.
    assert (Ev : v mod 2 ^ 64 = v).
    { apply Z.bits_inj'. intros j Hj. destruct (Z.ltb_spec j 64) as [Hlt|Hge].
      - apply Z.mod_pow2_bits_low. lia.
      - rewrite Z.mod_pow2_bits_high by lia. rewrite Hbits by lia.
        destruct (Z.ltb_spec j 64); [lia | reflexivity]. }
    rewrite <- Ev. apply Z.mod_pos_bound. lia.
  - rewrite Hbits by lia. destruct (Z.ltb_spec i 64); [reflexivity | lia].
  - intros E0. apply Z.bits_inj'. intros j Hj. rewrite Hbits by lia.
    destruct (Z.ltb_spec j 64) as [Hlt|Hge].
    + rewrite E0, Z.sub_0_r, Z.mod_small by lia. reflexivity.
    + symmetry. apply Hhigh. lia.
Qed.

Lemma rotl64_rotates_witness :
  Z.testbit (rotl64 1 70) 6 = Z.testbit 1 ((6 - 70) mod 64).
Proof.
  exact (proj1 (proj2 (rotl64_rotates 1 70 6 ltac:(lia) ltac:(lia) ltac:(lia)))).
Defined.

Module PlainOpsFacts.

Import CountingBloomFilter.

Import Plain.

Import PlainOps.

Lemma word_of_nonneg n a : 0 <= word_of n a.
Proof. unfold word_of, reduce. apply u32_range. Qed.

Lemma probe_op_eq op a s :
  probe_op op a s
  = if inb (arrayLength s) (length (data s)) a
    then Some (tt, with_data (upd op (arrayLength s) (data s) a) s) else None.
Proof.
  unfold probe_op, bind, get_arrayLength, data_get, data_set, inb, upd, with_data.
  cbv zeta. fold (word_of (arrayLength s) a).
  pose proof (word_of_nonneg (arrayLength s) a) as H0.
  destruct (Z.ltb_spec (word_of (arrayLength s) a) (Z.of_nat (length (data s)))) as [Hlt|Hge].
  - destruct (ld_ok (data s) (word_of (arrayLength s) a) ltac:(lia)) as [v Hv].
    rewrite Hv. rewrite st_ok by lia. cbn [arrayLength].
    unfold ld in Hv. destruct (0 <=? _); [|discriminate].
    rewrite (nth_lookup_Some _ _ 0 _ Hv). reflexivity.
  - unfold ld. destruct (0 <=? _); [|reflexivity].
    rewrite lookup_ge_None_2 by lia. reflexivity.
Qed.

Lemma length_upd op n d a : length (upd op n d a) = length d.
Proof. unfold upd. apply length_insert. Qed.

Lemma length_fold_upd op n l : forall d, length (fold_left (upd op n) l d) = length d.
Proof.
  induction l as [|a l IH]; intros d; cbn [fold_left]; [reflexivity|].
  rewrite IH. apply length_upd.
Qed.

(** A list of probes, as a fold over the array. *)
Lemma visit_all_fold op l : forall s,
  visit_all (probe_op op) l s
  = if forallb (inb (arrayLength s) (length (data s))) l
    then Some (tt, with_data (fold_left (upd op (arrayLength s)) l (data s)) s) else None.
Proof.
  induction l as [|a l IH]; intros s; cbn [visit_all forallb fold_left].
  - destruct s. reflexivity.
  - unfold bind. rewrite probe_op_eq.
    destruct (inb _ _ a); [|reflexivity]. cbn [andb].
    rewrite IH. unfold with_data. cbn [data arrayLength]. rewrite length_upd. reflexivity.
Qed.

Lemma Add_loop_visit j : forall a b s,
  Add_loop j a b s = visit_all (probe_op add64) (avals j a b) s.
Proof.
  induction j as [|j IH]; intros a b s; cbn [Add_loop avals visit_all]; [reflexivity|].
  apply bind_congr; [reflexivity|]. intros _ s1. apply IH.
Qed.

Lemma Remove_loop_visit j : forall a b s,
  Remove_loop j a b s = visit_all (probe_op sub64) (avals j a b) s.
Proof.
  induction j as [|j IH]; intros a b s; cbn [Remove_loop avals visit_all]; [reflexivity|].
  unfold probe_op. rewrite !bind_assoc.
  apply bind_congr; [reflexivity|]. intros len s1. cbv zeta.
  rewrite !bind_assoc. apply bind_congr; [reflexivity|]. intros v s2.
  apply bind_congr; [reflexivity|]. intros _ s3. apply IH.
Qed.

Lemma AddEach_visit hasher k keys : forall s,
  AddEach hasher k keys s
  = visit_all (probe_op add64) (flat_map (key_avals hasher k) keys) s.
Proof.
  induction keys as [|key keys IH]; intros s; cbn [AddEach flat_map]; [reflexivity|].
  rewrite visit_all_app. unfold Add. rewrite bind_assoc.
  apply bind_congr; [apply Add_loop_visit|]. intros _ s1. unfold bind, ret. apply IH.
Qed.

(** The updates of two probes commute. *)
Lemma upd_comm op1 op2 n d a a' :
  (forall x p q, op2 (op1 x p) q = op1 (op2 x q) p) ->
  upd op2 n (upd op1 n d a) a' = upd op1 n (upd op2 n d a') a.
Proof.
  intros Hc. unfold upd.
  set (i := Z.to_nat (word_of n a)). set (j := Z.to_nat (word_of n a')).
  destruct (Nat.eq_dec i j) as [<-|Hne].
  - destruct (Nat.lt_ge_cases i (length d)) as [Hlt|Hge].
    + rewrite !PlainFacts.nth_insert_eq by exact Hlt.
      rewrite !list_insert_insert_eq. rewrite Hc. reflexivity.
    + rewrite !list_insert_ge by (rewrite ?length_insert; lia). reflexivity.
  - rewrite !PlainFacts.nth_insert_ne by congruence.
    apply list_insert_insert_ne. congruence.
Qed.

Lemma fold_upd_comm op1 op2 n l :
  (forall x p q, op2 (op1 x p) q = op1 (op2 x q) p) ->
  forall d a, fold_left (upd op2 n) l (upd op1 n d a) = upd op1 n (fold_left (upd op2 n) l d) a.
Proof.
  intros Hc. induction l as [|a' l IH]; intros d a; cbn [fold_left]; [reflexivity|].
  rewrite upd_comm by exact Hc. apply IH.
Qed.

Lemma fold_upd_perm op n l l' :
  (forall x p q, op (op x p) q = op (op x q) p) ->
  Permutation l l' -> forall d, fold_left (upd op n) l d = fold_left (upd op n) l' d.
Proof.
  intros Hc. induction 1 as [|x l l' _ IH|x y l|l l' l'' _ IH1 _ IH2]; intros d; cbn [fold_left].
  - reflexivity.
  - apply IH.
  - rewrite (upd_comm op op) by exact Hc. reflexivity.
  - rewrite IH1. apply IH2.
Qed.

Lemma forallb_perm {A} (f : A -> bool) l l' : Permutation l l' -> forallb f l = forallb f l'.
Proof.
  induction 1 as [|x l l' _ IH|x y l|l l' l'' _ IH1 _ IH2]; cbn [forallb].
  - reflexivity.
  - rewrite IH. reflexivity.
  - rewrite !andb_assoc, (andb_comm (f y)). reflexivity.
  - rewrite IH1. exact IH2.
Qed.

Lemma sub_add_swap x p q : sub64 (add64 x p) q = add64 (sub64 x q) p.
Proof.
  unfold add64, sub64, u64. rewrite Zminus_mod_idemp_l, Zplus_mod_idemp_l. f_equal. lia.
Qed.

Lemma sub_add_cancel x p : 0 <= x < 2 ^ 64 -> sub64 (add64 x p) p = x.
Proof.
  intros Hx. unfold add64, sub64, u64. rewrite Zminus_mod_idemp_l.
  replace (x + p - p) with x by lia. apply Z.mod_small. exact Hx.
Qed.

Lemma upd_cancel n d a : Forall (fun w => 0 <= w < 2 ^ 64) d ->
  upd sub64 n (upd add64 n d a) a = d.
Proof.
  intros Hd. unfold upd. set (i := Z.to_nat (word_of n a)).
  destruct (Nat.lt_ge_cases i (length d)) as [Hlt|Hge].
  - rewrite PlainFacts.nth_insert_eq by exact Hlt. rewrite list_insert_insert_eq.
    destruct (lookup_lt_is_Some_2 d i Hlt) as [w Hw].
    rewrite (nth_lookup_Some _ _ 0 _ Hw).
    rewrite sub_add_cancel by (exact (proj1 (Forall_lookup _ d) Hd i w Hw)).
    apply list_insert_id. exact Hw.
  - rewrite !list_insert_ge by (rewrite ?length_insert; lia). reflexivity.
Qed.

Lemma upd_add_words n d a : Forall (fun w => 0 <= w < 2 ^ 64) d ->
  Forall (fun w => 0 <= w < 2 ^ 64) (upd add64 n d a).
Proof.
  intros Hd. unfold upd. apply Forall_insert; [exact Hd|].
  unfold add64, u64. apply Z.mod_pos_bound. lia.
Qed.

Lemma fold_add_words n l : forall d, Forall (fun w => 0 <= w < 2 ^ 64) d ->
  Forall (fun w => 0 <= w < 2 ^ 64) (fold_left (upd add64 n) l d).
Proof.
  induction l as [|a l IH]; intros d Hd; cbn [fold_left]; [exact Hd|].
  apply IH, upd_add_words, Hd.
Qed.

Lemma fold_cancel n l : forall d, Forall (fun w => 0 <= w < 2 ^ 64) d ->
  fold_left (upd sub64 n) l (fold_left (upd add64 n) l d) = d.
Proof.
  induction l as [|a l IH]; intros d Hd; cbn [fold_left]; [reflexivity|].
  rewrite (fold_upd_comm add64 add64) by (intros; apply PlainFacts.add64_swap).
  rewrite upd_cancel by (apply fold_add_words; exact Hd).
  apply IH. exact Hd.
Qed.

(** X4.  [Remove] undoes [Add] in every state whose words are 64-bit words:
    when [Add key] returns, [Remove key] on the state it leaves returns [Ok]
    and gives back the state before the [Add], also when a counter wrapped
    around in between. *)
Theorem Remove_undoes_Add (hasher : Z -> Z) (k key : Z) (s s1 : filter) (r : Status) :
  Forall (fun w => 0 <= w < 2 ^ 64) (data s) ->
  Add hasher k key s = Some (r, s1) ->
  Remove hasher k key s1 = Some (Ok, s).
Proof.
  intros Hd E. unfold Add, Remove in *.
  apply bind_inv in E as ([] & s2 & E & Er). injection Er as _ <-.
  rewrite Add_loop_visit, visit_all_fold in E.
  unfold bind. rewrite Remove_loop_visit, visit_all_fold.
  destruct (forallb _ _) eqn:Hb; [|discriminate]. injection E as <-.
  unfold with_data. cbn [data arrayLength]. rewrite length_fold_upd, Hb.
  rewrite fold_cancel by exact Hd. destruct s. reflexivity.
Qed.

Lemma Remove_undoes_Add_witness :
  Remove (fun _ => 0) 1 77 {| data := [16; 1]; arrayLength := 2 |}
  = Some (Ok, {| data := [15; 1]; arrayLength := 2 |}).
Proof.
  apply (Remove_undoes_Add (fun _ => 0) 1 77 {| data := [15; 1]; arrayLength := 2 |} _ Ok).
  - repeat constructor; cbn [data]; lia.
  - vm_compute. reflexivity.
Defined.

(** X5.  The order of the [Add]s does not matter: two lists with the same
    keys, as often, leave the same state (or both run outside the array). *)
Theorem Add_order_irrelevant (hasher : Z -> Z) (k : Z) (keys keys' : list Z) (s : filter) :
  Permutation keys keys' ->
  AddEach hasher k keys s = AddEach hasher k keys' s.
Proof.
  intros HP. rewrite !AddEach_visit, !visit_all_fold.
  assert (HP' : Permutation (flat_map (key_avals hasher k) keys)
                            (flat_map (key_avals hasher k) keys')).
  { apply Permutation_flat_map. exact HP. }
  rewrite (forallb_perm _ _ _ HP').
  rewrite (fold_upd_perm add64 _ _ _ (fun x p q => PlainFacts.add64_swap x p q) HP'). reflexivity.
Qed.

Lemma Add_order_irrelevant_witness :
  AddEach (fun x => x) 2 [5; 9; 5] (new 8 10) = AddEach (fun x => x) 2 [9; 5; 5] (new 8 10).
Proof.
  apply Add_order_irrelevant. apply perm_swap.
Defined.

(** ** Counters that stay below 15 *)

Lemma pow4_split i j : 0 <= j <= i -> 2 ^ (4 * i) = 2 ^ (4 * j) * 2 ^ (4 * (i - j)).
Proof. intros H. rewrite <- Z.pow_add_r by lia. f_equal. lia. Qed.

(** Adding one to a counter below 15 changes no other counter of the word. *)
Lemma nibble_add_one w j i : 0 <= j -> 0 <= i -> nibble w j < 15 ->
  nibble (w + 2 ^ (4 * j)) i = nibble w i + (if i =? j then 1 else 0).
Proof.
  intros Hj Hi Hn. rewrite !nibble_div in * by lia.
  set (q := w / 2 ^ (4 * j)) in *.
  assert (Hq : (w + 2 ^ (4 * j)) / 2 ^ (4 * j) = q + 1).
  { replace (w + 2 ^ (4 * j)) with (w + 1 * 2 ^ (4 * j)) by lia.
    rewrite Z.div_add by lia. reflexivity. }
  pose proof (Z.mod_pos_bound q 16 ltac:(lia)) as Hr.
  pose proof (Z.div_mod q 16 ltac:(lia)) as Hd.
  destruct (Z.eqb_spec i j) as [->|Hne].
  - rewrite Hq. fold q. symmetry. apply (Z.mod_unique _ _ (q / 16)); [left; lia | lia].
  - rewrite Z.add_0_r. destruct (Z.lt_ge_cases i j) as [Hlt|Hge].
    + rewrite (pow4_split j i) by lia.
      rewrite (Z.mul_comm (2 ^ (4 * i)) (2 ^ (4 * (j - i)))).
      rewrite Z.div_add by lia.
      replace (4 * (j - i)) with (4 + 4 * (j - i - 1)) by lia.
      rewrite Z.pow_add_r by lia. change (2 ^ 4) with 16.
      rewrite (Z.mul_comm 16), Z.mod_add by lia. reflexivity.
    + f_equal. rewrite (pow4_split i j) by lia.
      rewrite <- !Z.div_div by lia. rewrite Hq. fold q.
      replace (4 * (i - j)) with (4 + 4 * (i - j - 1)) by lia.
      rewrite Z.pow_add_r by lia. change (2 ^ 4) with 16.
      rewrite <- !Z.div_div by lia. f_equal.
      symmetry. apply (Z.div_unique _ _ _ (q mod 16 + 1)); [left; lia | lia].
Qed.

Lemma land_15_range a : 0 <= Z.land a 0xf < 16.
Proof.
  change 0xf with (Z.ones 4). rewrite Z.land_ones by lia. apply Z.mod_pos_bound. lia.
Qed.

Lemma unit_of_pow a : unit_of a = 2 ^ (4 * Z.land a 0xf).
Proof.
  unfold unit_of. rewrite probe_shift. apply shl64_1.
  pose proof (land_15_range a). lia.
Qed.

Lemma nibble_add64 w a i : 0 <= i < 16 -> nibble w (Z.land a 0xf) < 15 ->
  nibble (add64 w (unit_of a)) i = nibble w i + (if i =? Z.land a 0xf then 1 else 0).
Proof.
  intros Hi Hn. pose proof (land_15_range a) as Hj.
  unfold add64, u64. rewrite nibble_mod by lia. rewrite unit_of_pow.
  apply nibble_add_one; lia.
Qed.

Lemma capped_lookup c d i w : capped c d -> d !! i = Some w ->
  0 <= w < 2 ^ 64 /\ forall j, 0 <= j < 16 -> nibble w j <= c.
Proof. intros Hc Hw. exact (proj1 (Forall_lookup _ d) Hc i w Hw). Qed.

(** One probe of [Add] on counters of at most [c < 15]. *)
Lemma upd_add_counter n c d a : capped c d -> c < 15 ->
  capped (c + 1) (upd add64 n d a)
  /\ (inb n (length d) a = true -> 1 <= counter n (upd add64 n d a) a)
  /\ forall a', counter n d a' <= counter n (upd add64 n d a) a'.
Proof.
  intros Hc Hlt. unfold upd, counter, inb.
  set (i := Z.to_nat (word_of n a)).
  pose proof (word_of_nonneg n a) as H0.
  destruct (Nat.lt_ge_cases i (length d)) as [Hi|Hi].
  - destruct (lookup_lt_is_Some_2 d i Hi) as [w Hw].
    rewrite (nth_lookup_Some _ _ 0 _ Hw).
    destruct (capped_lookup c d i w Hc Hw) as [Hw0 Hwn].
    pose proof (land_15_range a) as Hj.
    assert (Hadd : forall j, 0 <= j < 16 ->
              nibble (add64 w (unit_of a)) j
              = nibble w j + (if j =? Z.land a 0xf then 1 else 0)).
    { intros j Hjr. apply nibble_add64; [exact Hjr|]. specialize (Hwn _ Hj). lia. }
    split; [|split].
    + apply Forall_insert.
      * eapply Forall_impl; [exact Hc|]. cbv beta. intros x [Hx Hxn].
        split; [exact Hx|]. intros j Hjr. specialize (Hxn j Hjr). lia.
      * split; [unfold add64, u64; apply Z.mod_pos_bound; lia|].
        intros j Hjr. rewrite Hadd by exact Hjr. specialize (Hwn j Hjr).
        destruct (j =? _); lia.
    + intros _. rewrite PlainFacts.nth_insert_eq by exact Hi.
      rewrite Hadd by exact Hj. rewrite Z.eqb_refl.
      pose proof (nibble_range w (Z.land a 0xf)). lia.
    + intros a'. pose proof (land_15_range a') as Hj'.
      destruct (Nat.eq_dec (Z.to_nat (word_of n a')) i) as [E|Hne].
      * rewrite E. rewrite PlainFacts.nth_insert_eq by exact Hi.
        rewrite (nth_lookup_Some _ _ 0 _ Hw). rewrite Hadd by exact Hj'.
        destruct (_ =? _); lia.
      * rewrite PlainFacts.nth_insert_ne by exact Hne. lia.
  - rewrite list_insert_ge by lia. split; [|split].
    + eapply Forall_impl; [exact Hc|]. cbv beta. intros x [Hx Hxn].
      split; [exact Hx|]. intros j Hjr. specialize (Hxn j Hjr). lia.
    + intros Hb. apply Z.ltb_lt in Hb. unfold i in Hi. lia.
    + intros a'. lia.
Qed.

Lemma fold_add_counters n l : forall c d,
  capped c d -> c + Z.of_nat (length l) <= 15 ->
  forallb (inb n (length d)) l = true ->
  (forall a, In a l -> 1 <= counter n (fold_left (upd add64 n) l d) a)
  /\ forall a, counter n d a <= counter n (fold_left (upd add64 n) l d) a.
Proof.
  induction l as [|a l IH]; intros c d Hc Hlen Hb; cbn [fold_left].
  - split; [intros a []|]. intros a. lia.
  - cbn [forallb] in Hb. apply andb_true_iff in Hb as [Hba Hb].
    cbn [length] in Hlen.
    destruct (upd_add_counter n c d a Hc ltac:(lia)) as (Hc1 & H1 & Hmono).
    destruct (IH (c + 1) (upd add64 n d a) Hc1 ltac:(lia)) as [Hin Hm].
    { rewrite length_upd. exact Hb. }
    split.
    + intros a' [<-|Ha'].
      * specialize (H1 Hba). specialize (Hm a). lia.
      * apply Hin. exact Ha'.
    + intros a'. specialize (Hmono a'). specialize (Hm a'). lia.
Qed.

Lemma Contain_loop_found j : forall a b s,
  (forall a', In a' (avals j a b) ->
     inb (arrayLength s) (length (data s)) a' = true
     /\ 1 <= counter (arrayLength s) (data s) a') ->
  Contain_loop j a b s = Some (Ok, s).
Proof.
  induction j as [|j IH]; intros a b s H; cbn [Contain_loop avals] in *; [reflexivity|].
  destruct (H a (or_introl eq_refl)) as [Hb Hc].
  unfold inb in Hb. apply Z.ltb_lt in Hb. unfold counter in Hc.
  pose proof (word_of_nonneg (arrayLength s) a) as H0.
  unfold bind at 1. unfold get_arrayLength. fold (word_of (arrayLength s) a).
  destruct (ld_ok (data s) (word_of (arrayLength s) a) ltac:(lia)) as [v Hv].
  unfold bind, data_get. rewrite Hv.
  rewrite probe_shift. unfold shr64.
  pose proof (land_15_range a) as Hj.
  rewrite land_63 by lia. fold (nibble v (Z.land a 0xf)).
  unfold ld in Hv. destruct (0 <=? _); [|discriminate].
  rewrite (nth_lookup_Some _ _ 0 _ Hv) in Hc.
  destruct (Z.eqb_spec (nibble v (Z.land a 0xf)) 0) as [E|_]; [lia|].
  apply IH. intros a' Ha'. apply H. right. exact Ha'.
Qed.

Lemma capped_zero c (n : nat) : 0 <= c -> capped c (replicate n 0).
Proof.
  intros Hc. unfold capped. apply Forall_replicate. split; [lia|].
  intros j _. unfold nibble. rewrite Z.shiftr_0_l. exact Hc.
Qed.

(** X6.  No false negative while the counters stay below 15: in a state
    whose words are 64-bit words with every counter at most [15 - k], when
    [Add key] returns, [Contain key] on the state it leaves returns [Ok].
    (A counter that holds 15 wraps to 0 on [Add], and [Contain] then
    answers [NotFound].) *)
Theorem Add_then_Contain_unsaturated (hasher : Z -> Z) (k key : Z) (s s1 : filter)
    (r : Status) :
  capped (15 - k) (data s) ->
  Add hasher k key s = Some (r, s1) ->
  Contain hasher k key s1 = Some (Ok, s1).
Proof.
  intros Hc E. unfold Add, Contain in *.
  apply bind_inv in E as ([] & s2 & E & Er). injection Er as _ <-.
  rewrite Add_loop_visit, visit_all_fold in E.
  destruct (forallb _ _) eqn:Hb; [|discriminate]. injection E as <-.
  set (l := avals (Z.to_nat k) (u32 (Z.shiftr (u64 (hasher key)) 32)) (u32 (u64 (hasher key)))) in *.
  apply Contain_loop_found. fold l. unfold with_data. cbn [data arrayLength].
  rewrite length_fold_upd. intros a' Ha'. split.
  - rewrite forallb_forall in Hb. apply Hb. exact Ha'.
  - destruct l as [|a0 l0] eqn:El; [destruct Ha'|]. rewrite <- El in *.
    assert (Hk : Z.of_nat (length l) <= k).
    { assert (Hlen : length l = Z.to_nat k).
      { unfold l. clear. generalize (u32 (Z.shiftr (u64 (hasher key)) 32)).
        induction (Z.to_nat k) as [|j IH]; intros a; cbn [avals length]; [reflexivity|].
        rewrite IH. reflexivity. }
      rewrite Hlen. destruct (Z.le_gt_cases 0 k); [lia|].
      rewrite El in Hlen. cbn [length] in Hlen. lia. }
    apply (fold_add_counters (arrayLength s) l (15 - k) (data s) Hc ltac:(lia) Hb).
    exact Ha'.
Qed.

Lemma Add_then_Contain_unsaturated_witness :
  exists s1, Add (fun x => x) 3 (2 ^ 32 + 5) (new 8 10) = Some (Ok, s1)
             /\ Contain (fun x => x) 3 (2 ^ 32 + 5) s1 = Some (Ok, s1).
Proof.
  destruct (Add (fun x => x) 3 (2 ^ 32 + 5) (new 8 10)) as [[r s1]|] eqn:E;
    [|vm_compute in E; discriminate].
  assert (r = Ok) as -> by (vm_compute in E; congruence).
  exists s1. split; [reflexivity|].
  apply (Add_then_Contain_unsaturated (fun x => x) 3 (2 ^ 32 + 5) (new 8 10) s1 Ok); [|exact E].
  apply capped_zero. lia.
Defined.

(** ** Sub-ranges of the key vector *)

Lemma AddAll_keys_none hasher k keys start sc s :
  AddAll_keys hasher k 0 start keys sc s = Some (sc, s).
Proof. reflexivity. Qed.

(** X7.  [AddAll keys start end_] adds the keys of the range
    [[start, end_)] and no other: on a filter of at most 2^27 words it
    returns [Ok] and leaves the state that [Add] leaves when it is called
    for [keys[start]], ..., [keys[end_ - 1]] in turn.  With [end_ <= start]
    the range is empty and the filter is left as it is. *)
Theorem AddAll_adds_the_range (hasher : Z -> Z) (k : Z) (keys : list Z)
    (start end_ : Z) (s : filter) :
  Z.of_nat (length (data s)) = arrayLength s -> 0 < arrayLength s <= 2 ^ 27 ->
  0 <= start -> end_ <= Z.of_nat (length keys) ->
  AddAll hasher k keys start end_ s
  = (AddEach hasher k (take (Z.to_nat (end_ - start)) (drop (Z.to_nat start) keys)) ;;; ret Ok) s
  /\ (end_ <= start -> AddAll hasher k keys start end_ s = Some (Ok, s)).
Proof.
  intros Hwf HA H0 He.
  set (n := Z.to_nat (end_ - start)).
  set (keys' := take n (drop (Z.to_nat start) keys)).
  assert (E : AddAll hasher k keys start end_ s = (AddEach hasher k keys' ;;; ret Ok) s).
  { rewrite <- (PlainFacts.p_AddAll_AddEach hasher k keys' s Hwf HA).
    rewrite !PlainFacts.p_AddAll_shape.
    apply bind_congr; [|reflexivity]. apply bind_congr; [|reflexivity].
    rewrite Z.sub_0_r, Nat2Z.id. fold n.
    destruct (Nat.eq_dec n 0%nat) as [En|Hn].
    - assert (keys' = []) as -> by (unfold keys'; rewrite En; reflexivity).
      rewrite En. reflexivity.
    - assert (Hle : (Z.to_nat start + n <= length keys)%nat) by lia.
      assert (Hlen : length keys' = n).
      { unfold keys'. rewrite length_take, length_drop. lia. }
      rewrite Hlen.
      rewrite <- (Z2Nat.id start) at 1 by exact H0.
      rewrite (PlainFacts.p_AddAll_keys_eq hasher k keys n (Z.to_nat start)) by exact Hle.
      rewrite (PlainFacts.p_AddAll_keys_eq hasher k keys' n 0%nat) by lia.
      fold keys'. rewrite drop_0. rewrite (take_ge keys' n) by lia. reflexivity. }
  split; [exact E|].
  intros Hes. rewrite E.
  assert (keys' = []) as ->.
  { unfold keys', n. replace (Z.to_nat (end_ - start)) with 0%nat by lia. reflexivity. }
  reflexivity.
Qed.

Lemma AddAll_adds_the_range_witness :
  AddAll (fun x => x) 2 [11; 22; 33; 44] 1 3 (new 8 10)
  = (AddEach (fun x => x) 2 [22; 33] ;;; ret Ok) (new 8 10).
Proof.
  apply (AddAll_adds_the_range (fun x => x) 2 [11; 22; 33; 44] 1 3 (new 8 10)).
  - reflexivity.
  - vm_compute. split; [reflexivity | discriminate].
  - lia.
  - cbn [length]. lia.
Defined.

(** ** Fresh filters *)

Lemma shr64_zero n : shr64 0 n = 0.
Proof. unfold shr64. apply Z.shiftr_0_l. Qed.

(** X8.  A freshly constructed filter holds no key: with at least one probe
    ([k > 0]) and at least one word, [Contain] answers [NotFound] for every
    key, in the plain filter and in the succinct one. *)
Theorem fresh_filter_holds_no_key (bits_per_item : Z) (hasher : Z -> Z) (k n key : Z) :
  0 < k ->
  (0 < arrayLength (new bits_per_item n) ->
   Contain hasher k key (new bits_per_item n) = Some (NotFound, new bits_per_item n))
  /\ (0 < SuccinctCountingBloomFilter.arrayLength
            (SuccinctCountingBloomFilter.new bits_per_item n) ->
      SuccinctCountingBloomFilter.Contain hasher k key
        (SuccinctCountingBloomFilter.new bits_per_item n)
      = Some (NotFound, SuccinctCountingBloomFilter.new bits_per_item n)).
Proof.
  intros Hk.
  destruct (Z.to_nat k) as [|i] eqn:Ek; [lia|].
  split; intros HA.
  - unfold Contain. rewrite Ek. cbn [Contain_loop].
    set (a := u32 (Z.shiftr (u64 (hasher key)) 32)).
    pose proof (reduce_lt a _ (u32_range _) HA) as Hr.
    unfold bind, get_arrayLength, data_get.
    set (s := new bits_per_item n) in *.
    assert (Hv : ld (data s) (reduce a (u32 (arrayLength s))) = Some 0).
    { unfold ld. destruct (Z.leb_spec 0 (reduce a (u32 (arrayLength s)))); [|lia].
      apply lookup_replicate_2. cbn [arrayLength s new] in *. lia. }
    rewrite Hv. rewrite shr64_zero. reflexivity.
  - unfold SuccinctCountingBloomFilter.Contain. rewrite Ek.
    cbn [SuccinctCountingBloomFilter.Contain_loop].
    set (a := u32 (Z.shiftr (u64 (hasher key)) 32)).
    pose proof (reduce_lt a _ (u32_range _) HA) as Hr.
    unfold bind, SuccinctCountingBloomFilter.get_arrayLength,
      SuccinctCountingBloomFilter.data_get.
    set (s := SuccinctCountingBloomFilter.new bits_per_item n) in *.
    assert (Hv : ld (SuccinctCountingBloomFilter.data s)
                    (reduce a (u32 (SuccinctCountingBloomFilter.arrayLength s))) = Some 0).
    { unfold ld. destruct (Z.leb_spec 0 (reduce a (u32 (SuccinctCountingBloomFilter.arrayLength s)))); [|lia].
      apply lookup_replicate_2.
      cbn [SuccinctCountingBloomFilter.arrayLength s SuccinctCountingBloomFilter.new] in *. lia. }
    rewrite Hv. rewrite shr64_zero. reflexivity.
Qed.

Lemma fresh_filter_holds_no_key_witness :
  Contain (fun x => x) 3 42 (new 8 10) = Some (NotFound, new 8 10)
  /\ SuccinctCountingBloomFilter.Contain (fun x => x) 3 42
       (SuccinctCountingBloomFilter.new 8 10)
     = Some (NotFound, SuccinctCountingBloomFilter.new 8 10).
Proof.
  destruct (fresh_filter_holds_no_key 8 (fun x => x) 3 10 42 ltac:(lia)) as [H1 H2].
  split; [apply H1 | apply H2]; vm_compute; reflexivity.
Defined.

End PlainOpsFacts.

Lemma grows_present g bit s s' : 0 <= bit -> grows s s' -> present g bit s -> present g bit s'.
Proof. intros Hb G P. exact (present_grows g bit s s' Hb P G). Qed.

Lemma Contain_loop_present i : forall a b s,
  Forall (fun p => present (fst p) (snd p) s) (probes i a b (arrayLength s)) ->
  Contain_loop i a b s = Some (Ok, s).
Proof.
  induction i as [|i IH]; intros a b s H; cbn [Contain_loop probes] in *; [reflexivity|].
  apply Forall_cons in H as [(m & Hm & Ht) H]. cbn [fst snd] in Hm, Ht.
  unfold get_arrayLength at 1. unfold bind at 1.
  rewrite (bind_Some _ _ _ _ _ (sdata_get_eq _ _ _ Hm)).
  rewrite (testbit_shr64 m _ (land_63_range a) Ht). apply IH. exact H.
Qed.

Lemma Add_loop_present i : forall a b s s',
  Add_loop i a b s = Some (tt, s') ->
  grows s s' /\ Forall (fun p => present (fst p) (snd p) s') (probes i a b (arrayLength s)).
Proof.
  induction i as [|i IH]; intros a b s s' E; cbn [Add_loop probes] in *.
  - injection E as <-. split; [apply grows_refl | constructor].
  - apply bind_inv in E as (alen & s0 & E0 & E). injection E0 as <- <-.
    apply bind_inv in E as ([] & s1 & E1 & E).
    pose proof (land_63_range a) as Hb.
    destruct (wp_elim _ _ _ _ _ (Increment_grows _ _ s) E1) as [G1 P1].
    specialize (P1 Hb).
    destruct (IH _ _ _ _ E) as [G2 F2].
    split; [eapply grows_trans; eassumption|].
    constructor.
    + cbn [fst snd]. apply (grows_present _ _ s1 s'); [lia | exact G2 | exact P1].
    + destruct G1 as (-> & _) in F2. exact F2.
Qed.

Lemma probes_bits i : forall a b alen, Forall (fun p => 0 <= snd p) (probes i a b alen).
Proof.
  induction i as [|i IH]; intros a b alen; cbn [probes]; constructor; [|apply IH].
  cbn [snd]. pose proof (land_63_range a). lia.
Qed.

Lemma AddEach_present hasher k keys : forall s s',
  AddEach hasher k keys s = Some (tt, s') ->
  grows s s'
  /\ Forall (fun p => present (fst p) (snd p) s') (all_probes hasher k (arrayLength s) keys).
Proof.
  induction keys as [|key keys IH]; intros s s' E; cbn [AddEach all_probes flat_map] in *.
  - injection E as <-. split; [apply grows_refl | constructor].
  - apply bind_inv in E as (r & s1 & E1 & E). unfold Add in E1.
    apply bind_inv in E1 as ([] & s2 & E1 & Er). injection Er as _ <-.
    destruct (Add_loop_present _ _ _ _ _ E1) as [G1 F1].
    destruct (IH _ _ E) as [G2 F2].
    split; [eapply grows_trans; eassumption|].
    apply Forall_app. split.
    + unfold key_probes.
      pose proof (probes_bits (Z.to_nat k) (u32 (Z.shiftr (u64 (hasher key)) 32))
                    (u32 (u64 (hasher key))) (arrayLength s)) as Hb.
      rewrite List.Forall_forall in F1, Hb |- *. intros p Hp.
      apply (grows_present _ _ s2 s'); [apply Hb; exact Hp | exact G2 | apply F1; exact Hp].
    + destruct G1 as (-> & _) in F2. exact F2.
Qed.

(** X9.  [Increment] never clears a presence bit: in whatever state it is
    called (promoted or not, pool exhausted or not), when it returns the bit
    of its position is set, every presence bit that was set before is still
    set, and the two lengths are unchanged. *)
Theorem Increment_keeps_presence (g bit : Z) (s s' : filter) :
  0 <= bit < 64 ->
  Increment g bit s = Some (tt, s') ->
  present g bit s'
  /\ (forall g' i, 0 <= i -> present g' i s -> present g' i s')
  /\ arrayLength s' = arrayLength s /\ overflowLength s' = overflowLength s.
Proof.
  intros Hb E.
  destruct (wp_elim _ _ _ _ _ (Increment_grows g bit s) E) as [G P].
  split; [exact (P Hb)|]. split.
  - intros g' i Hi Hp. exact (grows_present g' i s s' Hi G Hp).
  - destruct G as (A & B & _). split; assumption.
Qed.

Lemma Increment_keeps_presence_witness :
  exists s', Increment 0 5 (new 8 8) = Some (tt, s') /\ present 0 5 s'.
Proof.
  destruct (Increment 0 5 (new 8 8)) as [[[] s']|] eqn:E; [|vm_compute in E; discriminate].
  exists s'. split; [reflexivity|].
  exact (proj1 (Increment_keeps_presence 0 5 (new 8 8) s' ltac:(lia) E)).
Defined.

(** X10.  No false negative: in whatever state the [Add]s start, when the
    [Add]s of a list of keys return, [Contain] answers [Ok] for every key of
    the list in the state they leave. *)
Theorem Adds_then_Contain_each (hasher : Z -> Z) (k : Z) (keys : list Z) (s s' : filter) :
  AddEach hasher k keys s = Some (tt, s') ->
  kept hasher k keys s'.
Proof.
  intros E key Hin.
  destruct (AddEach_present hasher k keys s s' E) as [G F].
  unfold Contain. apply Contain_loop_present.
  destruct G as (-> & _).
  rewrite List.Forall_forall in F |- *. intros p Hp. apply F.
  unfold all_probes. apply in_flat_map. exists key. split; [exact Hin | exact Hp].
Qed.

Lemma Adds_then_Contain_each_witness :
  exists s', AddEach (fun x => x) 3 [7; 2 ^ 40 + 9] (new 8 100) = Some (tt, s')
             /\ Contain (fun x => x) 3 7 s' = Some (Ok, s').
Proof.
  destruct (AddEach (fun x => x) 3 [7; 2 ^ 40 + 9] (new 8 100)) as [[[] s']|] eqn:E;
    [|vm_compute in E; discriminate].
  exists s'. split; [reflexivity|].
  apply (Adds_then_Contain_each (fun x => x) 3 [7; 2 ^ 40 + 9] (new 8 100) s' E).
  left. reflexivity.
Defined.

(** ** Consequences of the invariant *)

Lemma Inv_present s f g i : Inv s f -> 0 <= g < arrayLength s -> 0 <= i < 64 ->
  0 < f g i -> present g i s.
Proof.
  intros [_ HG] Hg Hi Hp. destruct (HG g Hg) as [Hok [Hm _]].
  exists (mk (row f g)). split; [exact Hm|].
  rewrite (row_testbit _ _ Hok Hi), row_nth by exact Hi. apply Z.ltb_lt. exact Hp.
Qed.

Lemma net_incs_hit ps p : In p ps -> 1 <= net (map inc_of ps) (fst p) (snd p).
Proof.
  induction ps as [|q ps IH]; intros Hin; [destruct Hin|].
  cbn [map net hits inc_of].
  pose proof (net_incs_nonneg ps (fst p) (snd p)) as H0.
  destruct Hin as [->|Hin].
  - rewrite !Z.eqb_refl. cbn [andb]. lia.
  - specialize (IH Hin). destruct (_ && _); lia.
Qed.

Lemma net_incs_split hasher k alen adds rems rest g i :
  Permutation adds (rems ++ rest) ->
  net (map inc_of (all_probes hasher k alen adds)) g i
  = net (map inc_of (all_probes hasher k alen rems)) g i
    + net (map inc_of (all_probes hasher k alen rest)) g i.
Proof.
  intros HP.
  rewrite (net_perm (map inc_of (all_probes hasher k alen adds))
                    (map inc_of (all_probes hasher k alen (rems ++ rest)))).
  - unfold all_probes. rewrite flat_map_app, map_app, net_app. reflexivity.
  - apply Permutation_map. unfold all_probes. apply Permutation_flat_map. exact HP.
Qed.

Lemma partial_removal_legal hasher k alen adds rems rest : 0 < alen ->
  Permutation adds (rems ++ rest) ->
  counts_fit (all_probes hasher k alen adds) = true ->
  legal alen [] (round_trip_ops hasher k alen adds rems) = true.
Proof.
  intros Hl HP Hfit. unfold round_trip_ops. rewrite legal_app. apply andb_true_iff. split.
  - apply legal_incs; [apply all_probes_in_range; exact Hl|].
    cbn [app]. apply counts_fit_spec. exact Hfit.
  - cbn [app]. apply legal_decs; [apply all_probes_in_range; exact Hl|].
    intros g i. rewrite net_app, net_decs.
    rewrite (net_incs_split hasher k alen adds rems rest g i HP).
    pose proof (net_incs_nonneg (all_probes hasher k alen rest) g i). lia.
Qed.

(** X11.  Removing keys does not lose the others.  On a freshly
    constructed filter, [Add] the keys of [adds], then [Remove] the keys of
    [rems], which are among those added ([adds] holds the keys of [rems] and
    of [rest], as often).  If no position is probed more than 15 times by
    the keys of [adds] and nothing is printed, the run returns and
    [Contain] answers [Ok] for every key of [rest]. *)
Theorem Remove_keeps_the_other_keys (bits_per_item : Z) (hasher : Z -> Z) (k n : Z)
    (adds rems rest : list Z) :
  overflowLength (new bits_per_item n) <= 2 ^ 28 ->
  0 < arrayLength (new bits_per_item n) ->
  Permutation adds (rems ++ rest) ->
  counts_fit (all_probes hasher k (arrayLength (new bits_per_item n)) adds) = true ->
  quiet (round_trip_ops hasher k (arrayLength (new bits_per_item n)) adds rems)
        (new bits_per_item n) = true ->
  exists s,
    (AddEach hasher k adds ;;; RemoveEach hasher k rems) (new bits_per_item n) = Some (tt, s)
    /\ kept hasher k rest s.
Proof.
  intros Hsmall Hl HP Hfit Hq.
  set (A := arrayLength (new bits_per_item n)) in *.
  pose proof (partial_removal_legal hasher k A adds rems rest Hl HP Hfit) as Hleg.
  destruct (run_Inv _ [] _ (new_Inv bits_per_item n Hsmall) Hleg Hq _ [] (eq_sym (app_nil_r _)))
    as (s & Er & HI & Ea & _).
  exists s. split; [rewrite round_trip_run; exact Er|].
  intros key Hin. unfold Contain. apply Contain_loop_present.
  fold A in Ea. rewrite Ea.
  pose proof (probes_in_range A (Z.to_nat k) (u32 (Z.shiftr (u64 (hasher key)) 32))
                (u32 (u64 (hasher key))) Hl (u32_range _)) as Hr.
  rewrite List.Forall_forall in Hr |- *. intros p Hp.
  destruct (Hr p Hp) as [Hg Hb].
  apply (Inv_present s _ _ _ HI); [lia | exact Hb|].
  cbn [app]. unfold round_trip_ops. rewrite net_app, net_decs.
  rewrite (net_incs_split hasher k A adds rems rest _ _ HP).
  assert (Hp' : In p (all_probes hasher k A rest)).
  { unfold all_probes. apply in_flat_map. exists key. split; [exact Hin | exact Hp]. }
  pose proof (net_incs_hit _ _ Hp'). lia.
Qed.

Lemma Remove_keeps_the_other_keys_witness :
  exists s,
    (AddEach (fun x => x) 3 [1; 4294967297; 77] ;;; RemoveEach (fun x => x) 3 [4294967297])
      (new 8 8) = Some (tt, s)
    /\ kept (fun x => x) 3 [1; 77] s.
Proof.
  apply (Remove_keeps_the_other_keys 8 (fun x => x) 3 8 [1; 4294967297; 77] [4294967297] [1; 77]).
  - vm_compute. discriminate.
  - vm_compute. reflexivity.
  - apply perm_swap.
  - vm_compute. reflexivity.
  - vm_compute. reflexivity.
Defined.

(** X12.  The slots of the pool are conserved.  After a run of increments
    and decrements from a freshly constructed filter (legal operations,
    nothing printed), the free list followed from [nextFreeOverflow] ends at
    the end marker, and its slots together with the slots named by the
    headers of the promoted groups are the slots of the pool, each once: no
    slot is lost and none is held twice. *)
Theorem pool_slots_conserved (bits_per_item n : Z) (ops : list op) :
  overflowLength (new bits_per_item n) <= 2 ^ 28 ->
  legal (arrayLength (new bits_per_item n)) [] ops = true ->
  quiet ops (new bits_per_item n) = true ->
  exists s fl,
    run ops (new bits_per_item n) = Some (tt, s)
    /\ chain (overflow s) (overflowLength s) (nextFreeOverflow s) fl
    /\ Permutation (fl ++ owned (counts s)) (all_slots (overflowLength s))
    /\ List.NoDup (fl ++ owned (counts s)).
Proof.
  intros Hsmall Hleg Hq.
  destruct (run_Inv _ [] _ (new_Inv bits_per_item n Hsmall) Hleg Hq _ [] (eq_sym (app_nil_r _)))
    as (s & Er & [Hs _] & _).
  destruct (sh_free s Hs) as (fl & Hch & Hp).
  exists s, fl. split; [exact Er|]. split; [exact Hch|]. split; [exact Hp|].
  apply (Permutation_NoDup (Permutation_sym Hp)). apply all_slots_NoDup.
Qed.

Lemma pool_slots_conserved_witness :
  exists s fl,
    run (fill_groups 1 ++ [Dec 0 3]) (new 8 8) = Some (tt, s)
    /\ chain (overflow s) (overflowLength s) (nextFreeOverflow s) fl
    /\ Permutation (fl ++ owned (counts s)) (all_slots (overflowLength s))
    /\ List.NoDup (fl ++ owned (counts s)).
Proof.
  apply (pool_slots_conserved 8 8 (fill_groups 1 ++ [Dec 0 3])).
  - vm_compute. discriminate.
  - vm_compute. reflexivity.
  - vm_compute. reflexivity.
Defined.

(** X13.  The header of a promoted group counts the group.  After such a
    run, the [total_count] field of the header of a promoted group is the
    sum of the 64 counts of the group, which is at least 63, and its slot
    field names a slot inside the pool; a group in the inline form holds at
    most 63 counts. *)
Theorem header_counts_the_group (bits_per_item n : Z) (ops : list op) (g : Z) :
  overflowLength (new bits_per_item n) <= 2 ^ 28 ->
  legal (arrayLength (new bits_per_item n)) [] ops = true ->
  quiet ops (new bits_per_item n) = true ->
  0 <= g < arrayLength (new bits_per_item n) ->
  exists s c,
    run ops (new bits_per_item n) = Some (tt, s)
    /\ ld (counts s) g = Some c
    /\ (promoted c = true ->
          count_of c = total (row (net ops) g) /\ 63 <= count_of c
          /\ 0 <= slot_of c /\ slot_of c + 4 <= overflowLength s)
    /\ (promoted c = false -> total (row (net ops) g) <= 63).
Proof.
  intros Hsmall Hleg Hq Hg.
  destruct (run_Inv _ [] _ (new_Inv bits_per_item n Hsmall) Hleg Hq _ [] (eq_sym (app_nil_r _)))
    as (s & Er & HI & Ea & _).
  cbn [app] in HI. rewrite <- Ea in Hg.
  pose proof HI as [Hs HG]. destruct (HG g Hg) as [Hok _].
  destruct (ld_ok (counts s) g) as [c Hc]; [rewrite (sh_counts s Hs); exact Hg|].
  exists s, c. split; [exact Er|]. split; [exact Hc|].
  pose proof (total_le15 _ (proj2 Hok)) as Ht. rewrite (proj1 Hok) in Ht.
  pose proof (total_nonneg _ (row_ok_nonneg _ Hok)) as Ht0.
  destruct (Inv_forms s _ g c HI Hg Hc)
    as [(Hp & -> & Hle) | (Hp & idx & -> & Hge & Hidx & Hl)].
  - split; [rewrite Hp; discriminate | intros _; exact Hle].
  - split; [|rewrite Hp; discriminate]. intros _.
    unfold count_of. rewrite header_count by lia. rewrite header_slot by lia.
    split; [reflexivity|]. split; [exact Hge|]. split; [lia|].
    destruct (Hl 63 ltac:(lia)) as (v & Hv & _).
    apply ld_Some in Hv. change (63 / 16) with 3 in Hv.
    rewrite (sh_over s Hs) in Hv. lia.
Qed.

Lemma header_counts_the_group_witness :
  exists s c,
    run (fill_groups 1 ++ [Dec 0 3]) (new 8 8) = Some (tt, s)
    /\ ld (counts s) 0 = Some c
    /\ promoted c = true /\ count_of c = 63.
Proof.
  destruct (header_counts_the_group 8 8 (fill_groups 1 ++ [Dec 0 3]) 0)
    as (s & c & Er & Hc & Hp & _).
  - vm_compute. discriminate.
  - vm_compute. reflexivity.
  - vm_compute. reflexivity.
  - vm_compute. split; [discriminate | reflexivity].
  - exists s, c. split; [exact Er|]. split; [exact Hc|].
    pose proof Er as Er'. vm_compute in Er'. injection Er' as <-.
    vm_compute in Hc. injection Hc as <-.
    split; [reflexivity|]. destruct (Hp eq_refl) as [E _]. rewrite E. vm_compute. reflexivity.
Defined.

Lemma lor_bit_same m bit : 0 <= bit -> Z.testbit m bit = true -> Z.lor m (2 ^ bit) = m.
Proof.
  intros Hb Ht. apply Z.bits_inj'. intros j Hj. rewrite Z.lor_spec.
  destruct (Z.eq_dec j bit) as [->|Hne].
  - rewrite Ht. reflexivity.
  - rewrite Z.pow2_bits_false by lia. apply orb_false_r.
Qed.

(** X14.  What an exhausted pool costs.  In a state of a legal run, let a
    group hold 63 counts in the inline form while the free list is empty.
    An [Increment] on the group returns, prints the diagnostic and sets the
    presence bit, but records nothing: [counts], [overflow] and the free
    list are as before.  On a position that was present already the state
    is unchanged but for the diagnostic, and [ReadCount] still returns the
    count from before the increment. *)
Theorem exhausted_pool_drops_increment (s : filter) (f : Z -> Z -> Z) (g bit : Z) :
  Inv s f -> 0 <= g < arrayLength s -> 0 <= bit < 64 ->
  ld (counts s) g = Some (enc (row f g)) -> total (row f g) = 63 ->
  overflowLength s <= nextFreeOverflow s ->
  exists s',
    Increment g bit s = Some (tt, s')
    /\ cout s' = cout s ++ [msg]
    /\ counts s' = counts s /\ overflow s' = overflow s
    /\ nextFreeOverflow s' = nextFreeOverflow s
    /\ present g bit s'
    /\ (0 < f g bit -> data s' = data s /\ ReadCount g bit s' = Some (f g bit, s')).
Proof.
  intros HI Hg Hb Hc Ht Hfull.
  pose proof HI as [Hs HG]. destruct (HG g Hg) as [Hok [Hm Hform]].
  pose proof (row_ok_nonneg _ Hok) as Hnn.
  assert (H2 : Z.land (enc (row f g)) top2 <> 0).
  { apply Z.eqb_neq. rewrite (enc_top2 _ Hnn ltac:(lia)). apply Z.leb_gt. lia. }
  pose proof (Inc_exhausted_eq s g bit _ _ Hm Hc H2
                (proj2 (enc_inline _ Hnn ltac:(lia))) Hfull) as E.
  eexists. split; [exact E|].
  split; [reflexivity|]. split; [reflexivity|]. split; [reflexivity|]. split; [reflexivity|].
  pose proof (ld_Some _ _ _ Hm) as Bm.
  split.
  - exists (Z.lor (mk (row f g)) (shl64 1 bit)). split.
    + cbn [data with_data with_cout]. apply ld_st_eq. exact Bm.
    + apply lor_bit_set. exact Hb.
  - intros Hp.
    assert (Hbit : Z.testbit (mk (row f g)) bit = true).
    { rewrite (row_testbit _ _ Hok Hb), row_nth by exact Hb. apply Z.ltb_lt. exact Hp. }
    assert (Ed : <[Z.to_nat g := Z.lor (mk (row f g)) (shl64 1 bit)]> (data s) = data s).
    { rewrite shl64_1 by exact Hb. rewrite lor_bit_same by (lia || exact Hbit).
      apply list_insert_id. apply ld_lookup. exact Hm. }
    rewrite Ed. split; [reflexivity|].
    rewrite <- (row_nth f g bit Hb).
    apply ReadCount_ok; [exact Hok | | exact Hb].
    split; [exact Hm|]. exact Hform.
Qed.

Lemma exhausted_pool_drops_increment_witness :
  exists s s',
    run exhausting_ops (new 8 256) = Some (tt, s)
    /\ Increment 25 0 s = Some (tt, s')
    /\ cout s' = [msg]
    /\ ReadCount 25 0 s' = Some (1, s').
Proof.
  assert (Hsmall : overflowLength (new 8 256) <= 2 ^ 28) by (vm_compute; discriminate).
  assert (Hleg : legal (arrayLength (new 8 256)) [] exhausting_ops = true)
    by (vm_compute; reflexivity).
  assert (Hq : quiet exhausting_ops (new 8 256) = true) by (vm_compute; reflexivity).
  destruct (run_Inv _ [] _ (new_Inv 8 256 Hsmall) Hleg Hq _ [] (eq_sym (app_nil_r _)))
    as (s & Er & HI & Ea & _ & Hco & _).
  cbn [app] in HI.
  destruct (exhausted_pool_drops_increment s (net exhausting_ops) 25 0 HI)
    as (s' & E & Hc' & _ & _ & _ & _ & Hr).
  - rewrite Ea. vm_compute. split; [discriminate | reflexivity].
  - lia.
  - pose proof Er as Er'. vm_compute in Er'. injection Er' as <-. vm_compute. reflexivity.
  - vm_compute. reflexivity.
  - pose proof Er as Er'. vm_compute in Er'. injection Er' as <-. vm_compute. discriminate.
  - exists s, s'. split; [exact Er|]. split; [exact E|].
    split; [rewrite Hc', Hco; reflexivity|].
    apply (Hr ltac:(vm_compute; reflexivity)).
Defined.

Module BlockedOpsFacts.

Import SuccinctCountingBlockedBloomFilter.

Import BlockedFacts.

Import BlockedOps.

Lemma bwp_data_get i (Q : Z -> filter -> Prop) s :
  (forall v, ld (data s) i = Some v -> Q v s) -> wp (data_get i) Q s.
Proof. unfold wp, data_get. destruct (ld (data s) i); auto. Qed.

Lemma bwp_counts_get i (Q : Z -> filter -> Prop) s :
  (forall v, ld (counts s) i = Some v -> Q v s) -> wp (counts_get i) Q s.
Proof. unfold wp, counts_get. destruct (ld (counts s) i); auto. Qed.

Lemma bwp_overflow_get i (Q : Z -> filter -> Prop) s :
  (forall v, ld (overflow s) i = Some v -> Q v s) -> wp (overflow_get i) Q s.
Proof. unfold wp, overflow_get. destruct (ld (overflow s) i); auto. Qed.

Lemma bwp_data_set i v (Q : unit -> filter -> Prop) s :
  (forall d, st (data s) i v = Some d -> Q tt (with_data d s)) -> wp (data_set i v) Q s.
Proof. unfold wp, data_set. destruct (st (data s) i v); auto. Qed.

Lemma bwp_counts_set i v (Q : unit -> filter -> Prop) s :
  (forall c, st (counts s) i v = Some c -> Q tt (with_counts c s)) -> wp (counts_set i v) Q s.
Proof. unfold wp, counts_set. destruct (st (counts s) i v); auto. Qed.

Lemma bwp_overflow_set i v (Q : unit -> filter -> Prop) s :
  (forall o, Q tt (with_overflow o s)) -> wp (overflow_set i v) Q s.
Proof. unfold wp, overflow_set. destruct (st (overflow s) i v); auto. Qed.

Lemma bwp_ReadCount g i (Q : Z -> filter -> Prop) s :
  (forall v, Q v s) -> wp (ReadCount g i) Q s.
Proof.
  intros H. unfold ReadCount.
  apply wp_bind, bwp_data_get. intros m _.
  destruct (Z.land (shr64 m i) 1 =? 0); [apply wp_ret, H|].
  apply wp_bind, bwp_counts_get. intros c _.
  destruct (negb (Z.land c top1 =? 0)).
  - apply wp_bind, bwp_overflow_get. intros n _. apply wp_ret, H.
  - apply wp_bind, wp_lift. intros lz _. apply wp_ret, H.
Qed.

Lemma keeps_refl lo s : keeps lo s s.
Proof.
  split; [reflexivity|]. split; [|split; [reflexivity|]; intros g _; split; reflexivity].
  apply Forall2_same_length_lookup_2; [reflexivity|].
  intros i x y H1 H2. rewrite H1 in H2. injection H2 as <-. apply sub_refl.
Qed.

Lemma keeps_trans lo a b c : keeps lo a b -> keeps lo b c -> keeps lo a c.
Proof.
  intros (A1 & A2 & A3 & A4) (B1 & B2 & B3 & B4).
  split; [congruence|]. split; [|split; [congruence|]].
  - apply Forall2_same_length_lookup. apply Forall2_same_length_lookup in A2 as [L1 H1].
    apply Forall2_same_length_lookup in B2 as [L2 H2].
    split; [congruence|]. intros i x z Hx Hz.
    destruct (lookup_lt_is_Some_2 (data b) i) as [y Hy].
    { rewrite <- L1. apply lookup_lt_is_Some_1. eauto. }
    eapply sub_trans; [eapply H1 | eapply H2]; eassumption.
  - intros g Hg. destruct (A4 g Hg) as [E1 E2], (B4 g Hg) as [E3 E4].
    split; congruence.
Qed.

Lemma keeps_overflow lo s0 s o : keeps lo s0 s -> keeps lo s0 (with_overflow o s).
Proof. exact id. Qed.

Lemma keeps_next lo s0 s n : keeps lo s0 s -> keeps lo s0 (with_next n s).
Proof. exact id. Qed.

Lemma keeps_cout lo s0 s l : keeps lo s0 s -> keeps lo s0 (with_cout l s).
Proof. exact id. Qed.

Lemma ld_st_other arr i j v d : st arr i v = Some d -> j <> i -> ld d j = ld arr j.
Proof.
  intros Hd Hne. apply st_Some in Hd as [Hi ->].
  unfold ld. destruct (Z.leb_spec 0 j); [|reflexivity].
  apply list_lookup_insert_ne. lia.
Qed.

Lemma keeps_counts lo s0 s g v c : keeps lo s0 s -> lo <= g < lo + 8 ->
  st (counts s) g v = Some c -> keeps lo s0 (with_counts c s).
Proof.
  intros (A1 & A2 & A3 & A4) Hg Hc.
  split; [exact A1|]. split; [exact A2|]. cbn [data counts with_counts]. split.
  - apply st_Some in Hc as [_ ->]. rewrite length_insert. exact A3.
  - intros g' Hg'. destruct (A4 g' Hg') as [E1 E2]. split; [exact E1|].
    rewrite <- E2. eapply ld_st_other; [exact Hc | lia].
Qed.

Lemma keeps_data_or lo s0 s g w x d : keeps lo s0 s -> lo <= g < lo + 8 ->
  ld (data s) g = Some w -> st (data s) g (Z.lor w x) = Some d ->
  keeps lo s0 (with_data d s).
Proof.
  intros (A1 & A2 & A3 & A4) Hg Hw Hd.
  split; [exact A1|]. cbn [data counts with_data]. split; [|split; [exact A3|]].
  - apply st_Some in Hd as [Hgr ->]. apply ld_lookup in Hw.
    destruct (Forall2_lookup_r _ _ _ _ _ A2 Hw) as (m0 & H0 & Hs).
    rewrite <- (list_insert_id (data s0) (Z.to_nat g) m0 H0).
    apply Forall2_insert; [exact A2|]. eapply sub_trans; [exact Hs | apply sub_lor].
  - intros g' Hg'. destruct (A4 g' Hg') as [E1 E2]. split; [|exact E2].
    rewrite <- E1. eapply ld_st_other; [exact Hd | lia].
Qed.

Lemma bpresent_data_or s g bit w d : 0 <= bit < 64 ->
  st (data s) g (Z.lor w (shl64 1 bit)) = Some d -> present g bit (with_data d s).
Proof.
  intros Hb Hd. apply st_Some in Hd as [Hg ->]. exists (Z.lor w (shl64 1 bit)).
  split; [cbn [data with_data]; apply ld_st_eq; exact Hg | apply lor_bit_set; exact Hb].
Qed.

Lemma present_keeps lo g bit s s' : 0 <= bit -> present g bit s -> keeps lo s s' ->
  present g bit s'.
Proof.
  intros Hb (m & Hm & Ht) (_ & F & _). pose proof (ld_lookup _ _ _ Hm) as Hl.
  destruct (Forall2_lookup_l _ _ _ _ _ F Hl) as (m' & Hm' & Hs).
  exists m'. split; [|apply Hs; assumption].
  unfold ld in *. destruct (0 <=? g); [exact Hm' | discriminate].
Qed.

Lemma bwp_set_presence lo s0 g bit s : keeps lo s0 s -> lo <= g < lo + 8 ->
  wp (w <- data_get g ;; data_set g (Z.lor w (shl64 1 bit)))
     (fun _ s' => keeps lo s0 s' /\ (0 <= bit < 64 -> present g bit s')) s.
Proof.
  intros G Hg. apply wp_bind, bwp_data_get. intros w Hw.
  apply bwp_data_set. intros d Hd. split.
  - eapply keeps_data_or; eassumption.
  - intros Hb. eapply bpresent_data_or; eassumption.
Qed.

(** Whatever branch it takes, [Increment] sets the presence bit of its
    position, clears no presence bit, and leaves the words of the other
    groups as they are. *)
Lemma bIncrement_keeps lo g bit s : lo <= g < lo + 8 ->
  wp (Increment g bit) (fun _ s' => keeps lo s s' /\ (0 <= bit < 64 -> present g bit s')) s.
Proof.
  intros Hg.
  pose proof (keeps_refl lo s) as G. revert G. generalize s at 1 3 as s0. intros s0 G.
  unfold Increment.
  apply wp_bind, bwp_data_get. intros m _.
  apply wp_bind, bwp_counts_get. intros c _.
  assert (Hfin : forall index s1, keeps lo s0 s1 ->
    wp (v <- overflow_get (index + Z.quot bit 8) ;;
        overflow_set (index + Z.quot bit 8) (add64 v (shl64 1 (bit * 8))) ;;;
        w <- data_get g ;; data_set g (Z.lor w (shl64 1 bit)))
       (fun _ s' => keeps lo s0 s' /\ (0 <= bit < 64 -> present g bit s')) s1).
  { intros index s1 G1. apply wp_bind, bwp_overflow_get. intros v _.
    apply wp_bind, bwp_overflow_set. intros o.
    apply bwp_set_presence; [apply keeps_overflow; exact G1 | exact Hg]. }
  destruct (negb (Z.land c top2 =? 0)).
  - cbv zeta. destruct (Z.land c top1 =? 0).
    + apply wp_bind. unfold get_next at 1. unfold wp at 1.
      apply wp_bind. unfold get_overflowLength at 1. unfold wp at 1.
      destruct (overflowLength s <=? nextFreeOverflow s).
      * apply wp_bind. unfold print at 1. unfold wp at 1.
        apply bwp_set_presence; [apply keeps_cout; exact G | exact Hg].
      * apply wp_bind, bwp_overflow_get. intros nxt _.
        apply wp_bind. unfold set_next at 1. unfold wp at 1.
        apply wp_bind.
        eapply wp_mono; [|apply (wp_for_up (keeps lo s0))].
        -- cbv beta. intros _ s1 G1. apply wp_bind.
           eapply wp_mono; [|apply (wp_for_up (keeps lo s0))].
           ++ cbv beta. intros _ s2 G2. apply wp_bind, bwp_counts_set. intros c1 Hc1.
              apply Hfin. eapply keeps_counts; eassumption.
           ++ intros i s2 G2. apply wp_bind, bwp_ReadCount. intros n.
              apply wp_bind, bwp_overflow_get. intros v _.
              apply bwp_overflow_set. intros o. apply keeps_overflow. exact G2.
           ++ exact G1.
        -- intros i s1 G1. apply bwp_overflow_set. intros o. apply keeps_overflow. exact G1.
        -- apply keeps_next. exact G.
    + apply wp_bind, bwp_counts_set. intros c1 Hc1.
      apply Hfin. eapply keeps_counts; eassumption.
  - apply wp_bind, bwp_data_get. intros w Hw.
    apply wp_bind, bwp_data_set. intros d Hd.
    apply bwp_counts_set. intros c1 Hc1. split.
    + eapply keeps_counts; [eapply keeps_data_or; eassumption | exact Hg | exact Hc1].
    + intros Hb. eapply bpresent_data_or; eassumption.
Qed.

(** ** [Add], [Contain] and the bucket of a key *)

Lemma land_7_range x : 0 <= Z.land x 7 < 8.
Proof.
  change 7 with (Z.ones 3). rewrite Z.land_ones by lia. apply Z.mod_pos_bound. lia.
Qed.

Lemma land_63_bit x : 0 <= Z.land x 63 < 64.
Proof.
  change 63 with (Z.ones 6). rewrite Z.land_ones by lia. apply Z.mod_pos_bound. lia.
Qed.

(** The groups of a bucket: no wrap-around in [bucket_start + x]. *)
Lemma bucket_groups hash bc : 0 < bc <= 2 ^ 28 ->
  exists bucket, 0 <= bucket < bc
    /\ bucket_start_of hash bc = 8 * bucket
    /\ forall x, 0 <= x < 8 ->
         u32 (bucket_start_of hash bc + x) = 8 * bucket + x.
Proof.
  intros Hbc. unfold bucket_start_of.
  pose proof (reduce_lt (u32 (rotl64 hash 32)) bc (u32_range _) ltac:(lia)) as Hr.
  set (r := reduce (u32 (rotl64 hash 32)) (u32 bc)) in *.
  exists r. split; [exact Hr|].
  assert (E : u32 (r * 8) = 8 * r) by (unfold u32; rewrite Z.mod_small by lia; lia).
  split; [exact E|]. intros x Hx. rewrite E. unfold u32. apply Z.mod_small. lia.
Qed.

Lemma probe_set g sh m s : ld (data s) g = Some m -> 0 <= sh < 64 ->
  Z.testbit m sh = true -> probe 1 g sh s = Some (1, s).
Proof.
  intros Hm Hsh Ht. unfold probe. mstep (data_get_eq _ _ _ Hm).
  unfold ret. rewrite Z.land_comm, (testbit_shr64 m sh Hsh Ht). reflexivity.
Qed.

Lemma probe_present g sh s : 0 <= sh < 64 -> present g sh s -> probe 1 g sh s = Some (1, s).
Proof. intros Hsh (m & Hm & Ht). exact (probe_set g sh m s Hm Hsh Ht). Qed.

Lemma bIncrement_present g bit s s' : 0 <= bit < 64 ->
  Increment g bit s = Some (tt, s') -> keeps g s s' /\ present g bit s'.
Proof.
  intros Hb E.
  destruct (wp_elim _ _ _ _ _ (bIncrement_keeps g g bit s ltac:(lia)) E) as [K P].
  split; [exact K | exact (P Hb)].
Qed.

Lemma keeps_bgrows lo s0 s : keeps lo s0 s -> bgrows s0 s.
Proof. intros (A & B & _). split; assumption. Qed.

Lemma bgrows_refl s : bgrows s s.
Proof. exact (keeps_bgrows 0 s s (keeps_refl 0 s)). Qed.

Lemma bgrows_trans a b c : bgrows a b -> bgrows b c -> bgrows a c.
Proof.
  intros [A1 A2] [B1 B2]. split; [congruence|].
  apply Forall2_same_length_lookup. apply Forall2_same_length_lookup in A2 as [L1 H1].
  apply Forall2_same_length_lookup in B2 as [L2 H2].
  split; [congruence|]. intros i x z Hx Hz.
  destruct (lookup_lt_is_Some_2 (data b) i) as [y Hy].
  { rewrite <- L1. apply lookup_lt_is_Some_1. eauto. }
  eapply sub_trans; [eapply H1 | eapply H2]; eassumption.
Qed.

Lemma present_bgrows g bit s s' : 0 <= bit -> present g bit s -> bgrows s s' ->
  present g bit s'.
Proof.
  intros Hb (m & Hm & Ht) [_ F]. pose proof (ld_lookup _ _ _ Hm) as Hl.
  destruct (Forall2_lookup_l _ _ _ _ _ F Hl) as (m' & Hm' & Hs).
  exists m'. split; [|apply Hs; assumption].
  unfold ld in *. destruct (0 <=? g); [exact Hm' | discriminate].
Qed.

Lemma bAdd_loop_Contain_loop i : forall bs a b s s',
  Add_loop i bs a b s = Some (tt, s') ->
  bgrows s s' /\ Contain_loop i bs a b 1 s' = Some (true, s').
Proof.
  induction i as [|i IH]; intros bs a b s s' E; cbn [Add_loop Contain_loop] in *.
  - injection E as <-. split; [apply bgrows_refl | reflexivity].
  - cbv zeta in E |- *.
    apply bind_inv in E as ([] & s1 & E1 & E).
    pose proof (land_63_bit (Z.shiftr (add32 a b) 3)) as Hb.
    destruct (bIncrement_present _ _ _ _ Hb E1) as [K1 P1].
    destruct (IH _ _ _ _ _ E) as [G2 C2].
    split; [eapply bgrows_trans; [eapply keeps_bgrows; exact K1 | exact G2]|].
    pose proof (present_bgrows _ _ _ _ (proj1 Hb) P1 G2) as P.
    rewrite (bind_Some _ _ _ _ _ (probe_present _ _ _ Hb P)).
    change (1 =? 0) with false. cbv iota. exact C2.
Qed.

(** X15.  No false negative in the blocked filter: in whatever state [Add]
    is called, when it returns, [Contain] answers [true] for the key in the
    state it leaves. *)
Theorem blocked_Add_then_Contain (hasher : Z -> Z) (k key : Z) (s s' : filter) :
  Add hasher k key s = Some (tt, s') ->
  Contain hasher k key s' = Some (true, s').
Proof.
  unfold Add, Contain. intros E.
  apply bind_inv in E as (bc & s0 & E0 & E). injection E0 as <- <-.
  unfold get_bucketCount at 1. unfold bind at 1.
  set (hash := u64 (hasher key)) in *.
  apply bind_inv in E as ([] & s1 & E1 & E).
  destruct (bAdd_loop_Contain_loop _ _ _ _ _ _ E) as [G C].
  assert (Ebc : bucketCount s' = bucketCount s /\
    (forall g sh, 0 <= sh -> present g sh s1 -> present g sh s')).
  { destruct (3 <=? k).
    - apply bind_inv in E1 as ([] & t1 & I1 & E1).
      apply bind_inv in E1 as ([] & t2 & I2 & I3).
      apply bIncrement_present in I1 as [K1 _]; [|apply land_63_bit].
      apply bIncrement_present in I2 as [K2 _]; [|apply land_63_bit].
      apply bIncrement_present in I3 as [K3 _]; [|apply land_63_bit].
      destruct G as [G1 G2], K1 as [B1 _], K2 as [B2 _], K3 as [B3 _].
      split; [congruence|]. intros g sh Hsh P.
      apply (present_bgrows g sh s1 s' Hsh P). split; assumption.
    - injection E1 as <-. split; [exact (proj1 G)|]. intros g sh Hsh P.
      exact (present_bgrows g sh s s' Hsh P G). }
  destruct Ebc as [Ebc Hmono]. rewrite Ebc.
  set (bs := bucket_start_of hash (bucketCount s)) in *.
  destruct (3 <=? k).
  - apply bind_inv in E1 as ([] & t1 & I1 & E1).
    apply bind_inv in E1 as ([] & t2 & I2 & I3).
    pose proof (land_63_bit (Z.shiftr (u32 hash) 3)) as H1.
    pose proof (land_63_bit (Z.shiftr (u32 hash) 12)) as H2.
    pose proof (land_63_bit (Z.shiftr (u32 hash) 21)) as H3.
    destruct (bIncrement_present _ _ _ _ H1 I1) as [K1 P1].
    destruct (bIncrement_present _ _ _ _ H2 I2) as [K2 P2].
    destruct (bIncrement_present _ _ _ _ H3 I3) as [K3 P3].
    assert (Q1 : present (u32 (bs + Z.land (Z.shiftr (u32 hash) 0) 7))
                         (Z.land (Z.shiftr (u32 hash) 3) 63) s').
    { apply Hmono; [lia|].
      eapply present_keeps; [lia | | exact K3].
      eapply present_keeps; [lia | exact P1 | exact K2]. }
    assert (Q2 : present (u32 (bs + Z.land (Z.shiftr (u32 hash) 9) 7))
                         (Z.land (Z.shiftr (u32 hash) 12) 63) s').
    { apply Hmono; [lia|]. eapply present_keeps; [lia | exact P2 | exact K3]. }
    assert (Q3 : present (u32 (bs + Z.land (Z.shiftr (u32 hash) 18) 7))
                         (Z.land (Z.shiftr (u32 hash) 21) 63) s').
    { apply Hmono; [lia | exact P3]. }
    rewrite bind_assoc.
    rewrite (bind_Some _ _ _ _ _ (probe_present _ _ _ H1 Q1)).
    rewrite bind_assoc.
    rewrite (bind_Some _ _ _ _ _ (probe_present _ _ _ H2 Q2)).
    rewrite (bind_Some _ _ _ _ _ (probe_present _ _ _ H3 Q3)).
    change (1 =? 0) with false. cbv iota. exact C.
  - unfold bind at 1. unfold ret at 1. change (1 =? 0) with false. cbv iota. exact C.
Qed.

Lemma blocked_Add_then_Contain_witness :
  exists s', Add (fun x => x) 5 (2 ^ 33 + 12345) (new 8 128) = Some (tt, s')
             /\ Contain (fun x => x) 5 (2 ^ 33 + 12345) s' = Some (true, s').
Proof.
  destruct (Add (fun x => x) 5 (2 ^ 33 + 12345) (new 8 128)) as [[[] s']|] eqn:E;
    [|vm_compute in E; discriminate].
  exists s'. split; [reflexivity|].
  exact (blocked_Add_then_Contain (fun x => x) 5 (2 ^ 33 + 12345) (new 8 128) s' E).
Defined.

Lemma bAdd_loop_keeps bucket i : forall bs a b s s',
  (forall x, 0 <= x < 8 -> u32 (bs + x) = 8 * bucket + x) ->
  Add_loop i bs a b s = Some (tt, s') -> keeps (8 * bucket) s s'.
Proof.
  induction i as [|i IH]; intros bs a b s s' Hbs E; cbn [Add_loop] in E.
  - injection E as <-. apply keeps_refl.
  - cbv zeta in E. apply bind_inv in E as ([] & s1 & E1 & E).
    pose proof (land_7_range (add32 a b)) as Hx.
    rewrite (Hbs _ Hx) in E1.
    assert (Hg : 8 * bucket <= 8 * bucket + Z.land (add32 a b) 7 < 8 * bucket + 8) by lia.
    pose proof (wp_elim _ _ _ _ _ (bIncrement_keeps (8 * bucket) _ _ s Hg) E1) as [K1 _].
    eapply keeps_trans; [exact K1 | eapply IH; eassumption].
Qed.

(** X16.  The probes of a key stay in one bucket.  With between 1 and 2^28
    buckets, [Add key] works on the eight groups [8 * bucket, ...,
    8 * bucket + 7] of one bucket of the filter, [bucket_start] being
    [8 * bucket]: when it returns, the words of [data] and of [counts] of
    every other group are as before, and no presence bit has been
    cleared. *)
Theorem Add_stays_in_its_bucket (hasher : Z -> Z) (k key : Z) (s s' : filter) :
  0 < bucketCount s <= 2 ^ 28 ->
  Add hasher k key s = Some (tt, s') ->
  exists bucket,
    0 <= bucket < bucketCount s
    /\ bucket_start_of (u64 (hasher key)) (bucketCount s) = 8 * bucket
    /\ (forall g, ~ (8 * bucket <= g < 8 * bucket + 8) ->
          ld (data s') g = ld (data s) g /\ ld (counts s') g = ld (counts s) g)
    /\ (forall g i, 0 <= i -> present g i s -> present g i s').
Proof.
  intros Hbc E. unfold Add in E.
  apply bind_inv in E as (bc & s0 & E0 & E). injection E0 as <- <-.
  destruct (bucket_groups (u64 (hasher key)) (bucketCount s) Hbc) as (bucket & Hb & Ebs & Hx).
  exists bucket. split; [exact Hb|]. split; [exact Ebs|].
  apply bind_inv in E as ([] & s1 & E1 & E).
  assert (K1 : keeps (8 * bucket) s s1).
  { destruct (3 <=? k); [|injection E1 as <-; apply keeps_refl].
    apply bind_inv in E1 as ([] & t1 & I1 & E1).
    apply bind_inv in E1 as ([] & t2 & I2 & I3).
    rewrite (Hx _ (land_7_range _)) in I1. rewrite (Hx _ (land_7_range _)) in I2.
    rewrite (Hx _ (land_7_range _)) in I3.
    assert (Hin : forall y, 8 * bucket <= 8 * bucket + Z.land y 7 < 8 * bucket + 8).
    { intros y. pose proof (land_7_range y). lia. }
    pose proof (wp_elim _ _ _ _ _ (bIncrement_keeps (8 * bucket) _ _ s (Hin _)) I1) as [A1 _].
    pose proof (wp_elim _ _ _ _ _ (bIncrement_keeps (8 * bucket) _ _ t1 (Hin _)) I2) as [A2 _].
    pose proof (wp_elim _ _ _ _ _ (bIncrement_keeps (8 * bucket) _ _ t2 (Hin _)) I3) as [A3 _].
    eapply keeps_trans; [exact A1|]. eapply keeps_trans; [exact A2 | exact A3]. }
  pose proof (bAdd_loop_keeps bucket _ _ _ _ _ _ Hx E) as K2.
  pose proof (keeps_trans _ _ _ _ K1 K2) as K.
  split.
  - exact (proj2 (proj2 (proj2 K))).
  - intros g i Hi P. exact (present_keeps _ g i s s' Hi P K).
Qed.

Lemma Add_stays_in_its_bucket_witness :
  exists s', Add (fun x => x) 5 (2 ^ 63 + 12345) (new 8 128) = Some (tt, s')
    /\ bucket_start_of (u64 (2 ^ 63 + 12345)) 2 = 8
    /\ ld (data s') 3 = ld (data (new 8 128)) 3.
Proof.
  destruct (Add (fun x => x) 5 (2 ^ 63 + 12345) (new 8 128)) as [[[] s']|] eqn:E;
    [|vm_compute in E; discriminate].
  exists s'. split; [reflexivity|]. split; [vm_compute; reflexivity|].
  destruct (Add_stays_in_its_bucket (fun x => x) 5 (2 ^ 63 + 12345) (new 8 128) s')
    as (bucket & Hb & Ebs & Hout & _).
  - vm_compute. split; [reflexivity | discriminate].
  - exact E.
  - apply Hout.
    assert (E8 : bucket_start_of (u64 (2 ^ 63 + 12345)) (bucketCount (new 8 128)) = 8)
      by (vm_compute; reflexivity).
    cbv beta in Ebs. rewrite E8 in Ebs. lia.
Defined.

(** X17.  Fewer than three probes are none.  With [k < 3] neither the
    three unrolled probes nor the loop from 3 to [k] run: [Add] leaves
    every state as it is, and [Contain] answers [true] for every key, in
    every state. *)
Theorem fewer_than_three_probes (hasher : Z -> Z) (k key : Z) (s : filter) :
  k < 3 ->
  Add hasher k key s = Some (tt, s) /\ Contain hasher k key s = Some (true, s).
Proof.
  intros Hk. unfold Add, Contain, bind, get_bucketCount.
  destruct (Z.leb_spec 3 k) as [|_]; [lia|].
  assert (Z.to_nat (k - 3) = 0%nat) as -> by lia.
  split; reflexivity.
Qed.

Lemma fewer_than_three_probes_witness :
  Contain (fun x => x) 2 99 (new 3 1000) = Some (true, new 3 1000).
Proof.
  exact (proj2 (fewer_than_three_probes (fun x => x) 2 99 (new 3 1000) ltac:(lia))).
Defined.



(** ** The free list of the constructor *)

Lemma binit_free_spec fuel : forall i len o,
  0 <= i -> len <= Z.of_nat (length o) -> len - i <= 8 * Z.of_nat fuel ->
  length (init_free fuel i len o) = length o
  /\ (forall j, i <= j < len -> (j - i) mod 8 = 0 ->
        ld (init_free fuel i len o) j = Some (j + 8))
  /\ (forall j, 0 <= j < i -> ld (init_free fuel i len o) j = ld o j).
Proof.
  induction fuel as [|fuel IH]; intros i len o Hi Hlen Hf; cbn [init_free].
  - split; [reflexivity|]. split; [intros j Hj; lia | reflexivity].
  - destruct (Z.ltb_spec i len) as [Hlt|Hge].
    2:{ split; [reflexivity|]. split; [intros j Hj; lia | reflexivity]. }
    destruct (IH (i + 8) len (<[Z.to_nat i := i + 8]> o)) as (L & H1 & H2);
      [lia | rewrite length_insert; lia | lia |].
    rewrite length_insert in L. split; [exact L|]. split.
    + intros j Hj Hm. destruct (Z.eq_dec j i) as [->|Hne].
      * rewrite H2 by lia. apply ld_st_eq. lia.
      * assert (8 <= j - i).
        { pose proof (Z.div_mod (j - i) 8 ltac:(lia)) as E. rewrite Hm in E.
          assert (0 < (j - i) / 8) by lia. lia. }
        apply H1; [lia|]. replace (j - (i + 8)) with (j - i + (-1) * 8) by ring.
        rewrite Z.mod_add by lia. exact Hm.
    + intros j Hj. rewrite H2 by lia. apply ld_st_ne; lia.
Qed.

Lemma for_up_set_overrun idx n : forall lo s,
  0 <= idx + lo <= Z.of_nat (length (overflow s)) ->
  Z.of_nat (length (overflow s)) < idx + lo + Z.of_nat n ->
  for_up n lo (fun i => overflow_set (idx + i) 0) s = None.
Proof.
  induction n as [|n IH]; intros lo s H0 Hlen; cbn [for_up]; [lia|].
  unfold bind. unfold overflow_set at 1.
  destruct (st (overflow s) (idx + lo) 0) as [o|] eqn:E; [|reflexivity].
  apply st_Some in E as [Hr ->].
  apply IH; cbn [overflow with_overflow]; rewrite length_insert; lia.
Qed.

(** X19.  The last slot of the pool can be short.  The constructor links
    the slots [0, 8, 16, ...] below [overflowLength] into the free list,
    each to the next.  When [overflowLength] is not a multiple of 8 (it is
    [100 + arrayLength / 100 * 36]), the last of them has fewer than eight
    words inside the pool; an [Increment] that has to promote a group and
    finds, at the head of the free list, a slot that reaches beyond the
    pool is undefined: it clears [overflow[index + i]] for [i] up to 7. *)
Theorem short_last_slot (bits_per_item capacity : Z) :
  overflowLength (new bits_per_item capacity) mod 8 = 4 ->
  Z.of_nat (length (overflow (new bits_per_item capacity)))
  = overflowLength (new bits_per_item capacity)
  /\ (forall i, 0 <= i < overflowLength (new bits_per_item capacity) -> i mod 8 = 0 ->
        ld (overflow (new bits_per_item capacity)) i = Some (i + 8))
  /\ (overflowLength (new bits_per_item capacity) - 4) mod 8 = 0
  /\ forall (s : filter) (g bit m c : Z),
       length (overflow s) = length (overflow (new bits_per_item capacity)) ->
       overflowLength s = overflowLength (new bits_per_item capacity) ->
       nextFreeOverflow s = overflowLength s - 4 ->
       ld (data s) g = Some m -> ld (counts s) g = Some c ->
       Z.land c top2 <> 0 -> Z.land c top1 = 0 ->
       Increment g bit s = None.
Proof.
  intros Hm.
  set (s0 := new bits_per_item capacity) in *.
  set (olen := overflowLength s0) in *.
  assert (Ho : 0 <= olen) by (apply u64_range).
  destruct (binit_free_spec (Z.to_nat olen) 0 olen (replicate (Z.to_nat olen) 0))
    as (L & H1 & _); [lia | rewrite length_replicate; lia | lia |].
  rewrite length_replicate in L.
  assert (Elen : Z.of_nat (length (overflow s0)) = olen).
  { change (overflow s0) with (init_free (Z.to_nat olen) 0 olen (replicate (Z.to_nat olen) 0)).
    rewrite L. lia. }
  split; [exact Elen|]. split.
  { intros i Hi Him.
    change (overflow s0) with (init_free (Z.to_nat olen) 0 olen (replicate (Z.to_nat olen) 0)).
    apply H1; [lia|]. rewrite Z.sub_0_r. exact Him. }
  split.
  { replace (olen - 4) with (olen + (-1) * 8 + 4) by ring.
    rewrite <- Zplus_mod_idemp_l, Z.mod_add, Hm by lia. reflexivity. }
  intros s g bit m c Hl Eo En Hd Hc H2 Ht.
  assert (Hpos : 4 <= olen).
  { pose proof (Z.div_mod olen 8 ltac:(lia)) as E. rewrite Hm in E.
    assert (0 <= olen / 8) by (apply Z.div_pos; lia). lia. }
  unfold Increment.
  mstep (data_get_eq _ _ _ Hd). mstep (counts_get_eq _ _ _ Hc).
  destruct (Z.eqb_spec (Z.land c top2) 0) as [|_]; [contradiction|]. cbn [negb].
  cbv zeta. rewrite Ht. change (0 =? 0) with true. cbv iota.
  unfold get_next at 1. unfold bind at 1.
  unfold get_overflowLength at 1. unfold bind at 1.
  rewrite En, Eo. fold olen.
  destruct (Z.leb_spec olen (olen - 4)) as [|_]; [lia|].
  assert (Hlen : Z.of_nat (length (overflow s)) = olen) by (rewrite Hl; exact Elen).
  destruct (ld_ok (overflow s) (olen - 4) ltac:(lia)) as [nxt Hn].
  mstep (overflow_get_eq _ _ _ Hn).
  unfold set_next at 1. unfold bind at 1.
  unfold bind at 1.
  rewrite (for_up_set_overrun (olen - 4) 8 0); [reflexivity | |];
    cbn [overflow with_next]; lia.
Qed.

Lemma short_last_slot_witness :
  ld (overflow (new 8 128)) 96 = Some 104
  /\ nextFreeOverflow thirteenth_full = 96
  /\ Z.of_nat (length (overflow thirteenth_full)) = 100
  /\ Increment 12 63 thirteenth_full = None.
Proof.
  destruct (short_last_slot 8 128 ltac:(vm_compute; reflexivity)) as (_ & Hfree & _ & Hfail).
  split; [apply (Hfree 96); [vm_compute; split; [discriminate | reflexivity] | reflexivity]|].
  split; [vm_compute; reflexivity|]. split; [vm_compute; reflexivity|].
  apply (Hfail thirteenth_full 12 63 (2 ^ 63 - 1) (2 ^ 63 - 1)).
  - vm_compute. reflexivity.
  - vm_compute. reflexivity.
  - vm_compute. reflexivity.
  - vm_compute. reflexivity.
  - vm_compute. reflexivity.
  - vm_compute. discriminate.
  - vm_compute. reflexivity.
Defined.

End BlockedOpsFacts.

Lemma Contain_zero hasher k key s : 0 < k -> 0 < arrayLength s ->
  data s = replicate (Z.to_nat (arrayLength s)) 0 ->
  Contain hasher k key s = Some (NotFound, s).
Proof.
  intros Hk HA Hd. unfold Contain.
  destruct (Z.to_nat k) as [|i] eqn:Ek; [lia|]. cbn [Contain_loop].
  set (a := u32 (Z.shiftr (u64 (hasher key)) 32)).
  pose proof (reduce_lt a _ (u32_range _) HA) as Hr.
  unfold get_arrayLength at 1. unfold bind at 1.
  assert (Hv : ld (data s) (reduce a (u32 (arrayLength s))) = Some 0).
  { rewrite Hd. apply ld_replicate. lia. }
  rewrite (bind_Some _ _ _ _ _ (sdata_get_eq _ _ _ Hv)).
  rewrite PlainOpsFacts.shr64_zero. reflexivity.
Qed.

(** X20.  Removed keys are gone.  On a freshly constructed filter, [Add]
    the keys of a list and [Remove] the same keys, as often, in any order.
    If no position is probed more than 15 times and nothing is printed,
    [Contain] then answers [NotFound] for every key whatever ([k > 0]): no
    bit of a removed key is left behind. *)
Theorem removed_keys_are_gone (bits_per_item : Z) (hasher : Z -> Z) (k n : Z)
    (adds rems : list Z) :
  0 < k ->
  overflowLength (new bits_per_item n) <= 2 ^ 28 ->
  0 < arrayLength (new bits_per_item n) ->
  Permutation adds rems ->
  counts_fit (all_probes hasher k (arrayLength (new bits_per_item n)) adds) = true ->
  quiet (round_trip_ops hasher k (arrayLength (new bits_per_item n)) adds rems)
        (new bits_per_item n) = true ->
  exists s,
    (AddEach hasher k adds ;;; RemoveEach hasher k rems) (new bits_per_item n) = Some (tt, s)
    /\ forall key, Contain hasher k key s = Some (NotFound, s).
Proof.
  intros Hk Hsmall Hl HP Hfit Hq.
  pose proof (round_trip_legal hasher k _ adds rems Hl HP (counts_fit_spec _ Hfit)) as Hleg.
  destruct (run_Inv _ [] _ (new_Inv bits_per_item n Hsmall) Hleg Hq _ [] (eq_sym (app_nil_r _)))
    as (s & Er & HI & Ea & _).
  exists s. split; [rewrite round_trip_run; exact Er|].
  destruct (Inv_zero s _ HI) as (Hd & _).
  { intros g i. cbn [app]. apply round_trip_net. exact HP. }
  intros key. apply Contain_zero; [exact Hk | rewrite Ea; exact Hl | exact Hd].
Qed.

Lemma removed_keys_are_gone_witness :
  exists s,
    (AddEach (fun x => x) 3 [1; 4294967297] ;;; RemoveEach (fun x => x) 3 [4294967297; 1])
      (new 8 8) = Some (tt, s)
    /\ forall key, Contain (fun x => x) 3 key s = Some (NotFound, s).
Proof.
  apply (removed_keys_are_gone 8 (fun x => x) 3 8 [1; 4294967297] [4294967297; 1]).
  - lia.
  - vm_compute. discriminate.
  - vm_compute. reflexivity.
  - apply perm_swap.
  - vm_compute. reflexivity.
  - vm_compute. reflexivity.
Defined.

Module BlockedRunsFacts.

Import SuccinctCountingBlockedBloomFilter.

Import BlockedFacts.

Import BlockedRuns.















End BlockedRunsFacts.

Module PlainCountsFacts.

Import CountingBloomFilter.

Import Plain.

Import PlainOps.

Import PlainOpsFacts.

Import PlainCounts.

Lemma hits_at_nonneg n l w j : 0 <= hits_at n l w j.
Proof. induction l as [|a l IH]; cbn [hits_at]; [lia|]. destruct (_ && _); lia. Qed.

Lemma hits_at_In n l w j : 0 < hits_at n l w j ->
  exists a, In a l /\ word_of n a = w /\ Z.land a 0xf = j.
Proof.
  induction l as [|a l IH]; cbn [hits_at]; [lia|].
  destruct ((word_of n a =? w) && (Z.land a 0xf =? j)) eqn:E.
  - apply andb_true_iff in E as [E1 E2]. apply Z.eqb_eq in E1, E2.
    intros _. exists a. split; [left; reflexivity | split; assumption].
  - intros H. destruct (IH ltac:(lia)) as (a' & Hin & Hw). exists a'. split; [right|]; assumption.
Qed.

Lemma fits_spec n l : fits n l = true -> forall w j, hits_at n l w j <= 15.
Proof.
  intros H w j. destruct (Z_lt_le_dec 0 (hits_at n l w j)) as [Hp|]; [|lia].
  destruct (hits_at_In _ _ _ _ Hp) as (a & Hin & <- & <-).
  unfold fits in H. rewrite forallb_forall in H. apply Z.leb_le. exact (H a Hin).
Qed.

(** One probe adds one to its counter and leaves the others. *)
Lemma upd_add_exact n d a (w : nat) j : 0 <= j < 16 ->
  inb n (length d) a = true ->
  nibble (nth (Z.to_nat (word_of n a)) d 0) (Z.land a 0xf) < 15 ->
  nibble (nth w (upd add64 n d a) 0) j
  = nibble (nth w d 0) j
    + (if (word_of n a =? Z.of_nat w) && (Z.land a 0xf =? j) then 1 else 0).
Proof.
  intros Hj Hb Hlt. unfold inb in Hb. apply Z.ltb_lt in Hb.
  pose proof (word_of_nonneg n a) as H0. unfold upd.
  destruct (Z.eqb_spec (word_of n a) (Z.of_nat w)) as [E|Hne].
  - assert (Ew : Z.to_nat (word_of n a) = w) by lia. rewrite Ew in *.
    rewrite PlainFacts.nth_insert_eq by lia.
    rewrite nibble_add64 by assumption. cbn [andb].
    rewrite (Z.eqb_sym j). reflexivity.
  - rewrite PlainFacts.nth_insert_ne by lia. cbn [andb]. lia.
Qed.

Lemma fold_add_exact n l : forall d,
  forallb (inb n (length d)) l = true ->
  (forall (w : nat) j, 0 <= j < 16 ->
     nibble (nth w d 0) j + hits_at n l (Z.of_nat w) j <= 15) ->
  forall (w : nat) j, 0 <= j < 16 ->
    nibble (nth w (fold_left (upd add64 n) l d) 0) j
    = nibble (nth w d 0) j + hits_at n l (Z.of_nat w) j.
Proof.
  induction l as [|a l IH]; intros d Hb Hfit w j Hj; cbn [fold_left hits_at]; [lia|].
  cbn [forallb] in Hb. apply andb_true_iff in Hb as [Hba Hb].
  pose proof (word_of_nonneg n a) as H0.
  assert (Hlt : nibble (nth (Z.to_nat (word_of n a)) d 0) (Z.land a 0xf) < 15).
  { specialize (Hfit (Z.to_nat (word_of n a)) (Z.land a 0xf) (land_15_range a)).
    cbn [hits_at] in Hfit. rewrite Z2Nat.id in Hfit by exact H0.
    rewrite !Z.eqb_refl in Hfit. cbn [andb] in Hfit.
    pose proof (hits_at_nonneg n l (word_of n a) (Z.land a 0xf)). lia. }
  rewrite IH.
  - rewrite (upd_add_exact n d a w j Hj Hba Hlt). lia.
  - rewrite length_upd. exact Hb.
  - intros w' j' Hj'. rewrite (upd_add_exact n d a w' j' Hj' Hba Hlt).
    specialize (Hfit w' j' Hj'). cbn [hits_at] in Hfit. lia.
  - exact Hj.
Qed.

(** X22.  The counters of the plain filter count the probes.  On a freshly
    constructed filter with at least one word, [Add] the keys of a list.  If
    no counter is hit more than 15 times by the probes of these keys, the
    [Add]s return and every 4-bit counter of the filter holds the number of
    probes that hit it. *)
Theorem counters_count_the_probes (bits_per_item : Z) (hasher : Z -> Z) (k n : Z)
    (keys : list Z) :
  0 < arrayLength (new bits_per_item n) ->
  fits (arrayLength (new bits_per_item n)) (flat_map (key_avals hasher k) keys) = true ->
  exists s,
    AddEach hasher k keys (new bits_per_item n) = Some (tt, s)
    /\ forall w j, 0 <= w < arrayLength (new bits_per_item n) -> 0 <= j < 16 ->
         exists v, ld (data s) w = Some v
           /\ nibble v j
              = hits_at (arrayLength (new bits_per_item n))
                  (flat_map (key_avals hasher k) keys) w j.
Proof.
  intros HA Hfit.
  set (s0 := new bits_per_item n) in *. set (A := arrayLength s0) in *.
  set (l := flat_map (key_avals hasher k) keys) in *.
  assert (Hlen : Z.of_nat (length (data s0)) = A).
  { unfold s0, new. cbn [data arrayLength]. rewrite length_replicate.
    unfold A, s0, new in HA. cbn [arrayLength] in HA. unfold A, s0, new. cbn [arrayLength]. lia. }
  assert (Hb : forallb (inb A (length (data s0))) l = true).
  { apply forallb_forall. intros a Ha. unfold inb. apply Z.ltb_lt. rewrite Hlen.
    pose proof (key_avals_range hasher k keys) as Hr. rewrite List.Forall_forall in Hr.
    exact (proj2 (reduce_lt a A (Hr a Ha) HA)). }
  rewrite AddEach_visit, visit_all_fold. fold A l. rewrite Hb.
  eexists. split; [reflexivity|].
  intros w j Hw Hj. unfold with_data. cbn [data].
  assert (Hz : forall w' : nat, nth w' (data s0) 0 = 0).
  { intros w'. unfold s0, new. cbn [data].
    destruct (Nat.lt_ge_cases w' (Z.to_nat (u64 (u64 (4 * n * bits_per_item) + 63) / 64))).
    - apply nth_lookup_Some with (d := 0). apply lookup_replicate_2. assumption.
    - apply nth_overflow. rewrite length_replicate. lia. }
  assert (Hn0 : forall j', nibble 0 j' = 0).
  { intros j'. unfold nibble. rewrite Z.shiftr_0_l. reflexivity. }
  pose proof (fold_add_exact A l (data s0) Hb) as Hex.
  assert (Hpre : forall (w' : nat) j', 0 <= j' < 16 ->
            nibble (nth w' (data s0) 0) j' + hits_at A l (Z.of_nat w') j' <= 15).
  { intros w' j' _. rewrite Hz, Hn0. pose proof (fits_spec A l Hfit (Z.of_nat w') j'). lia. }
  specialize (Hex Hpre (Z.to_nat w) j Hj).
  rewrite Hz, Hn0, Z2Nat.id in Hex by lia.
  destruct (lookup_lt_is_Some_2 (fold_left (upd add64 A) l (data s0)) (Z.to_nat w)) as [v Hv].
  { rewrite length_fold_upd. lia. }
  rewrite (nth_lookup_Some _ _ 0 _ Hv) in Hex.
  exists v. split.
  - unfold ld. destruct (Z.leb_spec 0 w); [exact Hv | lia].
  - rewrite Hex. lia.
Qed.

Lemma counters_count_the_probes_witness :
  exists s,
    AddEach (fun x => x) 2 [5; 5; 2 ^ 32 + 7] (new 8 10) = Some (tt, s)
    /\ exists v, ld (data s) 0 = Some v /\ nibble v 0 = 2.
Proof.
  destruct (counters_count_the_probes 8 (fun x => x) 2 10 [5; 5; 2 ^ 32 + 7])
    as (s & E & H).
  - vm_compute. reflexivity.
  - vm_compute. reflexivity.
  - exists s. split; [exact E|].
    destruct (H 0 0) as (v & Hv & Hn).
    + vm_compute. split; [discriminate | reflexivity].
    + lia.
    + exists v. split; [exact Hv|]. rewrite Hn. vm_compute. reflexivity.
Defined.

End PlainCountsFacts.

Module BlockedKeysFacts.

Import SuccinctCountingBlockedBloomFilter.

Import BlockedFacts.

Import BlockedOps.

Import BlockedOpsFacts.

Import BlockedRuns.

Import BlockedRunsFacts.

Import BlockedKeys.

















End BlockedKeysFacts.

Lemma reduce_zero a : reduce a 0 = 0.
Proof. unfold reduce. rewrite Z.mul_0_r. reflexivity. Qed.

(** X24.  A filter constructed for no item has no word, and cannot be
    used: with [n = 0] (or, for the blocked filter, a capacity of 0) the
    arrays are empty, and with at least one probe ([k > 0]; [k >= 3] for the
    blocked filter) [Add], [Remove] and [Contain] index [data[0]], outside
    the array: their behaviour is undefined. *)
Theorem empty_filter_is_unusable (bits_per_item : Z) (hasher : Z -> Z) (k key : Z) :
  (0 < k ->
     CountingBloomFilter.data (CountingBloomFilter.new bits_per_item 0) = []
     /\ CountingBloomFilter.Add hasher k key (CountingBloomFilter.new bits_per_item 0) = None
     /\ CountingBloomFilter.Remove hasher k key (CountingBloomFilter.new bits_per_item 0) = None
     /\ CountingBloomFilter.Contain hasher k key (CountingBloomFilter.new bits_per_item 0) = None)
  /\ (0 < k ->
     data (new bits_per_item 0) = []
     /\ Add hasher k key (new bits_per_item 0) = None
     /\ Remove hasher k key (new bits_per_item 0) = None
     /\ Contain hasher k key (new bits_per_item 0) = None)
  /\ (3 <= k ->
     SuccinctCountingBlockedBloomFilter.data
       (SuccinctCountingBlockedBloomFilter.new bits_per_item 0) = []
     /\ SuccinctCountingBlockedBloomFilter.Add hasher k key
          (SuccinctCountingBlockedBloomFilter.new bits_per_item 0) = None
     /\ SuccinctCountingBlockedBloomFilter.Remove hasher k key
          (SuccinctCountingBlockedBloomFilter.new bits_per_item 0) = None
     /\ SuccinctCountingBlockedBloomFilter.Contain hasher k key
          (SuccinctCountingBlockedBloomFilter.new bits_per_item 0) = None).
Proof.
  split; [|split]; intros Hk.
  - destruct (Z.to_nat k) as [|i] eqn:Ek; [lia|].
    unfold CountingBloomFilter.Add, CountingBloomFilter.Remove, CountingBloomFilter.Contain.
    rewrite Ek. unfold CountingBloomFilter.new. rewrite !Z.mul_0_l.
    change (u64 (u64 0 + 63) / 64) with 0. change (replicate (Z.to_nat 0) 0) with (@nil Z).
    cbn [CountingBloomFilter.Add_loop CountingBloomFilter.Remove_loop
         CountingBloomFilter.Contain_loop].
    unfold CountingBloomFilter.Add_probe, bind, CountingBloomFilter.get_arrayLength,
      CountingBloomFilter.data_get.
    cbn [CountingBloomFilter.arrayLength CountingBloomFilter.data].
    change (u32 0) with 0. rewrite reduce_zero.
    repeat split; reflexivity.
  - destruct (Z.to_nat k) as [|i] eqn:Ek; [lia|].
    unfold Add, Remove, Contain. rewrite Ek. unfold new. rewrite !Z.mul_0_l.
    change (u64 (u64 0 + 63) / 64) with 0. change (replicate (Z.to_nat 0) 0) with (@nil Z).
    cbn [Add_loop Remove_loop Contain_loop].
    unfold bind, get_arrayLength. cbn [arrayLength].
    change (u32 0) with 0. rewrite reduce_zero.
    unfold Increment, Decrement, bind, data_get. cbn [data].
    repeat split; reflexivity.
  - unfold SuccinctCountingBlockedBloomFilter.Add, SuccinctCountingBlockedBloomFilter.Remove,
      SuccinctCountingBlockedBloomFilter.Contain, SuccinctCountingBlockedBloomFilter.new.
    rewrite !Z.mul_0_l.
    change (s32 (u64 0 / 512)) with 0. change (u64 (0 * 8)) with 0.
    unfold bind, SuccinctCountingBlockedBloomFilter.get_bucketCount.
    cbn [SuccinctCountingBlockedBloomFilter.bucketCount].
    destruct (Z.leb_spec 3 k) as [_|]; [|lia].
    unfold SuccinctCountingBlockedBloomFilter.bucket_start_of.
    change (u32 0) with 0. rewrite reduce_zero. change (u32 (0 * 8)) with 0.
    set (x := Z.land (Z.shiftr (u32 (u64 (hasher key))) 0) 7).
    assert (Hx : 0 <= x < 8) by apply BlockedOpsFacts.land_7_range.
    assert (E : ld (@nil Z) (u32 (0 + x)) = None).
    { unfold ld. destruct (0 <=? _); [apply lookup_nil | reflexivity]. }
    unfold SuccinctCountingBlockedBloomFilter.Increment,
      SuccinctCountingBlockedBloomFilter.Decrement,
      SuccinctCountingBlockedBloomFilter.probe, bind,
      SuccinctCountingBlockedBloomFilter.data_get.
    cbn [SuccinctCountingBlockedBloomFilter.data].
    change (replicate (Z.to_nat 0) 0) with (@nil Z). rewrite E.
    repeat split; reflexivity.
Qed.

Lemma empty_filter_is_unusable_witness :
  CountingBloomFilter.Add (fun x => x) 3 42 (CountingBloomFilter.new 8 0) = None
  /\ Add (fun x => x) 3 42 (new 8 0) = None
  /\ SuccinctCountingBlockedBloomFilter.Contain (fun x => x) 3 42
       (SuccinctCountingBlockedBloomFilter.new 8 0) = None.
Proof.
  destruct (empty_filter_is_unusable 8 (fun x => x) 3 42) as (H1 & H2 & H3).
  split; [exact (proj1 (proj2 (H1 ltac:(lia))))|].
  split; [exact (proj1 (proj2 (H2 ltac:(lia))))|].
  exact (proj2 (proj2 (proj2 (H3 ltac:(lia))))).
Defined.

Lemma run_incs_present ps : forall s s',
  run (map inc_of ps) s = Some (tt, s') ->
  grows s s'
  /\ Forall (fun p => 0 <= snd p < 64 -> present (fst p) (snd p) s') ps.
Proof.
  induction ps as [|p ps IH]; intros s s' E; cbn [map run] in E.
  - injection E as <-. split; [apply grows_refl | constructor].
  - apply bind_inv in E as ([] & s1 & E1 & E). cbn [step inc_of] in E1.
    destruct (wp_elim _ _ _ _ _ (Increment_grows _ _ s) E1) as [G1 P1].
    destruct (IH _ _ E) as [G2 F2].
    split; [eapply grows_trans; eassumption|].
    constructor; [|exact F2].
    intros Hb. apply (grows_present _ _ s1 s'); [lia | exact G2 | exact (P1 Hb)].
Qed.

(** X25.  No false negative after [AddAll]: on a filter of at most 2^26
    groups, in whatever state, when [AddAll keys 0 n] (with [n] the number
    of keys) returns, it returns [Ok] and [Contain] answers [Ok] for every
    key of the vector, although the increments are made block by block and
    not in the order of the keys. *)
Theorem AddAll_then_Contain_each (hasher : Z -> Z) (k : Z) (keys : list Z)
    (s s' : filter) (r : Status) :
  0 <= arrayLength s <= 2 ^ 26 ->
  AddAll hasher k keys 0 (Z.of_nat (length keys)) s = Some (r, s') ->
  r = Ok /\ kept hasher k keys s'.
Proof.
  intros HA E. rewrite s_AddAll_run in E by lia.
  apply bind_inv in E as ([] & s1 & E1 & Er). injection Er as <- <-.
  split; [reflexivity|].
  unfold bulk_ops in E1.
  destruct (run_incs_present _ _ _ E1) as [G F].
  intros key Hin. unfold Contain. apply Contain_loop_present.
  destruct G as (-> & _).
  pose proof (bulk_ops_perm hasher k (arrayLength s) keys HA) as HP.
  rewrite List.Forall_forall in F |- *. intros p Hp.
  assert (Hp' : In p (all_probes hasher k (arrayLength s) keys)).
  { unfold all_probes. apply in_flat_map. exists key. split; [exact Hin | exact Hp]. }
  apply (Permutation_in _ (Permutation_sym HP)) in Hp'.
  apply F; [exact Hp'|].
  apply in_map_iff in Hp' as (v & <- & _). unfold word_pos. cbn [snd]. apply land_63_range.
Qed.

Lemma AddAll_then_Contain_each_witness :
  exists s', AddAll (fun x => x) 3 [7; 2 ^ 40 + 9] 0 2 (new 8 100) = Some (Ok, s')
             /\ Contain (fun x => x) 3 (2 ^ 40 + 9) s' = Some (Ok, s').
Proof.
  destruct (AddAll (fun x => x) 3 [7; 2 ^ 40 + 9] 0 2 (new 8 100)) as [[r s']|] eqn:E;
    [|vm_compute in E; discriminate].
  destruct (AddAll_then_Contain_each (fun x => x) 3 [7; 2 ^ 40 + 9] (new 8 100) s' r)
    as [-> Hk].
  - vm_compute. split; discriminate.
  - exact E.
  - exists s'. split; [reflexivity|]. apply Hk. right. left. reflexivity.
Defined.

Module PlainListsFacts.

Import CountingBloomFilter.

Import Plain.

Import PlainOps.

Import PlainOpsFacts.

Import PlainLists.

Lemma RemoveEach_visit hasher k keys : forall s,
  RemoveEach hasher k keys s
  = visit_all (probe_op sub64) (flat_map (key_avals hasher k) keys) s.
Proof.
  induction keys as [|key keys IH]; intros s; cbn [RemoveEach flat_map]; [reflexivity|].
  rewrite visit_all_app. unfold Remove. rewrite bind_assoc.
  apply bind_congr; [apply Remove_loop_visit|]. intros _ s1. unfold bind, ret. apply IH.
Qed.

Lemma fold_left_app_upd op n l1 l2 d :
  fold_left (upd op n) (l1 ++ l2) d = fold_left (upd op n) l2 (fold_left (upd op n) l1 d).
Proof. apply fold_left_app. Qed.

Lemma fold_add_swap_front n l : forall d a,
  upd add64 n (fold_left (upd add64 n) l d) a = fold_left (upd add64 n) l (upd add64 n d a).
Proof.
  intros d a. symmetry. apply (fold_upd_comm add64 add64). intros. apply PlainFacts.add64_swap.
Qed.

(** Removing the probes [l] from an array to which [l] and [l'] were added
    leaves what adding [l'] alone gives. *)
Lemma fold_cancel_front n l : forall l' d, Forall (fun w => 0 <= w < 2 ^ 64) d ->
  fold_left (upd sub64 n) l (fold_left (upd add64 n) (l ++ l') d)
  = fold_left (upd add64 n) l' d.
Proof.
  induction l as [|a l IH]; intros l' d Hd; cbn [app fold_left]; [reflexivity|].
  rewrite <- fold_add_swap_front.
  rewrite upd_cancel by (apply fold_add_words; exact Hd).
  apply IH. exact Hd.
Qed.

Lemma all_inb hasher k keys s :
  Z.of_nat (length (data s)) = arrayLength s -> 0 < arrayLength s ->
  forallb (inb (arrayLength s) (length (data s))) (flat_map (key_avals hasher k) keys) = true.
Proof.
  intros Hwf HA. apply forallb_forall. intros a Ha. unfold inb. apply Z.ltb_lt. rewrite Hwf.
  pose proof (key_avals_range hasher k keys) as Hr. rewrite List.Forall_forall in Hr.
  exact (proj2 (reduce_lt a _ (Hr a Ha) HA)).
Qed.

(** X26.  [Remove] cancels [Add], key by key.  In a state of the plain
    filter whose array has [arrayLength > 0] words, all of them 64-bit
    words: after [Add] of the keys of [adds] and [Remove] of the keys of
    [rems], which are among those added ([adds] holds the keys of [rems] and
    of [rest], as often), the filter is in the state that [Add] of the keys
    of [rest] alone gives, whatever counters wrapped around on the way. *)
Theorem Removes_cancel_Adds (hasher : Z -> Z) (k : Z) (adds rems rest : list Z)
    (s : filter) :
  Z.of_nat (length (data s)) = arrayLength s -> 0 < arrayLength s ->
  Forall (fun w => 0 <= w < 2 ^ 64) (data s) ->
  Permutation adds (rems ++ rest) ->
  (AddEach hasher k adds ;;; RemoveEach hasher k rems) s = AddEach hasher k rest s
  /\ exists s', AddEach hasher k rest s = Some (tt, s').
Proof.
  intros Hwf HA Hd HP.
  assert (E : (AddEach hasher k adds ;;; RemoveEach hasher k rems) s
              = AddEach hasher k rest s).
  { assert (HP' : Permutation (flat_map (key_avals hasher k) adds)
                              (flat_map (key_avals hasher k) (rems ++ rest))).
    { apply Permutation_flat_map. exact HP. }
    unfold bind. rewrite !AddEach_visit, !visit_all_fold.
    rewrite !all_inb by assumption.
    rewrite RemoveEach_visit, visit_all_fold. unfold with_data. cbn [data arrayLength].
    rewrite length_fold_upd. rewrite all_inb by assumption.
    rewrite (fold_upd_perm add64 _ _ _ (fun x p q => PlainFacts.add64_swap x p q) HP').
    rewrite flat_map_app, fold_cancel_front by exact Hd. reflexivity. }
  split; [exact E|].
  rewrite AddEach_visit, visit_all_fold, all_inb by assumption. eexists. reflexivity.
Qed.

Lemma Removes_cancel_Adds_witness :
  (AddEach (fun x => x) 2 [5; 9; 5] ;;; RemoveEach (fun x => x) 2 [9]) (new 8 10)
  = AddEach (fun x => x) 2 [5; 5] (new 8 10).
Proof.
  apply (Removes_cancel_Adds (fun x => x) 2 [5; 9; 5] [9] [5; 5] (new 8 10)).
  - reflexivity.
  - vm_compute. reflexivity.
  - apply Forall_replicate. lia.
  - apply perm_swap.
Defined.

End PlainListsFacts.

Lemma nibble_wrap w j : 0 <= j -> nibble w j = 15 -> nibble (w + 2 ^ (4 * j)) j = 0.
Proof.
  intros Hj Hn. rewrite nibble_div in * by lia.
  replace (w + 2 ^ (4 * j)) with (w + 1 * 2 ^ (4 * j)) by lia.
  rewrite Z.div_add by lia.
  rewrite <- Zplus_mod_idemp_l, Hn. reflexivity.
Qed.

(** X27.  A lane of a promoted group holds 4 bits.  In a state of a legal
    run, an [Increment] on a position of a promoted group whose count is 15
    returns, but the lane wraps around: [ReadCount] of the position then
    returns 0, while its presence bit is set. *)
Theorem sixteenth_increment_wraps (s : filter) (f : Z -> Z -> Z) (g bit c : Z) :
  Inv s f -> 0 <= g < arrayLength s -> 0 <= bit < 64 ->
  ld (counts s) g = Some c -> promoted c = true ->
  f g bit = 15 ->
  exists s',
    Increment g bit s = Some (tt, s')
    /\ ReadCount g bit s' = Some (0, s')
    /\ present g bit s'.
Proof.
  intros HI Hg Hb Hc Hp Hx.
  pose proof HI as [Hs HG]. destruct (HG g Hg) as [Hok [Hm _]].
  pose proof (row_ok_total _ Hok) as Rt.
  destruct (Inv_forms s f g c HI Hg Hc)
    as [(Hp' & _) | (_ & idx & -> & Hge & Hidx & Hl)]; [congruence|].
  destruct (Hl bit Hb) as (v & Hv & Hr & Hn).
  rewrite row_nth, Hx in Hn by exact Hb.
  destruct (lane_shift4 bit Hb) as (_ & _ & E4 & Eq).
  assert (Hso : slot_of (header (total (row f g)) idx) = idx) by (apply header_slot; lia).
  assert (Hv' : ld (overflow s) (slot_of (header (total (row f g)) idx) + Z.quot bit 16)
                = Some v) by (rewrite Hso, Eq; exact Hv).
  pose proof (ld_Some _ _ _ Hm) as Bm. pose proof (ld_Some _ _ _ Hc) as Bc.
  pose proof (ld_Some _ _ _ Hv) as Bv.
  rewrite (Inc_promoted_eq s g bit _ _ v Hm Hc Hp Hv').
  eexists. split; [reflexivity|].
  assert (Hbit : Z.testbit (Z.lor (mk (row f g)) (shl64 1 bit)) bit = true)
    by (apply lor_bit_set; exact Hb).
  split.
  - rewrite (ReadCount_promoted_eq _ g bit (Z.lor (mk (row f g)) (shl64 1 bit))
               (add64 (header (total (row f g)) idx) (shl64 1 32))
               (add64 v (shl64 1 (bit * 4)))).
    + f_equal. f_equal. unfold shr64. rewrite E4.
      fold (nibble (add64 v (shl64 1 (bit * 4))) (bit mod 16)).
      rewrite (shl64_lane bit Hb). unfold add64, u64.
      pose proof (Z.mod_pos_bound bit 16 ltac:(lia)).
      rewrite nibble_mod by lia. apply nibble_wrap; [lia | exact Hn].
    + cbn [data with_data with_overflow with_counts]. apply ld_st_eq. exact Bm.
    + apply testbit_shr64; [exact Hb | exact Hbit].
    + cbn [counts with_data with_overflow with_counts]. apply ld_st_eq. exact Bc.
    + rewrite header_inc by lia. apply header_promoted; lia.
    + rewrite header_inc by lia.
      rewrite (header_slot (total (row f g) + 1) idx) by lia.
      cbn [overflow with_data with_overflow with_counts].
      rewrite Hso. apply ld_st_eq. rewrite Eq. exact Bv.
  - exists (Z.lor (mk (row f g)) (shl64 1 bit)). split; [|exact Hbit].
    cbn [data with_data with_overflow with_counts]. apply ld_st_eq. exact Bm.
Qed.

Lemma sixteenth_increment_wraps_witness :
  exists s s',
    run lane_at_fifteen (new 8 8) = Some (tt, s)
    /\ Increment 0 0 s = Some (tt, s')
    /\ ReadCount 0 0 s' = Some (0, s').
Proof.
  assert (Hsmall : overflowLength (new 8 8) <= 2 ^ 28) by (vm_compute; discriminate).
  assert (Hleg : legal (arrayLength (new 8 8)) [] lane_at_fifteen = true)
    by (vm_compute; reflexivity).
  assert (Hq : quiet lane_at_fifteen (new 8 8) = true) by (vm_compute; reflexivity).
  destruct (run_Inv _ [] _ (new_Inv 8 8 Hsmall) Hleg Hq _ [] (eq_sym (app_nil_r _)))
    as (s & Er & HI & Ea & _).
  cbn [app] in HI.
  destruct (ld_ok (counts s) 0) as [c Hc].
  { pose proof Er as Er'. vm_compute in Er'. injection Er' as <-. vm_compute.
    split; [discriminate | reflexivity]. }
  destruct (sixteenth_increment_wraps s _ 0 0 c HI) as (s' & E & Hr & _).
  - rewrite Ea. vm_compute. split; [discriminate | reflexivity].
  - lia.
  - exact Hc.
  - pose proof Er as Er'. vm_compute in Er'. injection Er' as <-.
    vm_compute in Hc. injection Hc as <-. vm_compute. reflexivity.
  - vm_compute. reflexivity.
  - exists s, s'. split; [exact Er|]. split; [exact E | exact Hr].
Defined.



Module BlockedKeptFacts.

Import SuccinctCountingBlockedBloomFilter.

Import BlockedFacts.

Import BlockedOps.

Import BlockedOpsFacts.

Import BlockedRuns.

Import BlockedRunsFacts.

Import BlockedKeys.

Import BlockedKeysFacts.






End BlockedKeptFacts.
